(** * SIPP: safe-interval path planning (src/src/SIPP.cpp)

    A shallow embedding of the single-agent planner of MAPF-LNS and the
    properties its specification states about it, followed by further
    properties of the code: of the two searches, of getTravelTime, popNode
    and printSearchTree, and of the one function that src/inc/InitLNS.h
    defines, getSolverName.

    Conventions of the embedding.
    - A C++ [int] is a [Z].  Signed overflow is undefined in C++ and every
      quantity of the planner is a timestep, a cost or a counter: no
      wrap-around is modelled.
    - The [double] suboptimality factor [w] is a rational [Q], and the
      product [w * min_f_val] is computed exactly, where the code rounds it
      to a [double]: the two tests [f <= w * min_f_val] differ when the
      product is within a rounding error of an integer.  A property that
      depends on the outcome of such a test says that it means the exact
      product.
    - A [SIPPNode*] is an index into the node store [allNodes_table]: every
      node that survives its generation is inserted in that table, and the
      search mutates nodes in place through these indices, so a node and all
      the children that point to it share one record.
    - The two boost heaps are lists of node indices in insertion order.
      [top()] is a parameter of the searches, a function of the node store
      and of that list: a heap that is told of every change of a priority
      has on top a node that is best by the node contents of that moment; a
      heap that was not told of a change still ranks the node by the
      contents it knew, which is a different function (see [open_as_told]).
    - A computation that dereferences a dangling pointer, writes a vector
      out of range, calls [top()] on an empty heap or fails an [assert]
      yields [Fault]; loops of the search take fuel. *)

From Stdlib Require Import ZArith QArith Lia Bool List.
From Stdlib Require String Ascii.
From stdpp Require Import base list.

Open Scope Z_scope.

(** ** Results of computations that may go wrong *)

Inductive result (A : Type) : Type :=
| Ok (a : A)
| Fault
| OutOfFuel.
Arguments Ok {A} a.
Arguments Fault {A}.
Arguments OutOfFuel {A}.

Definition rbind {A B : Type} (m : result A) (k : A → result B) : result B :=
  match m with
  | Ok a => k a
  | Fault => Fault
  | OutOfFuel => OutOfFuel
  end.

Notation "'do' x <- m ; k" := (rbind m (fun x => k))
  (at level 10, x name, m at level 100, k at level 200, only parsing).

(** ** Data model *)

(** Modelled from the spec: the [Interval] of the absent headers, a tuple
    (low, high, collisions) for the times [low, high), read by [get<0>],
    [get<1>] and [get<2>]. *)
Definition Interval : Type := Z * Z * Z.
Definition get0 (i : Interval) : Z := fst (fst i).
Definition get1 (i : Interval) : Z := snd (fst i).
Definition get2 (i : Interval) : Z := snd i.

(** Modelled from the spec: the node class of the absent SIPP.h, with the
    fields of section 3 ([parent] is a pointer, here an index of the node
    store; the heap handles are the positions of that index in the heaps). *)
Record SIPPNode : Type := mkSIPPNode {
  location : Z;
  g_val : Z;
  h_val : Z;
  parent : option nat;
  timestep : Z;
  interval : Interval;
  num_of_conflicts : Z;
  in_openlist : bool;
  wait_at_goal : bool;
  is_goal : bool
}.

Definition getFVal (n : SIPPNode) : Z := g_val n + h_val n.

(** Modelled from the spec: the constructor
    [SIPPNode(loc, g, h, parent, timestep, interval, conflicts)] of the absent
    SIPP.h; the three flags start false. *)
Definition new_SIPPNode (loc g h : Z) (par : option nat) (t : Z)
    (iv : Interval) (conflicts : Z) : SIPPNode :=
  mkSIPPNode loc g h par t iv conflicts false false false.

Definition set_in_openlist (b : bool) (n : SIPPNode) : SIPPNode :=
  mkSIPPNode (location n) (g_val n) (h_val n) (parent n) (timestep n)
    (interval n) (num_of_conflicts n) b (wait_at_goal n) (is_goal n).

Definition set_wait_at_goal (b : bool) (n : SIPPNode) : SIPPNode :=
  mkSIPPNode (location n) (g_val n) (h_val n) (parent n) (timestep n)
    (interval n) (num_of_conflicts n) (in_openlist n) b (is_goal n).

(** Modelled from the spec: [SIPPNode::copy] of the absent SIPP.h.  The
    contents of [this] are replaced by those of [other]; the membership flag
    and the heap handles of [this] stay (generateChildToFocal tests
    [in_openlist] of the existing node after the copy). *)
Definition copy (this other : SIPPNode) : SIPPNode :=
  mkSIPPNode (location other) (g_val other) (h_val other) (parent other)
    (timestep other) (interval other) (num_of_conflicts other)
    (in_openlist this) (wait_at_goal other) (is_goal other).

(** Modelled from the spec: [SIPPNode::eqnode] of the absent SIPP.h,
    "equality and hashing are by (cell, interval_low, is_goal)". *)
Definition eqnode (n1 n2 : SIPPNode) : bool :=
  (location n1 =? location n2) &&
  (get0 (interval n1) =? get0 (interval n2)) &&
  Bool.eqb (is_goal n1) (is_goal n2).

(** [allNodes_table.find(n)]: the stored node equal to [n], if any. *)
Fixpoint find_from (i : nat) (key : SIPPNode) (tbl : list SIPPNode)
    : option (nat * SIPPNode) :=
  match tbl with
  | [] => None
  | n :: rest => if eqnode n key then Some (i, n) else find_from (S i) key rest
  end.

Definition find_node (key : SIPPNode) (tbl : list SIPPNode)
    : option (nat * SIPPNode) :=
  find_from 0 key tbl.

(** Modelled from the spec: the interface of the absent ConstraintTable.h
    (section 4.1), an object given by its observable methods. *)
Record ConstraintTable : Type := mkConstraintTable {
  length_min : Z;
  length_max : Z;
  getHoldingTime : Z → Z → Z;
  getFutureNumOfCollisions : Z → Z → Z
}.

(** Modelled from the spec: the interface of the absent ReservationTable.h
    (section 3).  [find_safe_interval] has an in-out interval: it returns the
    flag and the interval after the call. *)
Record ReservationTable : Type := mkReservationTable {
  constraint_table : ConstraintTable;
  get_first_safe_interval : Z → Interval;
  get_safe_intervals : Z → Z → Z → Z → list Interval;
  find_safe_interval : Interval → Z → Z → bool * Interval
}.

(** [vector<PathEntry>], of which the planner writes the location. *)
Abbreviation Path := (list Z).

(** The members of the planner object that the searches read and write. *)
Record SIPP : Type := mkSIPP {
  w : Q;
  min_f_val : Z;
  num_expanded : Z;
  num_generated : Z;
  open_list : list nat;
  focal_list : list nat;
  allNodes_table : list SIPPNode
}.

Definition set_w (x : Q) (s : SIPP) : SIPP :=
  mkSIPP x (min_f_val s) (num_expanded s) (num_generated s)
    (open_list s) (focal_list s) (allNodes_table s).
Definition set_min_f_val (x : Z) (s : SIPP) : SIPP :=
  mkSIPP (w s) x (num_expanded s) (num_generated s)
    (open_list s) (focal_list s) (allNodes_table s).
Definition set_num_expanded (x : Z) (s : SIPP) : SIPP :=
  mkSIPP (w s) (min_f_val s) x (num_generated s)
    (open_list s) (focal_list s) (allNodes_table s).
Definition set_num_generated (x : Z) (s : SIPP) : SIPP :=
  mkSIPP (w s) (min_f_val s) (num_expanded s) x
    (open_list s) (focal_list s) (allNodes_table s).
Definition set_open_list (x : list nat) (s : SIPP) : SIPP :=
  mkSIPP (w s) (min_f_val s) (num_expanded s) (num_generated s)
    x (focal_list s) (allNodes_table s).
Definition set_focal_list (x : list nat) (s : SIPP) : SIPP :=
  mkSIPP (w s) (min_f_val s) (num_expanded s) (num_generated s)
    (open_list s) x (allNodes_table s).
Definition set_allNodes_table (x : list SIPPNode) (s : SIPP) : SIPP :=
  mkSIPP (w s) (min_f_val s) (num_expanded s) (num_generated s)
    (open_list s) (focal_list s) x.

(** [heap.push(n)] and the removal of one handle from a heap. *)
Definition heap_push (i : nat) (heap : list nat) : list nat := heap ++ [i].

Fixpoint heap_erase (i : nat) (heap : list nat) : list nat :=
  match heap with
  | [] => []
  | j :: rest => if Nat.eqb i j then rest else j :: heap_erase i rest
  end.

Definition heap_mem (i : nat) (heap : list nat) : bool :=
  existsb (Nat.eqb i) heap.

(** [heap.update(handle)] and [heap.increase(handle)] after the node behind
    the handle has changed: the heap holds the same handles.  The call tells
    the heap of the new contents; what [top()] returns afterwards, or when
    the call is left out, is decided by the [top()] of the search. *)
Definition heap_update (i : nat) (heap : list nat) : list nat := heap.

(** [f <= w * bound], the test that admits a node to FOCAL, with the exact
    product (the code compares with the product rounded to a [double]). *)
Definition in_focal_bound (wf : Q) (f bound : Z) : bool :=
  Qle_bool (inject_Z f) (wf * inject_Z bound).

(** The test that decides whether a generated node replaces the stored node
    with the same key (SIPP.cpp lines 87-89, 280-282 and 342-344). *)
Definition dominates (next existing : SIPPNode) : bool :=
  (timestep next <? timestep existing) ||
  ((timestep existing =? timestep next) &&
   (num_of_conflicts next <? num_of_conflicts existing)).

(** [g <= w * bound] over the rationals, and the cost of a path. *)
Definition within (wf : Q) (g bound : Z) : Prop :=
  (inject_Z g <= wf * inject_Z bound)%Q.

Definition cost (p : Path) : Z := Z.of_nat (length p) - 1.

(** ** Path reconstruction: SIPP::updatePath *)

(** [path[t].location = l]. *)
Definition path_set (path : Path) (t l : Z) : result Path :=
  if (0 <=? t) && (t <? Z.of_nat (length path))
  then Ok (<[Z.to_nat t := l]> path)
  else Fault.

(** [while (t < curr->timestep) { path[t].location = l; t++; }], for the
    [n] values of [t] that the loop goes through. *)
Fixpoint fill_wait (n : nat) (t l : Z) (path : Path) : result Path :=
  match n with
  | O => Ok path
  | S n' => do p <- path_set path t l; fill_wait n' (t + 1) l p
  end.

(** The outer loop of updatePath.  A parent chain without a repeated node has
    at most as many nodes as the store; on a longer chain the C++ loop does
    not end. *)
Fixpoint walk_parents (fuel : nat) (nodes : list SIPPNode) (curr : nat)
    (path : Path) : result Path :=
  match fuel with
  | O => OutOfFuel
  | S fuel' =>
    match nodes !! curr with
    | None => Fault
    | Some c =>
      match parent c with
      | Some pi =>
        match nodes !! pi with
        | None => Fault
        | Some prev =>
          do p1 <- fill_wait (Z.to_nat (timestep c - (timestep prev + 1)))
                     (timestep prev + 1) (location prev) path;
          do p2 <- path_set p1 (timestep c) (location c);
          walk_parents fuel' nodes pi p2
        end
      | None =>
        if timestep c =? 0 then path_set path 0 (location c) else Fault
      end
    end
  end.

Section Planner.

(** The instance, the agent and the parts of the absent headers that the
    planner only calls. *)
Variable getNeighbors : Z → list Z.
Variable start_location goal_location : Z.
Variable my_heuristic : Z → Z.
Variable new_ReservationTable : ConstraintTable → Z → ReservationTable.
Variable HLNode Paths : Type.
Variable insert2CT : ConstraintTable → HLNode → Z → ConstraintTable.
Variable insert2CAT : ConstraintTable → Z → Paths → ConstraintTable.
(** [top()] of FOCAL and of OPEN: the comparators are in the absent SIPP.h. *)
Variable focal_top open_top : list SIPPNode → list nat → option nat.
(** The location of a default-constructed [PathEntry]. *)
Variable PathEntry_default : Z.

(** [path.resize(n)]. *)
Definition resize (path : Path) (n : nat) : Path :=
  take n path ++ replicate (n - length path) PathEntry_default.

(** [void SIPP::updatePath(const LLNode* goal, vector<PathEntry>& path)].
    The fuel of the walk exceeds the number of stored nodes: it runs out on
    a cyclic parent chain only. *)
Definition updatePath (nodes : list SIPPNode) (goal : option nat)
    (path : Path) : result Path :=
  match goal with
  | None => Fault
  | Some gi =>
    match nodes !! gi with
    | None => Fault
    | Some g =>
      if timestep g + 1 <? 0 then Fault
      else walk_parents (S (length nodes + Z.to_nat (timestep g))) nodes gi
             (resize path (Z.to_nat (timestep g + 1)))
    end
  end.

(** ** Mode A: SIPP::findPath and SIPP::generateChildToFocal *)

(** The node that generateChildToFocal builds before it looks it up. *)
Definition childToFocal (iv : Interval) (curr : nat) (c : SIPPNode)
    (next_location next_h_val : Z) : SIPPNode :=
  let next_timestep := Z.max (timestep c + 1) (get0 iv) in
  let next_h_val := Z.max next_h_val (getFVal c - next_timestep) in
  let next := new_SIPPNode next_location next_timestep next_h_val (Some curr)
                next_timestep iv (num_of_conflicts c + get2 iv) in
  if (next_location =? goal_location) && (location c =? goal_location)
  then set_wait_at_goal true next else next.

(** A node absent from the table is pushed to FOCAL and inserted. *)
Definition insert_to_focal (next : SIPPNode) (s : SIPP) : SIPP :=
  let i := length (allNodes_table s) in
  set_allNodes_table (allNodes_table s ++ [set_in_openlist true next])
    (set_num_generated (num_generated s + 1)
      (set_focal_list (heap_push i (focal_list s)) s)).

Definition generateChildToFocal (iv : Interval) (curr : nat)
    (next_location next_h_val : Z) (s : SIPP) : result SIPP :=
  match allNodes_table s !! curr with
  | None => Fault
  | Some c =>
    let next := childToFocal iv curr c next_location next_h_val in
    match find_node next (allNodes_table s) with
    | None => Ok (insert_to_focal next s)
    | Some (e, existing_next) =>
      if dominates next existing_next then
        let updated := copy existing_next next in
        if negb (in_openlist updated) then
          Ok (set_allNodes_table
                (<[e := set_in_openlist true updated]> (allNodes_table s))
                (set_focal_list (heap_push e (focal_list s)) s))
        else
          Ok (set_allNodes_table (<[e := updated]> (allNodes_table s))
                (set_focal_list (heap_update e (focal_list s)) s))
      else Ok s
    end
  end.

(** The virtual goal node of findPath (lines 71-74). *)
Definition goalNode (curr : nat) (c : SIPPNode) (future_collisions : Z)
    : SIPPNode :=
  mkSIPPNode (location c) (g_val c) (h_val c) (Some curr) (timestep c)
    (interval c) (num_of_conflicts c + future_collisions)
    (in_openlist c) (wait_at_goal c) true.

(** Lines 75-96: the goal node is inserted, or the stored goal node with the
    same key is updated. *)
Definition generateGoalNode (curr : nat) (c : SIPPNode)
    (future_collisions : Z) (s : SIPP) : result SIPP :=
  let goal := goalNode curr c future_collisions in
  match find_node goal (allNodes_table s) with
  | None => Ok (insert_to_focal goal s)
  | Some (e, existing_next) =>
    if dominates goal existing_next then
      if in_openlist existing_next then
        Ok (set_allNodes_table
              (<[e := copy existing_next goal]> (allNodes_table s))
              (set_focal_list (heap_update e (focal_list s)) s))
      else Fault
    else Ok s
  end.

(** The inner loop of lines 101-108 over the intervals of one neighbour. *)
Fixpoint moveIntervalsToFocal (ct : ConstraintTable) (curr : nat)
    (next_location next_h_val : Z) (ivs : list Interval) (s : SIPP)
    : result SIPP :=
  match ivs with
  | [] => Ok s
  | iv :: rest =>
    match allNodes_table s !! curr with
    | None => Fault
    | Some c =>
      let next_timestep := Z.max (timestep c + 1) (get0 iv) in
      if length_max ct <? next_timestep + next_h_val then Ok s
      else
        do s' <- generateChildToFocal iv curr next_location next_h_val s;
        moveIntervalsToFocal ct curr next_location next_h_val rest s'
    end
  end.

(** The loop of lines 98-109 over the neighbours. *)
Fixpoint moveToFocal (ct : ConstraintTable) (rt : ReservationTable)
    (curr : nat) (nbrs : list Z) (s : SIPP) : result SIPP :=
  match nbrs with
  | [] => Ok s
  | next_location :: rest =>
    match allNodes_table s !! curr with
    | None => Fault
    | Some c =>
      do s' <- moveIntervalsToFocal ct curr next_location
                 (my_heuristic next_location)
                 (get_safe_intervals rt (location c) next_location
                    (timestep c + 1) (get1 (interval c) + 1)) s;
      moveToFocal ct rt curr rest s'
    end
  end.

(** Lines 110-115: the wait child.  The in-out [interval] of findPath is
    returned with the state. *)
Definition waitToFocal (rt : ReservationTable) (curr : nat)
    (iv : Interval) (s : SIPP) : result (SIPP * Interval) :=
  match allNodes_table s !! curr with
  | None => Fault
  | Some c =>
    let '(found, iv') :=
      find_safe_interval rt iv (location c) (get1 (interval c)) in
    if found then
      do s' <- generateChildToFocal iv' curr (location c) (h_val c) s;
      Ok (s', iv')
    else Ok (s, iv')
  end.

(** Lines 98-115. *)
Definition expandToFocal (ct : ConstraintTable) (rt : ReservationTable)
    (curr : nat) (iv : Interval) (s : SIPP) : result (SIPP * Interval) :=
  match allNodes_table s !! curr with
  | None => Fault
  | Some c =>
    do s' <- moveToFocal ct rt curr (getNeighbors (location c)) s;
    waitToFocal rt curr iv s'
  end.

(** Lines 49-52: the top of FOCAL is popped and closed. *)
Definition popFocal (s : SIPP) : result (nat * SIPPNode * SIPP) :=
  match focal_top (allNodes_table s) (focal_list s) with
  | None => Fault
  | Some curr =>
    match allNodes_table s !! curr with
    | None => Fault
    | Some c =>
      if heap_mem curr (focal_list s) then
        let c' := set_in_openlist false c in
        Ok (curr, c',
            set_allNodes_table (<[curr := c']> (allNodes_table s))
              (set_num_expanded (num_expanded s + 1)
                (set_focal_list (heap_erase curr (focal_list s)) s)))
      else Fault
    end
  end.

(** What one turn of a search loop leaves. *)
Inductive turn : Type :=
| Break (path : Path) (s : SIPP)
| Continue (s : SIPP) (iv : Interval).

(** One turn of the loop of findPath (lines 49-115). *)
Definition findPath_turn (ct : ConstraintTable) (rt : ReservationTable)
    (holding_time : Z) (path : Path) (iv : Interval) (s : SIPP)
    : result turn :=
  do popped <- popFocal s;
  let '(curr, c, s1) := popped in
  if location c <? 0 then Fault
  else if is_goal c then
    do p <- updatePath (allNodes_table s1) (parent c) path;
    Ok (Break p s1)
  else if (location c =? goal_location) && negb (wait_at_goal c) &&
          (holding_time <=? timestep c) then
    let future_collisions :=
      getFutureNumOfCollisions ct (location c) (timestep c) in
    if future_collisions =? 0 then
      do p <- updatePath (allNodes_table s1) (Some curr) path;
      Ok (Break p s1)
    else
      do s2 <- generateGoalNode curr c future_collisions s1;
      do r <- expandToFocal ct rt curr iv s2;
      Ok (Continue (fst r) (snd r))
  else
    do r <- expandToFocal ct rt curr iv s1;
    Ok (Continue (fst r) (snd r)).

(** [while (!focal_list.empty())] of findPath. *)
Fixpoint findPath_loop (fuel : nat) (ct : ConstraintTable)
    (rt : ReservationTable) (holding_time : Z) (path : Path)
    (iv : Interval) (s : SIPP) : result (Path * SIPP) :=
  match focal_list s with
  | [] => Ok (path, s)
  | _ :: _ =>
    match fuel with
    | O => OutOfFuel
    | S fuel' =>
      do t <- findPath_turn ct rt holding_time path iv s;
      match t with
      | Break p s' => Ok (p, s')
      | Continue s' iv' =>
        findPath_loop fuel' ct rt holding_time path iv' s'
      end
    end
  end.

Definition releaseNodes (s : SIPP) : SIPP :=
  set_allNodes_table [] (set_focal_list [] (set_open_list [] s)).

(** Lines 39-46: the start node, pushed to FOCAL and inserted. *)
Definition startFocal (holding_time : Z) (iv : Interval) (s : SIPP) : SIPP :=
  let start := new_SIPPNode start_location 0
                 (Z.max (my_heuristic start_location) holding_time)
                 None 0 iv 0 in
  let i := length (allNodes_table s) in
  set_allNodes_table (allNodes_table s ++ [set_in_openlist true start])
    (set_focal_list (heap_push i (focal_list s))
      (set_num_generated (num_generated s + 1) s)).

(** [Path SIPP::findPath(const ConstraintTable&)]: the path and the planner
    afterwards. *)
Definition findPath (fuel : nat) (ct : ConstraintTable) (this : SIPP)
    : result (Path * SIPP) :=
  let rt := new_ReservationTable ct goal_location in
  let path : Path := [] in
  let s := set_num_generated 0 (set_num_expanded 0 this) in
  let iv := get_first_safe_interval rt start_location in
  if 0 <? get0 iv then Ok (path, s)
  else
    let holding_time := getHoldingTime ct goal_location (length_min ct) in
    do r <- findPath_loop fuel ct rt holding_time path iv
              (startFocal holding_time iv s);
    Ok (fst r, releaseNodes (snd r)).

(** ** Mode B: SIPP::findSuboptimalPath and SIPP::generateChild *)

(** SIPP::updateFocalList. *)
Definition updateFocalList (s : SIPP) : result SIPP :=
  match open_top (allNodes_table s) (open_list s) with
  | None => Fault
  | Some hd =>
    match allNodes_table s !! hd with
    | None => Fault
    | Some open_head =>
      if min_f_val s <? getFVal open_head then
        let new_min_f_val := getFVal open_head in
        let qualifies (i : nat) : bool :=
          match allNodes_table s !! i with
          | None => false
          | Some n =>
            negb (in_focal_bound (w s) (getFVal n) (min_f_val s)) &&
            in_focal_bound (w s) (getFVal n) new_min_f_val
          end in
        Ok (set_min_f_val new_min_f_val
              (set_focal_list
                 (focal_list s ++ List.filter qualifies (open_list s)) s))
      else Ok s
    end
  end.

(** SIPP::pushNode, for the node stored at index [i]. *)
Definition pushNode (i : nat) (s : SIPP) : result SIPP :=
  match allNodes_table s !! i with
  | None => Fault
  | Some node =>
    let s1 :=
      set_allNodes_table (<[i := set_in_openlist true node]> (allNodes_table s))
        (set_num_generated (num_generated s + 1)
          (set_open_list (heap_push i (open_list s)) s)) in
    if in_focal_bound (w s) (getFVal node) (min_f_val s)
    then Ok (set_focal_list (heap_push i (focal_list s1)) s1)
    else Ok s1
  end.

(** The node that generateChild builds, when it is not pruned. *)
Definition child (iv : Interval) (curr : nat) (c : SIPPNode)
    (next_location : Z) : SIPPNode :=
  let next_timestep := Z.max (timestep c + 1) (get0 iv) in
  let next_g_val := next_timestep in
  let next_h_val :=
    Z.max (my_heuristic next_location) (getFVal c - next_g_val) in
  let next_conflicts :=
    num_of_conflicts c + get2 iv * (next_timestep - timestep c) in
  let next := new_SIPPNode next_location next_g_val next_h_val (Some curr)
                next_timestep iv next_conflicts in
  if (next_location =? goal_location) && (location c =? goal_location)
  then set_wait_at_goal true next else next.

Definition generateChild (iv : Interval) (curr : nat) (next_location : Z)
    (rt : ReservationTable) (s : SIPP) : result SIPP :=
  match allNodes_table s !! curr with
  | None => Fault
  | Some c =>
    let next_timestep := Z.max (timestep c + 1) (get0 iv) in
    let next_g_val := next_timestep in
    let next_h_val :=
      Z.max (my_heuristic next_location) (getFVal c - next_g_val) in
    if length_max (constraint_table rt) <? next_g_val + next_h_val then Ok s
    else
      let next := child iv curr c next_location in
      match find_node next (allNodes_table s) with
      | None =>
        pushNode (length (allNodes_table s))
          (set_allNodes_table (allNodes_table s ++ [next]) s)
      | Some (e, existing_next) =>
        if dominates next existing_next then
          if negb (in_openlist existing_next) then
            pushNode e
              (set_allNodes_table
                 (<[e := copy existing_next next]> (allNodes_table s)) s)
          else
            let qualifies :=
              in_focal_bound (w s) (next_g_val + next_h_val) (min_f_val s) in
            let qualified :=
              in_focal_bound (w s) (getFVal existing_next) (min_f_val s) in
            let add_to_focal := qualifies && negb qualified in
            let update_in_focal := qualifies && qualified in
            let update_open :=
              next_g_val + next_h_val <? getFVal existing_next in
            let s1 :=
              set_allNodes_table
                (<[e := copy existing_next next]> (allNodes_table s)) s in
            let s2 :=
              if update_open
              then set_open_list (heap_update e (open_list s1)) s1 else s1 in
            let s3 :=
              if add_to_focal
              then set_focal_list (heap_push e (focal_list s2)) s2 else s2 in
            if update_in_focal
            then Ok (set_focal_list (heap_update e (focal_list s3)) s3)
            else Ok s3
        else Ok s
      end
  end.

(** The inner loop of lines 189-193. *)
Fixpoint moveIntervals (rt : ReservationTable) (curr : nat)
    (next_location : Z) (ivs : list Interval) (s : SIPP) : result SIPP :=
  match ivs with
  | [] => Ok s
  | iv :: rest =>
    do s' <- generateChild iv curr next_location rt s;
    moveIntervals rt curr next_location rest s'
  end.

(** The loop of lines 187-194. *)
Fixpoint moveChildren (rt : ReservationTable) (curr : nat) (nbrs : list Z)
    (s : SIPP) : result SIPP :=
  match nbrs with
  | [] => Ok s
  | next_location :: rest =>
    match allNodes_table s !! curr with
    | None => Fault
    | Some c =>
      do s' <- moveIntervals rt curr next_location
                 (get_safe_intervals rt (location c) next_location
                    (timestep c + 1) (get1 (interval c) + 1)) s;
      moveChildren rt curr rest s'
    end
  end.

(** Lines 196-201. *)
Definition waitChild (rt : ReservationTable) (curr : nat) (iv : Interval)
    (s : SIPP) : result (SIPP * Interval) :=
  match allNodes_table s !! curr with
  | None => Fault
  | Some c =>
    let '(found, iv') :=
      find_safe_interval rt iv (location c) (get1 (interval c)) in
    if found then
      do s' <- generateChild iv' curr (location c) rt s;
      Ok (s', iv')
    else Ok (s, iv')
  end.

(** Lines 173-176: FOCAL's top is popped, erased from OPEN and closed. *)
Definition popOpenFocal (s : SIPP) : result (nat * SIPPNode * SIPP) :=
  match focal_top (allNodes_table s) (focal_list s) with
  | None => Fault
  | Some curr =>
    match allNodes_table s !! curr with
    | None => Fault
    | Some c =>
      if heap_mem curr (focal_list s) && heap_mem curr (open_list s) then
        let c' := set_in_openlist false c in
        Ok (curr, c',
            set_allNodes_table (<[curr := c']> (allNodes_table s))
              (set_num_expanded (num_expanded s + 1)
                (set_open_list (heap_erase curr (open_list s))
                  (set_focal_list (heap_erase curr (focal_list s)) s))))
      else Fault
    end
  end.

(** One turn of the loop of findSuboptimalPath (lines 172-201). *)
Definition findSuboptimalPath_turn (rt : ReservationTable)
    (holding_time : Z) (path : Path) (iv : Interval) (s : SIPP)
    : result turn :=
  do s0 <- updateFocalList s;
  do popped <- popOpenFocal s0;
  let '(curr, c, s1) := popped in
  if (location c =? goal_location) && negb (wait_at_goal c) &&
     (holding_time <=? timestep c) then
    do p <- updatePath (allNodes_table s1) (Some curr) path;
    Ok (Break p s1)
  else
    do s2 <- moveChildren rt curr (getNeighbors (location c)) s1;
    do r <- waitChild rt curr iv s2;
    Ok (Continue (fst r) (snd r)).

(** [while (!open_list.empty())] of findSuboptimalPath. *)
Fixpoint findSuboptimalPath_loop (fuel : nat) (rt : ReservationTable)
    (holding_time : Z) (path : Path) (iv : Interval) (s : SIPP)
    : result (Path * SIPP) :=
  match open_list s with
  | [] => Ok (path, s)
  | _ :: _ =>
    match fuel with
    | O => OutOfFuel
    | S fuel' =>
      do t <- findSuboptimalPath_turn rt holding_time path iv s;
      match t with
      | Break p s' => Ok (p, s')
      | Continue s' iv' =>
        findSuboptimalPath_loop fuel' rt holding_time path iv' s'
      end
    end
  end.

(** Lines 160-167: the start node, in OPEN and in FOCAL, and the first
    [min_f_val]. *)
Definition startOpen (holding_time lowerbound : Z) (iv : Interval) (s : SIPP)
    : SIPP :=
  let start := new_SIPPNode start_location 0
                 (Z.max (my_heuristic start_location) holding_time)
                 None 0 iv 0 in
  let i := length (allNodes_table s) in
  set_min_f_val (Z.max holding_time (Z.max (getFVal start) lowerbound))
    (set_allNodes_table (allNodes_table s ++ [set_in_openlist true start])
      (set_focal_list (heap_push i (focal_list s))
        (set_open_list (heap_push i (open_list s))
          (set_num_generated (num_generated s + 1) s)))).

(** [pair<Path, int> SIPP::findSuboptimalPath(node, initial_constraints,
    paths, agent, lowerbound, w)]: the pair and the planner afterwards. *)
Definition findSuboptimalPath (fuel : nat) (node : HLNode)
    (initial_constraints : ConstraintTable) (paths : Paths) (agent : Z)
    (lowerbound : Z) (wf : Q) (this : SIPP) : result (Path * Z * SIPP) :=
  let s := set_w wf this in
  let ct0 := insert2CT initial_constraints node agent in
  let holding_time := getHoldingTime ct0 goal_location (length_min ct0) in
  let ct := insert2CAT ct0 agent paths in
  let rt := new_ReservationTable ct goal_location in
  let path : Path := [] in
  let s := set_num_generated 0 (set_num_expanded 0 s) in
  let iv := get_first_safe_interval rt start_location in
  if 0 <? get0 iv then Ok (path, 0, s)
  else
    do r <- findSuboptimalPath_loop fuel rt holding_time path iv
              (startOpen holding_time lowerbound iv s);
    Ok (fst r, min_f_val (snd r), releaseNodes (snd r)).

(** [Path SIPP::findOptimalPath(node, initial_constraints, paths, agent,
    lowerbound)]. *)
Definition findOptimalPath (fuel : nat) (node : HLNode)
    (initial_constraints : ConstraintTable) (paths : Paths) (agent : Z)
    (lowerbound : Z) (this : SIPP) : result (Path * SIPP) :=
  do r <- findSuboptimalPath fuel node initial_constraints paths agent
            lowerbound 1%Q this;
  Ok (fst (fst r), snd r).

(** [n] turns of the loop of findPath, none of which leaves the loop. *)
Fixpoint findPath_turns (n : nat) (ct : ConstraintTable)
    (rt : ReservationTable) (holding_time : Z) (iv : Interval) (s : SIPP)
    : result (SIPP * Interval) :=
  match n with
  | O => Ok (s, iv)
  | S n' =>
    do t <- findPath_turn ct rt holding_time [] iv s;
    match t with
    | Break _ _ => Fault
    | Continue s' iv' => findPath_turns n' ct rt holding_time iv' s'
    end
  end.

(** [n] turns of the loop of findSuboptimalPath, none of which leaves it. *)
Fixpoint findSuboptimalPath_turns (n : nat) (rt : ReservationTable)
    (holding_time : Z) (iv : Interval) (s : SIPP)
    : result (SIPP * Interval) :=
  match n with
  | O => Ok (s, iv)
  | S n' =>
    do t <- findSuboptimalPath_turn rt holding_time [] iv s;
    match t with
    | Break _ _ => Fault
    | Continue s' iv' =>
      findSuboptimalPath_turns n' rt holding_time iv' s'
    end
  end.

(** ** Predicates of the proofs *)

(** Two consecutive entries of a path: a wait or a move along an edge. *)
Definition step_ok (a b : Z) : Prop := b = a ∨ In b (getNeighbors a).

(** What mode A keeps true of every stored node: a node without parent is
    the start at time 0; the parent of a virtual goal node stands on the
    goal; any other node was reached from its parent by a wait or a move, at
    a later time; no virtual goal node is a parent. *)
Definition node_ok (nodes : list SIPPNode) (n : SIPPNode) : Prop :=
  0 ≤ timestep n ∧
  match parent n with
  | None =>
    timestep n = 0 ∧ location n = start_location ∧ is_goal n = false
  | Some j =>
    ∃ p, nodes !! j = Some p ∧ is_goal p = false ∧
      if is_goal n
      then location n = goal_location ∧ location p = goal_location
      else timestep p < timestep n ∧ step_ok (location p) (location n)
  end.

Definition tree_ok (nodes : list SIPPNode) : Prop :=
  ∀ i n, nodes !! i = Some n → node_ok nodes n.

(** Every virtual goal node of the store is in FOCAL. *)
Definition goals_open (nodes : list SIPPNode) : Prop :=
  ∀ i n, nodes !! i = Some n → is_goal n = true → in_openlist n = true.

(** What an update of the store keeps of each node: its cell and its goal
    tag; its timestep does not grow. *)
Definition stable (nodes nodes' : list SIPPNode) : Prop :=
  ∀ i n, nodes !! i = Some n →
    ∃ n', nodes' !! i = Some n' ∧ location n' = location n ∧
          is_goal n' = is_goal n ∧ timestep n' ≤ timestep n.

(** The invariant of the store of mode A and what an operation keeps. *)
Definition kept (nodes nodes' : list SIPPNode) : Prop :=
  tree_ok nodes' ∧ goals_open nodes' ∧ stable nodes nodes'.

(** The node that is being expanded: where it stands, and that it is not a
    virtual goal node. *)
Definition at_curr (nodes : list SIPPNode) (curr : nat) (loc : Z) : Prop :=
  ∃ c, nodes !! curr = Some c ∧ location c = loc ∧ is_goal c = false.

(** The nodes on the parent chain that starts at a node. *)
Inductive on_chain (nodes : list SIPPNode) : nat → nat → Prop :=
| chain_here (i : nat) : on_chain nodes i i
| chain_up (i pi j : nat) (c : SIPPNode) :
    nodes !! i = Some c → parent c = Some pi → on_chain nodes pi j →
    on_chain nodes i j.

(** A path holds what updatePath writes for every node of the chain: the
    cell of the node at its timestep, the cell of its parent at the timesteps
    in between; the node without parent is at timestep 0. *)
Definition follows_chain (nodes : list SIPPNode) (term : nat) (p : Path)
    : Prop :=
  ∀ ci c, on_chain nodes term ci → nodes !! ci = Some c →
    p !! Z.to_nat (timestep c) = Some (location c) ∧
    match parent c with
    | Some qi =>
      ∀ q, nodes !! qi = Some q →
        ∀ k : nat, timestep q < Z.of_nat k < timestep c →
          p !! k = Some (location q)
    | None => timestep c = 0
    end.

(** The planner between two searches: no node, both heaps empty. *)
Definition idle (s : SIPP) : Prop :=
  open_list s = [] ∧ focal_list s = [] ∧ allNodes_table s = [].

(** The states that the loop of findPath goes through, from the state in
    which it is entered. *)
Inductive findPath_reaches (ct : ConstraintTable) (rt : ReservationTable)
    (holding_time : Z) (s0 : SIPP) (iv0 : Interval)
    : SIPP → Interval → Prop :=
| reaches_start : findPath_reaches ct rt holding_time s0 iv0 s0 iv0
| reaches_turn (s s' : SIPP) (iv iv' : Interval) :
    findPath_reaches ct rt holding_time s0 iv0 s iv →
    findPath_turn ct rt holding_time [] iv s = Ok (Continue s' iv') →
    findPath_reaches ct rt holding_time s0 iv0 s' iv'.

(** The heuristic is admissible: it is never negative and never more than
    the distance to the goal in the grid, a function [d] that is 0 on the
    goal and grows by at most 1 along an edge. *)
Definition admissible : Prop :=
  ∃ d : Z → Z,
    d goal_location = 0 ∧
    (∀ u v, In v (getNeighbors u) → d u ≤ d v + 1) ∧
    (∀ u, 0 ≤ my_heuristic u ≤ d u).

(** [top()] of OPEN returns a node of least f among the nodes of OPEN, as a
    heap does that is told of every change of a key.  generateChild tells
    OPEN only of an f that falls (lines 301-307): the code keeps this as
    long as no node of OPEN is overwritten with a larger f. *)
Definition least_f_on_top : Prop :=
  ∀ (nodes : list SIPPNode) (heap : list nat) (i : nat) (ni : SIPPNode),
    open_top nodes heap = Some i → nodes !! i = Some ni →
    ∀ j nj, In j heap → nodes !! j = Some nj → getFVal ni ≤ getFVal nj.

(** What mode B keeps true of a stored node: its cost is its timestep, and
    its h is between 0 and the larger of the distance to the goal and the
    time left to the holding time. *)
Definition nodeB_ok (d : Z → Z) (holding_time : Z) (n : SIPPNode) : Prop :=
  g_val n = timestep n ∧ 0 ≤ h_val n ∧
  h_val n ≤ Z.max (d (location n)) (holding_time - g_val n).

Definition nodesB_ok (d : Z → Z) (holding_time : Z) (nodes : list SIPPNode)
    : Prop :=
  ∀ i n, nodes !! i = Some n → nodeB_ok d holding_time n.

(** Every node of FOCAL has a cost within [w * min_f_val]. *)
Definition focal_ok (wf : Q) (m : Z) (nodes : list SIPPNode)
    (focal : list nat) : Prop :=
  ∀ i, In i focal → ∃ n, nodes !! i = Some n ∧ within wf (g_val n) m.

(** [min_f_val] is at most the f of every node of OPEN, or at most the
    lower bound that the search was given. *)
Definition open_ok (lowerbound m : Z) (nodes : list SIPPNode)
    (open : list nat) : Prop :=
  ∀ i, In i open →
    ∃ n, nodes !! i = Some n ∧ m ≤ Z.max lowerbound (getFVal n).

(** The invariant of the loop of findSuboptimalPath. *)
Definition modeB_ok (d : Z → Z) (holding_time lowerbound : Z) (wf : Q)
    (s : SIPP) : Prop :=
  w s = wf ∧
  nodesB_ok d holding_time (allNodes_table s) ∧
  focal_ok wf (min_f_val s) (allNodes_table s) (focal_list s) ∧
  open_ok lowerbound (min_f_val s) (allNodes_table s) (open_list s).

(** The node that mode B is expanding: where it stands, and that
    [min_f_val] is at most its f or at most the lower bound. *)
Definition at_currB (lowerbound m : Z) (nodes : list SIPPNode) (curr : nat)
    (loc : Z) : Prop :=
  ∃ c, nodes !! curr = Some c ∧ location c = loc ∧
       m ≤ Z.max lowerbound (getFVal c).

(** The invariant of mode B on the members of the planner, with the node
    that is being expanded. *)
Definition expandingB (d : Z → Z) (holding_time lowerbound : Z) (wf : Q)
    (m : Z) (curr : nat) (loc : Z) (nodes : list SIPPNode)
    (focal open : list nat) : Prop :=
  nodesB_ok d holding_time nodes ∧ focal_ok wf m nodes focal ∧
  open_ok lowerbound m nodes open ∧ at_currB lowerbound m nodes curr loc.

(** A generated node beats the stored node of the same key. *)
Definition strictly_better (next existing : SIPPNode) : Prop :=
  timestep next < timestep existing ∨
  (timestep next = timestep existing ∧
   num_of_conflicts next < num_of_conflicts existing).

(** What the specification says of a path [p] that findPath returns: some
    turn of the search loop left the loop with [p], rebuilt by updatePath
    from a terminal node [tn] of the store of that moment; [p] has one entry
    per timestep up to that of [tn], starts on the start cell, ends on the
    goal cell, holds the cells of the parent chain, and moves by waits and
    edges only. *)
Definition reconstructed (ct : ConstraintTable) (this : SIPP) (p : Path)
    : Prop :=
  let rt := new_ReservationTable ct goal_location in
  let holding_time := getHoldingTime ct goal_location (length_min ct) in
  let iv0 := get_first_safe_interval rt start_location in
  ∃ s iv s1 term tn,
    findPath_reaches ct rt holding_time
      (startFocal holding_time iv0
         (set_num_generated 0 (set_num_expanded 0 this))) iv0 s iv ∧
    findPath_turn ct rt holding_time [] iv s = Ok (Break p s1) ∧
    allNodes_table s1 !! term = Some tn ∧
    updatePath (allNodes_table s1) (Some term) [] = Ok p ∧
    Z.of_nat (length p) = timestep tn + 1 ∧
    p !! 0%nat = Some start_location ∧
    p !! (length p - 1)%nat = Some goal_location ∧
    follows_chain (allNodes_table s1) term p ∧
    ∀ (k : nat) a b, p !! k = Some a → p !! S k = Some b → step_ok a b.

End Planner.

(** ** The comparators and tables of the examples *)

(** Modelled from the spec: [top()] of a heap of node handles under a strict
    priority [before]; among nodes of equal priority the one inserted first
    wins ("use node-insertion sequence as the ultimate tiebreaker"). *)
Definition heap_better (before : SIPPNode → SIPPNode → bool)
    (nodes : list SIPPNode) (best : option nat) (i : nat) : option nat :=
  match best with
  | None => Some i
  | Some b =>
    match nodes !! i, nodes !! b with
    | Some ni, Some nb => if before ni nb then Some i else Some b
    | _, _ => Some b
    end
  end.

Definition heap_top (before : SIPPNode → SIPPNode → bool)
    (nodes : list SIPPNode) (heap : list nat) : option nat :=
  fold_left (heap_better before nodes) heap None.

(** Modelled from the spec: the order of FOCAL, "(conflicts, f, h)". *)
Definition secondary_compare_node (n1 n2 : SIPPNode) : bool :=
  (num_of_conflicts n1 <? num_of_conflicts n2) ||
  ((num_of_conflicts n1 =? num_of_conflicts n2) &&
   ((getFVal n1 <? getFVal n2) ||
    ((getFVal n1 =? getFVal n2) && (h_val n1 <? h_val n2)))).

(** Modelled from the spec: the order of OPEN, "(f, h)". *)
Definition compare_node (n1 n2 : SIPPNode) : bool :=
  (getFVal n1 <? getFVal n2) ||
  ((getFVal n1 =? getFVal n2) && (h_val n1 <? h_val n2)).

Module Example.

Definition MAX_TIMESTEP : Z := 1000.

(** A reservation table given by the safe intervals of each cell: the
    intervals of the target cell that meet [lower, upper), and the interval
    of a cell that holds a time, from that time on. *)
Definition overlapping (sit : list Interval) (lower upper : Z)
    : list Interval :=
  List.filter (fun i => (lower <? get1 i) && (get0 i <? upper)) sit.

Fixpoint containing (sit : list Interval) (iv : Interval) (t : Z)
    : bool * Interval :=
  match sit with
  | [] => (false, iv)
  | i :: rest =>
    if (get0 i <=? t) && (t <? get1 i) then (true, (t, get1 i, get2 i))
    else containing rest iv t
  end.

Definition table (sit : Z → list Interval) (ct : ConstraintTable) (goal : Z)
    : ReservationTable :=
  mkReservationTable ct
    (fun loc => match sit loc with i :: _ => i | [] => (0, MAX_TIMESTEP, 0) end)
    (fun from to lower upper => overlapping (sit to) lower upper)
    (fun iv loc t => containing (sit loc) iv t).

(** A planner that has not searched yet. *)
Definition idle_planner : SIPP := mkSIPP 1%Q 0 0 0 [] [] [].

(** Three cells in a row, 0 - 2 - 1, and the distance to cell 1. *)
Definition row_neighbors (loc : Z) : list Z :=
  if loc =? 0 then [2] else if loc =? 2 then [0; 1] else if loc =? 1 then [2]
  else [].
Definition row_heuristic (loc : Z) : Z :=
  if loc =? 0 then 2 else if loc =? 2 then 1 else 0.

Definition focal_first := heap_top secondary_compare_node.
Definition open_first := heap_top compare_node.

(** The constraint table with given length bounds and future collisions;
    no hard constraint: the holding time is the least length. *)
Definition constraints (lmin lmax : Z) (future : Z → Z → Z)
    : ConstraintTable :=
  mkConstraintTable lmin lmax (fun _ l => l) future.

(** Every cell is free at all times. *)
Definition free_sit (loc : Z) : list Interval := [(0, MAX_TIMESTEP, 0)].
Definition free_ct : ConstraintTable :=
  constraints 0 MAX_TIMESTEP (fun _ _ => 0).

(** Another agent stands on cell 2 before time 4 and a third one parks on
    the goal, cell 1, from time 10 on. *)
Definition late_sit (loc : Z) : list Interval :=
  if loc =? 0 then [(0, MAX_TIMESTEP, 0)]
  else if loc =? 2 then [(0, 4, 1); (4, MAX_TIMESTEP, 0)]
  else if loc =? 1 then [(0, 10, 0); (10, MAX_TIMESTEP, 1)]
  else [].
Definition parked (loc t : Z) : Z := if loc =? 1 then 1 else 0.
(** The path must have length at least 3, respectively 2. *)
Definition late_ct : ConstraintTable := constraints 3 MAX_TIMESTEP parked.
Definition late2_ct : ConstraintTable := constraints 2 MAX_TIMESTEP parked.

(** The start cell is blocked before time 3. *)
Definition blocked_sit (loc : Z) : list Interval :=
  if loc =? 0 then [(3, MAX_TIMESTEP, 0)] else [(0, MAX_TIMESTEP, 0)].

(** Another agent crosses the start cell from time 3 on; a path may have
    length 4 at most. *)
Definition short_sit (loc : Z) : list Interval :=
  if loc =? 0 then [(0, 3, 0); (3, MAX_TIMESTEP, 1)]
  else [(0, MAX_TIMESTEP, 0)].
Definition short_ct : ConstraintTable := constraints 0 4 (fun _ _ => 0).

(** The agent starts on its goal, cell 1, which another agent crosses
    before time 2; the path must have length at least 2. *)
Definition stay_sit (loc : Z) : list Interval :=
  if loc =? 1 then [(0, 2, 1); (2, MAX_TIMESTEP, 0)]
  else [(0, MAX_TIMESTEP, 0)].
Definition stay_ct : ConstraintTable :=
  constraints 2 MAX_TIMESTEP (fun _ _ => 0).

(** Mode A on the row, from cell 0 to cell 1. *)
Abbreviation rowA_findPath sit :=
  (findPath row_neighbors 0 1 row_heuristic (table sit) focal_first (-1)).
Abbreviation rowA_holding ct := (getHoldingTime ct 1 (length_min ct)).
Abbreviation rowA_start sit ct :=
  (startFocal 0 row_heuristic (rowA_holding ct)
     (get_first_safe_interval (table sit ct 1) 0) idle_planner).
Abbreviation rowA_turn sit ct :=
  (findPath_turn row_neighbors 1 row_heuristic focal_first (-1) ct
     (table sit ct 1) (rowA_holding ct) []).
Abbreviation rowA_turns sit ct n :=
  (findPath_turns row_neighbors 1 row_heuristic focal_first (-1) n ct
     (table sit ct 1) (rowA_holding ct)
     (get_first_safe_interval (table sit ct 1) 0) (rowA_start sit ct)).

(** Mode B on the row, from cell [start] to cell 1; the high-level node and
    the paths of the other agents are in the constraint table already. *)
Abbreviation rowB_findSuboptimalPath sit start :=
  (findSuboptimalPath row_neighbors start 1 row_heuristic (table sit)
     unit unit (fun ct _ _ => ct) (fun ct _ _ => ct) focal_first open_first
     (-1)).
Abbreviation rowB_start sit ct start lowerbound wf :=
  (startOpen start row_heuristic (rowA_holding ct) lowerbound
     (get_first_safe_interval (table sit ct 1) start)
     (set_num_generated 0 (set_num_expanded 0 (set_w wf idle_planner)))).
Abbreviation rowB_turn sit ct :=
  (findSuboptimalPath_turn row_neighbors 1 row_heuristic focal_first
     open_first (-1) (table sit ct 1) (rowA_holding ct) []).
Abbreviation rowB_loop sit ct fuel :=
  (findSuboptimalPath_loop row_neighbors 1 row_heuristic focal_first
     open_first (-1) fuel (table sit ct 1) (rowA_holding ct) []).
Abbreviation rowB_turns sit ct start wf n :=
  (findSuboptimalPath_turns row_neighbors 1 row_heuristic focal_first
     open_first (-1) n (table sit ct 1) (rowA_holding ct)
     (get_first_safe_interval (table sit ct 1) start)
     (rowB_start sit ct start 0 wf)).

(** The start node of the searches from cell 0 on the free row. *)
Definition row_start_node : SIPPNode :=
  mkSIPPNode 0 0 2 None 0 (0, MAX_TIMESTEP, 0) 0 true false false.

End Example.

(** ** The node store as a hash set, the heaps as its open nodes *)

(** The key by which [allNodes_table] hashes and compares a node: two nodes
    are [eqnode] exactly when their keys are equal. *)
Definition key (n : SIPPNode) : Z * Z * bool :=
  (location n, get0 (interval n), is_goal n).

(** No two stored nodes have the same key. *)
Definition keys_unique (nodes : list SIPPNode) : Prop :=
  ∀ i j ni nj, nodes !! i = Some ni → nodes !! j = Some nj →
    key ni = key nj → i = j.

(** A heap holds no handle twice, and holds exactly the stored nodes that
    are flagged [in_openlist]. *)
Definition heap_is_open (nodes : list SIPPNode) (heap : list nat) : Prop :=
  NoDup heap ∧
  ∀ i, In i heap ↔ ∃ n, nodes !! i = Some n ∧ in_openlist n = true.

(** What the generation of children does to a stored node at most: the key
    stays, an open node stays open, and the label is untouched or replaced
    by a strictly better one. *)
Definition improved (n n' : SIPPNode) : Prop :=
  key n' = key n ∧ (in_openlist n = true → in_openlist n' = true) ∧
  (n' = n ∨ strictly_better n' n).

Definition only_improves (nodes nodes' : list SIPPNode) : Prop :=
  ∀ i n, nodes !! i = Some n → ∃ n', nodes' !! i = Some n' ∧ improved n n'.

(** The bookkeeping of mode A: the table is a set of keys, FOCAL is the set
    of open nodes, and every stored node was counted once. *)
Definition modeA_store_ok (s : SIPP) : Prop :=
  keys_unique (allNodes_table s) ∧
  heap_is_open (allNodes_table s) (focal_list s) ∧
  num_generated s = Z.of_nat (length (allNodes_table s)).

(** The bookkeeping of mode B: the table is a set of keys, OPEN is the set
    of open nodes, the cost of a node is its timestep, and every stored node
    was counted at least once. *)
Definition modeB_store_ok (s : SIPP) : Prop :=
  keys_unique (allNodes_table s) ∧
  heap_is_open (allNodes_table s) (open_list s) ∧
  (∀ i n, allNodes_table s !! i = Some n → g_val n = timestep n) ∧
  Z.of_nat (length (allNodes_table s)) ≤ num_generated s.

(** The search tree of mode B: the invariant of the store of mode A, and no
    virtual goal node. *)
Definition treeB (getNeighbors : Z → list Z) (start_location goal_location : Z)
    (nodes : list SIPPNode) : Prop :=
  tree_ok getNeighbors start_location goal_location nodes ∧
  ∀ i n, nodes !! i = Some n → is_goal n = false.

(** What mode B keeps true of a stored node under a bound on the greatest
    length: its cost is its timestep, its h is not negative, and it is at
    timestep 0 or its f is within the bound. *)
Definition within_length (bound : Z) (n : SIPPNode) : Prop :=
  g_val n = timestep n ∧ 0 ≤ h_val n ∧
  (timestep n = 0 ∨ getFVal n ≤ bound).

(** FOCAL holds every node of OPEN whose f is within [w * min_f_val]. *)
Definition focal_complete (s : SIPP) : Prop :=
  ∀ i n, In i (open_list s) → allNodes_table s !! i = Some n →
    in_focal_bound (w s) (getFVal n) (min_f_val s) = true →
    In i (focal_list s).

(** The node at index [i] is in OPEN with an f that is less than the f of
    every other node of OPEN: a heap in order has it on top. *)
Definition least_f_in_open (s : SIPP) (i : nat) (f : Z) : Prop :=
  In i (open_list s) ∧
  (∃ n, allNodes_table s !! i = Some n ∧ getFVal n = f) ∧
  ∀ j m, In j (open_list s) → j ≠ i → allNodes_table s !! j = Some m →
    f < getFVal m.

(** An interval that does not span the holding time: it begins at the
    holding time or later, or it ends by then. *)
Definition split_at (holding_time : Z) (iv : Interval) : Prop :=
  holding_time ≤ get0 iv ∨ get1 iv ≤ holding_time.

(** Modelled from the spec: the safe intervals of the goal cell in the
    absent ReservationTable.h.  "For the goal cell, intervals are clipped"
    at the holding time (section 4.2): no safe interval of the goal spans
    the holding time.  get_safe_intervals returns intervals "whose earliest
    feasible arrival falls in [t_lo, t_hi)": the arrival, at the later of
    [lower] and the beginning of the interval, is before its end.
    find_safe_interval finds the interval that holds the time it is asked
    for, and the first safe interval of a start cell is not empty. *)
Definition goal_intervals_split (rt : ReservationTable)
    (start_location goal_location holding_time : Z) : Prop :=
  (start_location = goal_location →
   0 < get1 (get_first_safe_interval rt start_location) ∧
   split_at holding_time (get_first_safe_interval rt start_location)) ∧
  (∀ from lower upper iv,
     In iv (get_safe_intervals rt from goal_location lower upper) →
     Z.max lower (get0 iv) < get1 iv ∧ split_at holding_time iv) ∧
  (∀ iv0 t iv,
     find_safe_interval rt iv0 goal_location t = (true, iv) →
     get0 iv ≤ t < get1 iv ∧ split_at holding_time iv).

(** What mode A keeps true of a stored node on such a table: a node on the
    goal cell is inside its interval, which does not span the holding time;
    the f of a node is at least the holding time, and so is the h of a node
    without parent. *)
Definition on_goal_ok (goal_location holding_time : Z) (n : SIPPNode)
    : Prop :=
  location n = goal_location →
  get0 (interval n) ≤ timestep n < get1 (interval n) ∧
  split_at holding_time (interval n).

Definition holds_ok (holding_time : Z) (n : SIPPNode) : Prop :=
  holding_time ≤ getFVal n ∧ (parent n = None → holding_time ≤ h_val n).

(** The invariant of the store: every node is as above, and the parent of a
    virtual goal node stands on the goal in an interval that begins at the
    holding time or later. *)
Definition holding_ok (goal_location holding_time : Z)
    (nodes : list SIPPNode) : Prop :=
  (∀ i n, nodes !! i = Some n →
     on_goal_ok goal_location holding_time n ∧ holds_ok holding_time n) ∧
  (∀ i g, nodes !! i = Some g → is_goal g = true →
     ∃ pi pn, parent g = Some pi ∧ nodes !! pi = Some pn ∧
       location pn = goal_location ∧ holding_time ≤ get0 (interval pn)).

(** What mode B keeps true of a stored node under a consistent heuristic:
    it is no virtual goal node, its cost is its timestep, and its f is the
    larger of its timestep with the heuristic of its cell and [f0], the f
    of the start node. *)
Definition pathmax_ok (my_heuristic : Z → Z) (f0 : Z) (n : SIPPNode)
    : Prop :=
  is_goal n = false ∧ g_val n = timestep n ∧
  getFVal n = Z.max (timestep n + my_heuristic (location n)) f0.

Definition pathmax_store (my_heuristic : Z → Z) (f0 : Z)
    (nodes : list SIPPNode) : Prop :=
  ∀ i n, nodes !! i = Some n → pathmax_ok my_heuristic f0 n.

(** The planner with another factor w and another bound [min_f_val], and a
    result read through a function. *)
Definition retune (x : Q) (m : Z) (s : SIPP) : SIPP :=
  mkSIPP x m (num_expanded s) (num_generated s) (open_list s) (focal_list s)
    (allNodes_table s).

Definition rmap {A B : Type} (f : A → B) (r : result A) : result B :=
  match r with
  | Ok a => Ok (f a)
  | Fault => Fault
  | OutOfFuel => OutOfFuel
  end.

Definition retune_turn (x : Q) (m : Z) (t : turn) : turn :=
  match t with
  | Break p s => Break p (retune x m s)
  | Continue s iv => Continue (retune x m s) iv
  end.

(** ** SIPP::getTravelTime *)

Section TravelTime.

Variable getNeighbors : Z → list Z.
(** [compute_heuristic(from, to)] of the absent SingleAgentSolver.h. *)
Variable compute_heuristic : Z → Z → Z.
(** The two overloads of [ConstraintTable::constrained], for a cell at a time
    and for an edge at the time of arrival, and
    [ConstraintTable::getMaxTimestep], of the absent ConstraintTable.h. *)
Variable constrained : ConstraintTable → Z → Z → bool.
Variable constrained_edge : ConstraintTable → Z → Z → Z → bool.
Variable getMaxTimestep : ConstraintTable → Z.
(** The constant of the absent common.h. *)
Variable MAX_TIMESTEP : Z.
Variable open_top : list SIPPNode → list nat → option nat.

(** The body of the loop over [next_locations] (lines 382-417).  An update
    of the stored node tells OPEN through the handle of that node: the node
    has to be in OPEN. *)
Definition travelChild (ct : ConstraintTable)
    (end_location upper_bound static_timestep : Z) (curr : nat)
    (next_location : Z) (s : SIPP) : result SIPP :=
  match allNodes_table s !! curr with
  | None => Fault
  | Some c =>
    let next_g_val := g_val c + 1 in
    if (static_timestep <=? timestep c) && (location c =? next_location)
    then Ok s
    else
      let next_timestep :=
        if static_timestep <=? timestep c
        then timestep c + 1 - 1 else timestep c + 1 in
      if negb (constrained ct next_location next_timestep) &&
         negb (constrained_edge ct (location c) next_location next_timestep)
      then
        let next_h_val := compute_heuristic next_location end_location in
        if upper_bound <=? next_g_val + next_h_val then Ok s
        else
          let next := new_SIPPNode next_location next_g_val next_h_val None
                        next_timestep (next_timestep, next_timestep + 1, 0)
                        0 in
          match find_node next (allNodes_table s) with
          | None =>
            Ok (set_allNodes_table (allNodes_table s ++ [next])
                  (set_open_list
                     (heap_push (length (allNodes_table s)) (open_list s)) s))
          | Some (e, existing_next) =>
            if next_g_val <? g_val existing_next then
              if heap_mem e (open_list s) then
                let updated :=
                  mkSIPPNode (location existing_next) next_g_val
                    (h_val existing_next) (parent existing_next)
                    next_timestep (interval existing_next)
                    (num_of_conflicts existing_next)
                    (in_openlist existing_next)
                    (wait_at_goal existing_next) (is_goal existing_next) in
                Ok (set_open_list (heap_update e (open_list s))
                      (set_allNodes_table
                         (<[e := updated]> (allNodes_table s)) s))
              else Fault
            else Ok s
          end
      else Ok s
  end.

(** The loop over [next_locations]. *)
Fixpoint travelChildren (ct : ConstraintTable)
    (end_location upper_bound static_timestep : Z) (curr : nat)
    (next_locations : list Z) (s : SIPP) : result SIPP :=
  match next_locations with
  | [] => Ok s
  | next_location :: rest =>
    do s' <- travelChild ct end_location upper_bound static_timestep curr
               next_location s;
    travelChildren ct end_location upper_bound static_timestep curr rest s'
  end.

(** What one turn of the loop of getTravelTime leaves. *)
Inductive travel : Type :=
| Arrived (length : Z) (s : SIPP)
| Searching (s : SIPP).

(** One turn of the loop (lines 373-418). *)
Definition getTravelTime_turn (ct : ConstraintTable)
    (end_location upper_bound static_timestep : Z) (s : SIPP)
    : result travel :=
  match open_top (allNodes_table s) (open_list s) with
  | None => Fault
  | Some curr =>
    match allNodes_table s !! curr with
    | None => Fault
    | Some c =>
      if heap_mem curr (open_list s) then
        let s1 := set_open_list (heap_erase curr (open_list s)) s in
        if location c =? end_location then Ok (Arrived (g_val c) s1)
        else
          do s2 <- travelChildren ct end_location upper_bound static_timestep
                     curr (getNeighbors (location c) ++ [location c]) s1;
          Ok (Searching s2)
      else Fault
    end
  end.

(** [while (!open_list.empty())] of getTravelTime. *)
Fixpoint getTravelTime_loop (fuel : nat) (ct : ConstraintTable)
    (end_location upper_bound static_timestep : Z) (length : Z) (s : SIPP)
    : result (Z * SIPP) :=
  match open_list s with
  | [] => Ok (length, s)
  | _ :: _ =>
    match fuel with
    | O => OutOfFuel
    | S fuel' =>
      do t <- getTravelTime_turn ct end_location upper_bound static_timestep
                s;
      match t with
      | Arrived l s' => Ok (l, s')
      | Searching s' =>
        getTravelTime_loop fuel' ct end_location upper_bound static_timestep
          length s'
      end
    end
  end.

(** Lines 364-369: the root, pushed to OPEN and inserted. *)
Definition startTravel (start end_location : Z) (s : SIPP) : SIPP :=
  let root := new_SIPPNode start 0 (compute_heuristic start end_location)
                None 0 (0, 1, 0) 0 in
  set_allNodes_table (allNodes_table s ++ [root])
    (set_open_list (heap_push (length (allNodes_table s)) (open_list s)) s).

(** [int SIPP::getTravelTime(start, end, constraint_table, upper_bound)]:
    the length and the planner afterwards. *)
Definition getTravelTime (fuel : nat) (start end_location : Z)
    (ct : ConstraintTable) (upper_bound : Z) (this : SIPP)
    : result (Z * SIPP) :=
  let length := MAX_TIMESTEP in
  let s := startTravel start end_location this in
  let static_timestep := getMaxTimestep ct in
  do r <- getTravelTime_loop fuel ct end_location upper_bound
            static_timestep length s;
  Ok (fst r, releaseNodes (snd r)).

(** [n] turns of the loop of getTravelTime, none of which leaves it. *)
Fixpoint getTravelTime_turns (n : nat) (ct : ConstraintTable)
    (end_location upper_bound static_timestep : Z) (s : SIPP)
    : result SIPP :=
  match n with
  | O => Ok s
  | S n' =>
    do t <- getTravelTime_turn ct end_location upper_bound static_timestep s;
    match t with
    | Arrived _ _ => Fault
    | Searching s' =>
      getTravelTime_turns n' ct end_location upper_bound static_timestep s'
    end
  end.

(** What getTravelTime keeps true of a stored node: its h is the heuristic
    of its cell, its interval starts at its timestep, its timestep is its
    cost up to the static timestep and stays there, and it is the root or
    costs less than the upper bound. *)
Definition travel_node_ok (start end_location upper_bound static_timestep : Z)
    (n : SIPPNode) : Prop :=
  h_val n = compute_heuristic (location n) end_location ∧
  get0 (interval n) = timestep n ∧ is_goal n = false ∧
  timestep n = Z.min (g_val n) (Z.max 0 static_timestep) ∧
  ((g_val n = 0 ∧ location n = start) ∨
   (1 ≤ g_val n ∧ g_val n + h_val n < upper_bound)).

(** The cells that a walk from [start] reaches, with the number of its
    steps.  A step is a wait or a move to a neighbour that the constraint
    table allows at the time of arrival; time stops at the static timestep,
    from which on a walk does not wait. *)
Inductive travels (ct : ConstraintTable) (static_timestep start : Z)
    : Z → Z → Prop :=
| travels_start : travels ct static_timestep start start 0
| travels_step (a b g : Z) :
    travels ct static_timestep start a g →
    b = a ∨ In b (getNeighbors a) →
    let t := Z.min g (Z.max 0 static_timestep) in
    let next_timestep := if static_timestep <=? t then t else t + 1 in
    (static_timestep <=? t) && (a =? b) = false →
    constrained ct b next_timestep = false →
    constrained_edge ct a b next_timestep = false →
    travels ct static_timestep start b (g + 1).

(** [top()] of a heap that is not empty returns one of its handles. *)
Definition top_is_member : Prop :=
  ∀ (nodes : list SIPPNode) (heap : list nat),
    heap ≠ [] → ∃ i, open_top nodes heap = Some i ∧ In i heap.

End TravelTime.

(** ** SIPP::popNode *)

Section PopNode.

Variable focal_top : list SIPPNode → list nat → option nat.

(** [SIPPNode* SIPP::popNode()] (lines 225-232): the node and the planner
    afterwards.  The top of FOCAL is popped, its handle is erased from OPEN,
    the node is closed and counted as expanded. *)
Definition popNode (s : SIPP) : result (nat * SIPPNode * SIPP) :=
  match focal_top (allNodes_table s) (focal_list s) with
  | None => Fault
  | Some node =>
    match allNodes_table s !! node with
    | None => Fault
    | Some n =>
      if heap_mem node (focal_list s) && heap_mem node (open_list s) then
        let n' := set_in_openlist false n in
        Ok (node, n',
            set_num_expanded (num_expanded s + 1)
              (set_allNodes_table (<[node := n']> (allNodes_table s))
                 (set_open_list (heap_erase node (open_list s))
                    (set_focal_list (heap_erase node (focal_list s)) s))))
      else Fault
    end
  end.

End PopNode.

(** ** SIPP::printSearchTree *)

(** Lines 489-495: the stored nodes, sorted into one list per timestep.  The
    table is read in the order of the store.  A negative timestep, compared
    with [size()] as an unsigned number, makes the vector be resized to no
    good size and written out of range. *)
Definition add_to_level (levels : list (list SIPPNode)) (n : SIPPNode)
    : result (list (list SIPPNode)) :=
  if timestep n <? 0 then Fault
  else
    let t := Z.to_nat (timestep n) in
    let levels' :=
      if (length levels <=? t)%nat
      then take (S t) levels ++ replicate (S t - length levels) []
      else levels in
    match levels' !! t with
    | None => Fault
    | Some level => Ok (<[t := level ++ [n]]> levels')
    end.

Fixpoint searchTree_levels (tbl : list SIPPNode)
    (levels : list (list SIPPNode)) : result (list (list SIPPNode)) :=
  match tbl with
  | [] => Ok levels
  | n :: rest =>
    do levels' <- add_to_level levels n; searchTree_levels rest levels'
  end.

(** The nodes of a table that have a given timestep, in the order of the
    table. *)
Definition at_timestep (t : nat) (tbl : list SIPPNode) : list SIPPNode :=
  List.filter (fun n => timestep n =? Z.of_nat t) tbl.

(** What the levels hold after a part [pre] of the table has been read:
    every node read has a level, level [t] holds the nodes of timestep [t],
    and the last level is not empty. *)
Definition levels_of (pre : list SIPPNode) (levels : list (list SIPPNode))
    : Prop :=
  (∀ n, In n pre → 0 ≤ timestep n < Z.of_nat (length levels)) ∧
  (∀ t, (t < length levels)%nat → levels !! t = Some (at_timestep t pre)) ∧
  (levels ≠ [] → at_timestep (length levels - 1) pre ≠ []).

(** ** InitLNS::getSolverName (src/inc/InitLNS.h) *)

Section SolverName.

Import Ascii String.
Local Open Scope string_scope.

(** [string getSolverName() const] (line 30), for the two members
    [init_algo_name] and [replan_algo_name] that it reads. *)
Definition getSolverName (init_algo_name replan_algo_name : string) : string :=
  ((("InitLNS(" ++ init_algo_name) ++ ";") ++ replan_algo_name) ++ ")".

(** A character occurs in a string. *)
Fixpoint occurs (c : ascii) (s : string) : bool :=
  match s with
  | EmptyString => false
  | String a rest => Ascii.eqb a c || occurs c rest
  end.

End SolverName.

Module Cases.

(** A store of three nodes: the start on cell 0, a child on cell 2 at time
    1, and its child on cell 1 at time 3, reached after a wait. *)
Definition chain : list SIPPNode :=
  [ mkSIPPNode 0 0 2 None 0 (0, 1000, 0) 0 false false false;
    mkSIPPNode 2 1 1 (Some 0%nat) 1 (0, 1000, 0) 0 false false false;
    mkSIPPNode 1 3 0 (Some 1%nat) 3 (3, 1000, 0) 0 true false false ].

(** No constraint at all: nothing is constrained, and the world is static
    from time 0 on. *)
Definition nothing (ct : ConstraintTable) (loc t : Z) : bool := false.
Definition no_edge (ct : ConstraintTable) (from to t : Z) : bool := false.
Definition static_from (t : Z) (ct : ConstraintTable) : Z := t.

(** Cell 2 is taken at time 1. *)
Definition cell2_at_1 (ct : ConstraintTable) (loc t : Z) : bool :=
  (loc =? 2) && (t =? 1).

(** The distance between two cells of the row 0 - 2 - 1. *)
Definition row_distance (from to : Z) : Z :=
  Z.abs (Example.row_heuristic from - Example.row_heuristic to).

(** getTravelTime on the row, and turns of its loop from cell 0. *)
Abbreviation row_getTravelTime vertex static :=
  (getTravelTime Example.row_neighbors row_distance vertex no_edge
     (static_from static) Example.MAX_TIMESTEP Example.open_first).
Abbreviation row_travel_after vertex n end_location upper_bound static :=
  (getTravelTime_turns Example.row_neighbors row_distance vertex no_edge
     Example.open_first n Example.free_ct end_location upper_bound static
     (startTravel row_distance 0 end_location Example.idle_planner)).

(** The state of mode A on the row after [n] turns of the loop of findPath,
    and that of mode B after [n] turns of the loop of findSuboptimalPath
    with the lower bound 0 and the factor of the idle planner, 1. *)
Abbreviation rowA_after sit ct n :=
  (findPath_turns Example.row_neighbors 1 Example.row_heuristic
     Example.focal_first (-1) n ct (Example.table sit ct 1)
     (Example.rowA_holding ct)
     (get_first_safe_interval (Example.table sit ct 1) 0)
     (startFocal 0 Example.row_heuristic (Example.rowA_holding ct)
        (get_first_safe_interval (Example.table sit ct 1) 0)
        (set_num_generated 0 (set_num_expanded 0 Example.idle_planner)))).
Abbreviation rowB_after sit ct n :=
  (findSuboptimalPath_turns Example.row_neighbors 1 Example.row_heuristic
     Example.focal_first Example.open_first (-1) n (Example.table sit ct 1)
     (Example.rowA_holding ct)
     (get_first_safe_interval (Example.table sit ct 1) 0)
     (startOpen 0 Example.row_heuristic (Example.rowA_holding ct) 0
        (get_first_safe_interval (Example.table sit ct 1) 0)
        (set_num_generated 0 (set_num_expanded 0 Example.idle_planner)))).

(** A planner that an earlier search has left with the factor 3/2, the
    bound 7 and its counters. *)
Definition used_planner : SIPP := mkSIPP (3 # 2) 7 4 9 [] [] [].

(** A planner with one closed node, on cell 2 at time 1, in no heap. *)
Definition one_closed : SIPP :=
  mkSIPP 1%Q 3 0 0 [] []
    [mkSIPPNode 2 1 1 None 1 (0, 1000, 0) 0 false false false].

(** The row of [late_sit] as a reservation table for the goal, cell 1, and
    the holding time 3 of [late_ct] gives it: the free times of the goal
    before time 10 are two intervals, split at time 3. *)
Definition split_sit (loc : Z) : list Interval :=
  if loc =? 0 then [(0, Example.MAX_TIMESTEP, 0)]
  else if loc =? 2 then [(0, 4, 1); (4, Example.MAX_TIMESTEP, 0)]
  else if loc =? 1
  then [(0, 3, 0); (3, 10, 0); (10, Example.MAX_TIMESTEP, 1)]
  else [].

(** A grid of two rows and six columns, cells numbered row by row; the
    cells 2 to 5 are obstacles:
<<
       0   1   @   @   @   @
       6   7   8   9  10  11
>>
    The agent goes from cell 7 to cell 11.  Neighbours are listed in the
    order right, left, down, up. *)
Definition grid_neighbors (loc : Z) : list Z :=
  if loc =? 0 then [1; 6] else if loc =? 1 then [0; 7]
  else if loc =? 6 then [7; 0] else if loc =? 7 then [8; 6; 1]
  else if loc =? 8 then [9; 7] else if loc =? 9 then [10; 8]
  else if loc =? 10 then [11; 9] else if loc =? 11 then [10] else [].

(** The distance to cell 11, and a heuristic that never exceeds it but drops
    by 4 from cell 6 to its neighbour, cell 0. *)
Definition grid_distance (loc : Z) : Z :=
  if loc =? 0 then 6 else if loc =? 1 then 5 else if loc =? 6 then 5
  else if loc =? 7 then 4 else if loc =? 8 then 3 else if loc =? 9 then 2
  else if loc =? 10 then 1 else 0.
Definition grid_heuristic (loc : Z) : Z :=
  if loc =? 1 then 1 else if loc =? 6 then 4 else if loc =? 7 then 3
  else if loc =? 8 then 3 else if loc =? 9 then 2 else if loc =? 10 then 1
  else 0.

(** Cell 1 is hard-constrained before time 2; other agents stand on the
    cells 0 and 8 at all times. *)
Definition grid_sit (loc : Z) : list Interval :=
  if loc =? 1 then [(2, Example.MAX_TIMESTEP, 0)]
  else if loc =? 0 then [(0, Example.MAX_TIMESTEP, 1)]
  else if loc =? 8 then [(0, Example.MAX_TIMESTEP, 1)]
  else [(0, Example.MAX_TIMESTEP, 0)].

(** Mode B on this grid with the factor 2 and the lower bound 0, under a
    given [top()] of OPEN. *)
Abbreviation gridB top :=
  (findSuboptimalPath grid_neighbors 7 11 grid_heuristic
     (Example.table grid_sit) unit unit (fun ct _ _ => ct)
     (fun ct _ _ => ct) Example.focal_first top (-1)).
Abbreviation grid_table := (Example.table grid_sit Example.free_ct 11).
Abbreviation grid_start :=
  (startOpen 7 grid_heuristic 0 0 (get_first_safe_interval grid_table 7)
     (set_num_generated 0
        (set_num_expanded 0 (set_w 2 Example.idle_planner)))).
Abbreviation gridB_loop top fuel :=
  (findSuboptimalPath_loop grid_neighbors 11 grid_heuristic
     Example.focal_first top (-1) fuel grid_table 0 []).
Abbreviation gridB_turns top n :=
  (findSuboptimalPath_turns grid_neighbors 11 grid_heuristic
     Example.focal_first top (-1) n grid_table 0
     (get_first_safe_interval grid_table 7) grid_start).

(** The node on cell 0, at index 4 of the store: as the second turn pushes
    it to OPEN, a child of the node on cell 1 at time 3 with f = 3, and as
    the third turn leaves it, overwritten in place by the child of the node
    on cell 6, at time 2 and with f = 5 by path-max. *)
Definition grid_pushed : SIPPNode :=
  mkSIPPNode 0 3 0 (Some 3%nat) 3 (0, 1000, 1) 1 true false false.
Definition grid_copied : SIPPNode :=
  mkSIPPNode 0 2 3 (Some 2%nat) 2 (0, 1000, 1) 1 true false false.

(** The planner after one, two and three turns of the loop. *)
Definition grid_after1 : SIPP :=
  mkSIPP 2 3 1 4 [1; 2; 3]%nat [1; 2; 3]%nat
    [ mkSIPPNode 7 0 3 None 0 (0, 1000, 0) 0 false false false;
      mkSIPPNode 8 1 3 (Some 0%nat) 1 (0, 1000, 1) 1 true false false;
      mkSIPPNode 6 1 4 (Some 0%nat) 1 (0, 1000, 0) 0 true false false;
      mkSIPPNode 1 2 1 (Some 0%nat) 2 (2, 1000, 0) 0 true false false ].
Definition grid_after2 : SIPP :=
  mkSIPP 2 3 2 5 [1; 2; 4]%nat [1; 2; 4]%nat
    [ mkSIPPNode 7 0 3 None 0 (0, 1000, 0) 0 false false false;
      mkSIPPNode 8 1 3 (Some 0%nat) 1 (0, 1000, 1) 1 true false false;
      mkSIPPNode 6 1 4 (Some 0%nat) 1 (0, 1000, 0) 0 true false false;
      mkSIPPNode 1 2 1 (Some 0%nat) 2 (2, 1000, 0) 0 false false false;
      grid_pushed ].
Definition grid_after3 : SIPP :=
  mkSIPP 2 3 3 5 [1; 4]%nat [1; 4]%nat
    [ mkSIPPNode 7 0 3 None 0 (0, 1000, 0) 0 false false false;
      mkSIPPNode 8 1 3 (Some 0%nat) 1 (0, 1000, 1) 1 true false false;
      mkSIPPNode 6 1 4 (Some 0%nat) 1 (0, 1000, 0) 0 false false false;
      mkSIPPNode 1 2 1 (Some 0%nat) 2 (2, 1000, 0) 0 false false false;
      grid_copied ].

(** [top()] of an OPEN that was not told of the copy: the node at index 4
    is ranked by the contents it was pushed with, every other node by its
    contents. *)
Definition open_as_told (nodes : list SIPPNode) (heap : list nat)
    : option nat :=
  Example.open_first (<[4%nat := grid_pushed]> nodes) heap.

End Cases.


(** * Properties *)

(** ** Elementary facts *)

Lemma rbind_Ok {A B : Type} (m : result A) (k : A → result B) (b : B) :
  rbind m k = Ok b → ∃ a, m = Ok a ∧ k a = Ok b.
Proof. destruct m; simpl; intros H; try discriminate. eauto. Qed.

Lemma find_from_Some (key : SIPPNode) (tbl : list SIPPNode) :
  ∀ i e n, find_from i key tbl = Some (e, n) →
    (i ≤ e)%nat ∧ tbl !! (e - i)%nat = Some n ∧ eqnode n key = true.
Proof.
  induction tbl as [|x tbl IH]; intros i e n H; simpl in H; [discriminate|].
  destruct (eqnode x key) eqn:E.
  - inversion H; subst. rewrite Nat.sub_diag. auto.
  - apply IH in H as (Hle & Hl & He).
    split; [lia|]. split; [|exact He].
    replace (e - i)%nat with (S (e - S i)) by lia. exact Hl.
Qed.

Lemma find_node_Some (key : SIPPNode) (tbl : list SIPPNode) e n :
  find_node key tbl = Some (e, n) → tbl !! e = Some n ∧ eqnode n key = true.
Proof.
  intros H. apply find_from_Some in H as (_ & Hl & He).
  rewrite Nat.sub_0_r in Hl. auto.
Qed.

Lemma eqnode_true (n1 n2 : SIPPNode) :
  eqnode n1 n2 = true →
  location n1 = location n2 ∧ get0 (interval n1) = get0 (interval n2) ∧
  is_goal n1 = is_goal n2.
Proof.
  unfold eqnode. intros H.
  apply andb_true_iff in H as [H H3]. apply andb_true_iff in H as [H1 H2].
  apply Z.eqb_eq in H1, H2. apply eqb_prop in H3. auto.
Qed.

Lemma dominates_true (next existing : SIPPNode) :
  dominates next existing = true →
  timestep next < timestep existing ∨
  (timestep existing = timestep next ∧
   num_of_conflicts next < num_of_conflicts existing).
Proof.
  unfold dominates. intros H. apply orb_true_iff in H as [H|H].
  - left. lia.
  - apply andb_true_iff in H as [H1 H2]. right. lia.
Qed.

Lemma dominates_false (next existing : SIPPNode) :
  dominates next existing = false →
  ¬ (timestep next < timestep existing ∨
     (timestep existing = timestep next ∧
      num_of_conflicts next < num_of_conflicts existing)).
Proof.
  unfold dominates. intros H. apply orb_false_iff in H as [H1 H2].
  apply andb_false_iff in H2. lia.
Qed.

(** ** Writing a path *)

Lemma path_set_Ok (path : Path) (t l : Z) (p : Path) :
  path_set path t l = Ok p →
  0 ≤ t < Z.of_nat (length path) ∧ p = <[Z.to_nat t := l]> path.
Proof.
  unfold path_set. destruct (0 <=? t) eqn:E1; simpl; [|discriminate].
  destruct (t <? Z.of_nat (length path)) eqn:E2; [|discriminate].
  intros H. inversion H. split; [lia|reflexivity].
Qed.

Lemma path_set_in_range (path : Path) (t l : Z) :
  0 ≤ t < Z.of_nat (length path) →
  path_set path t l = Ok (<[Z.to_nat t := l]> path).
Proof.
  intros H. unfold path_set.
  destruct (0 <=? t) eqn:E1; [|lia].
  destruct (t <? Z.of_nat (length path)) eqn:E2; [|lia]. reflexivity.
Qed.

Lemma fill_wait_in_range (n : nat) : ∀ (t l : Z) (path : Path),
  0 ≤ t → t + Z.of_nat n ≤ Z.of_nat (length path) →
  ∃ p, fill_wait n t l path = Ok p ∧ length p = length path ∧
       (∀ k : nat, t ≤ Z.of_nat k < t + Z.of_nat n → p !! k = Some l) ∧
       (∀ k : nat, ¬ (t ≤ Z.of_nat k < t + Z.of_nat n) → p !! k = path !! k).
Proof.
  induction n as [|n IH]; intros t l path Ht Hlen; simpl.
  - exists path. repeat split; auto. intros k Hk. lia.
  - rewrite path_set_in_range by lia. simpl.
    destruct (IH (t + 1) l (<[Z.to_nat t := l]> path)) as (p & Hp & Hl & Hin & Hout).
    { lia. } { rewrite length_insert. lia. }
    exists p. rewrite length_insert in Hl. repeat split; auto.
    + intros k Hk. destruct (decide (Z.of_nat k = t)) as [E|E].
      * rewrite Hout by lia. replace k with (Z.to_nat t) by lia.
        apply list_lookup_insert_eq. lia.
      * apply Hin. lia.
    + intros k Hk. rewrite Hout by lia.
      apply list_lookup_insert_ne. lia.
Qed.

Lemma fill_wait_length (n : nat) : ∀ (t l : Z) (path p : Path),
  fill_wait n t l path = Ok p → length p = length path.
Proof.
  induction n as [|n IH]; intros t l path p H; simpl in H.
  - inversion H. reflexivity.
  - apply rbind_Ok in H as (p1 & H1 & H2).
    apply path_set_Ok in H1 as [_ ->]. apply IH in H2.
    rewrite length_insert in H2. exact H2.
Qed.

Lemma walk_parents_length (fuel : nat) (nodes : list SIPPNode) :
  ∀ (curr : nat) (path p : Path),
  walk_parents fuel nodes curr path = Ok p → length p = length path.
Proof.
  induction fuel as [|fuel IH]; intros curr path p H; simpl in H; [discriminate|].
  destruct (nodes !! curr) as [c|]; [|discriminate].
  destruct (parent c) as [pi|].
  - destruct (nodes !! pi) as [prev|]; [|discriminate].
    apply rbind_Ok in H as (p1 & H1 & H). apply rbind_Ok in H as (p2 & H2 & H).
    apply fill_wait_length in H1. apply path_set_Ok in H2 as [_ ->].
    apply IH in H. rewrite length_insert in H. congruence.
  - destruct (timestep c =? 0); [|discriminate].
    apply path_set_Ok in H as [_ ->]. apply length_insert.
Qed.

(** ** The search tree of mode A *)

Section SearchTree.

Variable getNeighbors : Z → list Z.
Variable start_location goal_location : Z.

Local Abbreviation step_ok := (step_ok getNeighbors).
Local Abbreviation node_ok := (node_ok getNeighbors start_location goal_location).
Local Abbreviation tree_ok := (tree_ok getNeighbors start_location goal_location).

Lemma stable_refl nodes : stable nodes nodes.
Proof. intros i n H. exists n. repeat split; auto. lia. Qed.

Lemma stable_trans n1 n2 n3 : stable n1 n2 → stable n2 n3 → stable n1 n3.
Proof.
  intros H12 H23 i n H.
  destruct (H12 i n H) as (n' & H' & Hl & Hg & Ht).
  destruct (H23 i n' H') as (n'' & H'' & Hl' & Hg' & Ht').
  exists n''. repeat split; auto; try congruence. lia.
Qed.

Lemma node_ok_stable nodes nodes' n :
  stable nodes nodes' → node_ok nodes n → node_ok nodes' n.
Proof.
  intros Hst [Ht Hp]. split; [exact Ht|].
  destruct (parent n) as [j|]; [|exact Hp].
  destruct Hp as (p & Hj & Hg & Hrel).
  destruct (Hst j p Hj) as (p' & Hj' & Hl' & Hg' & Ht').
  exists p'. split; [exact Hj'|]. split; [congruence|].
  destruct (is_goal n).
  - destruct Hrel. split; congruence.
  - destruct Hrel as [Hlt Hstep]. split; [lia|]. rewrite Hl'. exact Hstep.
Qed.

Lemma stable_app nodes n : stable nodes (nodes ++ [n]).
Proof.
  intros i m H. exists m. rewrite lookup_app_l by (eapply lookup_lt_Some; eauto).
  repeat split; auto. lia.
Qed.

Lemma stable_insert nodes e old new :
  nodes !! e = Some old → location new = location old →
  is_goal new = is_goal old → timestep new ≤ timestep old →
  stable nodes (<[e := new]> nodes).
Proof.
  intros He Hl Hg Ht i n H. destruct (decide (e = i)) as [->|Hne].
  - exists new. rewrite list_lookup_insert_eq by (eapply lookup_lt_Some; eauto).
    assert (n = old) by congruence. subst. auto.
  - exists n. rewrite list_lookup_insert_ne by exact Hne.
    repeat split; auto. lia.
Qed.

Lemma tree_ok_app nodes n :
  tree_ok nodes → node_ok nodes n → tree_ok (nodes ++ [n]).
Proof.
  intros Htree Hn i m H. apply node_ok_stable with nodes; [apply stable_app|].
  apply lookup_app_Some in H as [H|[_ H]].
  - eauto.
  - destruct (i - length nodes)%nat; simpl in H; [|destruct n0; discriminate].
    inversion H; subst. exact Hn.
Qed.

Lemma tree_ok_insert nodes e old new :
  tree_ok nodes → nodes !! e = Some old → location new = location old →
  is_goal new = is_goal old → timestep new ≤ timestep old →
  node_ok nodes new → tree_ok (<[e := new]> nodes).
Proof.
  intros Htree He Hl Hg Ht Hn i m H.
  apply node_ok_stable with nodes; [eapply stable_insert; eauto|].
  destruct (decide (e = i)) as [->|Hne].
  - rewrite list_lookup_insert_eq in H by (eapply lookup_lt_Some; eauto).
    inversion H; subst. exact Hn.
  - rewrite list_lookup_insert_ne in H by exact Hne. eauto.
Qed.

Lemma node_ok_flags n n' nodes :
  timestep n' = timestep n → parent n' = parent n →
  location n' = location n → is_goal n' = is_goal n →
  node_ok nodes n → node_ok nodes n'.
Proof.
  unfold node_ok. intros -> -> -> ->. auto.
Qed.

(** The outer loop of updatePath on a store that satisfies [tree_ok], from
    a node that is not a virtual goal node: it ends, and the entries up to
    the timestep of the node are those of its parent chain. *)
Lemma walk_parents_tree (nodes : list SIPPNode) (Htree : tree_ok nodes) :
  ∀ (fuel i : nat) (n : SIPPNode) (path : Path),
  nodes !! i = Some n → is_goal n = false →
  timestep n < Z.of_nat (length path) →
  (Z.to_nat (timestep n) < fuel)%nat →
  ∃ p, walk_parents fuel nodes i path = Ok p ∧
    length p = length path ∧
    (∀ k : nat, timestep n < Z.of_nat k → p !! k = path !! k) ∧
    p !! 0%nat = Some start_location ∧
    p !! Z.to_nat (timestep n) = Some (location n) ∧
    (∀ k : nat, Z.of_nat k < timestep n →
       ∃ a b, p !! k = Some a ∧ p !! S k = Some b ∧ step_ok a b) ∧
    (∀ ci c, on_chain nodes i ci → nodes !! ci = Some c →
       p !! Z.to_nat (timestep c) = Some (location c) ∧
       match parent c with
       | Some qi =>
         ∀ q, nodes !! qi = Some q →
           ∀ k : nat, timestep q < Z.of_nat k < timestep c →
             p !! k = Some (location q)
       | None => timestep c = 0
       end).
Proof.
  induction fuel as [|fuel IH]; intros i n path Hi Hg Hlen Hfuel; [lia|].
  simpl. rewrite Hi.
  destruct (Htree i n Hi) as [Ht Hpar].
  destruct (parent n) as [pi|] eqn:Epar.
  - destruct Hpar as (prev & Hpi & Hgp & Hrel). rewrite Hg in Hrel.
    destruct Hrel as [Hlt Hstep]. rewrite Hpi.
    destruct (Htree pi prev Hpi) as [Htp _].
    destruct (fill_wait_in_range
                (Z.to_nat (timestep n - (timestep prev + 1)))
                (timestep prev + 1) (location prev) path)
      as (p1 & Hp1 & Hl1 & Hin1 & Hout1); [lia|lia|].
    rewrite Hp1. simpl. rewrite path_set_in_range by lia. simpl.
    set (p2 := <[Z.to_nat (timestep n) := location n]> p1).
    assert (Hl2 : length p2 = length path)
      by (unfold p2; rewrite length_insert; exact Hl1).
    destruct (IH pi prev p2 Hpi Hgp) as
      (p & Hp & Hl & Hhigh & H0 & Hat & Hadj & Hchain); [lia|lia|].
    assert (Hn : p !! Z.to_nat (timestep n) = Some (location n)).
    { rewrite Hhigh by lia. unfold p2. apply list_lookup_insert_eq. lia. }
    assert (Hmid : ∀ k : nat, timestep prev < Z.of_nat k < timestep n →
                     p !! k = Some (location prev)).
    { intros k Hk. rewrite Hhigh by lia. unfold p2.
      rewrite list_lookup_insert_ne by lia. apply Hin1. lia. }
    exists p. split; [exact Hp|]. split; [congruence|].
    split; [|split; [exact H0|split; [exact Hn|split]]].
    + intros k Hk. rewrite Hhigh by lia. unfold p2.
      rewrite list_lookup_insert_ne by lia. apply Hout1. lia.
    + intros k Hk.
      destruct (Z_lt_dec (Z.of_nat k) (timestep prev)) as [Hlow|Hlow];
        [apply Hadj; exact Hlow|].
      assert (Ha : p !! k = Some (location prev)).
      { destruct (decide (Z.of_nat k = timestep prev)) as [E|E].
        - replace k with (Z.to_nat (timestep prev)) by lia. exact Hat.
        - apply Hmid. lia. }
      destruct (decide (Z.of_nat (S k) = timestep n)) as [E|E].
      * exists (location prev), (location n). split; [exact Ha|].
        split; [|exact Hstep].
        replace (S k) with (Z.to_nat (timestep n)) by lia. exact Hn.
      * exists (location prev), (location prev). split; [exact Ha|].
        split; [apply Hmid; lia|left; reflexivity].
    + intros ci c Hon Hci. inversion Hon as [|? pj ? c0 Hi0 Hpar0 Hon']; subst.
      * assert (c = n) by congruence. subst c. split; [exact Hn|].
        rewrite Epar. intros q Hq k Hk.
        assert (q = prev) by congruence. subst q. apply Hmid. exact Hk.
      * assert (c0 = n) by congruence. subst c0.
        assert (pj = pi) by congruence. subst pj.
        apply (Hchain ci c Hon' Hci).
  - destruct Hpar as (Ht0 & Hloc & _). rewrite Ht0. simpl.
    rewrite path_set_in_range by lia. simpl.
    exists (<[0%nat := location n]> path).
    split; [reflexivity|]. split; [apply length_insert|].
    assert (H0 : <[0%nat := location n]> path !! 0%nat = Some (location n))
      by (apply list_lookup_insert_eq; lia).
    split; [|split; [congruence|split; [|split]]].
    + intros k Hk. apply list_lookup_insert_ne. lia.
    + exact H0.
    + intros k Hk. lia.
    + intros ci c Hon Hci. inversion Hon as [|? pj ? c0 Hi0 Hpar0 Hon']; subst.
      * assert (c = n) by congruence. subst c. rewrite Epar, Ht0.
        split; [exact H0|reflexivity].
      * congruence.
Qed.

End SearchTree.

Lemma goals_open_app nodes n :
  goals_open nodes → (is_goal n = true → in_openlist n = true) →
  goals_open (nodes ++ [n]).
Proof.
  intros Hopen Hn i m H Hg. apply lookup_app_Some in H as [H|[_ H]].
  - eauto.
  - destruct (i - length nodes)%nat; simpl in H; [|destruct n0; discriminate].
    inversion H; subst. auto.
Qed.

Lemma goals_open_insert nodes e n :
  goals_open nodes → (is_goal n = true → in_openlist n = true) →
  goals_open (<[e := n]> nodes).
Proof.
  intros Hopen Hn i m H Hg. destruct (decide (e = i)) as [->|Hne].
  - apply list_lookup_insert_Some in H as [(_ & <- & _)|[? _]]; [auto|congruence].
  - rewrite list_lookup_insert_ne in H by exact Hne. eauto.
Qed.

(** ** Mode A keeps the search tree *)

Section ModeA.

Variable getNeighbors : Z → list Z.
Variable start_location goal_location : Z.
Variable my_heuristic : Z → Z.
Variable focal_top : list SIPPNode → list nat → option nat.
Variable PathEntry_default : Z.

Local Abbreviation step_ok := (step_ok getNeighbors).
Local Abbreviation node_ok := (node_ok getNeighbors start_location goal_location).
Local Abbreviation tree_ok := (tree_ok getNeighbors start_location goal_location).
Local Abbreviation childToFocal := (childToFocal goal_location).
Local Abbreviation generateChildToFocal := (generateChildToFocal goal_location).
Local Abbreviation moveIntervalsToFocal := (moveIntervalsToFocal goal_location).
Local Abbreviation moveToFocal := (moveToFocal goal_location my_heuristic).
Local Abbreviation waitToFocal := (waitToFocal goal_location).
Local Abbreviation expandToFocal :=
  (expandToFocal getNeighbors goal_location my_heuristic).
Local Abbreviation popFocal := (popFocal focal_top).
Local Abbreviation updatePath := (updatePath PathEntry_default).
Local Abbreviation findPath_turn :=
  (findPath_turn getNeighbors goal_location my_heuristic focal_top
     PathEntry_default).
Local Abbreviation findPath_loop :=
  (findPath_loop getNeighbors goal_location my_heuristic focal_top
     PathEntry_default).
Local Abbreviation findPath_reaches :=
  (findPath_reaches getNeighbors goal_location my_heuristic focal_top
     PathEntry_default).
Local Abbreviation startFocal := (startFocal start_location my_heuristic).

Local Abbreviation kept := (kept getNeighbors start_location goal_location).

Lemma kept_refl nodes : tree_ok nodes → goals_open nodes → kept nodes nodes.
Proof. intros. split; [|split]; auto using stable_refl. Qed.

Lemma kept_trans n1 n2 n3 : kept n1 n2 → kept n2 n3 → kept n1 n3.
Proof.
  intros (_ & _ & H12) (Ht & Ho & H23).
  split; [|split]; eauto using stable_trans.
Qed.

Lemma childToFocal_fields iv curr c nl nh :
  location (childToFocal iv curr c nl nh) = nl ∧
  timestep (childToFocal iv curr c nl nh) = Z.max (timestep c + 1) (get0 iv) ∧
  parent (childToFocal iv curr c nl nh) = Some curr ∧
  is_goal (childToFocal iv curr c nl nh) = false.
Proof.
  unfold childToFocal.
  destruct ((nl =? goal_location) && (location c =? goal_location));
    simpl; auto.
Qed.

Lemma generateChildToFocal_kept iv curr c nl nh s s' :
  tree_ok (allNodes_table s) → goals_open (allNodes_table s) →
  allNodes_table s !! curr = Some c → is_goal c = false →
  step_ok (location c) nl →
  generateChildToFocal iv curr nl nh s = Ok s' →
  kept (allNodes_table s) (allNodes_table s').
Proof.
  intros Htree Hopen Hc Hg Hstep H.
  unfold generateChildToFocal in H. rewrite Hc in H.
  destruct (childToFocal_fields iv curr c nl nh) as (Fl & Ft & Fp & Fg).
  remember (childToFocal iv curr c nl nh) as next eqn:En. clear En.
  assert (Hnext : node_ok (allNodes_table s) next).
  { destruct (Htree curr c Hc) as [Htc _].
    unfold node_ok. rewrite Fp, Fg, Ft, Fl. split; [lia|].
    exists c. repeat split; auto. lia. }
  destruct (find_node next (allNodes_table s)) as [[e existing]|] eqn:Ef.
  - apply find_node_Some in Ef as [He Heq].
    apply eqnode_true in Heq as (Hl & _ & Hig).
    destruct (dominates next existing) eqn:Ed.
    + apply dominates_true in Ed.
      assert (Hkept : ∀ b, kept (allNodes_table s)
                (<[e := set_in_openlist b (copy existing next)]>
                   (allNodes_table s))).
      { intros b. split; [|split].
        - eapply tree_ok_insert;
            [exact Htree|exact He|simpl; congruence|simpl; congruence
            |simpl; lia|].
          eapply node_ok_flags; [| | | |exact Hnext]; reflexivity.
        - apply goals_open_insert; [exact Hopen|]. simpl. congruence.
        - eapply stable_insert; eauto; simpl; try congruence; lia. }
      destruct (negb (in_openlist (copy existing next))) eqn:Eo;
        inversion H; subst; simpl.
      * apply Hkept.
      * exact (Hkept (in_openlist existing)).
    + inversion H; subst. apply kept_refl; auto.
  - inversion H; subst. simpl. split; [|split].
    + apply tree_ok_app; [exact Htree|].
      eapply node_ok_flags; [| | | |exact Hnext]; reflexivity.
    + apply goals_open_app; [exact Hopen|]. simpl. congruence.
    + apply stable_app.
Qed.

Lemma at_curr_stable nodes nodes' curr loc :
  stable nodes nodes' → at_curr nodes curr loc → at_curr nodes' curr loc.
Proof.
  intros Hst (c & Hc & Hl & Hg).
  destruct (Hst curr c Hc) as (c' & Hc' & Hl' & Hg' & _).
  exists c'. repeat split; congruence.
Qed.

Lemma moveIntervalsToFocal_kept ct curr loc nl nh :
  step_ok loc nl →
  ∀ ivs s s',
    tree_ok (allNodes_table s) → goals_open (allNodes_table s) →
    at_curr (allNodes_table s) curr loc →
    moveIntervalsToFocal ct curr nl nh ivs s = Ok s' →
    kept (allNodes_table s) (allNodes_table s').
Proof.
  intros Hstep. induction ivs as [|iv ivs IH]; intros s s' Htree Hopen Hat H;
    simpl in H.
  - inversion H; subst. apply kept_refl; auto.
  - destruct Hat as (c & Hc & Hl & Hg). rewrite Hc in H.
    destruct (length_max ct <? Z.max (timestep c + 1) (get0 iv) + nh).
    + inversion H; subst. apply kept_refl; auto.
    + apply rbind_Ok in H as (s1 & H1 & H2).
      assert (K1 : kept (allNodes_table s) (allNodes_table s1)).
      { eapply generateChildToFocal_kept; eauto. rewrite Hl. exact Hstep. }
      eapply kept_trans; [exact K1|].
      destruct K1 as (T1 & O1 & S1). apply IH; auto.
      eapply at_curr_stable; [exact S1|]. exists c. auto.
Qed.

Lemma moveToFocal_kept ct rt curr loc :
  ∀ nbrs s s',
    (∀ x, In x nbrs → In x (getNeighbors loc)) →
    tree_ok (allNodes_table s) → goals_open (allNodes_table s) →
    at_curr (allNodes_table s) curr loc →
    moveToFocal ct rt curr nbrs s = Ok s' →
    kept (allNodes_table s) (allNodes_table s').
Proof.
  induction nbrs as [|nl nbrs IH]; intros s s' Hin Htree Hopen Hat H;
    simpl in H.
  - inversion H; subst. apply kept_refl; auto.
  - destruct Hat as (c & Hc & Hl & Hg). rewrite Hc in H.
    apply rbind_Ok in H as (s1 & H1 & H2).
    assert (K1 : kept (allNodes_table s) (allNodes_table s1)).
    { eapply moveIntervalsToFocal_kept with (loc := loc); eauto.
      - right. apply Hin. left. reflexivity.
      - exists c. auto. }
    eapply kept_trans; [exact K1|].
    destruct K1 as (T1 & O1 & S1). apply IH; auto.
    + intros x Hx. apply Hin. right. exact Hx.
    + eapply at_curr_stable; [exact S1|]. exists c. auto.
Qed.

Lemma waitToFocal_kept rt curr loc iv s s' iv' :
  tree_ok (allNodes_table s) → goals_open (allNodes_table s) →
  at_curr (allNodes_table s) curr loc →
  waitToFocal rt curr iv s = Ok (s', iv') →
  kept (allNodes_table s) (allNodes_table s').
Proof.
  intros Htree Hopen (c & Hc & Hl & Hg) H. unfold waitToFocal in H.
  rewrite Hc in H.
  destruct (find_safe_interval rt iv (location c) (get1 (interval c)))
    as [found iv1].
  destruct found.
  - apply rbind_Ok in H as (s1 & H1 & H2). inversion H2; subst.
    eapply generateChildToFocal_kept; eauto. left. reflexivity.
  - inversion H; subst. apply kept_refl; auto.
Qed.

Lemma expandToFocal_kept ct rt curr loc iv s s' iv' :
  tree_ok (allNodes_table s) → goals_open (allNodes_table s) →
  at_curr (allNodes_table s) curr loc →
  expandToFocal ct rt curr iv s = Ok (s', iv') →
  kept (allNodes_table s) (allNodes_table s').
Proof.
  intros Htree Hopen Hat H. unfold expandToFocal in H.
  destruct Hat as (c & Hc & <- & Hg). rewrite Hc in H.
  apply rbind_Ok in H as (s1 & H1 & H2).
  assert (Hat : at_curr (allNodes_table s) curr (location c))
    by (exists c; auto).
  assert (K1 : kept (allNodes_table s) (allNodes_table s1)).
  { eapply moveToFocal_kept with (loc := location c);
      [|exact Htree|exact Hopen|exact Hat|exact H1]. auto. }
  eapply kept_trans; [exact K1|].
  destruct K1 as (T1 & O1 & S1).
  eapply waitToFocal_kept with (loc := location c);
    [exact T1|exact O1| |exact H2].
  eapply at_curr_stable; [exact S1|exact Hat].
Qed.

Lemma popFocal_Ok s curr c s1 :
  popFocal s = Ok (curr, c, s1) →
  ∃ c0, allNodes_table s !! curr = Some c0 ∧ c = set_in_openlist false c0 ∧
        focal_top (allNodes_table s) (focal_list s) = Some curr ∧
        allNodes_table s1 = <[curr := c]> (allNodes_table s) ∧
        focal_list s1 = heap_erase curr (focal_list s) ∧
        num_expanded s1 = num_expanded s + 1.
Proof.
  unfold popFocal. intros H.
  destruct (focal_top (allNodes_table s) (focal_list s)) as [i|] eqn:Et;
    [|discriminate].
  destruct (allNodes_table s !! i) as [c0|] eqn:Ec; [|discriminate].
  destruct (heap_mem i (focal_list s)); [|discriminate].
  inversion H; subst. exists c0. repeat split; auto.
Qed.

Lemma popFocal_kept s curr c s1 :
  tree_ok (allNodes_table s) → popFocal s = Ok (curr, c, s1) →
  tree_ok (allNodes_table s1) ∧ allNodes_table s1 !! curr = Some c ∧
  (goals_open (allNodes_table s) → is_goal c = false →
   goals_open (allNodes_table s1)).
Proof.
  intros Htree H. apply popFocal_Ok in H as (c0 & Hc0 & -> & _ & Hn & _).
  rewrite Hn. split; [|split].
  - eapply tree_ok_insert; [exact Htree|exact Hc0| | | |]; simpl;
      try reflexivity; try lia.
    eapply node_ok_flags; [| | | |exact (Htree curr c0 Hc0)]; reflexivity.
  - apply list_lookup_insert_eq. eapply lookup_lt_Some; eauto.
  - intros Hopen Hg. apply goals_open_insert; [exact Hopen|].
    simpl in *. congruence.
Qed.

Lemma generateGoalNode_kept curr c fc s s' :
  tree_ok (allNodes_table s) → goals_open (allNodes_table s) →
  allNodes_table s !! curr = Some c → is_goal c = false →
  location c = goal_location →
  generateGoalNode curr c fc s = Ok s' →
  kept (allNodes_table s) (allNodes_table s').
Proof.
  intros Htree Hopen Hc Hg Hloc H. unfold generateGoalNode in H.
  assert (Hgoal : node_ok (allNodes_table s) (goalNode curr c fc)).
  { destruct (Htree curr c Hc) as [Htc _]. split; [exact Htc|]. simpl.
    exists c. auto. }
  destruct (find_node (goalNode curr c fc) (allNodes_table s))
    as [[e existing]|] eqn:Ef.
  - apply find_node_Some in Ef as [He Heq].
    apply eqnode_true in Heq as (Hl & _ & Hig). simpl in Hl, Hig.
    destruct (dominates (goalNode curr c fc) existing) eqn:Ed.
    + apply dominates_true in Ed. simpl in Ed.
      destruct (in_openlist existing) eqn:Eo; [|discriminate].
      injection H as <-; simpl. split; [|split].
      * eapply tree_ok_insert;
          [exact Htree|exact He|simpl; congruence|simpl; congruence
          |simpl in *; lia|].
        eapply node_ok_flags; [| | | |exact Hgoal]; reflexivity.
      * apply goals_open_insert; [exact Hopen|]. simpl. auto.
      * eapply stable_insert; [exact He| | |]; simpl in *;
          try congruence; lia.
    + injection H as <-. apply kept_refl; auto.
  - injection H as <-. simpl. split; [|split].
    + apply tree_ok_app; [exact Htree|].
      eapply node_ok_flags; [| | | |exact Hgoal]; reflexivity.
    + apply goals_open_app; [exact Hopen|]. simpl. auto.
    + apply stable_app.
Qed.

(** What a turn of the loop of findPath leaves: a store that satisfies the
    invariant, and, when the loop is left, a terminal node on the goal from
    which the path was rebuilt. *)
Lemma findPath_turn_kept ct rt holding_time path iv s t :
  tree_ok (allNodes_table s) → goals_open (allNodes_table s) →
  findPath_turn ct rt holding_time path iv s = Ok t →
  match t with
  | Continue s' _ =>
    tree_ok (allNodes_table s') ∧ goals_open (allNodes_table s')
  | Break p s1 =>
    tree_ok (allNodes_table s1) ∧
    ∃ term n, allNodes_table s1 !! term = Some n ∧ is_goal n = false ∧
              location n = goal_location ∧
              updatePath (allNodes_table s1) (Some term) path = Ok p
  end.
Proof.
  intros Htree Hopen H. unfold findPath_turn in H.
  apply rbind_Ok in H as ([[curr c] s1] & Hpop & H).
  destruct (popFocal_kept _ _ _ _ Htree Hpop) as (T1 & Hc & O1).
  destruct (location c <? 0); [discriminate|].
  destruct (is_goal c) eqn:Eg.
  - apply rbind_Ok in H as (p & Hp & H). injection H as <-.
    split; [exact T1|].
    destruct (T1 curr c Hc) as [_ Hpar].
    destruct (parent c) as [j|]; [|destruct Hpar as (_ & _ & ?); congruence].
    destruct Hpar as (pn & Hj & Hgp & Hrel). rewrite Eg in Hrel.
    exists j, pn. destruct Hrel. auto.
  - specialize (O1 Hopen eq_refl).
    assert (Hexp : ∀ s2 r, kept (allNodes_table s1) (allNodes_table s2) →
              expandToFocal ct rt curr iv s2 = Ok r →
              tree_ok (allNodes_table (fst r)) ∧
              goals_open (allNodes_table (fst r))).
    { intros s2 [s3 iv3] (T2 & O2 & S2) Hr. simpl.
      assert (Hat : at_curr (allNodes_table s2) curr (location c)).
      { eapply at_curr_stable; [exact S2|]. exists c. auto. }
      destruct (expandToFocal_kept _ _ _ _ _ _ _ _ T2 O2 Hat Hr)
        as (T3 & O3 & _). auto. }
    destruct ((location c =? goal_location) && negb (wait_at_goal c) &&
              (holding_time <=? timestep c)) eqn:Egoal.
    + apply andb_true_iff in Egoal as [Egoal _].
      apply andb_true_iff in Egoal as [Eloc _]. apply Z.eqb_eq in Eloc.
      destruct (getFutureNumOfCollisions ct (location c) (timestep c) =? 0).
      * apply rbind_Ok in H as (p & Hp & H). injection H as <-.
        split; [exact T1|]. exists curr, c. auto.
      * apply rbind_Ok in H as (s2 & H2 & H).
        apply rbind_Ok in H as (r & Hr & H). injection H as <-.
        eapply Hexp; [|exact Hr].
        eapply generateGoalNode_kept; eauto.
    + apply rbind_Ok in H as (r & Hr & H). injection H as <-.
      eapply Hexp; [|exact Hr]. apply kept_refl; auto.
Qed.

Lemma findPath_reaches_kept ct rt holding_time s0 iv0 s iv :
  tree_ok (allNodes_table s0) → goals_open (allNodes_table s0) →
  findPath_reaches ct rt holding_time s0 iv0 s iv →
  tree_ok (allNodes_table s) ∧ goals_open (allNodes_table s).
Proof.
  intros Htree Hopen Hr. induction Hr as [|s s' iv iv' Hr [IHt IHo] Hturn].
  - auto.
  - exact (findPath_turn_kept _ _ _ _ _ _ _ IHt IHo Hturn).
Qed.

(** The loop of findPath returns the empty path it was entered with, or
    the path of the turn that left it. *)
Lemma findPath_loop_result ct rt holding_time s0 iv0 :
  ∀ fuel s iv p s',
    findPath_reaches ct rt holding_time s0 iv0 s iv →
    findPath_loop fuel ct rt holding_time [] iv s = Ok (p, s') →
    p = [] ∨
    ∃ s2 iv2, findPath_reaches ct rt holding_time s0 iv0 s2 iv2 ∧
              findPath_turn ct rt holding_time [] iv2 s2 = Ok (Break p s').
Proof.
  induction fuel as [|fuel IH]; intros s iv p s' Hr H; simpl in H.
  - destruct (focal_list s); [|discriminate]. inversion H; auto.
  - destruct (focal_list s) as [|x l] eqn:Ef; [inversion H; auto|].
    apply rbind_Ok in H as (t & Ht & H). destruct t as [p1 s1|s1 iv1].
    + inversion H; subst. right. eauto.
    + eapply IH; [|exact H]. eapply reaches_turn; eauto.
Qed.

Lemma resize_length (path : Path) (n : nat) :
  length (resize PathEntry_default path n) = n.
Proof.
  unfold resize. rewrite length_app, length_take, length_replicate. lia.
Qed.

(** updatePath on a store that satisfies the invariant. *)
Lemma updatePath_tree nodes term n p :
  tree_ok nodes → nodes !! term = Some n → is_goal n = false →
  updatePath nodes (Some term) [] = Ok p →
  Z.of_nat (length p) = timestep n + 1 ∧
  p !! 0%nat = Some start_location ∧
  p !! (length p - 1)%nat = Some (location n) ∧
  follows_chain nodes term p ∧
  (∀ (k : nat) a b, p !! k = Some a → p !! S k = Some b → step_ok a b).
Proof.
  intros Htree Hn Hg H. unfold updatePath in H. rewrite Hn in H.
  destruct (Htree term n Hn) as [Ht _].
  destruct (timestep n + 1 <? 0) eqn:E; [lia|]. clear E.
  destruct (walk_parents_tree getNeighbors start_location goal_location
              nodes Htree (S (length nodes + Z.to_nat (timestep n))) term n
              (resize PathEntry_default [] (Z.to_nat (timestep n + 1)))
              Hn Hg)
    as (p' & Hp' & Hl & _ & H0 & Hat & Hadj & Hchain).
  { rewrite resize_length. lia. }
  { lia. }
  rewrite Hp' in H. injection H as <-. rewrite resize_length in Hl.
  split; [lia|]. split; [exact H0|]. split; [|split; [exact Hchain|]].
  - replace (length p' - 1)%nat with (Z.to_nat (timestep n)) by lia.
    exact Hat.
  - intros k a b Ha Hb.
    assert (Hk : Z.of_nat k < timestep n).
    { apply lookup_lt_Some in Hb. lia. }
    destruct (Hadj k Hk) as (a' & b' & Ha' & Hb' & Hstep). congruence.
Qed.

Lemma findPath_reaches_first ct rt holding_time s0 iv0 s1 iv1 s iv :
  findPath_turn ct rt holding_time [] iv0 s0 = Ok (Continue s1 iv1) →
  findPath_reaches ct rt holding_time s1 iv1 s iv →
  findPath_reaches ct rt holding_time s0 iv0 s iv.
Proof.
  intros H0 Hr. induction Hr as [|s s' iv iv' Hr IH Hturn].
  - eapply reaches_turn; [apply reaches_start|exact H0].
  - eapply reaches_turn; [exact IH|exact Hturn].
Qed.

Lemma findPath_turns_reaches ct rt holding_time :
  ∀ n s0 iv0 s iv,
    findPath_turns getNeighbors goal_location my_heuristic focal_top
      PathEntry_default n ct rt holding_time iv0 s0 = Ok (s, iv) →
    findPath_reaches ct rt holding_time s0 iv0 s iv.
Proof.
  induction n as [|n IH]; intros s0 iv0 s iv H; simpl in H.
  - injection H as <- <-. apply reaches_start.
  - apply rbind_Ok in H as (t & Ht & H). destruct t as [|s1 iv1];
      [discriminate|].
    eapply findPath_reaches_first; [exact Ht|]. apply IH. exact H.
Qed.

Variable new_ReservationTable : ConstraintTable → Z → ReservationTable.

Local Abbreviation findPath :=
  (findPath getNeighbors start_location goal_location my_heuristic
     new_ReservationTable focal_top PathEntry_default).
Local Abbreviation reconstructed :=
  (reconstructed getNeighbors start_location goal_location my_heuristic
     new_ReservationTable focal_top PathEntry_default).

Lemma startFocal_kept holding_time iv s :
  allNodes_table s = [] →
  tree_ok (allNodes_table (startFocal holding_time iv s)) ∧
  goals_open (allNodes_table (startFocal holding_time iv s)).
Proof.
  intros Hn. unfold startFocal. simpl. rewrite Hn. simpl. split.
  - intros i n H. destruct i; [|destruct i; discriminate].
    injection H as <-. split; simpl; [lia|auto].
  - intros i n H Hg. destruct i; [|destruct i; discriminate].
    injection H as <-. reflexivity.
Qed.

(** C1: a non-empty path that findPath returns was rebuilt by updatePath
    from a terminal node of timestep T; it has T+1 entries, the first is the
    start location, the last is the goal location, every node of the parent
    chain has its cell at its timestep and the cell of its parent at the
    timesteps in between (the root at 0), and two consecutive entries are
    equal or adjacent in the grid. *)
Theorem findPath_path_follows_parent_chain fuel ct this p s' :
  idle this → findPath fuel ct this = Ok (p, s') → p ≠ [] →
  reconstructed ct this p.
Proof.
  intros (_ & _ & Hnodes) H Hp. unfold findPath in H.
  destruct (0 <? get0 (get_first_safe_interval
                         (new_ReservationTable ct goal_location)
                         start_location)); [injection H as <- _; congruence|].
  apply rbind_Ok in H as ([p1 s1] & Hloop & H). simpl in H.
  injection H as -> _.
  destruct (startFocal_kept (getHoldingTime ct goal_location (length_min ct))
              (get_first_safe_interval (new_ReservationTable ct goal_location)
                 start_location)
              (set_num_generated 0 (set_num_expanded 0 this)) Hnodes)
    as [T0 O0].
  eapply findPath_loop_result in Hloop; [|apply reaches_start].
  destruct Hloop as [->|(s2 & iv2 & Hr & Hturn)]; [congruence|].
  destruct (findPath_reaches_kept _ _ _ _ _ _ _ T0 O0 Hr) as [T2 O2].
  pose proof (findPath_turn_kept _ _ _ _ _ _ _ T2 O2 Hturn) as Hb.
  simpl in Hb. destruct Hb as (T1 & term & tn & Htn & Hg & Hloc & Hupd).
  destruct (updatePath_tree _ _ _ _ T1 Htn Hg Hupd)
    as (Hlen & H0 & Hlast & Hchain & Hadj).
  exists s2, iv2, s1, term, tn. rewrite Hloc in Hlast.
  repeat (split; [assumption|]). exact Hadj.
Qed.

Lemma popFocal_nonempty s r : popFocal s = Ok r → focal_list s ≠ [].
Proof.
  unfold popFocal. intros H Hf. rewrite Hf in H.
  destruct (focal_top (allNodes_table s) []); [|discriminate].
  destruct (allNodes_table s !! n); discriminate.
Qed.

Lemma findPath_loop_break fuel ct rt holding_time path iv s p s1 :
  focal_list s ≠ [] →
  findPath_turn ct rt holding_time path iv s = Ok (Break p s1) →
  findPath_loop (S fuel) ct rt holding_time path iv s = Ok (p, s1).
Proof.
  intros Hf Ht. simpl. destruct (focal_list s); [congruence|].
  rewrite Ht. reflexivity.
Qed.

Lemma findPath_loop_S fuel ct rt holding_time path iv s :
  focal_list s ≠ [] →
  findPath_loop (S fuel) ct rt holding_time path iv s =
    rbind (findPath_turn ct rt holding_time path iv s)
      (fun t => match t with
                | Break p s' => Ok (p, s')
                | Continue s' iv' =>
                  findPath_loop fuel ct rt holding_time path iv' s'
                end).
Proof.
  intros Hf. simpl. destruct (focal_list s); [congruence|reflexivity].
Qed.

(** C4: the goal test of mode A.  A popped virtual goal node ends the search
    with the path of its parent.  A popped node that is not one, stands on
    the goal, is no wait-at-goal node and has a timestep of at least the
    holding time has its future collisions counted: with none the search
    ends with the path of that node; otherwise the turn generates a copy of
    the node with [is_goal] set, the node as parent and the count added to
    its conflicts, which is pushed to FOCAL and stored unless a goal node of
    the same key is stored already, and goes on to expand the node. *)
Theorem findPath_goal_test fuel ct rt holding_time path iv s curr c s1 :
  popFocal s = Ok (curr, c, s1) → 0 ≤ location c →
  (is_goal c = true →
   findPath_loop (S fuel) ct rt holding_time path iv s =
     (do p <- updatePath (allNodes_table s1) (parent c) path; Ok (p, s1))) ∧
  (is_goal c = false → location c = goal_location →
   wait_at_goal c = false → holding_time ≤ timestep c →
   (getFutureNumOfCollisions ct goal_location (timestep c) = 0 →
    findPath_loop (S fuel) ct rt holding_time path iv s =
      (do p <- updatePath (allNodes_table s1) (Some curr) path;
       Ok (p, s1))) ∧
   (getFutureNumOfCollisions ct goal_location (timestep c) ≠ 0 →
    ∃ goal,
      goal = goalNode curr c
               (getFutureNumOfCollisions ct goal_location (timestep c)) ∧
      is_goal goal = true ∧ parent goal = Some curr ∧
      num_of_conflicts goal =
        num_of_conflicts c +
        getFutureNumOfCollisions ct goal_location (timestep c) ∧
      location goal = location c ∧ timestep goal = timestep c ∧
      g_val goal = g_val c ∧ h_val goal = h_val c ∧
      interval goal = interval c ∧ wait_at_goal goal = wait_at_goal c ∧
      findPath_turn ct rt holding_time path iv s =
        (do s2 <- generateGoalNode curr c
                    (getFutureNumOfCollisions ct goal_location (timestep c))
                    s1;
         do r <- expandToFocal ct rt curr iv s2;
         Ok (Continue (fst r) (snd r))) ∧
      match find_node goal (allNodes_table s1) with
      | None =>
        ∃ s2,
          generateGoalNode curr c
            (getFutureNumOfCollisions ct goal_location (timestep c)) s1 =
            Ok s2 ∧
          allNodes_table s2 =
            allNodes_table s1 ++ [set_in_openlist true goal] ∧
          focal_list s2 =
            heap_push (length (allNodes_table s1)) (focal_list s1)
      | Some (e, existing) =>
        allNodes_table s1 !! e = Some existing ∧
        is_goal existing = true ∧ location existing = location c ∧
        get0 (interval existing) = get0 (interval c)
      end)).
Proof.
  intros Hpop Hloc.
  assert (Hf : focal_list s ≠ []) by (eapply popFocal_nonempty; eauto).
  assert (Hl : (location c <? 0) = false) by lia.
  split.
  - intros Hg. rewrite findPath_loop_S by exact Hf.
    unfold findPath_turn. rewrite Hpop. cbn [rbind]. rewrite Hl, Hg.
    destruct (updatePath (allNodes_table s1) (parent c) path); reflexivity.
  - intros Hg Hgoal Hw Hh.
    assert (Htest : (location c =? goal_location) && negb (wait_at_goal c) &&
                    (holding_time <=? timestep c) = true).
    { rewrite Hw. simpl. apply andb_true_iff. split; [|lia].
      apply andb_true_iff. split; [lia|reflexivity]. }
    split.
    + intros Hfc. rewrite findPath_loop_S by exact Hf.
      unfold findPath_turn. rewrite Hpop. cbn [rbind].
      rewrite Hl, Hg, Htest, Hgoal, Hfc. cbn [Z.eqb].
      destruct (updatePath (allNodes_table s1) (Some curr) path);
        reflexivity.
    + intros Hfc.
      exists (goalNode curr c
                (getFutureNumOfCollisions ct goal_location (timestep c))).
      repeat (split; [reflexivity|]). split.
      * unfold findPath_turn. rewrite Hpop. cbn [rbind].
        rewrite Hl, Hg, Htest, Hgoal.
        destruct (getFutureNumOfCollisions ct goal_location (timestep c)
                  =? 0) eqn:E; [lia|]. reflexivity.
      * unfold generateGoalNode.
        destruct (find_node _ (allNodes_table s1)) as [[e existing]|] eqn:Ef.
        -- apply find_node_Some in Ef as [He Heq].
           apply eqnode_true in Heq as (H1 & H2 & H3). auto.
        -- eexists. split; [reflexivity|]. split; reflexivity.
Qed.

(** C7: duplicates in mode A.  In generateChildToFocal, when the table
    holds a node of the key of the generated node, that node gets the
    contents of the generated one exactly when the generated one has a
    smaller timestep, or the same timestep and fewer conflicts; a closed
    node is then pushed to FOCAL again and an open one has its handle
    updated; otherwise nothing changes.  The virtual goal nodes of findPath
    follow the same rule, and in every state that the search reaches the
    stored goal node is open. *)
Theorem modeA_duplicate_rule :
  (∀ iv curr c nl nh s e existing,
     allNodes_table s !! curr = Some c →
     find_node (childToFocal iv curr c nl nh) (allNodes_table s) =
       Some (e, existing) →
     ∃ s', generateChildToFocal iv curr nl nh s = Ok s' ∧
       (strictly_better (childToFocal iv curr c nl nh) existing →
        allNodes_table s' =
          <[e := set_in_openlist true
                   (copy existing (childToFocal iv curr c nl nh))]>
            (allNodes_table s) ∧
        focal_list s' =
          (if in_openlist existing then heap_update e (focal_list s)
           else heap_push e (focal_list s))) ∧
       (¬ strictly_better (childToFocal iv curr c nl nh) existing →
        s' = s)) ∧
  (∀ ct rt holding_time s0 iv0 s iv curr c s1 fc e existing,
     allNodes_table s0 = [] →
     findPath_reaches ct rt holding_time (startFocal holding_time iv0 s0)
       iv0 s iv →
     popFocal s = Ok (curr, c, s1) → is_goal c = false →
     find_node (goalNode curr c fc) (allNodes_table s1) =
       Some (e, existing) →
     in_openlist existing = true ∧
     ∃ s2, generateGoalNode curr c fc s1 = Ok s2 ∧
       (strictly_better (goalNode curr c fc) existing →
        allNodes_table s2 =
          <[e := copy existing (goalNode curr c fc)]> (allNodes_table s1) ∧
        focal_list s2 = heap_update e (focal_list s1)) ∧
       (¬ strictly_better (goalNode curr c fc) existing → s2 = s1)).
Proof.
  split.
  - intros iv curr c nl nh s e existing Hc Hfind.
    unfold generateChildToFocal. rewrite Hc, Hfind.
    apply find_node_Some in Hfind as [He _].
    destruct (dominates (childToFocal iv curr c nl nh) existing) eqn:Ed.
    + apply dominates_true in Ed.
      assert (Hb : strictly_better (childToFocal iv curr c nl nh) existing)
        by (unfold strictly_better; lia).
      simpl. destruct (in_openlist existing) eqn:Eo; simpl;
        eexists; (split; [reflexivity|]); (split; [|tauto]); intros _;
        simpl; split; try reflexivity.
      f_equal. unfold set_in_openlist, copy. simpl. rewrite Eo. reflexivity.
    + apply dominates_false in Ed. exists s. split; [reflexivity|].
      split; [|reflexivity]. intros Hb. exfalso. apply Ed.
      unfold strictly_better in Hb. lia.
  - intros ct rt holding_time s0 iv0 s iv curr c s1 fc e existing
      Hn Hr Hpop Hg Hfind.
    destruct (startFocal_kept holding_time iv0 s0 Hn) as [T0 O0].
    destruct (findPath_reaches_kept _ _ _ _ _ _ _ T0 O0 Hr) as [T O].
    destruct (popFocal_kept _ _ _ _ T Hpop) as (_ & _ & O1).
    specialize (O1 O Hg).
    unfold generateGoalNode. rewrite Hfind.
    apply find_node_Some in Hfind as [He Heq].
    apply eqnode_true in Heq as (_ & _ & Hig). simpl in Hig.
    assert (Ho : in_openlist existing = true) by (eapply O1; eauto).
    split; [exact Ho|]. rewrite Ho.
    destruct (dominates (goalNode curr c fc) existing) eqn:Ed.
    + apply dominates_true in Ed. eexists. split; [reflexivity|].
      split; [intros _; split; reflexivity|].
      intros Hb. exfalso. apply Hb. unfold strictly_better. lia.
    + apply dominates_false in Ed. exists s1. split; [reflexivity|].
      split; [|reflexivity]. intros Hb. exfalso. apply Ed.
      unfold strictly_better in Hb. lia.
Qed.

End ModeA.

(** ** Bounds and heaps *)

Lemma in_focal_bound_within wf f m :
  in_focal_bound wf f m = true ↔ within wf f m.
Proof. unfold in_focal_bound, within. apply Qle_bool_iff. Qed.

Lemma within_le wf g f m : g ≤ f → within wf f m → within wf g m.
Proof.
  unfold within. intros H1 H2. eapply Qle_trans; [|exact H2].
  rewrite <- Zle_Qle. exact H1.
Qed.

Lemma within_mono wf g m m' :
  (0 <= wf)%Q → m ≤ m' → within wf g m → within wf g m'.
Proof.
  unfold within. intros Hw Hm H. eapply Qle_trans; [exact H|].
  rewrite (Qmult_comm wf (inject_Z m)), (Qmult_comm wf (inject_Z m')).
  apply Qmult_le_compat_r; [|exact Hw]. rewrite <- Zle_Qle. exact Hm.
Qed.

Lemma within_start wf m : (1 <= wf)%Q → 0 ≤ m → within wf 0 m.
Proof.
  intros Hw Hm. apply within_le with m; [exact Hm|]. unfold within.
  rewrite <- (Qmult_1_l (inject_Z m)) at 1.
  apply Qmult_le_compat_r; [exact Hw|].
  change 0%Q with (inject_Z 0). rewrite <- Zle_Qle. exact Hm.
Qed.

Lemma In_heap_erase (i j : nat) (heap : list nat) :
  In i (heap_erase j heap) → In i heap.
Proof.
  induction heap as [|x heap IH]; simpl; [auto|].
  destruct (Nat.eqb j x); simpl; intuition.
Qed.

Lemma heap_mem_In (i : nat) (heap : list nat) :
  heap_mem i heap = true → In i heap.
Proof.
  unfold heap_mem. intros H. apply existsb_exists in H as (x & Hx & E).
  apply Nat.eqb_eq in E. subst. exact Hx.
Qed.

Lemma focal_ok_insert wf m nodes focal e old new :
  focal_ok wf m nodes focal → nodes !! e = Some old →
  g_val new ≤ g_val old → focal_ok wf m (<[e := new]> nodes) focal.
Proof.
  intros Hf He Hg i Hi. destruct (Hf i Hi) as (n & Hn & Hb).
  destruct (decide (e = i)) as [->|Hne].
  - exists new. rewrite list_lookup_insert_eq by (eapply lookup_lt_Some; eauto).
    split; [reflexivity|]. assert (n = old) by congruence. subst.
    eapply within_le; eauto.
  - exists n. rewrite list_lookup_insert_ne by exact Hne. auto.
Qed.

Lemma focal_ok_app wf m nodes focal n :
  focal_ok wf m nodes focal → focal_ok wf m (nodes ++ [n]) focal.
Proof.
  intros Hf i Hi. destruct (Hf i Hi) as (x & Hx & Hb). exists x.
  rewrite lookup_app_l by (eapply lookup_lt_Some; eauto). auto.
Qed.

Lemma focal_ok_push wf m nodes focal e n :
  focal_ok wf m nodes focal → nodes !! e = Some n →
  within wf (g_val n) m → focal_ok wf m nodes (heap_push e focal).
Proof.
  intros Hf He Hb i Hi. unfold heap_push in Hi.
  apply in_app_or in Hi as [Hi|[<-|[]]]; eauto.
Qed.

Lemma focal_ok_sub wf m nodes focal focal' :
  (∀ i, In i focal' → In i focal) →
  focal_ok wf m nodes focal → focal_ok wf m nodes focal'.
Proof. intros Hs Hf i Hi. auto. Qed.

Lemma open_ok_insert lb m nodes open e old new :
  open_ok lb m nodes open → nodes !! e = Some old →
  m ≤ Z.max lb (getFVal new) → open_ok lb m (<[e := new]> nodes) open.
Proof.
  intros Ho He Hg i Hi. destruct (Ho i Hi) as (n & Hn & Hb).
  destruct (decide (e = i)) as [->|Hne].
  - exists new. rewrite list_lookup_insert_eq by (eapply lookup_lt_Some; eauto).
    auto.
  - exists n. rewrite list_lookup_insert_ne by exact Hne. auto.
Qed.

Lemma open_ok_app lb m nodes open n :
  open_ok lb m nodes open → open_ok lb m (nodes ++ [n]) open.
Proof.
  intros Ho i Hi. destruct (Ho i Hi) as (x & Hx & Hb). exists x.
  rewrite lookup_app_l by (eapply lookup_lt_Some; eauto). auto.
Qed.

Lemma open_ok_push lb m nodes open e n :
  open_ok lb m nodes open → nodes !! e = Some n →
  m ≤ Z.max lb (getFVal n) → open_ok lb m nodes (heap_push e open).
Proof.
  intros Ho He Hb i Hi. unfold heap_push in Hi.
  apply in_app_or in Hi as [Hi|[<-|[]]]; eauto.
Qed.

Lemma open_ok_sub lb m nodes open open' :
  (∀ i, In i open' → In i open) →
  open_ok lb m nodes open → open_ok lb m nodes open'.
Proof. intros Hs Ho i Hi. auto. Qed.

Lemma nodesB_ok_insert d ht nodes e n :
  nodesB_ok d ht nodes → nodeB_ok d ht n → nodesB_ok d ht (<[e := n]> nodes).
Proof.
  intros Hn Hx i m H. destruct (decide (e = i)) as [->|Hne].
  - apply list_lookup_insert_Some in H as [(_ & <- & _)|[? _]];
      [exact Hx|congruence].
  - rewrite list_lookup_insert_ne in H by exact Hne. eauto.
Qed.

Lemma nodesB_ok_app d ht nodes n :
  nodesB_ok d ht nodes → nodeB_ok d ht n → nodesB_ok d ht (nodes ++ [n]).
Proof.
  intros Hn Hx i m H. apply lookup_app_Some in H as [H|[_ H]].
  - eauto.
  - destruct (i - length nodes)%nat; simpl in H; [|destruct n0; discriminate].
    injection H as <-. exact Hx.
Qed.

(** ** The two entry points and mode B *)

Section ModeB.

Variable getNeighbors : Z → list Z.
Variable start_location goal_location : Z.
Variable my_heuristic : Z → Z.
Variable new_ReservationTable : ConstraintTable → Z → ReservationTable.
Variable HLNode Paths : Type.
Variable insert2CT : ConstraintTable → HLNode → Z → ConstraintTable.
Variable insert2CAT : ConstraintTable → Z → Paths → ConstraintTable.
Variable focal_top open_top : list SIPPNode → list nat → option nat.
Variable PathEntry_default : Z.

Local Abbreviation childToFocal := (childToFocal goal_location).
Local Abbreviation generateChildToFocal := (generateChildToFocal goal_location).
Local Abbreviation child := (child goal_location my_heuristic).
Local Abbreviation generateChild := (generateChild goal_location my_heuristic).
Local Abbreviation moveIntervals := (moveIntervals goal_location my_heuristic).
Local Abbreviation moveChildren := (moveChildren goal_location my_heuristic).
Local Abbreviation waitChild := (waitChild goal_location my_heuristic).
Local Abbreviation updateFocalList := (updateFocalList open_top).
Local Abbreviation popOpenFocal := (popOpenFocal focal_top).
Local Abbreviation updatePath := (updatePath PathEntry_default).
Local Abbreviation findSuboptimalPath_turn :=
  (findSuboptimalPath_turn getNeighbors goal_location my_heuristic focal_top
     open_top PathEntry_default).
Local Abbreviation findSuboptimalPath_loop :=
  (findSuboptimalPath_loop getNeighbors goal_location my_heuristic focal_top
     open_top PathEntry_default).
Local Abbreviation startOpen := (startOpen start_location my_heuristic).
Local Abbreviation findPath :=
  (findPath getNeighbors start_location goal_location my_heuristic
     new_ReservationTable focal_top PathEntry_default).
Local Abbreviation findSuboptimalPath :=
  (findSuboptimalPath getNeighbors start_location goal_location my_heuristic
     new_ReservationTable HLNode Paths insert2CT insert2CAT focal_top
     open_top PathEntry_default).
Local Abbreviation findOptimalPath :=
  (findOptimalPath getNeighbors start_location goal_location my_heuristic
     new_ReservationTable HLNode Paths insert2CT insert2CAT focal_top
     open_top PathEntry_default).

(** C3: when the first safe interval of the start location begins after
    time 0, findPath returns the empty path, and findSuboptimalPath the
    empty path with 0, whatever the fuel: no node is generated or expanded
    and the heaps and the table are as they were. *)
Theorem blocked_start_returns_empty_path :
  (∀ fuel ct this,
     0 < get0 (get_first_safe_interval
                 (new_ReservationTable ct goal_location) start_location) →
     ∃ s, findPath fuel ct this = Ok ([], s) ∧
          num_expanded s = 0 ∧ num_generated s = 0 ∧
          allNodes_table s = allNodes_table this ∧
          focal_list s = focal_list this ∧ open_list s = open_list this) ∧
  (∀ fuel node initial_constraints paths agent lowerbound wf this,
     0 < get0 (get_first_safe_interval
                 (new_ReservationTable
                    (insert2CAT (insert2CT initial_constraints node agent)
                       agent paths) goal_location) start_location) →
     ∃ s, findSuboptimalPath fuel node initial_constraints paths agent
            lowerbound wf this = Ok ([], 0, s) ∧
          num_expanded s = 0 ∧ num_generated s = 0 ∧
          allNodes_table s = allNodes_table this ∧
          focal_list s = focal_list this ∧ open_list s = open_list this).
Proof.
  split.
  - intros fuel ct this H. unfold findPath.
    apply Z.ltb_lt in H. rewrite H. eexists. split; [reflexivity|].
    simpl. auto.
  - intros fuel node ic paths agent lowerbound wf this H.
    unfold findSuboptimalPath. apply Z.ltb_lt in H. rewrite H.
    eexists. split; [reflexivity|]. simpl. auto.
Qed.

(** C9: findOptimalPath returns the path, and leaves the planner, of
    findSuboptimalPath called with the same arguments and w = 1; it goes
    wrong exactly when that call does. *)
Theorem findOptimalPath_is_findSuboptimalPath_1 fuel node initial_constraints
    paths agent lowerbound this :
  findOptimalPath fuel node initial_constraints paths agent lowerbound this =
  match findSuboptimalPath fuel node initial_constraints paths agent
          lowerbound 1%Q this with
  | Ok (path, _, s) => Ok (path, s)
  | Fault => Fault
  | OutOfFuel => OutOfFuel
  end.
Proof.
  unfold findOptimalPath.
  destruct (findSuboptimalPath fuel node initial_constraints paths agent
              lowerbound 1%Q this) as [[[path m] s]| |]; reflexivity.
Qed.

Lemma pushNode_Ok i node s :
  allNodes_table s !! i = Some node →
  ∃ s', pushNode i s = Ok s' ∧
    allNodes_table s' = <[i := set_in_openlist true node]> (allNodes_table s) ∧
    open_list s' = heap_push i (open_list s) ∧
    focal_list s' =
      (if in_focal_bound (w s) (getFVal node) (min_f_val s)
       then heap_push i (focal_list s) else focal_list s) ∧
    w s' = w s ∧ min_f_val s' = min_f_val s.
Proof.
  intros H. unfold pushNode. rewrite H.
  destruct (in_focal_bound (w s) (getFVal node) (min_f_val s));
    eexists; (split; [reflexivity|]); simpl; auto.
Qed.

(** generateChild prunes a child whose g + h exceeds the greatest length,
    wait child or move child. *)
Lemma generateChild_prunes iv curr c next_location rt s :
  allNodes_table s !! curr = Some c →
  length_max (constraint_table rt) < getFVal (child iv curr c next_location) →
  generateChild iv curr next_location rt s = Ok s.
Proof.
  intros Hc Hf. unfold generateChild. rewrite Hc.
  assert (Hfv : getFVal (child iv curr c next_location) =
                Z.max (timestep c + 1) (get0 iv) +
                Z.max (my_heuristic next_location)
                  (getFVal c - Z.max (timestep c + 1) (get0 iv))).
  { unfold child.
    destruct ((next_location =? goal_location) &&
              (location c =? goal_location)); reflexivity. }
  rewrite Hfv in Hf.
  destruct (length_max (constraint_table rt) <?
            Z.max (timestep c + 1) (get0 iv) +
            Z.max (my_heuristic next_location)
              (getFVal c - Z.max (timestep c + 1) (get0 iv))) eqn:E;
    [reflexivity|lia].
Qed.

(** C5, as the code has it: when the child arrives later than one step
    after its parent, generateChildToFocal (mode A) gives it the conflicts of
    the parent plus the collision count of the interval, once, and
    generateChild (mode B) the conflicts of the parent plus that count times
    the number of steps from the parent to the child; these are the nodes
    that the two functions store under a new key. *)
Theorem conflicts_of_late_children iv curr c next_location next_h_val rt s :
  allNodes_table s !! curr = Some c →
  timestep c + 1 < Z.max (timestep c + 1) (get0 iv) →
  (num_of_conflicts (childToFocal iv curr c next_location next_h_val) =
     num_of_conflicts c + get2 iv ∧
   (find_node (childToFocal iv curr c next_location next_h_val)
      (allNodes_table s) = None →
    ∃ s', generateChildToFocal iv curr next_location next_h_val s = Ok s' ∧
      allNodes_table s' !! length (allNodes_table s) =
        Some (set_in_openlist true
                (childToFocal iv curr c next_location next_h_val)))) ∧
  (num_of_conflicts (child iv curr c next_location) =
     num_of_conflicts c +
     get2 iv * (Z.max (timestep c + 1) (get0 iv) - timestep c) ∧
   (getFVal (child iv curr c next_location) ≤
      length_max (constraint_table rt) →
    find_node (child iv curr c next_location) (allNodes_table s) = None →
    ∃ s', generateChild iv curr next_location rt s = Ok s' ∧
      allNodes_table s' !! length (allNodes_table s) =
        Some (set_in_openlist true (child iv curr c next_location)))).
Proof.
  intros Hc Hlate. split; split.
  - unfold childToFocal.
    destruct ((next_location =? goal_location) &&
              (location c =? goal_location)); reflexivity.
  - intros Hfind. unfold generateChildToFocal. rewrite Hc, Hfind.
    eexists. split; [reflexivity|]. simpl.
    rewrite lookup_app_r by lia. rewrite Nat.sub_diag. reflexivity.
  - unfold child.
    destruct ((next_location =? goal_location) &&
              (location c =? goal_location)); reflexivity.
  - intros Hf Hfind. unfold generateChild. rewrite Hc.
    assert (Hfv : getFVal (child iv curr c next_location) =
                  Z.max (timestep c + 1) (get0 iv) +
                  Z.max (my_heuristic next_location)
                    (getFVal c - Z.max (timestep c + 1) (get0 iv))).
    { unfold child.
      destruct ((next_location =? goal_location) &&
                (location c =? goal_location)); reflexivity. }
    rewrite Hfv in Hf.
    destruct (length_max (constraint_table rt) <?
              Z.max (timestep c + 1) (get0 iv) +
              Z.max (my_heuristic next_location)
                (getFVal c - Z.max (timestep c + 1) (get0 iv))) eqn:E; [lia|].
    rewrite Hfind.
    destruct (pushNode_Ok (length (allNodes_table s))
                (child iv curr c next_location)
                (set_allNodes_table
                   (allNodes_table s ++ [child iv curr c next_location]) s))
      as (s' & Hs' & Hn & _).
    { simpl. rewrite lookup_app_r by lia. rewrite Nat.sub_diag. reflexivity. }
    exists s'. split; [exact Hs'|]. rewrite Hn. simpl.
    apply list_lookup_insert_eq. rewrite length_app. simpl. lia.
Qed.

Lemma findSuboptimalPath_loop_S fuel rt holding_time path iv s :
  open_list s ≠ [] →
  findSuboptimalPath_loop (S fuel) rt holding_time path iv s =
    rbind (findSuboptimalPath_turn rt holding_time path iv s)
      (fun t => match t with
                | Break p s' => Ok (p, s')
                | Continue s' iv' =>
                  findSuboptimalPath_loop fuel rt holding_time path iv' s'
                end).
Proof.
  intros Hf. simpl. destruct (open_list s); [congruence|reflexivity].
Qed.

(** C6, as the code has it: findSuboptimalPath leaves its loop, with the
    path rebuilt from the popped node, at a popped node that stands on the
    goal, is not a wait-at-goal node and has a timestep of at least the
    holding time; a turn that pops any other node does not leave the loop. *)
Theorem findSuboptimalPath_goal_test fuel rt holding_time path iv s s0 curr
    c s1 :
  open_list s ≠ [] →
  updateFocalList s = Ok s0 → popOpenFocal s0 = Ok (curr, c, s1) →
  (location c = goal_location ∧ wait_at_goal c = false ∧
   holding_time ≤ timestep c →
   findSuboptimalPath_loop (S fuel) rt holding_time path iv s =
     (do p <- updatePath (allNodes_table s1) (Some curr) path; Ok (p, s1))) ∧
  (¬ (location c = goal_location ∧ wait_at_goal c = false ∧
      holding_time ≤ timestep c) →
   ∀ t, findSuboptimalPath_turn rt holding_time path iv s = Ok t →
        ∃ s' iv', t = Continue s' iv').
Proof.
  intros Hopen Hupd Hpop. split.
  - intros (Hl & Hw & Hh). rewrite findSuboptimalPath_loop_S by exact Hopen.
    unfold findSuboptimalPath_turn. rewrite Hupd. cbn [rbind].
    rewrite Hpop. cbn [rbind].
    assert (Htest : (location c =? goal_location) && negb (wait_at_goal c) &&
                    (holding_time <=? timestep c) = true).
    { rewrite Hw. simpl. apply andb_true_iff. split; [|lia].
      apply andb_true_iff. split; [lia|reflexivity]. }
    rewrite Htest.
    destruct (updatePath (allNodes_table s1) (Some curr) path); reflexivity.
  - intros Hno t Ht. unfold findSuboptimalPath_turn in Ht.
    rewrite Hupd in Ht. cbn [rbind] in Ht. rewrite Hpop in Ht.
    cbn [rbind] in Ht.
    destruct ((location c =? goal_location) && negb (wait_at_goal c) &&
              (holding_time <=? timestep c)) eqn:Etest.
    + exfalso. apply Hno.
      apply andb_true_iff in Etest as [Etest Eh].
      apply andb_true_iff in Etest as [El Ew].
      apply negb_true_iff in Ew. repeat split; [lia|exact Ew|lia].
    + apply rbind_Ok in Ht as (s2 & _ & Ht).
      apply rbind_Ok in Ht as (r & _ & Ht). injection Ht as <-. eauto.
Qed.

(** *** The invariant of the loop of findSuboptimalPath *)

Section Bounded.

Variable d : Z → Z.
Hypothesis d_goal : d goal_location = 0.
Hypothesis d_edge : ∀ u v, In v (getNeighbors u) → d u ≤ d v + 1.
Hypothesis h_admissible : ∀ u, 0 ≤ my_heuristic u ≤ d u.
Variable holding_time lowerbound : Z.
Variable wf : Q.
Hypothesis wf_ge_1 : (1 <= wf)%Q.
Hypothesis top_least : least_f_on_top open_top.

Local Abbreviation step_ok := (step_ok getNeighbors).
Local Abbreviation nodeB_ok := (nodeB_ok d holding_time).
Local Abbreviation nodesB_ok := (nodesB_ok d holding_time).
Local Abbreviation modeB_ok := (modeB_ok d holding_time lowerbound wf).
Local Abbreviation expandingB := (expandingB d holding_time lowerbound wf).

Lemma wf_nonneg : (0 <= wf)%Q.
Proof. eapply Qle_trans; [|exact wf_ge_1]. discriminate. Qed.

Lemma child_ok iv curr c nl :
  nodeB_ok c → step_ok (location c) nl →
  nodeB_ok (child iv curr c nl) ∧
  getFVal c ≤ getFVal (child iv curr c nl) ∧
  location (child iv curr c nl) = nl ∧
  timestep (child iv curr c nl) = Z.max (timestep c + 1) (get0 iv) ∧
  getFVal (child iv curr c nl) =
    Z.max (timestep c + 1) (get0 iv) +
    Z.max (my_heuristic nl)
      (getFVal c - Z.max (timestep c + 1) (get0 iv)).
Proof.
  intros (Hg & Hh0 & Hh) Hstep.
  assert (Hd : d (location c) ≤ d nl + 1).
  { destruct Hstep as [->|Hin]; [lia|apply d_edge; exact Hin]. }
  pose proof (h_admissible nl) as Hnl.
  unfold child.
  destruct ((nl =? goal_location) && (location c =? goal_location));
    unfold nodeB_ok, getFVal in *; simpl; lia.
Qed.

Lemma expandingB_insert m curr loc nodes focal open e old new :
  expandingB m curr loc nodes focal open →
  nodes !! e = Some old → nodeB_ok new → g_val new ≤ g_val old →
  location new = location old → m ≤ Z.max lowerbound (getFVal new) →
  expandingB m curr loc (<[e := new]> nodes) focal open.
Proof.
  intros (Hn & Hf & Ho & Hat) He Hok Hg Hl Hm.
  split; [|split; [|split]].
  - apply nodesB_ok_insert; assumption.
  - eapply focal_ok_insert; eassumption.
  - eapply open_ok_insert; eassumption.
  - destruct Hat as (c & Hc & Hlc & Hmc).
    destruct (decide (e = curr)) as [->|Hne].
    + exists new.
      rewrite list_lookup_insert_eq by (eapply lookup_lt_Some; eauto).
      repeat split; [congruence|exact Hm].
    + exists c. rewrite list_lookup_insert_ne by exact Hne. auto.
Qed.

Lemma expandingB_app m curr loc nodes focal open n :
  expandingB m curr loc nodes focal open → nodeB_ok n →
  expandingB m curr loc (nodes ++ [n]) focal open.
Proof.
  intros (Hn & Hf & Ho & Hat) Hok. split; [|split; [|split]].
  - apply nodesB_ok_app; assumption.
  - apply focal_ok_app; assumption.
  - apply open_ok_app; assumption.
  - destruct Hat as (c & Hc & Hlc & Hmc). exists c.
    rewrite lookup_app_l by (eapply lookup_lt_Some; eauto). auto.
Qed.

Lemma expandingB_push_open m curr loc nodes focal open e n :
  expandingB m curr loc nodes focal open → nodes !! e = Some n →
  m ≤ Z.max lowerbound (getFVal n) →
  expandingB m curr loc nodes focal (heap_push e open).
Proof.
  intros (Hn & Hf & Ho & Hat) He Hm. split; [|split; [|split]]; auto.
  eapply open_ok_push; eassumption.
Qed.

Lemma expandingB_push_focal m curr loc nodes focal open e n :
  expandingB m curr loc nodes focal open → nodes !! e = Some n →
  in_focal_bound wf (getFVal n) m = true →
  expandingB m curr loc nodes (heap_push e focal) open.
Proof.
  intros (Hn & Hf & Ho & Hat) He Hb. split; [|split; [|split]]; auto.
  eapply focal_ok_push; [exact Hf|exact He|].
  apply in_focal_bound_within in Hb.
  destruct (Hn e n He) as (_ & Hh & _).
  eapply within_le; [|exact Hb]. unfold getFVal. lia.
Qed.

(** pushNode on a node that may be pushed. *)
Lemma pushNode_expanding i node s s' curr loc :
  w s = wf →
  expandingB (min_f_val s) curr loc (allNodes_table s) (focal_list s)
    (open_list s) →
  allNodes_table s !! i = Some node →
  min_f_val s ≤ Z.max lowerbound (getFVal node) →
  pushNode i s = Ok s' →
  w s' = wf ∧ min_f_val s' = min_f_val s ∧
  expandingB (min_f_val s') curr loc (allNodes_table s') (focal_list s')
    (open_list s').
Proof.
  intros Hw Hexp Hi Hm H.
  destruct (pushNode_Ok i node s Hi) as (s2 & Hs2 & Hn & Ho & Hf & Hw2 & Hm2).
  rewrite Hs2 in H. injection H as <-.
  split; [congruence|]. split; [exact Hm2|].
  rewrite Hm2, Hn, Ho, Hf, Hw.
  assert (Hnode : nodeB_ok node) by (destruct Hexp as (Hnodes & _); eauto).
  assert (H1 : expandingB (min_f_val s) curr loc
                 (<[i := set_in_openlist true node]> (allNodes_table s))
                 (focal_list s) (open_list s)).
  { eapply expandingB_insert; [exact Hexp|exact Hi| | | |];
      simpl; auto; lia. }
  assert (Hi' : <[i := set_in_openlist true node]> (allNodes_table s) !! i =
                Some (set_in_openlist true node)).
  { apply list_lookup_insert_eq. eapply lookup_lt_Some; eauto. }
  assert (H2 : expandingB (min_f_val s) curr loc
                 (<[i := set_in_openlist true node]> (allNodes_table s))
                 (focal_list s) (heap_push i (open_list s))).
  { eapply expandingB_push_open; [exact H1|exact Hi'|exact Hm]. }
  destruct (in_focal_bound wf (getFVal node) (min_f_val s)) eqn:Eb;
    [|exact H2].
  eapply expandingB_push_focal; [exact H2|exact Hi'|exact Eb].
Qed.

(** generateChild keeps the invariant. *)
Lemma generateChild_expanding iv curr nl rt s s' loc :
  w s = wf →
  expandingB (min_f_val s) curr loc (allNodes_table s) (focal_list s)
    (open_list s) →
  step_ok loc nl →
  generateChild iv curr nl rt s = Ok s' →
  w s' = wf ∧ min_f_val s' = min_f_val s ∧
  expandingB (min_f_val s') curr loc (allNodes_table s') (focal_list s')
    (open_list s').
Proof.
  intros Hw Hexp Hstep H.
  pose proof Hexp as (Hn & Hf & Ho & (c & Hc & Hl & Hm)).
  unfold generateChild in H. rewrite Hc in H.
  rewrite <- Hl in Hstep.
  destruct (child_ok iv curr c nl (Hn curr c Hc) Hstep)
    as (Hok & Hfc & Hloc & Ht & Hfv).
  rewrite <- Hfv in H.
  destruct (length_max (constraint_table rt) <?
            getFVal (child iv curr c nl)); [injection H as <-; auto|].
  remember (child iv curr c nl) as next eqn:En. clear En.
  assert (Hmn : min_f_val s ≤ Z.max lowerbound (getFVal next)) by lia.
  destruct (find_node next (allNodes_table s)) as [[e existing]|] eqn:Ef.
  - apply find_node_Some in Ef as [He Heq].
    apply eqnode_true in Heq as (Hle & _ & _).
    destruct (dominates next existing) eqn:Ed; [|injection H as <-; auto].
    apply dominates_true in Ed.
    assert (Hge : g_val next ≤ g_val existing).
    { destruct Hok as (-> & _). destruct (Hn e existing He) as (-> & _).
      lia. }
    assert (H1 : expandingB (min_f_val s) curr loc
                   (<[e := copy existing next]> (allNodes_table s))
                   (focal_list s) (open_list s)).
    { eapply expandingB_insert; [exact Hexp|exact He|exact Hok|exact Hge
                                |simpl; congruence|exact Hmn]. }
    assert (He' : <[e := copy existing next]> (allNodes_table s) !! e =
                  Some (copy existing next)).
    { apply list_lookup_insert_eq. eapply lookup_lt_Some; eauto. }
    destruct (negb (in_openlist existing)).
    + eapply pushNode_expanding in H;
        [exact H|exact Hw|exact H1|exact He'|exact Hmn].
    + rewrite Hw in H.
      destruct (in_focal_bound wf (getFVal next) (min_f_val s)) eqn:Eq1;
        destruct (in_focal_bound wf (getFVal existing) (min_f_val s));
        destruct (getFVal next <? getFVal existing);
        cbn [andb negb] in H; injection H as <-; cbn;
        (split; [exact Hw|]); (split; [reflexivity|]);
        try exact H1;
        (eapply expandingB_push_focal; [exact H1|exact He'|exact Eq1]).
  - eapply pushNode_expanding in H; [exact H|exact Hw| | |exact Hmn].
    + cbn. apply expandingB_app; [exact Hexp|exact Hok].
    + cbn. rewrite lookup_app_r by lia. rewrite Nat.sub_diag. reflexivity.
Qed.

Lemma moveIntervals_expanding rt curr nl loc :
  step_ok loc nl →
  ∀ ivs s s',
    w s = wf →
    expandingB (min_f_val s) curr loc (allNodes_table s) (focal_list s)
      (open_list s) →
    moveIntervals rt curr nl ivs s = Ok s' →
    w s' = wf ∧
    expandingB (min_f_val s') curr loc (allNodes_table s') (focal_list s')
      (open_list s').
Proof.
  intros Hstep. induction ivs as [|iv ivs IH]; intros s s' Hw Hexp H;
    simpl in H.
  - injection H as <-. auto.
  - apply rbind_Ok in H as (s1 & H1 & H2).
    destruct (generateChild_expanding _ _ _ _ _ _ _ Hw Hexp Hstep H1)
      as (Hw1 & _ & Hexp1).
    eapply IH; eauto.
Qed.

Lemma moveChildren_expanding rt curr loc :
  ∀ nbrs s s',
    (∀ x, In x nbrs → In x (getNeighbors loc)) →
    w s = wf →
    expandingB (min_f_val s) curr loc (allNodes_table s) (focal_list s)
      (open_list s) →
    moveChildren rt curr nbrs s = Ok s' →
    w s' = wf ∧
    expandingB (min_f_val s') curr loc (allNodes_table s') (focal_list s')
      (open_list s').
Proof.
  induction nbrs as [|nl nbrs IH]; intros s s' Hin Hw Hexp H; simpl in H.
  - injection H as <-. auto.
  - destruct (allNodes_table s !! curr) as [c|]; [|discriminate].
    apply rbind_Ok in H as (s1 & H1 & H2).
    assert (Hstep : step_ok loc nl) by (right; apply Hin; left; reflexivity).
    destruct (moveIntervals_expanding rt curr nl loc Hstep _ _ _ Hw Hexp H1)
      as (Hw1 & Hexp1).
    eapply IH; [|exact Hw1|exact Hexp1|exact H2].
    intros x Hx. apply Hin. right. exact Hx.
Qed.

Lemma waitChild_expanding rt curr loc iv s s' iv' :
  w s = wf →
  expandingB (min_f_val s) curr loc (allNodes_table s) (focal_list s)
    (open_list s) →
  waitChild rt curr iv s = Ok (s', iv') →
  w s' = wf ∧
  expandingB (min_f_val s') curr loc (allNodes_table s') (focal_list s')
    (open_list s').
Proof.
  intros Hw Hexp H. pose proof Hexp as (_ & _ & _ & (c & Hc & Hl & _)).
  unfold waitChild in H. rewrite Hc in H.
  destruct (find_safe_interval rt iv (location c) (get1 (interval c)))
    as [found iv1].
  destruct found.
  - apply rbind_Ok in H as (s1 & H1 & H2). injection H2 as <- _.
    assert (Hstep : step_ok loc (location c)) by (left; exact Hl).
    destruct (generateChild_expanding _ _ _ _ _ _ _ Hw Hexp Hstep H1)
      as (Hw1 & _ & Hexp1). auto.
  - injection H as <- _. auto.
Qed.

Lemma updateFocalList_ok s s0 :
  modeB_ok s → updateFocalList s = Ok s0 → modeB_ok s0.
Proof.
  intros (Hw & Hn & Hf & Ho) H. unfold updateFocalList in H.
  destruct (open_top (allNodes_table s) (open_list s)) as [hd|] eqn:Et;
    [|discriminate].
  destruct (allNodes_table s !! hd) as [open_head|] eqn:Eh; [|discriminate].
  destruct (min_f_val s <? getFVal open_head) eqn:Em;
    [|injection H as <-; exact (conj Hw (conj Hn (conj Hf Ho)))].
  apply Z.ltb_lt in Em.
  injection H as <-. unfold modeB_ok. cbn.
  split; [exact Hw|]. split; [exact Hn|]. split.
  - intros i Hi. apply in_app_or in Hi as [Hi|Hi].
    + destruct (Hf i Hi) as (n & Hi' & Hb). exists n. split; [exact Hi'|].
      eapply within_mono; [apply wf_nonneg| |exact Hb]. lia.
    + apply filter_In in Hi as [_ Hq].
      destruct (allNodes_table s !! i) as [n|] eqn:Ei; [|discriminate].
      exists n. split; [reflexivity|].
      apply andb_true_iff in Hq as [_ Hq]. rewrite Hw in Hq.
      apply in_focal_bound_within in Hq.
      destruct (Hn i n Ei) as (_ & Hh & _).
      eapply within_le; [|exact Hq]. unfold getFVal. lia.
  - intros i Hi. destruct (Ho i Hi) as (n & Hi' & _). exists n.
    split; [exact Hi'|].
    pose proof (top_least _ _ _ _ Et Eh i n Hi Hi'). lia.
Qed.

Lemma popOpenFocal_ok s0 curr c s1 :
  modeB_ok s0 → popOpenFocal s0 = Ok (curr, c, s1) →
  modeB_ok s1 ∧ allNodes_table s1 !! curr = Some c ∧
  min_f_val s1 = min_f_val s0 ∧ nodeB_ok c ∧
  within wf (g_val c) (min_f_val s0) ∧
  min_f_val s0 ≤ Z.max lowerbound (getFVal c).
Proof.
  intros (Hw & Hn & Hf & Ho) H. unfold popOpenFocal in H.
  destruct (focal_top (allNodes_table s0) (focal_list s0)) as [i|];
    [|discriminate].
  destruct (allNodes_table s0 !! i) as [c0|] eqn:Ec; [|discriminate].
  destruct (heap_mem i (focal_list s0) && heap_mem i (open_list s0)) eqn:Em;
    [|discriminate].
  apply andb_true_iff in Em as [Emf Emo].
  apply heap_mem_In in Emf, Emo.
  injection H as <- <- <-. unfold modeB_ok. cbn.
  destruct (Hf i Emf) as (n1 & Hn1 & Hb1).
  destruct (Ho i Emo) as (n2 & Hn2 & Hb2).
  assert (n1 = c0) by congruence. assert (n2 = c0) by congruence.
  subst n1 n2. pose proof (Hn i c0 Ec) as Hc0.
  split; [|split; [|split; [reflexivity|split; [exact Hc0|auto]]]].
  - split; [exact Hw|]. split; [|split].
    + apply nodesB_ok_insert; [exact Hn|exact Hc0].
    + eapply focal_ok_insert; [|exact Ec|simpl; lia].
      eapply focal_ok_sub; [|exact Hf]. intros j. apply In_heap_erase.
    + eapply open_ok_insert; [|exact Ec|exact Hb2].
      eapply open_ok_sub; [|exact Ho]. intros j. apply In_heap_erase.
  - apply list_lookup_insert_eq. eapply lookup_lt_Some; eauto.
Qed.

Lemma updatePath_length nodes i path p :
  updatePath nodes (Some i) path = Ok p →
  ∃ g, nodes !! i = Some g ∧ 0 ≤ timestep g + 1 ∧
       length p = Z.to_nat (timestep g + 1).
Proof.
  unfold updatePath. intros H.
  destruct (nodes !! i) as [g|]; [|discriminate].
  destruct (timestep g + 1 <? 0) eqn:E; [discriminate|].
  apply walk_parents_length in H. rewrite resize_length in H.
  exists g. split; [reflexivity|]. split; [lia|exact H].
Qed.

(** What a turn of the loop of findSuboptimalPath leaves: the invariant,
    or a path whose cost is bounded on both sides. *)
Lemma findSuboptimalPath_turn_ok rt iv s t :
  modeB_ok s →
  findSuboptimalPath_turn rt holding_time [] iv s = Ok t →
  match t with
  | Continue s' _ => modeB_ok s'
  | Break p s1 =>
    min_f_val s1 ≤ Z.max lowerbound (cost p) ∧
    within wf (cost p) (min_f_val s1)
  end.
Proof.
  intros Hs H. unfold findSuboptimalPath_turn in H.
  apply rbind_Ok in H as (s0 & Hupd & H).
  apply rbind_Ok in H as ([[curr c] s1] & Hpop & H).
  pose proof (updateFocalList_ok _ _ Hs Hupd) as Hs0.
  destruct (popOpenFocal_ok _ _ _ _ Hs0 Hpop)
    as (Hs1 & Hc & Hm & Hcok & Hb & Hlow).
  destruct ((location c =? goal_location) && negb (wait_at_goal c) &&
            (holding_time <=? timestep c)) eqn:Etest.
  - apply rbind_Ok in H as (p & Hp & H). injection H as <-.
    apply andb_true_iff in Etest as [Etest Eh].
    apply andb_true_iff in Etest as [El _].
    apply Z.eqb_eq in El. apply Z.leb_le in Eh.
    apply updatePath_length in Hp as (g & Hg & Ht & Hlen).
    assert (g = c) by congruence. subst g.
    destruct Hcok as (Hgt & Hh0 & Hh). rewrite El, d_goal in Hh.
    assert (Hcost : cost p = g_val c) by (unfold cost; lia).
    rewrite Hcost, Hm. split; [|exact Hb].
    unfold getFVal in Hlow. lia.
  - apply rbind_Ok in H as (s2 & H2 & H).
    apply rbind_Ok in H as ([s3 iv3] & H3 & H). injection H as <-.
    simpl. destruct Hs1 as (Hw1 & Hn1 & Hf1 & Ho1).
    assert (Hexp : expandingB (min_f_val s1) curr (location c)
                     (allNodes_table s1) (focal_list s1) (open_list s1)).
    { split; [exact Hn1|]. split; [exact Hf1|]. split; [exact Ho1|].
      exists c. rewrite Hm. auto. }
    destruct (moveChildren_expanding rt curr (location c) _ _ _
                (fun x Hx => Hx) Hw1 Hexp H2) as (Hw2 & Hexp2).
    destruct (waitChild_expanding _ _ _ _ _ _ _ Hw2 Hexp2 H3)
      as (Hw3 & (Hn3 & Hf3 & Ho3 & _)).
    exact (conj Hw3 (conj Hn3 (conj Hf3 Ho3))).
Qed.

Lemma findSuboptimalPath_loop_ok rt :
  ∀ fuel iv s p s',
    modeB_ok s →
    findSuboptimalPath_loop fuel rt holding_time [] iv s = Ok (p, s') →
    p = [] ∨
    (min_f_val s' ≤ Z.max lowerbound (cost p) ∧
     within wf (cost p) (min_f_val s')).
Proof.
  induction fuel as [|fuel IH]; intros iv s p s' Hs H; simpl in H.
  - destruct (open_list s); [|discriminate]. injection H as <- _. auto.
  - destruct (open_list s) as [|x l] eqn:Eo; [injection H as <- _; auto|].
    apply rbind_Ok in H as (t & Ht & H).
    pose proof (findSuboptimalPath_turn_ok _ _ _ _ Hs Ht) as Hok.
    destruct t as [p1 s1|s1 iv1].
    + injection H as <- <-. right. exact Hok.
    + eapply IH; eauto.
Qed.

Lemma startOpen_ok iv s :
  w s = wf → open_list s = [] → focal_list s = [] → allNodes_table s = [] →
  modeB_ok (startOpen holding_time lowerbound iv s).
Proof.
  intros Hw Ho Hf Hn. unfold modeB_ok, startOpen. cbn.
  rewrite Ho, Hf, Hn. cbn.
  pose proof (h_admissible start_location) as Hh.
  split; [exact Hw|]. split; [|split].
  - intros i n H. destruct i; [|destruct i; discriminate].
    injection H as <-. unfold nodeB_ok. cbn. lia.
  - intros i [<-|[]]. eexists. split; [reflexivity|]. cbn.
    apply within_start; [exact wf_ge_1|]. unfold getFVal. cbn. lia.
  - intros i [<-|[]]. eexists. split; [reflexivity|].
    unfold getFVal. cbn. lia.
Qed.

End Bounded.

Local Abbreviation admissible :=
  (admissible getNeighbors goal_location my_heuristic).
Local Abbreviation least_f_on_top := (least_f_on_top open_top).

(** The bounds of mode B while OPEN is in order: findSuboptimalPath called
    with w >= 1, an admissible heuristic and a lower bound that is at most
    the cost of the path it returns, under a [top()] of OPEN that returns a
    node of least f by the contents of the nodes.  When the path is not
    empty, the min_f_val returned with it is at most the cost of the path,
    and the cost is at most the exact product of w and min_f_val. *)
Lemma findSuboptimalPath_bounds fuel node initial_constraints paths agent
    lowerbound wf this p m s' :
  (1 <= wf)%Q → admissible → least_f_on_top → idle this →
  findSuboptimalPath fuel node initial_constraints paths agent lowerbound wf
    this = Ok (p, m, s') →
  p ≠ [] → lowerbound ≤ cost p →
  m ≤ cost p ∧ within wf (cost p) m.
Proof.
  intros Hw (d & Hd0 & Hde & Hda) Htop (Ho & Hf & Hn) H Hp Hlb.
  unfold findSuboptimalPath in H.
  destruct (0 <? get0 _); [injection H as <- _ _; congruence|].
  apply rbind_Ok in H as ([p1 s1] & Hloop & H). simpl in H.
  injection H as -> <- _.
  eapply findSuboptimalPath_loop_ok with (d := d) (lowerbound := lowerbound)
    in Hloop; try eassumption.
  - destruct Hloop as [->|[Hlow Hup]]; [congruence|]. split; [lia|exact Hup].
  - apply startOpen_ok; auto.
Qed.

End ModeB.

(** ** The comparators and the row of the examples *)

Lemma compare_node_le (n1 n2 : SIPPNode) :
  (compare_node n1 n2 = true → getFVal n1 ≤ getFVal n2) ∧
  (compare_node n1 n2 = false → getFVal n2 ≤ getFVal n1).
Proof.
  unfold compare_node. split; intros H.
  - apply orb_true_iff in H as [H|H]; [lia|].
    apply andb_true_iff in H as [H _]. lia.
  - apply orb_false_iff in H as [H _]. lia.
Qed.

Lemma heap_top_dangling before nodes heap b :
  nodes !! b = None → ∀ acc, acc = Some b →
  fold_left (heap_better before nodes) heap acc = Some b.
Proof.
  intros Hb. induction heap as [|j heap IH]; intros acc ->; simpl; [auto|].
  apply IH. unfold heap_better. rewrite Hb.
  destruct (nodes !! j); reflexivity.
Qed.

Lemma heap_top_fold nodes heap :
  ∀ acc i ni,
    fold_left (heap_better compare_node nodes) heap acc = Some i →
    nodes !! i = Some ni →
    (∀ j nj, In j heap → nodes !! j = Some nj → getFVal ni ≤ getFVal nj) ∧
    (∀ b nb, acc = Some b → nodes !! b = Some nb → getFVal ni ≤ getFVal nb).
Proof.
  induction heap as [|j heap IH]; intros acc i ni H Hi; simpl in H.
  - split; [intros j nj []|]. intros b nb -> Hb.
    injection H as ->. assert (nb = ni) by congruence. subst. lia.
  - unfold heap_better at 2 in H. destruct acc as [b|].
    + destruct (nodes !! j) as [nj|] eqn:Ej.
      * destruct (nodes !! b) as [nb|] eqn:Eb.
        -- destruct (compare_node_le nj nb) as [Ht Hf].
           destruct (compare_node nj nb) eqn:Ec;
             destruct (IH _ i ni H Hi) as [IH1 IH2].
           ++ pose proof (IH2 j nj eq_refl Ej). specialize (Ht eq_refl).
              split.
              ** intros j' nj' [<-|Hin] Hj'; [|eauto].
                 assert (nj' = nj) by congruence. subst. lia.
              ** intros b' nb' Hb' Hnb'. injection Hb' as <-.
                 assert (nb' = nb) by congruence. subst. lia.
           ++ pose proof (IH2 b nb eq_refl Eb). specialize (Hf eq_refl).
              split.
              ** intros j' nj' [<-|Hin] Hj'; [|eauto].
                 assert (nj' = nj) by congruence. subst. lia.
              ** intros b' nb' Hb' Hnb'. injection Hb' as <-.
                 assert (nb' = nb) by congruence. subst. lia.
        -- rewrite (heap_top_dangling compare_node nodes heap b Eb (Some b)
                      eq_refl) in H.
           injection H as <-. congruence.
      * destruct (IH _ i ni H Hi) as [IH1 IH2]. split.
        -- intros j' nj' [<-|Hin] Hj'; [congruence|eauto].
        -- intros b' nb' Hb' Hnb'. eauto.
    + destruct (IH _ i ni H Hi) as [IH1 IH2]. split.
      * intros j' nj' [<-|Hin] Hj'; [|eauto]. eauto.
      * intros b' nb' Hb'. discriminate.
Qed.

Lemma open_first_least : least_f_on_top Example.open_first.
Proof.
  intros nodes heap i ni H Hi j nj Hj Hnj.
  unfold Example.open_first, heap_top in H.
  destruct (heap_top_fold nodes heap None i ni H Hi) as [H1 _]. eauto.
Qed.

(** [top()] of the heaps of the examples returns a handle of the heap. *)
Lemma heap_top_member before nodes heap :
  ∀ acc, (heap ≠ [] ∨ acc ≠ None) →
    ∃ i, fold_left (heap_better before nodes) heap acc = Some i ∧
         (In i heap ∨ acc = Some i).
Proof.
  induction heap as [|j heap IH]; intros acc Hne; simpl.
  - destruct acc as [b|]; [eauto|]. destruct Hne; congruence.
  - destruct (IH (heap_better before nodes acc j)) as (i & Hi & Hin).
    { right. unfold heap_better. destruct acc as [b|]; [|discriminate].
      destruct (nodes !! j); [|discriminate].
      destruct (nodes !! b); [|discriminate].
      destruct (before _ _); discriminate. }
    exists i. split; [exact Hi|]. destruct Hin as [Hin|Hin]; [auto|].
    unfold heap_better in Hin. destruct acc as [b|].
    + destruct (nodes !! j); [|right; exact Hin].
      destruct (nodes !! b); [|right; exact Hin].
      destruct (before _ _); [left; left; congruence|right; exact Hin].
    + left. left. congruence.
Qed.

Lemma open_first_member : top_is_member Example.open_first.
Proof.
  intros nodes heap Hne.
  destruct (heap_top_member compare_node nodes heap None) as (i & Hi & Hin);
    [left; exact Hne|].
  exists i. split; [exact Hi|]. destruct Hin as [Hin|Hin]; [exact Hin|].
  discriminate.
Qed.

Lemma row_admissible :
  admissible Example.row_neighbors 1 Example.row_heuristic.
Proof.
  exists Example.row_heuristic. split; [reflexivity|]. split.
  - intros u v. unfold Example.row_neighbors, Example.row_heuristic.
    destruct (u =? 0) eqn:E0; [intros [<-|[]]; simpl; lia|].
    destruct (u =? 2) eqn:E2; [intros [<-|[<-|[]]]; simpl; lia|].
    destruct (u =? 1) eqn:E1; [intros [<-|[]]; simpl; lia|].
    intros [].
  - intros u. unfold Example.row_heuristic.
    destruct (u =? 0); [lia|]. destruct (u =? 2); lia.
Qed.

Lemma idle_planner_idle : idle Example.idle_planner.
Proof. repeat split. Qed.

(** ** The claims on the examples *)

(** C1 on the free row: findPath returns the path 0, 2, 1. *)
Lemma findPath_path_follows_parent_chain_witness :
  idle Example.idle_planner ∧
  (∃ s', Example.rowA_findPath Example.free_sit 50 Example.free_ct
           Example.idle_planner = Ok ([0; 2; 1], s')) ∧
  reconstructed Example.row_neighbors 0 1 Example.row_heuristic
    (Example.table Example.free_sit) Example.focal_first (-1)
    Example.free_ct Example.idle_planner [0; 2; 1].
Proof.
  assert (Hrun : ∃ s', Example.rowA_findPath Example.free_sit 50
                         Example.free_ct Example.idle_planner =
                       Ok ([0; 2; 1], s'))
    by (eexists; vm_compute; reflexivity).
  split; [exact idle_planner_idle|]. split; [exact Hrun|].
  destruct Hrun as [s' Hrun].
  exact (findPath_path_follows_parent_chain Example.row_neighbors 0 1
           Example.row_heuristic Example.focal_first (-1)
           (Example.table Example.free_sit) 50 Example.free_ct
           Example.idle_planner [0; 2; 1] s' idle_planner_idle Hrun
           ltac:(discriminate)).
Defined.

(** C3 on the row whose start cell is blocked before time 3. *)
Lemma blocked_start_returns_empty_path_witness :
  0 < get0 (get_first_safe_interval
              (Example.table Example.blocked_sit Example.free_ct 1) 0) ∧
  (∃ s, Example.rowA_findPath Example.blocked_sit 0 Example.free_ct
          Example.idle_planner = Ok ([], s) ∧ num_expanded s = 0) ∧
  (∃ s, Example.rowB_findSuboptimalPath Example.blocked_sit 0 0 tt
          Example.free_ct tt 7 0 (3 # 2) Example.idle_planner =
        Ok ([], 0, s) ∧ num_expanded s = 0).
Proof.
  assert (Hblocked : 0 < get0 (get_first_safe_interval
                                 (Example.table Example.blocked_sit
                                    Example.free_ct 1) 0))
    by (vm_compute; reflexivity).
  split; [exact Hblocked|].
  destruct (blocked_start_returns_empty_path Example.row_neighbors 0 1
              Example.row_heuristic (Example.table Example.blocked_sit)
              unit unit (fun ct _ _ => ct) (fun ct _ _ => ct)
              Example.focal_first Example.open_first (-1)) as [HA HB].
  split.
  - destruct (HA 0%nat Example.free_ct Example.idle_planner Hblocked)
      as (s & Hs & He & _). exists s. auto.
  - destruct (HB 0%nat tt Example.free_ct tt 7 0 (3 # 2)
                Example.idle_planner Hblocked) as (s & Hs & He & _).
    exists s. auto.
Defined.

(** Mode A relies on the reservation table for the holding time.  On the
    row with a parked agent and a least length of 3, with a table that keeps
    one safe interval [0, 10) of the goal across the holding time 3 (as no
    table built for that goal does), findPath returns a path that arrives
    at timestep 2.  After three turns the node on the goal (index 3) has
    timestep 5 and its virtual goal node (index 5) points to it; the fourth
    turn reaches the same key at timestep 2 and overwrites node 3 in place;
    the virtual goal node, popped in the sixth turn, rebuilds the path from
    node 3. *)
Lemma findPath_on_unsplit_goal_interval :
  getHoldingTime Example.late_ct 1 (length_min Example.late_ct) = 3 ∧
  (∃ s', Example.rowA_findPath Example.late_sit 50 Example.late_ct
           Example.idle_planner = Ok ([0; 2; 1], s')) ∧
  cost [0; 2; 1] = 2 ∧
  (∃ s3 iv3 s4 iv4 start n5 n2 g,
     Example.rowA_turns Example.late_sit Example.late_ct 3 = Ok (s3, iv3) ∧
     allNodes_table s3 !! 0%nat = Some start ∧ h_val start = 3 ∧
     allNodes_table s3 !! 3%nat = Some n5 ∧
     location n5 = 1 ∧ timestep n5 = 5 ∧
     allNodes_table s3 !! 5%nat = Some g ∧
     is_goal g = true ∧ parent g = Some 3%nat ∧
     Example.rowA_turns Example.late_sit Example.late_ct 4 = Ok (s4, iv4) ∧
     allNodes_table s4 !! 3%nat = Some n2 ∧
     location n2 = 1 ∧ timestep n2 = 2 ∧
     allNodes_table s4 !! 5%nat = Some g).
Proof.
  split; [reflexivity|]. split; [eexists; vm_compute; reflexivity|].
  split; [reflexivity|].
  eexists. eexists. eexists. eexists. eexists. eexists. eexists. eexists.
  split; [vm_compute; reflexivity|].
  split; [reflexivity|]. split; [reflexivity|].
  split; [reflexivity|]. split; [reflexivity|]. split; [reflexivity|].
  split; [reflexivity|]. split; [reflexivity|]. split; [reflexivity|].
  split; [vm_compute; reflexivity|].
  split; [reflexivity|]. split; [reflexivity|]. split; reflexivity.
Qed.

(** C8 on the row with a length of 4 at most: the first turn of findPath
    stores the wait child of the start node and pushes it to FOCAL, with
    g + h = 5; the same turn of findSuboptimalPath prunes that child and
    stores the move child only. *)
Theorem findPath_keeps_wait_child_beyond_length_max :
  (∃ s iv n,
     Example.rowA_turns Example.short_sit Example.short_ct 1 = Ok (s, iv) ∧
     allNodes_table s !! 2%nat = Some n ∧
     location n = 0 ∧ parent n = Some 0%nat ∧ timestep n = 3 ∧
     In 2%nat (focal_list s) ∧
     length_max Example.short_ct < g_val n + h_val n) ∧
  (∃ s iv,
     Example.rowB_turns Example.short_sit Example.short_ct 0 1 1 =
       Ok (s, iv) ∧
     length (allNodes_table s) = 2%nat).
Proof.
  split.
  - eexists. eexists. eexists. split; [vm_compute; reflexivity|].
    split; [reflexivity|]. vm_compute. repeat split; auto.
  - eexists. eexists. split; [vm_compute; reflexivity|]. reflexivity.
Qed.

(** On the free row with w = 3/2 the path 0, 2, 1 of cost 2 comes with
    min_f_val = 2. *)
Lemma findSuboptimalPath_bounds_witness :
  (1 <= 3 # 2)%Q ∧
  (∃ s', Example.rowB_findSuboptimalPath Example.free_sit 0 50 tt
           Example.free_ct tt 7 0 (3 # 2) Example.idle_planner =
         Ok ([0; 2; 1], 2, s')) ∧
  0 ≤ cost [0; 2; 1] ∧
  2 ≤ cost [0; 2; 1] ∧ within (3 # 2) (cost [0; 2; 1]) 2.
Proof.
  assert (Hrun : ∃ s', Example.rowB_findSuboptimalPath Example.free_sit 0 50
                         tt Example.free_ct tt 7 0 (3 # 2)
                         Example.idle_planner = Ok ([0; 2; 1], 2, s'))
    by (eexists; vm_compute; reflexivity).
  assert (Hw : (1 <= 3 # 2)%Q) by discriminate.
  assert (Hlb : 0 ≤ cost [0; 2; 1]) by (vm_compute; discriminate).
  split; [exact Hw|]. split; [exact Hrun|]. split; [exact Hlb|].
  destruct Hrun as [s' Hrun].
  exact (findSuboptimalPath_bounds Example.row_neighbors 0 1
           Example.row_heuristic (Example.table Example.free_sit) unit unit
           (fun ct _ _ => ct) (fun ct _ _ => ct) Example.focal_first
           Example.open_first (-1) 50 tt Example.free_ct tt 7 0 (3 # 2)
           Example.idle_planner [0; 2; 1] 2 s' Hw row_admissible
           open_first_least idle_planner_idle Hrun ltac:(discriminate) Hlb).
Defined.

(** ** Mode B on a heap that was not told of a larger f *)

Lemma grid_admissible :
  admissible Cases.grid_neighbors 11 Cases.grid_heuristic.
Proof.
  exists Cases.grid_distance. split; [reflexivity|]. split.
  - intros u v. unfold Cases.grid_neighbors, Cases.grid_distance.
    destruct (u =? 0) eqn:E0; [intros [<-|[<-|[]]]; simpl; lia|].
    destruct (u =? 1) eqn:E1; [intros [<-|[<-|[]]]; simpl; lia|].
    destruct (u =? 6) eqn:E6; [intros [<-|[<-|[]]]; simpl; lia|].
    destruct (u =? 7) eqn:E7; [intros [<-|[<-|[<-|[]]]]; simpl; lia|].
    destruct (u =? 8) eqn:E8; [intros [<-|[<-|[]]]; simpl; lia|].
    destruct (u =? 9) eqn:E9; [intros [<-|[<-|[]]]; simpl; lia|].
    destruct (u =? 10) eqn:E10; [intros [<-|[<-|[]]]; simpl; lia|].
    destruct (u =? 11) eqn:E11; [intros [<-|[]]; simpl; lia|].
    intros [].
  - intros u. unfold Cases.grid_heuristic, Cases.grid_distance.
    destruct (u =? 0); [destruct (u =? 1), (u =? 6), (u =? 7), (u =? 8),
                          (u =? 9), (u =? 10); lia|].
    destruct (u =? 1); [lia|]. destruct (u =? 6); [lia|].
    destruct (u =? 7); [lia|]. destruct (u =? 8); [lia|].
    destruct (u =? 9); [lia|]. destruct (u =? 10); lia.
Qed.

Lemma open_as_told_member : top_is_member Cases.open_as_told.
Proof.
  intros nodes heap Hne. apply open_first_member. exact Hne.
Qed.

(** A turn of the loop of findSuboptimalPath asks [top()] of OPEN once, in
    updateFocalList: two functions that agree there give the same turn. *)
Lemma findSuboptimalPath_turn_top (getNeighbors : Z → list Z)
    (goal_location : Z) (my_heuristic : Z → Z)
    (focal_top top1 top2 : list SIPPNode → list nat → option nat)
    (PathEntry_default : Z) rt holding_time path iv s :
  top1 (allNodes_table s) (open_list s) =
    top2 (allNodes_table s) (open_list s) →
  findSuboptimalPath_turn getNeighbors goal_location my_heuristic focal_top
    top1 PathEntry_default rt holding_time path iv s =
  findSuboptimalPath_turn getNeighbors goal_location my_heuristic focal_top
    top2 PathEntry_default rt holding_time path iv s.
Proof.
  intros H. unfold findSuboptimalPath_turn, updateFocalList. rewrite H.
  reflexivity.
Qed.

Lemma findSuboptimalPath_turns_S (getNeighbors : Z → list Z)
    (goal_location : Z) (my_heuristic : Z → Z)
    (focal_top open_top : list SIPPNode → list nat → option nat)
    (PathEntry_default : Z) n rt holding_time iv s :
  findSuboptimalPath_turns getNeighbors goal_location my_heuristic focal_top
    open_top PathEntry_default (S n) rt holding_time iv s =
  rbind (findSuboptimalPath_turn getNeighbors goal_location my_heuristic
           focal_top open_top PathEntry_default rt holding_time [] iv s)
    (fun t => match t with
              | Break _ _ => Fault
              | Continue s' iv' =>
                findSuboptimalPath_turns getNeighbors goal_location
                  my_heuristic focal_top open_top PathEntry_default n rt
                  holding_time iv' s'
              end).
Proof. reflexivity. Qed.

Section StaleTop.

(** Any [top()] of OPEN that returns a handle of the heap and, after the
    first and the second turn, the one node of least f. *)
Variable open_top : list SIPPNode → list nat → option nat.
Hypothesis top_member : top_is_member open_top.
Hypothesis top_after_first :
  open_top (allNodes_table Cases.grid_after1) (open_list Cases.grid_after1) =
    Some 3%nat.
Hypothesis top_after_second :
  open_top (allNodes_table Cases.grid_after2) (open_list Cases.grid_after2) =
    Some 4%nat.

Lemma top_of_one nodes i : open_top nodes [i] = Some i.
Proof.
  destruct (top_member nodes [i]) as (j & Hj & [<-|[]]);
    [discriminate|exact Hj].
Qed.

Lemma top_of_two nodes i j :
  open_top nodes [i; j] = Some i ∨ open_top nodes [i; j] = Some j.
Proof.
  destruct (top_member nodes [i; j]) as (k & Hk & [<-|[<-|[]]]);
    [discriminate|auto|auto].
Qed.

(** One turn under a [top()] that is known at the state of the turn. *)
Ltac turn_with top Htop :=
  rewrite (findSuboptimalPath_turn_top _ _ _ _ open_top
             (fun (_ : list SIPPNode) (_ : list nat) => Some top))
    by (first [exact Htop|apply Htop]);
  lazymatch goal with
  | |- rbind ?t _ = _ =>
    let r := eval vm_compute in t in
    replace t with r by (vm_compute; reflexivity)
  end;
  cbn [rbind].
Ltac grid_turn top Htop :=
  rewrite findSuboptimalPath_turns_S; turn_with top Htop.
Ltac grid_step top Htop :=
  rewrite findSuboptimalPath_loop_S by discriminate; turn_with top Htop.
Ltac grid_enter :=
  lazymatch goal with
  | |- _ _ _ _ _ _ _ _ _ _ ?iv ?s = _ =>
    let iv' := eval vm_compute in iv in
    let s1 := eval vm_compute in s in
    change s with s1; change iv with iv'
  end.

Lemma grid_three_turns :
  Cases.gridB_turns open_top 3 = Ok (Cases.grid_after3, (0, 1000, 0)).
Proof.
  grid_enter.
  grid_turn 0%nat top_of_one.
  grid_turn 3%nat top_after_first.
  grid_turn 4%nat top_after_second.
  reflexivity.
Qed.

(** The same [top()] after the third turn: nothing has told OPEN of the
    copy, and its top is the node at index 4 as before. *)
Hypothesis top_after_third :
  open_top (allNodes_table Cases.grid_after3) (open_list Cases.grid_after3) =
    Some 4%nat.

Lemma grid_loop fuel :
  Cases.gridB_loop open_top (7 + fuel)
    (get_first_safe_interval Cases.grid_table 7) Cases.grid_start =
  Ok ([7; 8; 9; 10; 11],
      mkSIPP 2 5 7 8 [4%nat] [4%nat]
        [ mkSIPPNode 7 0 3 None 0 (0, 1000, 0) 0 false false false;
          mkSIPPNode 8 1 3 (Some 0%nat) 1 (0, 1000, 1) 1 false false false;
          mkSIPPNode 6 1 4 (Some 0%nat) 1 (0, 1000, 0) 0 false false false;
          mkSIPPNode 1 2 1 (Some 0%nat) 2 (2, 1000, 0) 0 false false false;
          Cases.grid_copied;
          mkSIPPNode 9 2 2 (Some 1%nat) 2 (0, 1000, 0) 1 false false false;
          mkSIPPNode 10 3 1 (Some 5%nat) 3 (0, 1000, 0) 1 false false false;
          mkSIPPNode 11 4 0 (Some 6%nat) 4 (0, 1000, 0) 1 false false
            false ]).
Proof.
  grid_enter.
  replace (7 + fuel)%nat with (S (S (S (S (S (S (S fuel))))))) by lia.
  grid_step 0%nat top_of_one.
  grid_step 3%nat top_after_first.
  grid_step 4%nat top_after_second.
  grid_step 4%nat top_after_third.
  lazymatch goal with
  | |- findSuboptimalPath_loop _ _ _ _ _ _ _ _ _ _ _ ?s = _ =>
    destruct (top_of_two (allNodes_table s) 4%nat 5%nat) as [H5|H5]
  end;
    [grid_step 4%nat H5|grid_step 5%nat H5];
    (lazymatch goal with
     | |- findSuboptimalPath_loop _ _ _ _ _ _ _ _ _ _ _ ?s = _ =>
       destruct (top_of_two (allNodes_table s) 4%nat 6%nat) as [H6|H6]
     end;
     [grid_step 4%nat H6|grid_step 6%nat H6];
     (lazymatch goal with
      | |- findSuboptimalPath_loop _ _ _ _ _ _ _ _ _ _ _ ?s = _ =>
        destruct (top_of_two (allNodes_table s) 4%nat 7%nat) as [H7|H7]
      end;
      [grid_step 4%nat H7|grid_step 7%nat H7]; reflexivity)).
Qed.

Lemma grid_run fuel :
  Cases.gridB open_top (7 + fuel) tt Example.free_ct tt 7 0 2
    Example.idle_planner =
  Ok ([7; 8; 9; 10; 11], 5, mkSIPP 2 5 7 8 [] [] []).
Proof.
  unfold findSuboptimalPath.
  lazymatch goal with
  | |- (if ?b then _ else _) = _ =>
    replace b with false by (vm_compute; reflexivity)
  end.
  cbv zeta. rewrite grid_loop. reflexivity.
Qed.

End StaleTop.

(** C2 fails on the code: findSuboptimalPath called with w = 2, the lower
    bound 0 and an admissible heuristic returns a path of cost 4 with
    min_f_val = 5.  The search runs on a grid of eight free cells; the
    heuristic is at most the distance to the goal, and drops by 4 along the
    edge from cell 6 to cell 0.  After the first turn the node on cell 1 is
    the one node of least f in OPEN, and after the second turn the node on
    cell 0 (index 4, f = 3) is: a heap in order has them on top.  The third
    turn pops the node on cell 6 from FOCAL (no conflicts, f = 5), erases
    it from OPEN and reaches cell 0 again, at an earlier time and with
    f = 5 by path-max: generateChild copies the child into the stored node
    and, as 3 > 5 is false in line 301, does not call [open_list.increase].
    OPEN was told nothing: under any [top()] that returns the node at index
    4 as before (and a handle of the heap at all times), updateFocalList
    reads f = 5 from that node in the fourth turn and raises min_f_val from
    3 to 5, while the node on cell 8 with f = 4 is in OPEN and leads to the
    goal at cost 4.  Every product w * min_f_val of the run is 6 or 10.
    [open_as_told] is such a [top()]; under a [top()] that goes by the
    contents of the nodes the same call returns the same path with
    min_f_val = 4. *)
Theorem findSuboptimalPath_min_f_val_above_cost :
  admissible Cases.grid_neighbors 11 Cases.grid_heuristic ∧
  least_f_in_open Cases.grid_after1 3 3 ∧
  least_f_in_open Cases.grid_after2 4 3 ∧
  allNodes_table Cases.grid_after2 !! 4%nat = Some Cases.grid_pushed ∧
  open_list Cases.grid_after3 = heap_erase 2 (open_list Cases.grid_after2) ∧
  allNodes_table Cases.grid_after3 !! 4%nat = Some Cases.grid_copied ∧
  getFVal Cases.grid_copied = 5 ∧
  least_f_in_open Cases.grid_after3 1 4 ∧
  (∀ open_top,
     top_is_member open_top →
     open_top (allNodes_table Cases.grid_after1)
       (open_list Cases.grid_after1) = Some 3%nat →
     open_top (allNodes_table Cases.grid_after2)
       (open_list Cases.grid_after2) = Some 4%nat →
     Cases.gridB_turns open_top 3 = Ok (Cases.grid_after3, (0, 1000, 0)) ∧
     (open_top (allNodes_table Cases.grid_after3)
        (open_list Cases.grid_after3) = Some 4%nat →
      ∀ fuel,
        Cases.gridB open_top (7 + fuel) tt Example.free_ct tt 7 0 2
          Example.idle_planner =
        Ok ([7; 8; 9; 10; 11], 5, mkSIPP 2 5 7 8 [] [] []))) ∧
  cost [7; 8; 9; 10; 11] = 4 ∧
  (top_is_member Cases.open_as_told ∧
   Cases.open_as_told (allNodes_table Cases.grid_after1)
     (open_list Cases.grid_after1) = Some 3%nat ∧
   Cases.open_as_told (allNodes_table Cases.grid_after2)
     (open_list Cases.grid_after2) = Some 4%nat ∧
   Cases.open_as_told (allNodes_table Cases.grid_after3)
     (open_list Cases.grid_after3) = Some 4%nat) ∧
  Cases.gridB Example.open_first 50 tt Example.free_ct tt 7 0 2
    Example.idle_planner =
  Ok ([7; 8; 9; 10; 11], 4, mkSIPP 2 4 7 8 [] [] []).
Proof.
  assert (Hleast : ∀ s i f,
            In i (open_list s) →
            (∃ n, allNodes_table s !! i = Some n ∧ getFVal n = f) →
            forallb (fun j => Nat.eqb j i ||
                       match allNodes_table s !! j with
                       | Some m => f <? getFVal m
                       | None => true
                       end) (open_list s) = true →
            least_f_in_open s i f).
  { intros s i f Hi Hn Hall. split; [exact Hi|]. split; [exact Hn|].
    intros j m Hj Hne Hm. rewrite forallb_forall in Hall.
    specialize (Hall j Hj). rewrite Hm in Hall.
    apply orb_true_iff in Hall as [Hall|Hall]; [|lia].
    apply Nat.eqb_eq in Hall. contradiction. }
  split; [exact grid_admissible|].
  split.
  { apply Hleast; [right; right; left; reflexivity| |reflexivity].
    eexists. split; reflexivity. }
  split.
  { apply Hleast; [right; right; left; reflexivity| |reflexivity].
    eexists. split; reflexivity. }
  split; [reflexivity|]. split; [reflexivity|]. split; [reflexivity|].
  split; [reflexivity|].
  split.
  { apply Hleast; [left; reflexivity| |reflexivity].
    eexists. split; reflexivity. }
  split.
  { intros open_top Hmem H1 H2.
    split; [exact (grid_three_turns open_top Hmem H1 H2)|].
    intros H3 fuel. exact (grid_run open_top Hmem H1 H2 H3 fuel). }
  split; [reflexivity|].
  split.
  { split; [exact open_as_told_member|]. repeat split; vm_compute;
      reflexivity. }
  vm_compute. reflexivity.
Qed.

(** C4 on the row with a parked agent: the third turn of findPath pops the
    node that reached the goal at timestep 5, counts one future collision
    and generates the virtual goal node. *)
Lemma findPath_goal_test_witness :
  ∃ s iv c s1,
    Example.rowA_turns Example.late_sit Example.late_ct 2 = Ok (s, iv) ∧
    popFocal Example.focal_first s = Ok (3%nat, c, s1) ∧
    location c = 1 ∧ timestep c = 5 ∧ num_of_conflicts c = 0 ∧
    ∃ goal,
      goal = goalNode 3 c 1 ∧ is_goal goal = true ∧
      parent goal = Some 3%nat ∧ num_of_conflicts goal = 1 ∧
      Example.rowA_turn Example.late_sit Example.late_ct iv s =
        (do s2 <- generateGoalNode 3 c 1 s1;
         do r <- expandToFocal Example.row_neighbors 1 Example.row_heuristic
                   Example.late_ct
                   (Example.table Example.late_sit Example.late_ct 1) 3 iv s2;
         Ok (Continue (fst r) (snd r))).
Proof.
  eexists. eexists. eexists. eexists.
  split; [vm_compute; reflexivity|].
  match goal with
  | |- popFocal ?ft ?s = Ok (?i, ?c, ?s1) ∧ _ =>
    assert (Hpop : popFocal ft s = Ok (i, c, s1))
      by (vm_compute; reflexivity)
  end.
  split; [exact Hpop|].
  split; [reflexivity|]. split; [reflexivity|]. split; [reflexivity|].
  lazymatch goal with
  | |- context [findPath_turn _ _ _ _ _ _ _ _ _ ?iv _] =>
    destruct (findPath_goal_test Example.row_neighbors 1
                Example.row_heuristic Example.focal_first (-1) 0
                Example.late_ct
                (Example.table Example.late_sit Example.late_ct 1) 3 []
                iv _ _ _ _ Hpop ltac:(vm_compute; discriminate))
      as [_ Hgoal]
  end.
  destruct (Hgoal eq_refl eq_refl eq_refl ltac:(vm_compute; discriminate))
    as [_ Hfc].
  destruct (Hfc ltac:(vm_compute; discriminate))
    as (goal & Hg & Hig & Hpar & Hconf & _ & _ & _ & _ & _ & _ & Hturn & _).
  exists goal. split; [exact Hg|]. split; [exact Hig|].
  split; [exact Hpar|]. split; [exact Hconf|]. exact Hturn.
Defined.

(** C5 on the start node of the free row, with an interval that begins at
    time 5 and holds one collision: the child of mode A has 1 conflict, not
    1 * 5, and the child of mode B has 5, not 1. *)
Lemma conflicts_of_late_children_counterexample :
  ∃ sA nA sB nB,
    generateChildToFocal 1 (5, 9, 1) 0 2 1
      (Example.rowA_start Example.free_sit Example.free_ct) = Ok sA ∧
    allNodes_table sA !! 1%nat = Some nA ∧
    timestep Example.row_start_node + 1 < timestep nA ∧
    num_of_conflicts nA ≠
      num_of_conflicts Example.row_start_node +
      get2 (5, 9, 1) * (timestep nA - timestep Example.row_start_node) ∧
    generateChild 1 Example.row_heuristic (5, 9, 1) 0 2
      (Example.table Example.free_sit Example.free_ct 1)
      (Example.rowB_start Example.free_sit Example.free_ct 0 0 1) = Ok sB ∧
    allNodes_table sB !! 1%nat = Some nB ∧
    timestep Example.row_start_node + 1 < timestep nB ∧
    num_of_conflicts nB ≠
      num_of_conflicts Example.row_start_node + get2 (5, 9, 1).
Proof.
  eexists. eexists. eexists. eexists.
  split; [vm_compute; reflexivity|]. split; [reflexivity|].
  split; [vm_compute; reflexivity|]. split; [vm_compute; discriminate|].
  split; [vm_compute; reflexivity|]. split; [reflexivity|].
  split; [vm_compute; reflexivity|]. vm_compute; discriminate.
Qed.

(** The amended C5 on the same node and interval. *)
Lemma conflicts_of_late_children_witness :
  allNodes_table (Example.rowA_start Example.free_sit Example.free_ct)
    !! 0%nat = Some Example.row_start_node ∧
  timestep Example.row_start_node + 1 <
    Z.max (timestep Example.row_start_node + 1) (get0 (5, 9, 1)) ∧
  num_of_conflicts (childToFocal 1 (5, 9, 1) 0 Example.row_start_node 2 1) =
    num_of_conflicts Example.row_start_node + get2 (5, 9, 1) ∧
  num_of_conflicts
    (child 1 Example.row_heuristic (5, 9, 1) 0 Example.row_start_node 2) =
    num_of_conflicts Example.row_start_node +
    get2 (5, 9, 1) *
    (Z.max (timestep Example.row_start_node + 1) (get0 (5, 9, 1)) -
     timestep Example.row_start_node).
Proof.
  assert (Hc : allNodes_table
                 (Example.rowA_start Example.free_sit Example.free_ct)
                 !! 0%nat = Some Example.row_start_node)
    by (vm_compute; reflexivity).
  assert (Hlate : timestep Example.row_start_node + 1 <
                  Z.max (timestep Example.row_start_node + 1)
                    (get0 (5, 9, 1)))
    by (vm_compute; reflexivity).
  split; [exact Hc|]. split; [exact Hlate|].
  destruct (conflicts_of_late_children 1 Example.row_heuristic (5, 9, 1)
              0%nat Example.row_start_node 2 1
              (Example.table Example.free_sit Example.free_ct 1)
              (Example.rowA_start Example.free_sit Example.free_ct)
              Hc Hlate) as [[HA _] [HB _]].
  split; [exact HA|exact HB].
Defined.

(** C6 on the agent that starts on its goal: the second node that
    findSuboptimalPath pops stands on the goal at timestep 2, the holding
    time, and is the first popped node to do so; it is a wait-at-goal node,
    the turn goes on, and the search ends without a path. *)
Lemma findSuboptimalPath_goal_test_counterexample :
  ∃ s00 c0 s01 s iv s0 curr c s1 s' iv',
    updateFocalList Example.open_first
      (Example.rowB_start Example.stay_sit Example.stay_ct 1 0 1) = Ok s00 ∧
    popOpenFocal Example.focal_first s00 = Ok (0%nat, c0, s01) ∧
    timestep c0 <
      getHoldingTime Example.stay_ct 1 (length_min Example.stay_ct) ∧
    Example.rowB_turns Example.stay_sit Example.stay_ct 1 1 1 = Ok (s, iv) ∧
    updateFocalList Example.open_first s = Ok s0 ∧
    popOpenFocal Example.focal_first s0 = Ok (curr, c, s1) ∧
    location c = 1 ∧
    getHoldingTime Example.stay_ct 1 (length_min Example.stay_ct) ≤
      timestep c ∧
    wait_at_goal c = true ∧
    Example.rowB_turn Example.stay_sit Example.stay_ct iv s =
      Ok (Continue s' iv') ∧
    ∃ m sf,
      Example.rowB_findSuboptimalPath Example.stay_sit 1 50 tt
        Example.stay_ct tt 7 0 1 Example.idle_planner = Ok ([], m, sf).
Proof.
  eexists. eexists. eexists. eexists. eexists. eexists. eexists. eexists.
  eexists. eexists. eexists.
  split; [vm_compute; reflexivity|].
  split; [vm_compute; reflexivity|].
  split; [vm_compute; reflexivity|].
  split; [vm_compute; reflexivity|].
  split; [vm_compute; reflexivity|].
  split; [vm_compute; reflexivity|].
  split; [reflexivity|]. split; [vm_compute; discriminate|].
  split; [reflexivity|].
  split; [vm_compute; reflexivity|].
  eexists. eexists. vm_compute. reflexivity.
Qed.

(** The amended C6 on the free row: the third turn of findSuboptimalPath
    pops the node that reached the goal at timestep 2, which is no
    wait-at-goal node, and the loop returns the path 0, 2, 1. *)
Lemma findSuboptimalPath_goal_test_witness :
  ∃ s iv s0 curr c s1,
    Example.rowB_turns Example.free_sit Example.free_ct 0 1 2 = Ok (s, iv) ∧
    open_list s ≠ [] ∧
    updateFocalList Example.open_first s = Ok s0 ∧
    popOpenFocal Example.focal_first s0 = Ok (curr, c, s1) ∧
    location c = 1 ∧ wait_at_goal c = false ∧ timestep c = 2 ∧
    Example.rowB_loop Example.free_sit Example.free_ct 1 iv s =
      (do p <- updatePath (-1) (allNodes_table s1) (Some curr) [];
       Ok (p, s1)) ∧
    updatePath (-1) (allNodes_table s1) (Some curr) [] = Ok [0; 2; 1].
Proof.
  eexists. eexists. eexists. eexists. eexists. eexists.
  split; [vm_compute; reflexivity|].
  lazymatch goal with
  | |- open_list ?s ≠ [] ∧ updateFocalList ?ot ?s = Ok ?s0 ∧
       popOpenFocal ?ft ?s0 = Ok (?curr, ?c, ?s1) ∧ _ =>
    assert (Hopen : open_list s ≠ []) by (vm_compute; discriminate);
    assert (Hupd : updateFocalList ot s = Ok s0)
      by (vm_compute; reflexivity);
    assert (Hpop : popOpenFocal ft s0 = Ok (curr, c, s1))
      by (vm_compute; reflexivity)
  end.
  split; [exact Hopen|]. split; [exact Hupd|]. split; [exact Hpop|].
  split; [reflexivity|]. split; [reflexivity|]. split; [reflexivity|].
  split; [|vm_compute; reflexivity].
  lazymatch goal with
  | |- findSuboptimalPath_loop _ _ _ _ _ _ _ _ _ _ ?iv _ = _ =>
    destruct (findSuboptimalPath_goal_test Example.row_neighbors 1
                Example.row_heuristic Example.focal_first
                Example.open_first (-1) 0
                (Example.table Example.free_sit Example.free_ct 1)
                (Example.rowA_holding Example.free_ct) [] iv _ _ _ _ _
                Hopen Hupd Hpop) as [Hstop _]
  end.
  apply Hstop. split; [reflexivity|]. split; [reflexivity|].
  vm_compute. discriminate.
Defined.

(** C7 on the row with a parked agent.  With a least length of 3, the fourth
    turn generates a child on the goal at timestep 2; the stored node of its
    key was reached at timestep 5 and is closed: it takes the contents of the
    child and is pushed to FOCAL again.  With a least length of 2, the fifth
    turn generates a virtual goal node at timestep 2; the stored goal node of
    its key has timestep 5 and is open: it takes the contents of the new
    one. *)
Lemma modeA_duplicate_rule_witness :
  (∃ s iv c s1 existing s',
     Example.rowA_turns Example.late_sit Example.late_ct 3 = Ok (s, iv) ∧
     popFocal Example.focal_first s = Ok (1%nat, c, s1) ∧
     find_node (childToFocal 1 (0, 10, 0) 1%nat c 1 0) (allNodes_table s1) =
       Some (3%nat, existing) ∧
     in_openlist existing = false ∧ timestep existing = 5 ∧
     timestep (childToFocal 1 (0, 10, 0) 1%nat c 1 0) = 2 ∧
     generateChildToFocal 1 (0, 10, 0) 1%nat 1 0 s1 = Ok s' ∧
     allNodes_table s' =
       <[3%nat := set_in_openlist true
                    (copy existing (childToFocal 1 (0, 10, 0) 1%nat c 1 0))]>
         (allNodes_table s1) ∧
     focal_list s' = heap_push 3%nat (focal_list s1)) ∧
  (∃ s iv c s1 existing s2,
     Example.rowA_turns Example.late_sit Example.late2_ct 4 = Ok (s, iv) ∧
     popFocal Example.focal_first s = Ok (3%nat, c, s1) ∧
     find_node (goalNode 3%nat c 1) (allNodes_table s1) =
       Some (5%nat, existing) ∧
     in_openlist existing = true ∧ timestep existing = 5 ∧
     timestep (goalNode 3%nat c 1) = 2 ∧
     generateGoalNode 3%nat c 1 s1 = Ok s2 ∧
     allNodes_table s2 =
       <[5%nat := copy existing (goalNode 3%nat c 1)]> (allNodes_table s1)).
Proof.
  destruct (modeA_duplicate_rule Example.row_neighbors 0 1
              Example.row_heuristic Example.focal_first (-1)) as [HA HB].
  split.
  - let r := eval vm_compute in
        (Example.rowA_turns Example.late_sit Example.late_ct 3) in
    lazymatch r with
    | Ok (?s, ?iv) =>
      let r2 := eval vm_compute in (popFocal Example.focal_first s) in
      lazymatch r2 with
      | Ok (?curr, ?c, ?s1) =>
        let r3 := eval vm_compute in
            (find_node (childToFocal 1 (0, 10, 0) curr c 1 0)
               (allNodes_table s1)) in
        lazymatch r3 with
        | Some (?e, ?existing) =>
          destruct (HA (0, 10, 0) curr c 1 0 s1 e existing
                      ltac:(vm_compute; reflexivity)
                      ltac:(vm_compute; reflexivity))
            as (s' & Hgen & Hbetter & _);
          destruct (Hbetter ltac:(left; vm_compute; reflexivity))
            as [Hnodes Hfocal];
          exists s, iv, c, s1, existing, s'
        end
      end
    end.
    split; [vm_compute; reflexivity|]. split; [vm_compute; reflexivity|].
    split; [vm_compute; reflexivity|]. split; [reflexivity|].
    split; [reflexivity|]. split; [reflexivity|]. split; [exact Hgen|].
    split; [exact Hnodes|exact Hfocal].
  - let r := eval vm_compute in
        (Example.rowA_turns Example.late_sit Example.late2_ct 4) in
    lazymatch r with
    | Ok (?s, ?iv) =>
      assert (Hturns : Example.rowA_turns Example.late_sit Example.late2_ct 4
                       = Ok (s, iv)) by (vm_compute; reflexivity);
      let r2 := eval vm_compute in (popFocal Example.focal_first s) in
      lazymatch r2 with
      | Ok (?curr, ?c, ?s1) =>
        let r3 := eval vm_compute in
            (find_node (goalNode curr c 1) (allNodes_table s1)) in
        lazymatch r3 with
        | Some (?e, ?existing) =>
          destruct (HB Example.late2_ct
                      (Example.table Example.late_sit Example.late2_ct 1)
                      (Example.rowA_holding Example.late2_ct)
                      Example.idle_planner
                      (get_first_safe_interval
                         (Example.table Example.late_sit Example.late2_ct 1)
                         0)
                      s iv curr c s1 1 e existing eq_refl
                      (findPath_turns_reaches Example.row_neighbors 1
                         Example.row_heuristic Example.focal_first (-1)
                         _ _ _ _ _ _ _ _ Hturns)
                      ltac:(vm_compute; reflexivity) eq_refl
                      ltac:(vm_compute; reflexivity))
            as (Hopen & s2 & Hgen & Hbetter & _);
          destruct (Hbetter ltac:(left; vm_compute; reflexivity))
            as [Hnodes _];
          exists s, iv, c, s1, existing, s2
        end
      end
    end.
    split; [exact Hturns|]. split; [vm_compute; reflexivity|].
    split; [vm_compute; reflexivity|]. split; [exact Hopen|].
    split; [reflexivity|]. split; [reflexivity|]. split; [exact Hgen|].
    exact Hnodes.
Defined.

(** * Further properties of the code *)

(** ** Path reconstruction on any store *)

(** The outer loop of updatePath, when it returns, has reached a node
    without parent at timestep 0 and has written its cell at index 0. *)
Lemma walk_parents_root (fuel : nat) (nodes : list SIPPNode) :
  ∀ (curr : nat) (path p : Path),
  walk_parents fuel nodes curr path = Ok p →
  ∃ r root, on_chain nodes curr r ∧ nodes !! r = Some root ∧
    parent root = None ∧ timestep root = 0 ∧
    p !! 0%nat = Some (location root).
Proof.
  induction fuel as [|fuel IH]; intros curr path p H; simpl in H;
    [discriminate|].
  destruct (nodes !! curr) as [c|] eqn:Ec; [|discriminate].
  destruct (parent c) as [pi|] eqn:Ep.
  - destruct (nodes !! pi) as [prev|]; [|discriminate].
    apply rbind_Ok in H as (p1 & _ & H). apply rbind_Ok in H as (p2 & _ & H).
    apply IH in H as (r & root & Hon & Hr & Hroot).
    exists r, root. split; [|auto]. eapply chain_up; eauto.
  - destruct (timestep c =? 0) eqn:Et; [|discriminate].
    apply path_set_Ok in H as [Hlen ->].
    exists curr, c. split; [apply chain_here|]. split; [exact Ec|].
    split; [exact Ep|]. split; [lia|].
    apply list_lookup_insert_eq. simpl. lia.
Qed.

(** X1: updatePath, on any store and any path passed in: when it returns,
    the goal pointer was not null, the path has one entry per timestep up to
    that of the goal node, the parent chain of the goal node ends in a node
    without parent whose timestep is 0, and the first entry of the path is
    the cell of that node. *)
Theorem updatePath_root_and_length (PathEntry_default : Z)
    (nodes : list SIPPNode) (goal : option nat) (path p : Path) :
  updatePath PathEntry_default nodes goal path = Ok p →
  ∃ gi g r root,
    goal = Some gi ∧ nodes !! gi = Some g ∧
    Z.of_nat (length p) = timestep g + 1 ∧
    on_chain nodes gi r ∧ nodes !! r = Some root ∧ parent root = None ∧
    timestep root = 0 ∧ p !! 0%nat = Some (location root).
Proof.
  unfold updatePath. intros H. destruct goal as [gi|]; [|discriminate].
  destruct (nodes !! gi) as [g|] eqn:Eg; [|discriminate].
  destruct (timestep g + 1 <? 0) eqn:E; [discriminate|].
  pose proof (walk_parents_length _ _ _ _ _ H) as Hl.
  unfold resize in Hl.
  rewrite length_app, length_take, length_replicate in Hl.
  apply walk_parents_root in H as (r & root & Hon & Hr & Hp & Ht & H0).
  exists gi, g, r, root. repeat (split; [first [reflexivity|assumption|lia]|]).
  exact H0.
Qed.

Lemma updatePath_root_and_length_witness :
  ∃ gi g r root,
    Some 2%nat = Some gi ∧ Cases.chain !! gi = Some g ∧
    Z.of_nat (length [0; 2; 2; 1]) = timestep g + 1 ∧
    on_chain Cases.chain gi r ∧ Cases.chain !! r = Some root ∧
    parent root = None ∧ timestep root = 0 ∧
    [0; 2; 2; 1] !! 0%nat = Some (location root).
Proof.
  apply (updatePath_root_and_length (-1) Cases.chain (Some 2%nat) [7; 7]).
  vm_compute. reflexivity.
Defined.

(** ** Path reconstruction on a search tree *)

Section TreePath.

Variable getNeighbors : Z → list Z.
Variable start_location goal_location : Z.

Local Abbreviation tree_ok := (tree_ok getNeighbors start_location goal_location).

(** On a search tree the outer loop of updatePath overwrites every entry up
    to the timestep of the node it starts from. *)
Lemma walk_parents_agree (nodes : list SIPPNode) (Htree : tree_ok nodes) :
  ∀ (fuel i : nat) (n : SIPPNode) (path1 path2 : Path),
  nodes !! i = Some n → is_goal n = false →
  length path1 = length path2 →
  timestep n < Z.of_nat (length path1) →
  (∀ k : nat, timestep n < Z.of_nat k → path1 !! k = path2 !! k) →
  walk_parents fuel nodes i path1 = walk_parents fuel nodes i path2.
Proof.
  induction fuel as [|fuel IH]; intros i n path1 path2 Hi Hg Hlen Ht Hhigh;
    [reflexivity|].
  simpl. rewrite Hi.
  destruct (Htree i n Hi) as [Ht0 Hpar].
  destruct (parent n) as [pi|] eqn:Epar.
  - destruct Hpar as (prev & Hpi & Hgp & Hrel). rewrite Hg in Hrel.
    destruct Hrel as [Hlt _]. rewrite Hpi.
    destruct (Htree pi prev Hpi) as [Htp _].
    destruct (fill_wait_in_range
                (Z.to_nat (timestep n - (timestep prev + 1)))
                (timestep prev + 1) (location prev) path1)
      as (p1 & Hp1 & Hl1 & Hin1 & Hout1); [lia|lia|].
    destruct (fill_wait_in_range
                (Z.to_nat (timestep n - (timestep prev + 1)))
                (timestep prev + 1) (location prev) path2)
      as (p2 & Hp2 & Hl2 & Hin2 & Hout2); [lia|lia|].
    rewrite Hp1, Hp2. simpl.
    rewrite !path_set_in_range by lia. simpl.
    apply (IH pi prev _ _ Hpi Hgp).
    + rewrite !length_insert. congruence.
    + rewrite length_insert. lia.
    + intros k Hk. destruct (decide (Z.of_nat k = timestep n)) as [E|E].
      * replace k with (Z.to_nat (timestep n)) by lia.
        rewrite !list_lookup_insert_eq by lia. reflexivity.
      * rewrite !list_lookup_insert_ne by lia.
        destruct (Z_lt_dec (Z.of_nat k) (timestep n)) as [Hlow|Hlow].
        -- rewrite Hin1, Hin2 by lia. reflexivity.
        -- rewrite Hout1, Hout2 by lia. apply Hhigh. lia.
  - destruct Hpar as (Ht1 & _). rewrite Ht1. simpl.
    rewrite !path_set_in_range by lia. simpl. f_equal.
    apply list_eq. intros k. destruct k as [|k].
    + rewrite !list_lookup_insert_eq by lia. reflexivity.
    + rewrite !list_lookup_insert_ne by lia. apply Hhigh. lia.
Qed.

(** X2: updatePath on a search tree, from a node that is not a virtual goal
    node: it returns, and the path it returns depends neither on what the
    path held before the call nor on the default entry of the resize; every
    entry is written. *)
Theorem updatePath_overwrites_path (nodes : list SIPPNode) (i : nat)
    (n : SIPPNode) (default1 default2 : Z) (path1 path2 : Path) :
  tree_ok nodes → nodes !! i = Some n → is_goal n = false →
  ∃ p, updatePath default1 nodes (Some i) path1 = Ok p ∧
       updatePath default2 nodes (Some i) path2 = Ok p.
Proof.
  intros Htree Hn Hg. unfold updatePath. rewrite Hn.
  destruct (Htree i n Hn) as [Ht _].
  destruct (timestep n + 1 <? 0) eqn:E; [lia|]. clear E.
  destruct (walk_parents_tree getNeighbors start_location goal_location
              nodes Htree (S (length nodes + Z.to_nat (timestep n))) i n
              (resize default1 path1 (Z.to_nat (timestep n + 1)))
              Hn Hg)
    as (p & Hp & _).
  { rewrite resize_length. lia. }
  { lia. }
  exists p. split; [exact Hp|]. rewrite <- Hp. symmetry.
  apply (walk_parents_agree nodes Htree _ i n _ _ Hn Hg).
  - rewrite !resize_length. reflexivity.
  - rewrite resize_length. lia.
  - intros k Hk. rewrite !lookup_ge_None_2; [reflexivity| |];
      rewrite resize_length; lia.
Qed.

End TreePath.

Lemma chain_tree_ok : tree_ok Example.row_neighbors 0 1 Cases.chain.
Proof.
  intros i n H.
  destruct i as [|[|[|i]]]; simpl in H; [| | |discriminate];
    injection H as <-; (split; [simpl; lia|]); simpl.
  - auto.
  - eexists. split; [reflexivity|]. split; [reflexivity|]. simpl.
    split; [lia|]. right. simpl. auto.
  - eexists. split; [reflexivity|]. split; [reflexivity|]. simpl.
    split; [lia|]. right. simpl. auto.
Qed.

Lemma updatePath_overwrites_path_witness :
  ∃ p, updatePath (-1) Cases.chain (Some 2%nat) [] = Ok p ∧
       updatePath 9 Cases.chain (Some 2%nat) [7; 7; 7; 7; 7; 7] = Ok p.
Proof.
  exact (updatePath_overwrites_path Example.row_neighbors 0 1 Cases.chain
           2%nat (mkSIPPNode 1 3 0 (Some 1%nat) 3 (3, 1000, 0) 0 true false
                    false)
           (-1) 9 [] [7; 7; 7; 7; 7; 7] chain_tree_ok eq_refl eq_refl).
Defined.

(** ** Keys, heaps and flags *)

Lemma eqnode_key (n1 n2 : SIPPNode) :
  eqnode n1 n2 = true ↔ key n1 = key n2.
Proof.
  unfold eqnode, key. split.
  - intros H. apply andb_true_iff in H as [H H3].
    apply andb_true_iff in H as [H1 H2].
    apply Z.eqb_eq in H1, H2. apply eqb_prop in H3. congruence.
  - intros H. injection H as H1 H2 H3. rewrite H1, H2, H3.
    rewrite !Z.eqb_refl, eqb_reflx. reflexivity.
Qed.

Lemma find_from_None (k : SIPPNode) (tbl : list SIPPNode) :
  ∀ i0, find_from i0 k tbl = None →
    ∀ j n, tbl !! j = Some n → key n ≠ key k.
Proof.
  induction tbl as [|x tbl IH]; intros i0 H j n Hj; [discriminate|].
  simpl in H. destruct (eqnode x k) eqn:E; [discriminate|].
  destruct j as [|j]; simpl in Hj.
  - injection Hj as <-. intros Hk. apply eqnode_key in Hk. congruence.
  - exact (IH _ H j n Hj).
Qed.

Lemma find_node_None (k : SIPPNode) (tbl : list SIPPNode) :
  find_node k tbl = None → ∀ j n, tbl !! j = Some n → key n ≠ key k.
Proof. apply find_from_None. Qed.

Lemma find_node_key (k : SIPPNode) (tbl : list SIPPNode) e n :
  find_node k tbl = Some (e, n) → tbl !! e = Some n ∧ key n = key k.
Proof.
  intros H. apply find_node_Some in H as [Hl He].
  apply eqnode_key in He. auto.
Qed.

Lemma NoDup_heap_push (i : nat) (heap : list nat) :
  NoDup heap → ¬ In i heap → NoDup (heap_push i heap).
Proof.
  intros Hnd Hi. unfold heap_push. apply NoDup_app.
  split; [exact Hnd|]. split; [|apply NoDup_singleton].
  intros x Hx Hx'. apply list_elem_of_singleton in Hx'. subst x.
  apply Hi. apply list_elem_of_In. exact Hx.
Qed.

Lemma heap_erase_NoDup (i : nat) (heap : list nat) :
  NoDup heap →
  NoDup (heap_erase i heap) ∧
  ∀ j, In j (heap_erase i heap) ↔ j ≠ i ∧ In j heap.
Proof.
  induction heap as [|x heap IH]; intros Hnd; simpl.
  - split; [constructor|]. intros j. tauto.
  - apply NoDup_cons in Hnd as [Hx Hnd]. rewrite list_elem_of_In in Hx.
    destruct (Nat.eqb i x) eqn:E.
    + apply Nat.eqb_eq in E. subst x. split; [exact Hnd|].
      intros j. split.
      * intros Hj. split; [|auto]. intros ->. contradiction.
      * intros [Hne [->|Hj]]; [congruence|exact Hj].
    + apply Nat.eqb_neq in E. destruct (IH Hnd) as [IH1 IH2]. split.
      * apply NoDup_cons. split; [|exact IH1].
        rewrite list_elem_of_In. intros Hin. apply IH2 in Hin. tauto.
      * intros j. simpl. rewrite IH2. split.
        -- intros [->|[Hne Hj]]; split; auto.
        -- intros [Hne [->|Hj]]; auto.
Qed.

Lemma heap_erase_length (i : nat) (heap : list nat) :
  In i heap → length heap = S (length (heap_erase i heap)).
Proof.
  induction heap as [|x heap IH]; simpl; [tauto|].
  destruct (Nat.eqb i x) eqn:E; [reflexivity|].
  apply Nat.eqb_neq in E. intros [->|Hi]; [congruence|].
  simpl. rewrite <- IH by exact Hi. reflexivity.
Qed.

Lemma keys_unique_insert (nodes : list SIPPNode) e old new :
  keys_unique nodes → nodes !! e = Some old → key new = key old →
  keys_unique (<[e := new]> nodes).
Proof.
  intros Hu He Hk i j ni nj Hi Hj Hkey.
  assert (Hlt : (e < length nodes)%nat) by (eapply lookup_lt_Some; eauto).
  assert (Hget : ∀ x nx, <[e := new]> nodes !! x = Some nx →
                   ∃ ox, nodes !! x = Some ox ∧ key ox = key nx).
  { intros x nx Hx. destruct (decide (x = e)) as [->|Hne].
    - rewrite list_lookup_insert_eq in Hx by exact Hlt.
      injection Hx as <-. eauto.
    - rewrite list_lookup_insert_ne in Hx by congruence. eauto. }
  destruct (Hget i ni Hi) as (oi & Hoi & Ki).
  destruct (Hget j nj Hj) as (oj & Hoj & Kj).
  apply (Hu i j oi oj Hoi Hoj). congruence.
Qed.

Lemma keys_unique_app (nodes : list SIPPNode) new :
  keys_unique nodes →
  (∀ j n, nodes !! j = Some n → key n ≠ key new) →
  keys_unique (nodes ++ [new]).
Proof.
  intros Hu Hnew i j ni nj Hi Hj Hkey.
  apply lookup_app_Some in Hi as [Hi|[Hi1 Hi2]];
    apply lookup_app_Some in Hj as [Hj|[Hj1 Hj2]].
  - exact (Hu i j ni nj Hi Hj Hkey).
  - destruct (j - length nodes)%nat as [|x] eqn:E; [|destruct x; discriminate].
    injection Hj2 as <-. exfalso. exact (Hnew i ni Hi Hkey).
  - destruct (i - length nodes)%nat as [|x] eqn:E; [|destruct x; discriminate].
    injection Hi2 as <-. exfalso. apply (Hnew j nj Hj). congruence.
  - destruct (i - length nodes)%nat as [|x] eqn:Ei;
      [|destruct x; discriminate].
    destruct (j - length nodes)%nat as [|y] eqn:Ej;
      [|destruct y; discriminate].
    lia.
Qed.

Lemma heap_is_open_insert (nodes : list SIPPNode) heap e old new :
  heap_is_open nodes heap → nodes !! e = Some old →
  in_openlist new = in_openlist old →
  heap_is_open (<[e := new]> nodes) heap.
Proof.
  intros [Hnd Hiff] He Hflag. split; [exact Hnd|].
  assert (Hlt : (e < length nodes)%nat) by (eapply lookup_lt_Some; eauto).
  intros i. rewrite Hiff. destruct (decide (i = e)) as [->|Hne].
  - rewrite list_lookup_insert_eq by exact Hlt. rewrite He. split.
    + intros (n & Hn & Ho). injection Hn as <-. exists new. split; congruence.
    + intros (n & Hn & Ho). injection Hn as <-. exists old. split; congruence.
  - rewrite list_lookup_insert_ne by congruence. reflexivity.
Qed.

Lemma heap_is_open_reopen (nodes : list SIPPNode) heap e old new :
  heap_is_open nodes heap → nodes !! e = Some old →
  in_openlist old = false → in_openlist new = true →
  heap_is_open (<[e := new]> nodes) (heap_push e heap).
Proof.
  intros [Hnd Hiff] He Hold Hnew.
  assert (Hlt : (e < length nodes)%nat) by (eapply lookup_lt_Some; eauto).
  assert (Hnot : ¬ In e heap).
  { intros Hin. apply Hiff in Hin as (n & Hn & Ho). congruence. }
  split; [apply NoDup_heap_push; assumption|].
  intros i. unfold heap_push. rewrite in_app_iff, Hiff. simpl.
  destruct (decide (i = e)) as [->|Hne].
  - rewrite list_lookup_insert_eq by exact Hlt. split; [|auto].
    intros _. exists new. auto.
  - rewrite list_lookup_insert_ne by congruence. split; [|tauto].
    intros [H|[H|[]]]; [exact H|congruence].
Qed.

Lemma heap_is_open_app (nodes : list SIPPNode) heap n :
  heap_is_open nodes heap → in_openlist n = true →
  heap_is_open (nodes ++ [n]) (heap_push (length nodes) heap).
Proof.
  intros [Hnd Hiff] Hn.
  assert (Hnot : ¬ In (length nodes) heap).
  { intros Hin. apply Hiff in Hin as (x & Hx & _).
    apply lookup_lt_Some in Hx. lia. }
  split; [apply NoDup_heap_push; assumption|].
  intros i. unfold heap_push. rewrite in_app_iff, Hiff. simpl. split.
  - intros [(x & Hx & Ho)|[<-|[]]].
    + exists x. split; [|exact Ho]. apply lookup_app_l_Some. exact Hx.
    + exists n. split; [|exact Hn].
      rewrite lookup_app_r by lia. rewrite Nat.sub_diag. reflexivity.
  - intros (x & Hx & Ho). apply lookup_app_Some in Hx as [Hx|[Hx1 Hx2]].
    + left. eauto.
    + right. left.
      destruct (i - length nodes)%nat as [|y] eqn:E;
        [lia|destruct y; discriminate].
Qed.

Lemma heap_is_open_pop (nodes : list SIPPNode) heap e old new :
  heap_is_open nodes heap → nodes !! e = Some old →
  in_openlist new = false →
  heap_is_open (<[e := new]> nodes) (heap_erase e heap).
Proof.
  intros [Hnd Hiff] He Hnew.
  assert (Hlt : (e < length nodes)%nat) by (eapply lookup_lt_Some; eauto).
  destruct (heap_erase_NoDup e heap Hnd) as [Hnd' Hin'].
  split; [exact Hnd'|]. intros i. rewrite Hin', Hiff.
  destruct (decide (i = e)) as [->|Hne].
  - rewrite list_lookup_insert_eq by exact Hlt. split; [tauto|].
    intros (n & Hn & Ho). congruence.
  - rewrite list_lookup_insert_ne by congruence. tauto.
Qed.

Lemma improved_refl (n : SIPPNode) : improved n n.
Proof. unfold improved. auto. Qed.

Lemma improved_trans (a b c : SIPPNode) :
  improved a b → improved b c → improved a c.
Proof.
  unfold improved, strictly_better.
  intros (K1 & O1 & B1) (K2 & O2 & B2).
  split; [congruence|]. split; [auto|].
  destruct B1 as [->|B1]; [exact B2|].
  destruct B2 as [->|B2]; [right; exact B1|]. right. lia.
Qed.

Lemma only_improves_refl nodes : only_improves nodes nodes.
Proof. intros i n H. exists n. split; [exact H|apply improved_refl]. Qed.

Lemma only_improves_trans n1 n2 n3 :
  only_improves n1 n2 → only_improves n2 n3 → only_improves n1 n3.
Proof.
  intros H1 H2 i n Hi. destruct (H1 i n Hi) as (n' & Hn' & I1).
  destruct (H2 i n' Hn') as (n'' & Hn'' & I2).
  exists n''. split; [exact Hn''|]. eapply improved_trans; eauto.
Qed.

Lemma only_improves_app nodes n : only_improves nodes (nodes ++ [n]).
Proof.
  intros i x H. exists x. split; [|apply improved_refl].
  apply lookup_app_l_Some. exact H.
Qed.

Lemma only_improves_insert nodes e old new :
  nodes !! e = Some old → improved old new →
  only_improves nodes (<[e := new]> nodes).
Proof.
  intros He Himp i n Hi. destruct (decide (i = e)) as [->|Hne].
  - exists new. split.
    + apply list_lookup_insert_eq. eapply lookup_lt_Some; eauto.
    + assert (n = old) by congruence. subst n. exact Himp.
  - exists n. split; [|apply improved_refl].
    rewrite list_lookup_insert_ne by congruence. exact Hi.
Qed.

Lemma only_improves_length nodes nodes' :
  only_improves nodes nodes' → (length nodes ≤ length nodes')%nat.
Proof.
  intros H. destruct (nodes !! (length nodes - 1)%nat) as [x|] eqn:E.
  - destruct (H _ x E) as (n' & Hn' & _). apply lookup_lt_Some in Hn'. lia.
  - apply lookup_ge_None in E. lia.
Qed.

Lemma dominates_improved (next existing updated : SIPPNode) :
  dominates next existing = true → key existing = key next →
  key updated = key next → timestep updated = timestep next →
  num_of_conflicts updated = num_of_conflicts next →
  (in_openlist existing = true → in_openlist updated = true) →
  improved existing updated.
Proof.
  intros Hd K1 K2 Ht Hc Ho. apply dominates_true in Hd.
  split; [congruence|]. split; [exact Ho|]. right.
  unfold strictly_better. lia.
Qed.

(** ** The bookkeeping of mode A *)

Section ModeAStore.

Variable getNeighbors : Z → list Z.
Variable start_location goal_location : Z.
Variable my_heuristic : Z → Z.
Variable focal_top : list SIPPNode → list nat → option nat.
Variable PathEntry_default : Z.

Local Abbreviation childToFocal := (childToFocal goal_location).
Local Abbreviation generateChildToFocal := (generateChildToFocal goal_location).
Local Abbreviation moveIntervalsToFocal := (moveIntervalsToFocal goal_location).
Local Abbreviation moveToFocal := (moveToFocal goal_location my_heuristic).
Local Abbreviation waitToFocal := (waitToFocal goal_location).
Local Abbreviation expandToFocal :=
  (expandToFocal getNeighbors goal_location my_heuristic).
Local Abbreviation popFocal := (popFocal focal_top).
Local Abbreviation findPath_turn :=
  (findPath_turn getNeighbors goal_location my_heuristic focal_top
     PathEntry_default).
Local Abbreviation findPath_loop :=
  (findPath_loop getNeighbors goal_location my_heuristic focal_top
     PathEntry_default).
Local Abbreviation findPath_turns :=
  (findPath_turns getNeighbors goal_location my_heuristic focal_top
     PathEntry_default).
Local Abbreviation startFocal := (startFocal start_location my_heuristic).

(** The four ways in which generateChildToFocal returns. *)
Lemma generateChildToFocal_cases iv curr nl nh s s' :
  generateChildToFocal iv curr nl nh s = Ok s' →
  ∃ c, allNodes_table s !! curr = Some c ∧
    let next := childToFocal iv curr c nl nh in
    (find_node next (allNodes_table s) = None ∧ s' = insert_to_focal next s) ∨
    (∃ e ex, find_node next (allNodes_table s) = Some (e, ex) ∧
       dominates next ex = true ∧ in_openlist ex = false ∧
       s' = set_allNodes_table
              (<[e := set_in_openlist true (copy ex next)]> (allNodes_table s))
              (set_focal_list (heap_push e (focal_list s)) s)) ∨
    (∃ e ex, find_node next (allNodes_table s) = Some (e, ex) ∧
       dominates next ex = true ∧ in_openlist ex = true ∧
       s' = set_allNodes_table (<[e := copy ex next]> (allNodes_table s))
              (set_focal_list (focal_list s) s)) ∨
    (∃ e ex, find_node next (allNodes_table s) = Some (e, ex) ∧
       dominates next ex = false ∧ s' = s).
Proof.
  unfold generateChildToFocal. intros H.
  destruct (allNodes_table s !! curr) as [c|]; [|discriminate].
  exists c. split; [reflexivity|]. cbv zeta.
  destruct (find_node (childToFocal iv curr c nl nh) (allNodes_table s))
    as [[e ex]|]; [|injection H as <-; left; auto].
  right. destruct (dominates (childToFocal iv curr c nl nh) ex) eqn:Ed.
  - simpl in H. destruct (in_openlist ex) eqn:Eo; simpl in H;
      injection H as <-.
    + right. left. exists e, ex. auto.
    + left. exists e, ex. auto.
  - injection H as <-. right. right. exists e, ex. auto.
Qed.

(** The three ways in which the generation of a virtual goal node returns. *)
Lemma generateGoalNode_cases curr c fc s s' :
  generateGoalNode curr c fc s = Ok s' →
  let goal := goalNode curr c fc in
  (find_node goal (allNodes_table s) = None ∧ s' = insert_to_focal goal s) ∨
  (∃ e ex, find_node goal (allNodes_table s) = Some (e, ex) ∧
     dominates goal ex = true ∧ in_openlist ex = true ∧
     s' = set_allNodes_table (<[e := copy ex goal]> (allNodes_table s))
            (set_focal_list (focal_list s) s)) ∨
  (∃ e ex, find_node goal (allNodes_table s) = Some (e, ex) ∧
     dominates goal ex = false ∧ s' = s).
Proof.
  unfold generateGoalNode. intros H. cbv zeta.
  destruct (find_node (goalNode curr c fc) (allNodes_table s))
    as [[e ex]|]; [|injection H as <-; left; auto].
  right. destruct (dominates (goalNode curr c fc) ex) eqn:Ed.
  - destruct (in_openlist ex) eqn:Eo; [|discriminate].
    injection H as <-. left. exists e, ex. auto.
  - injection H as <-. right. exists e, ex. auto.
Qed.

Lemma insert_to_focal_store_ok next s :
  modeA_store_ok s → find_node next (allNodes_table s) = None →
  modeA_store_ok (insert_to_focal next s).
Proof.
  intros (Hu & Ho & Hc) Hf. unfold modeA_store_ok, insert_to_focal. simpl.
  split; [|split].
  - apply keys_unique_app; [exact Hu|].
    intros j n Hj. exact (find_node_None _ _ Hf j n Hj).
  - apply heap_is_open_app; [exact Ho|reflexivity].
  - rewrite length_app. simpl. lia.
Qed.

Lemma replace_store_ok s e ex new focal' :
  modeA_store_ok s → allNodes_table s !! e = Some ex → key new = key ex →
  heap_is_open (<[e := new]> (allNodes_table s)) focal' →
  modeA_store_ok
    (set_allNodes_table (<[e := new]> (allNodes_table s))
       (set_focal_list focal' s)).
Proof.
  intros (Hu & Ho & Hc) He Hk Hopen. unfold modeA_store_ok. simpl.
  split; [|split].
  - eapply keys_unique_insert; eauto.
  - exact Hopen.
  - rewrite length_insert. exact Hc.
Qed.

Lemma generateChildToFocal_store_ok iv curr nl nh s s' :
  modeA_store_ok s → generateChildToFocal iv curr nl nh s = Ok s' →
  modeA_store_ok s'.
Proof.
  intros Hok H. apply generateChildToFocal_cases in H as (c & Hc & H).
  cbv zeta in H.
  destruct H as [[Hf ->]|[(e & ex & Hf & Hd & Ho & ->)|
                   [(e & ex & Hf & Hd & Ho & ->)|(e & ex & Hf & Hd & ->)]]].
  - apply insert_to_focal_store_ok; assumption.
  - apply find_node_key in Hf as [He Hk].
    eapply replace_store_ok; [exact Hok|exact He|simpl; symmetry; exact Hk|].
    destruct Hok as (_ & Hopen & _).
    eapply heap_is_open_reopen; [exact Hopen|exact He|exact Ho|reflexivity].
  - apply find_node_key in Hf as [He Hk].
    eapply replace_store_ok; [exact Hok|exact He|simpl; symmetry; exact Hk|].
    destruct Hok as (_ & Hopen & _).
    eapply heap_is_open_insert; [exact Hopen|exact He|reflexivity].
  - exact Hok.
Qed.

Lemma generateGoalNode_store_ok curr c fc s s' :
  modeA_store_ok s → generateGoalNode curr c fc s = Ok s' →
  modeA_store_ok s'.
Proof.
  intros Hok H. apply generateGoalNode_cases in H. cbv zeta in H.
  destruct H as [[Hf ->]|[(e & ex & Hf & Hd & Ho & ->)|
                           (e & ex & Hf & Hd & ->)]].
  - apply insert_to_focal_store_ok; assumption.
  - apply find_node_key in Hf as [He Hk].
    eapply replace_store_ok; [exact Hok|exact He|simpl; symmetry; exact Hk|].
    destruct Hok as (_ & Hopen & _).
    eapply heap_is_open_insert; [exact Hopen|exact He|reflexivity].
  - exact Hok.
Qed.

Lemma popFocal_state s curr c s1 :
  popFocal s = Ok (curr, c, s1) →
  ∃ c0, allNodes_table s !! curr = Some c0 ∧ c = set_in_openlist false c0 ∧
    In curr (focal_list s) ∧
    s1 = set_allNodes_table (<[curr := c]> (allNodes_table s))
           (set_num_expanded (num_expanded s + 1)
              (set_focal_list (heap_erase curr (focal_list s)) s)).
Proof.
  unfold popFocal. intros H.
  destruct (focal_top (allNodes_table s) (focal_list s)) as [i|];
    [|discriminate].
  destruct (allNodes_table s !! i) as [c0|] eqn:Ec; [|discriminate].
  destruct (heap_mem i (focal_list s)) eqn:Em; [|discriminate].
  injection H as <- <- <-. exists c0. split; [exact Ec|].
  split; [reflexivity|]. split; [apply heap_mem_In; exact Em|reflexivity].
Qed.

Lemma popFocal_store_ok s curr c s1 :
  modeA_store_ok s → popFocal s = Ok (curr, c, s1) → modeA_store_ok s1.
Proof.
  intros (Hu & Ho & Hc) H.
  apply popFocal_state in H as (c0 & Hc0 & -> & _ & ->).
  unfold modeA_store_ok. simpl. split; [|split].
  - eapply keys_unique_insert; [exact Hu|exact Hc0|reflexivity].
  - eapply heap_is_open_pop; [exact Ho|exact Hc0|reflexivity].
  - rewrite length_insert. exact Hc.
Qed.

(** A property of the planner that the generation of a child keeps is kept
    by the expansion of a node; one that popping a node and generating a
    virtual goal node keep as well is kept by the loop of findPath. *)
Section Kept.

Variable P : SIPP → Prop.
Hypothesis P_child : ∀ iv curr nl nh s s',
  P s → generateChildToFocal iv curr nl nh s = Ok s' → P s'.

Lemma moveIntervalsToFocal_keeps ct curr nl nh :
  ∀ ivs s s', P s → moveIntervalsToFocal ct curr nl nh ivs s = Ok s' → P s'.
Proof.
  induction ivs as [|iv ivs IH]; intros s s' HP H; simpl in H.
  - injection H as <-. exact HP.
  - destruct (allNodes_table s !! curr) as [c|]; [|discriminate].
    destruct (length_max ct <? Z.max (timestep c + 1) (get0 iv) + nh).
    + injection H as <-. exact HP.
    + apply rbind_Ok in H as (s1 & H1 & H).
      exact (IH s1 s' (P_child _ _ _ _ _ _ HP H1) H).
Qed.

Lemma moveToFocal_keeps ct rt curr :
  ∀ nbrs s s', P s → moveToFocal ct rt curr nbrs s = Ok s' → P s'.
Proof.
  induction nbrs as [|nl nbrs IH]; intros s s' HP H; simpl in H.
  - injection H as <-. exact HP.
  - destruct (allNodes_table s !! curr) as [c|]; [|discriminate].
    apply rbind_Ok in H as (s1 & H1 & H).
    exact (IH s1 s' (moveIntervalsToFocal_keeps _ _ _ _ _ _ _ HP H1) H).
Qed.

Lemma waitToFocal_keeps rt curr iv s s' iv' :
  P s → waitToFocal rt curr iv s = Ok (s', iv') → P s'.
Proof.
  intros HP H. unfold waitToFocal in H.
  destruct (allNodes_table s !! curr) as [c|]; [|discriminate].
  destruct (find_safe_interval rt iv (location c) (get1 (interval c)))
    as [found iv1].
  destruct found.
  - apply rbind_Ok in H as (s1 & H1 & H). injection H as <- <-.
    exact (P_child _ _ _ _ _ _ HP H1).
  - injection H as <- <-. exact HP.
Qed.

Lemma expandToFocal_keeps ct rt curr iv s s' iv' :
  P s → expandToFocal ct rt curr iv s = Ok (s', iv') → P s'.
Proof.
  intros HP H. unfold expandToFocal in H.
  destruct (allNodes_table s !! curr) as [c|]; [|discriminate].
  apply rbind_Ok in H as (s1 & H1 & H).
  eapply waitToFocal_keeps; [|exact H].
  eapply moveToFocal_keeps; eauto.
Qed.

Hypothesis P_pop : ∀ s curr c s1, P s → popFocal s = Ok (curr, c, s1) → P s1.
Hypothesis P_goal : ∀ curr c fc s s',
  P s → generateGoalNode curr c fc s = Ok s' → P s'.

Lemma findPath_turn_keeps ct rt holding_time path iv s t :
  P s → findPath_turn ct rt holding_time path iv s = Ok t →
  match t with Break _ s' => P s' | Continue s' _ => P s' end.
Proof.
  intros HP H. unfold findPath_turn in H.
  apply rbind_Ok in H as ([[curr c] s1] & Hpop & H).
  pose proof (P_pop _ _ _ _ HP Hpop) as HP1.
  destruct (location c <? 0); [discriminate|].
  destruct (is_goal c).
  { apply rbind_Ok in H as (p & _ & H). injection H as <-. exact HP1. }
  destruct ((location c =? goal_location) && negb (wait_at_goal c) &&
            (holding_time <=? timestep c)).
  - destruct (getFutureNumOfCollisions ct (location c) (timestep c) =? 0).
    + apply rbind_Ok in H as (p & _ & H). injection H as <-. exact HP1.
    + apply rbind_Ok in H as (s2 & H2 & H).
      apply rbind_Ok in H as ([s3 iv3] & H3 & H). injection H as <-.
      simpl. eapply expandToFocal_keeps; [|exact H3].
      exact (P_goal _ _ _ _ _ HP1 H2).
  - apply rbind_Ok in H as ([s3 iv3] & H3 & H). injection H as <-.
    simpl. eapply expandToFocal_keeps; [exact HP1|exact H3].
Qed.

Lemma findPath_turns_keeps ct rt holding_time :
  ∀ n iv0 s0 s iv,
    P s0 → findPath_turns n ct rt holding_time iv0 s0 = Ok (s, iv) → P s.
Proof.
  induction n as [|n IH]; intros iv0 s0 s iv HP H; simpl in H.
  - injection H as <- <-. exact HP.
  - apply rbind_Ok in H as (t & Ht & H).
    destruct t as [|s1 iv1]; [discriminate|].
    apply (IH iv1 s1 s iv); [|exact H].
    exact (findPath_turn_keeps _ _ _ _ _ _ _ HP Ht).
Qed.

Lemma findPath_loop_keeps ct rt holding_time path :
  ∀ fuel iv s p s',
    P s → findPath_loop fuel ct rt holding_time path iv s = Ok (p, s') →
    P s'.
Proof.
  induction fuel as [|fuel IH]; intros iv s p s' HP H; simpl in H.
  - destruct (focal_list s); [|discriminate]. injection H as <- <-. exact HP.
  - destruct (focal_list s); [injection H as <- <-; exact HP|].
    apply rbind_Ok in H as (t & Ht & H).
    pose proof (findPath_turn_keeps _ _ _ _ _ _ _ HP Ht) as HP1.
    destruct t as [p1 s1|s1 iv1].
    + injection H as <- <-. exact HP1.
    + exact (IH iv1 s1 p s' HP1 H).
Qed.

End Kept.

Lemma startFocal_store_ok holding_time iv s :
  idle s →
  modeA_store_ok
    (startFocal holding_time iv (set_num_generated 0 (set_num_expanded 0 s))).
Proof.
  intros (_ & Hf & Hn). unfold modeA_store_ok, startFocal. simpl.
  rewrite Hf, Hn. simpl. split; [|split; [split|reflexivity]].
  - intros i j ni nj Hi Hj _.
    destruct i as [|i]; [|destruct i; discriminate].
    destruct j as [|j]; [reflexivity|destruct j; discriminate].
  - apply NoDup_singleton.
  - intros i. simpl. split.
    + intros [<-|[]]. eexists. split; reflexivity.
    + intros (n & Hi & _). destruct i as [|i]; [auto|destruct i; discriminate].
Qed.

Lemma findPath_turns_store_ok ct rt holding_time n iv0 this s iv :
  idle this →
  findPath_turns n ct rt holding_time iv0
    (startFocal holding_time iv0
       (set_num_generated 0 (set_num_expanded 0 this))) = Ok (s, iv) →
  modeA_store_ok s.
Proof.
  intros Hidle H.
  eapply (findPath_turns_keeps modeA_store_ok); [| | | |exact H].
  - intros. eapply generateChildToFocal_store_ok; eauto.
  - intros. eapply popFocal_store_ok; eauto.
  - intros. eapply generateGoalNode_store_ok; eauto.
  - apply startFocal_store_ok. exact Hidle.
Qed.

(** X3: Mode A keeps the node table a set: in every state that the loop of
    findPath reaches from an idle planner, no two stored nodes have the same
    key (cell, start of the interval, goal tag), although nodes are
    overwritten in place. *)
Theorem findPath_table_keys_unique ct rt holding_time n iv0 this s iv :
  idle this →
  findPath_turns n ct rt holding_time iv0
    (startFocal holding_time iv0
       (set_num_generated 0 (set_num_expanded 0 this))) = Ok (s, iv) →
  keys_unique (allNodes_table s).
Proof.
  intros Hidle H.
  exact (proj1 (findPath_turns_store_ok _ _ _ _ _ _ _ _ Hidle H)).
Qed.

(** X4: In every state that the loop of findPath reaches from an idle
    planner, FOCAL holds no node twice and holds exactly the stored nodes
    whose [in_openlist] flag is set. *)
Theorem findPath_focal_is_open_set ct rt holding_time n iv0 this s iv :
  idle this →
  findPath_turns n ct rt holding_time iv0
    (startFocal holding_time iv0
       (set_num_generated 0 (set_num_expanded 0 this))) = Ok (s, iv) →
  heap_is_open (allNodes_table s) (focal_list s).
Proof.
  intros Hidle H.
  exact (proj1 (proj2 (findPath_turns_store_ok _ _ _ _ _ _ _ _ Hidle H))).
Qed.

Lemma generateChildToFocal_only_improves iv curr nl nh s s' :
  generateChildToFocal iv curr nl nh s = Ok s' →
  only_improves (allNodes_table s) (allNodes_table s') ∧
  (∃ pushed, focal_list s' = focal_list s ++ pushed) ∧
  num_expanded s' = num_expanded s.
Proof.
  intros H. apply generateChildToFocal_cases in H as (c & Hc & H).
  cbv zeta in H.
  destruct H as [[Hf ->]|[(e & ex & Hf & Hd & Ho & ->)|
                   [(e & ex & Hf & Hd & Ho & ->)|(e & ex & Hf & Hd & ->)]]];
    simpl.
  - split; [apply only_improves_app|]. split; [eexists|]; reflexivity.
  - apply find_node_key in Hf as [He Hk].
    split; [|split; [eexists|]; reflexivity].
    eapply only_improves_insert; [exact He|].
    eapply dominates_improved; [exact Hd|exact Hk| | | |]; auto.
  - apply find_node_key in Hf as [He Hk].
    split; [|split; [exists []; symmetry; apply app_nil_r|reflexivity]].
    eapply only_improves_insert; [exact He|].
    eapply dominates_improved; [exact Hd|exact Hk| | | |]; auto.
  - split; [apply only_improves_refl|].
    split; [exists []; symmetry; apply app_nil_r|reflexivity].
Qed.

Lemma generateGoalNode_num_expanded curr c fc s s' :
  generateGoalNode curr c fc s = Ok s' → num_expanded s' = num_expanded s.
Proof.
  intros H. apply generateGoalNode_cases in H. cbv zeta in H.
  destruct H as [[Hf ->]|[(e & ex & Hf & Hd & Ho & ->)|
                           (e & ex & Hf & Hd & ->)]]; reflexivity.
Qed.

(** X6: The expansion of a node in mode A (lines 98-115), in any state:
    every node stored before is stored afterwards under the same key, an
    open node stays open, a label is left as it was or replaced by a strictly
    better one (smaller timestep, or the same timestep and fewer conflicts);
    FOCAL is only pushed to, and no node is counted as expanded. *)
Theorem expandToFocal_only_improves ct rt curr iv s s' iv' :
  expandToFocal ct rt curr iv s = Ok (s', iv') →
  only_improves (allNodes_table s) (allNodes_table s') ∧
  (∃ pushed, focal_list s' = focal_list s ++ pushed) ∧
  num_expanded s' = num_expanded s.
Proof.
  intros H.
  apply (expandToFocal_keeps
           (fun x => only_improves (allNodes_table s) (allNodes_table x) ∧
                     (∃ pushed, focal_list x = focal_list s ++ pushed) ∧
                     num_expanded x = num_expanded s)) in H.
  - exact H.
  - intros iv1 curr1 nl nh x x' (I1 & (pushed1 & F1) & E1) Hx.
    apply generateChildToFocal_only_improves in Hx
      as (I2 & (pushed2 & F2) & E2).
    split; [eapply only_improves_trans; eauto|]. split; [|congruence].
    exists (pushed1 ++ pushed2). rewrite F2, F1. symmetry. apply app_assoc.
  - split; [apply only_improves_refl|].
    split; [exists []; symmetry; apply app_nil_r|reflexivity].
Qed.

Lemma expandToFocal_num_expanded ct rt curr iv s s' iv' :
  expandToFocal ct rt curr iv s = Ok (s', iv') →
  num_expanded s' = num_expanded s.
Proof.
  intros H.
  apply (expandToFocal_keeps (fun x => num_expanded x = num_expanded s))
    in H; [exact H| |reflexivity].
  intros iv1 curr1 nl nh x x' E1 Hx.
  apply generateChildToFocal_only_improves in Hx as (_ & _ & E2). congruence.
Qed.

Lemma findPath_turn_expanded ct rt holding_time path iv s s' iv' :
  findPath_turn ct rt holding_time path iv s = Ok (Continue s' iv') →
  num_expanded s' = num_expanded s + 1.
Proof.
  intros H. unfold findPath_turn in H.
  apply rbind_Ok in H as ([[curr c] s1] & Hpop & H).
  apply popFocal_Ok in Hpop as (_ & _ & _ & _ & _ & _ & E1).
  destruct (location c <? 0); [discriminate|].
  destruct (is_goal c).
  { apply rbind_Ok in H as (p & _ & H). discriminate. }
  destruct ((location c =? goal_location) && negb (wait_at_goal c) &&
            (holding_time <=? timestep c)).
  - destruct (getFutureNumOfCollisions ct (location c) (timestep c) =? 0).
    + apply rbind_Ok in H as (p & _ & H). discriminate.
    + apply rbind_Ok in H as (s2 & H2 & H).
      apply rbind_Ok in H as ([s3 iv3] & H3 & H). injection H as <- <-.
      apply generateGoalNode_num_expanded in H2.
      apply expandToFocal_num_expanded in H3. simpl. congruence.
  - apply rbind_Ok in H as ([s3 iv3] & H3 & H). injection H as <- <-.
    apply expandToFocal_num_expanded in H3. simpl. congruence.
Qed.

Lemma findPath_turns_expanded ct rt holding_time :
  ∀ n iv0 s0 s iv,
    findPath_turns n ct rt holding_time iv0 s0 = Ok (s, iv) →
    num_expanded s = num_expanded s0 + Z.of_nat n.
Proof.
  induction n as [|n IH]; intros iv0 s0 s iv H; simpl in H.
  - injection H as <- <-. lia.
  - apply rbind_Ok in H as (t & Ht & H).
    destruct t as [|s1 iv1]; [discriminate|].
    apply findPath_turn_expanded in Ht. apply IH in H. lia.
Qed.

(** X5: The statistics of mode A: in the state that the loop of findPath
    reaches after [n] turns from an idle planner, [num_generated] is the
    number of stored nodes (a node overwritten in place is not counted
    again) and [num_expanded] is [n]. *)
Theorem findPath_counters ct rt holding_time n iv0 this s iv :
  idle this →
  findPath_turns n ct rt holding_time iv0
    (startFocal holding_time iv0
       (set_num_generated 0 (set_num_expanded 0 this))) = Ok (s, iv) →
  num_generated s = Z.of_nat (length (allNodes_table s)) ∧
  num_expanded s = Z.of_nat n.
Proof.
  intros Hidle H. split.
  - exact (proj2 (proj2 (findPath_turns_store_ok _ _ _ _ _ _ _ _ Hidle H))).
  - apply findPath_turns_expanded in H. simpl in H. lia.
Qed.

End ModeAStore.

(** ** Mode A and the holding time *)

Section ModeAHolding.

Variable getNeighbors : Z → list Z.
Variable start_location goal_location : Z.
Variable my_heuristic : Z → Z.
Variable focal_top : list SIPPNode → list nat → option nat.
Variable PathEntry_default : Z.
Variable rt : ReservationTable.
Variable holding_time : Z.
Hypothesis rt_split :
  goal_intervals_split rt start_location goal_location holding_time.

Local Abbreviation childToFocal := (childToFocal goal_location).
Local Abbreviation generateChildToFocal := (generateChildToFocal goal_location).
Local Abbreviation moveIntervalsToFocal := (moveIntervalsToFocal goal_location).
Local Abbreviation moveToFocal := (moveToFocal goal_location my_heuristic).
Local Abbreviation waitToFocal := (waitToFocal goal_location).
Local Abbreviation expandToFocal :=
  (expandToFocal getNeighbors goal_location my_heuristic).
Local Abbreviation popFocal := (popFocal focal_top).
Local Abbreviation updatePath := (updatePath PathEntry_default).
Local Abbreviation findPath_turn :=
  (findPath_turn getNeighbors goal_location my_heuristic focal_top
     PathEntry_default).
Local Abbreviation findPath_loop :=
  (findPath_loop getNeighbors goal_location my_heuristic focal_top
     PathEntry_default).
Local Abbreviation findPath_turns :=
  (findPath_turns getNeighbors goal_location my_heuristic focal_top
     PathEntry_default).
Local Abbreviation startFocal := (startFocal start_location my_heuristic).
Local Abbreviation on_goal_ok := (on_goal_ok goal_location holding_time).
Local Abbreviation holds_ok := (holds_ok holding_time).
Local Abbreviation holding_ok := (holding_ok goal_location holding_time).

Lemma holding_ok_app nodes n :
  holding_ok nodes → on_goal_ok n → holds_ok n →
  (is_goal n = true →
   ∃ pi pn, parent n = Some pi ∧ nodes !! pi = Some pn ∧
     location pn = goal_location ∧ holding_time ≤ get0 (interval pn)) →
  holding_ok (nodes ++ [n]).
Proof.
  intros [Hn Hg] Hon Hh Hpar. split.
  - intros i x Hi. apply lookup_app_Some in Hi as [Hi|[_ Hi]]; [eauto|].
    destruct (i - length nodes)%nat as [|k]; [|destruct k; discriminate].
    injection Hi as <-. auto.
  - intros i x Hi Hx.
    assert (Hold : ∃ pi pn, parent x = Some pi ∧ nodes !! pi = Some pn ∧
              location pn = goal_location ∧
              holding_time ≤ get0 (interval pn)).
    { apply lookup_app_Some in Hi as [Hi|[_ Hi]]; [eauto|].
      destruct (i - length nodes)%nat as [|k]; [|destruct k; discriminate].
      injection Hi as <-. auto. }
    destruct Hold as (pi & pn & Hp & Hpi & Hl & Hlo).
    exists pi, pn. repeat split; auto.
    apply lookup_app_l_Some. exact Hpi.
Qed.

(** An update in place keeps the key of the node, by which the parent of a
    virtual goal node is known to stand on the goal at the holding time or
    later. *)
Lemma holding_ok_insert nodes e old new :
  holding_ok nodes → nodes !! e = Some old →
  location new = location old →
  get0 (interval new) = get0 (interval old) →
  on_goal_ok new → holds_ok new →
  (is_goal new = true →
   ∃ pi pn, parent new = Some pi ∧ nodes !! pi = Some pn ∧
     location pn = goal_location ∧ holding_time ≤ get0 (interval pn)) →
  holding_ok (<[e := new]> nodes).
Proof.
  intros [Hn Hg] He Hloc Hlo Hon Hh Hpar.
  assert (Hlt : (e < length nodes)%nat) by (eapply lookup_lt_Some; eauto).
  split.
  - intros i x Hi. destruct (decide (i = e)) as [->|Hne].
    + rewrite list_lookup_insert_eq in Hi by exact Hlt. injection Hi as <-.
      auto.
    + rewrite list_lookup_insert_ne in Hi by congruence. eauto.
  - intros i x Hi Hx.
    assert (Hold : ∃ pi pn, parent x = Some pi ∧ nodes !! pi = Some pn ∧
              location pn = goal_location ∧
              holding_time ≤ get0 (interval pn)).
    { destruct (decide (i = e)) as [->|Hne].
      - rewrite list_lookup_insert_eq in Hi by exact Hlt. injection Hi as <-.
        auto.
      - rewrite list_lookup_insert_ne in Hi by congruence. eauto. }
    destruct Hold as (pi & pn & Hp & Hpi & Hl & Hh0).
    destruct (decide (pi = e)) as [->|Hne].
    + exists e, new. rewrite list_lookup_insert_eq by exact Hlt.
      assert (pn = old) by congruence. subst pn.
      repeat split; auto; congruence.
    + exists pi, pn. rewrite list_lookup_insert_ne by congruence.
      repeat split; auto.
Qed.

Lemma childToFocal_shape iv curr c nl nh :
  let next := childToFocal iv curr c nl nh in
  location next = nl ∧
  timestep next = Z.max (timestep c + 1) (get0 iv) ∧
  interval next = iv ∧ parent next = Some curr ∧ is_goal next = false ∧
  getFVal c ≤ getFVal next.
Proof.
  unfold childToFocal.
  destruct ((nl =? goal_location) && (location c =? goal_location));
    unfold getFVal; simpl; repeat split; lia.
Qed.

(** The generation of a child that enters its interval before the end of
    it, and on the goal in an interval that does not span the holding
    time. *)
Lemma generateChildToFocal_holding iv curr nl nh s s' :
  holding_ok (allNodes_table s) →
  (∀ c, allNodes_table s !! curr = Some c → nl = goal_location →
     Z.max (timestep c + 1) (get0 iv) < get1 iv ∧ split_at holding_time iv) →
  generateChildToFocal iv curr nl nh s = Ok s' →
  holding_ok (allNodes_table s').
Proof.
  intros Hok Hiv H.
  apply generateChildToFocal_cases in H as (c & Hc & H). cbv zeta in H.
  destruct (childToFocal_shape iv curr c nl nh)
    as (Fl & Ft & Fi & Fp & Fg & Ff).
  specialize (Hiv c Hc).
  assert (Hc_ok : holds_ok c)
    by (destruct Hok as [Hn _]; apply (Hn curr c Hc)).
  remember (childToFocal iv curr c nl nh) as next eqn:En. clear En.
  assert (Hon : ∀ b, on_goal_ok (set_in_openlist b next)).
  { intros b Hl. simpl in *. rewrite Fi, Ft. rewrite Fl in Hl.
    destruct (Hiv Hl) as [Hin Hs]. split; [lia|exact Hs]. }
  assert (Hh : ∀ b, holds_ok (set_in_openlist b next)).
  { intros b. destruct Hc_ok as [Hf _]. split.
    - unfold getFVal in *. simpl. lia.
    - simpl. congruence. }
  destruct H as [[Hf ->]|[(e & ex & Hf & Hd & Ho & ->)|
                   [(e & ex & Hf & Hd & Ho & ->)|(e & ex & Hf & Hd & ->)]]];
    simpl.
  - apply holding_ok_app; auto. simpl. congruence.
  - apply find_node_key in Hf as [He Hk]. injection Hk as Hk1 Hk2 Hk3.
    eapply holding_ok_insert; [exact Hok|exact He| | | | |]; simpl;
      try congruence.
    + exact (Hon true).
    + exact (Hh true).
  - apply find_node_key in Hf as [He Hk]. injection Hk as Hk1 Hk2 Hk3.
    eapply holding_ok_insert; [exact Hok|exact He| | | | |]; simpl;
      try congruence.
    + exact (Hon (in_openlist ex)).
    + exact (Hh (in_openlist ex)).
  - exact Hok.
Qed.

Lemma only_improves_timestep nodes nodes' i n :
  only_improves nodes nodes' → nodes !! i = Some n →
  ∃ n', nodes' !! i = Some n' ∧ timestep n' ≤ timestep n ∧
        location n' = location n.
Proof.
  intros H Hi. destruct (H i n Hi) as (n' & Hi' & Hk & _ & Hb).
  exists n'. split; [exact Hi'|]. injection Hk as Hk1 _ _.
  split; [|exact Hk1].
  destruct Hb as [->|[Hb|[Hb _]]]; lia.
Qed.

(** The intervals were asked for from the time [lower]; the node that is
    expanded may have been overwritten since, with a smaller timestep. *)
Lemma moveIntervalsToFocal_holding ct curr nl nh lower :
  ∀ ivs s s',
    holding_ok (allNodes_table s) →
    (∃ c, allNodes_table s !! curr = Some c ∧ timestep c + 1 ≤ lower) →
    (∀ iv, In iv ivs → nl = goal_location →
       Z.max lower (get0 iv) < get1 iv ∧ split_at holding_time iv) →
    moveIntervalsToFocal ct curr nl nh ivs s = Ok s' →
    holding_ok (allNodes_table s') ∧
    only_improves (allNodes_table s) (allNodes_table s').
Proof.
  induction ivs as [|iv ivs IH]; intros s s' Hok (c & Hc & Ht) Hivs H;
    simpl in H.
  - injection H as <-. split; [exact Hok|apply only_improves_refl].
  - rewrite Hc in H.
    destruct (length_max ct <? Z.max (timestep c + 1) (get0 iv) + nh).
    + injection H as <-. split; [exact Hok|apply only_improves_refl].
    + apply rbind_Ok in H as (s1 & H1 & H).
      assert (Hok1 : holding_ok (allNodes_table s1)).
      { eapply generateChildToFocal_holding; [exact Hok| |exact H1].
        intros c0 Hc0 Hnl. assert (c0 = c) by congruence. subst c0.
        destruct (Hivs iv (or_introl eq_refl) Hnl) as [Hin Hs].
        split; [lia|exact Hs]. }
      apply generateChildToFocal_only_improves in H1 as (I1 & _ & _).
      destruct (only_improves_timestep _ _ _ _ I1 Hc) as (c1 & Hc1 & Ht1 & _).
      destruct (IH s1 s' Hok1) as [Hok' I2]; [| |exact H|].
      * exists c1. split; [exact Hc1|lia].
      * intros iv' Hin. apply Hivs. right. exact Hin.
      * split; [exact Hok'|]. eapply only_improves_trans; eauto.
Qed.

Lemma moveToFocal_holding ct curr :
  ∀ nbrs s s',
    holding_ok (allNodes_table s) →
    moveToFocal ct rt curr nbrs s = Ok s' →
    holding_ok (allNodes_table s') ∧
    only_improves (allNodes_table s) (allNodes_table s').
Proof.
  induction nbrs as [|nl nbrs IH]; intros s s' Hok H; simpl in H.
  - injection H as <-. split; [exact Hok|apply only_improves_refl].
  - destruct (allNodes_table s !! curr) as [c|] eqn:Hc; [|discriminate].
    apply rbind_Ok in H as (s1 & H1 & H).
    destruct (moveIntervalsToFocal_holding ct curr nl (my_heuristic nl)
                (timestep c + 1)
                (get_safe_intervals rt (location c) nl (timestep c + 1)
                   (get1 (interval c) + 1)) s s1 Hok) as [Hok1 I1];
      [| |exact H1|].
    + exists c. split; [exact Hc|lia].
    + intros iv Hin ->. destruct rt_split as (_ & Hmove & _).
      exact (Hmove _ _ _ _ Hin).
    + destruct (IH s1 s' Hok1 H) as [Hok' I2].
      split; [exact Hok'|]. eapply only_improves_trans; eauto.
Qed.

Lemma waitToFocal_holding curr iv s s' iv' :
  holding_ok (allNodes_table s) →
  waitToFocal rt curr iv s = Ok (s', iv') →
  holding_ok (allNodes_table s').
Proof.
  intros Hok H. unfold waitToFocal in H.
  destruct (allNodes_table s !! curr) as [c|] eqn:Hc; [|discriminate].
  destruct (find_safe_interval rt iv (location c) (get1 (interval c)))
    as [found iv1] eqn:Ef.
  destruct found.
  - apply rbind_Ok in H as (s1 & H1 & H). injection H as <- <-.
    eapply generateChildToFocal_holding; [exact Hok| |exact H1].
    intros c0 Hc0 Hl. assert (c0 = c) by congruence. subst c0.
    destruct Hok as [Hn _]. destruct (Hn curr c Hc) as [Hon _].
    destruct (Hon Hl) as [Hin _].
    destruct rt_split as (_ & _ & Hwait). rewrite Hl in Ef.
    destruct (Hwait _ _ _ Ef) as [Hin1 Hs1]. split; [lia|exact Hs1].
  - injection H as <- <-. exact Hok.
Qed.

Lemma expandToFocal_holding ct curr iv s s' iv' :
  holding_ok (allNodes_table s) →
  expandToFocal ct rt curr iv s = Ok (s', iv') →
  holding_ok (allNodes_table s').
Proof.
  intros Hok H. unfold expandToFocal in H.
  destruct (allNodes_table s !! curr) as [c|]; [|discriminate].
  apply rbind_Ok in H as (s1 & H1 & H).
  apply moveToFocal_holding in H1 as [Hok1 _]; [|exact Hok].
  eapply waitToFocal_holding; eauto.
Qed.

Lemma popFocal_holding s curr c s1 :
  holding_ok (allNodes_table s) → popFocal s = Ok (curr, c, s1) →
  holding_ok (allNodes_table s1) ∧ allNodes_table s1 !! curr = Some c.
Proof.
  intros Hok H. apply popFocal_state in H as (c0 & Hc0 & -> & _ & ->).
  simpl. split.
  - destruct Hok as [Hn Hg]. destruct (Hn curr c0 Hc0) as [Hon Hh].
    eapply holding_ok_insert; [split; eauto|exact Hc0| | | | |]; simpl; auto.
    intros Hig. exact (Hg curr c0 Hc0 Hig).
  - apply list_lookup_insert_eq. eapply lookup_lt_Some; eauto.
Qed.

(** The virtual goal node of a node that passed the goal test: the node is
    inside its interval at the holding time or later, so the interval
    begins at the holding time or later. *)
Lemma generateGoalNode_holding curr c fc s s' :
  holding_ok (allNodes_table s) → allNodes_table s !! curr = Some c →
  location c = goal_location → holding_time ≤ timestep c →
  generateGoalNode curr c fc s = Ok s' →
  holding_ok (allNodes_table s').
Proof.
  intros Hok Hc Hl Ht H.
  destruct Hok as [Hn Hg]. destruct (Hn curr c Hc) as [Hon Hh].
  assert (Hlo : holding_time ≤ get0 (interval c)).
  { destruct (Hon Hl) as [Hin [Hs|Hs]]; lia. }
  assert (Hpar : ∃ pi pn, Some curr = Some pi ∧
                   allNodes_table s !! pi = Some pn ∧
                   location pn = goal_location ∧
                   holding_time ≤ get0 (interval pn)).
  { exists curr, c. auto. }
  assert (Hon' : ∀ b, on_goal_ok (set_in_openlist b (goalNode curr c fc)))
    by (intros b; exact Hon).
  assert (Hh' : ∀ b, holds_ok (set_in_openlist b (goalNode curr c fc))).
  { intros b. destruct Hh as [Hf _]. split; [exact Hf|]. simpl. congruence. }
  apply generateGoalNode_cases in H. cbv zeta in H.
  destruct H as [[Hf ->]|[(e & ex & Hf & Hd & Ho & ->)|
                           (e & ex & Hf & Hd & ->)]]; simpl.
  - apply holding_ok_app; [split; auto|exact (Hon' true)|exact (Hh' true)|].
    intros _. exact Hpar.
  - apply find_node_key in Hf as [He Hk]. injection Hk as Hk1 Hk2 Hk3.
    eapply holding_ok_insert;
      [split; eauto|exact He| | |exact (Hon' (in_openlist ex))
      |exact (Hh' (in_openlist ex))|intros _; exact Hpar];
      simpl; congruence.
  - split; auto.
Qed.

Lemma updatePath_cost nodes i n path p :
  nodes !! i = Some n → updatePath nodes (Some i) path = Ok p →
  cost p = timestep n.
Proof.
  intros Hi H. apply updatePath_length in H as (g & Hg & Ht & Hl).
  assert (g = n) by congruence. subst g. unfold cost. lia.
Qed.

(** What a turn of the loop of findPath leaves on such a table: the
    invariant, or a path that arrives at the holding time or later. *)
Lemma findPath_turn_holding ct path iv s t :
  holding_ok (allNodes_table s) →
  findPath_turn ct rt holding_time path iv s = Ok t →
  match t with
  | Continue s' _ => holding_ok (allNodes_table s')
  | Break p _ => holding_time ≤ cost p
  end.
Proof.
  intros Hok H. unfold findPath_turn in H.
  apply rbind_Ok in H as ([[curr c] s1] & Hpop & H).
  destruct (popFocal_holding _ _ _ _ Hok Hpop) as [Hok1 Hc].
  destruct (location c <? 0); [discriminate|].
  destruct (is_goal c) eqn:Eg.
  - apply rbind_Ok in H as (p & Hp & H). injection H as <-.
    destruct Hok1 as [Hn Hg].
    destruct (Hg curr c Hc Eg) as (pi & pn & Hpar & Hpi & Hl & Hlo).
    rewrite Hpar in Hp. rewrite (updatePath_cost _ _ _ _ _ Hpi Hp).
    destruct (Hn pi pn Hpi) as [Hon _]. destruct (Hon Hl) as [Hin _]. lia.
  - destruct ((location c =? goal_location) && negb (wait_at_goal c) &&
              (holding_time <=? timestep c)) eqn:Egoal.
    + apply andb_true_iff in Egoal as [Egoal Eh].
      apply andb_true_iff in Egoal as [Eloc _].
      apply Z.eqb_eq in Eloc. apply Z.leb_le in Eh.
      destruct (getFutureNumOfCollisions ct (location c) (timestep c) =? 0).
      * apply rbind_Ok in H as (p & Hp & H). injection H as <-.
        rewrite (updatePath_cost _ _ _ _ _ Hc Hp). exact Eh.
      * apply rbind_Ok in H as (s2 & H2 & H).
        apply rbind_Ok in H as ([s3 iv3] & H3 & H). injection H as <-.
        simpl. eapply expandToFocal_holding; [|exact H3].
        eapply generateGoalNode_holding; eauto.
    + apply rbind_Ok in H as ([s3 iv3] & H3 & H). injection H as <-.
      simpl. eapply expandToFocal_holding; [exact Hok1|exact H3].
Qed.

Lemma findPath_loop_holding ct :
  ∀ fuel iv s p s',
    holding_ok (allNodes_table s) →
    findPath_loop fuel ct rt holding_time [] iv s = Ok (p, s') →
    p = [] ∨ holding_time ≤ cost p.
Proof.
  induction fuel as [|fuel IH]; intros iv s p s' Hok H; simpl in H.
  - destruct (focal_list s); [|discriminate]. injection H as <- _. auto.
  - destruct (focal_list s); [injection H as <- _; auto|].
    apply rbind_Ok in H as (t & Ht & H).
    pose proof (findPath_turn_holding _ _ _ _ _ Hok Ht) as Hk.
    destruct t as [p1 s1|s1 iv1].
    + injection H as <- _. auto.
    + exact (IH iv1 s1 p s' Hk H).
Qed.

Lemma findPath_turns_holding ct :
  ∀ n iv0 s0 s iv,
    holding_ok (allNodes_table s0) →
    findPath_turns n ct rt holding_time iv0 s0 = Ok (s, iv) →
    holding_ok (allNodes_table s).
Proof.
  induction n as [|n IH]; intros iv0 s0 s iv Hok H; simpl in H.
  - injection H as <- _. exact Hok.
  - apply rbind_Ok in H as (t & Ht & H).
    destruct t as [|s1 iv1]; [discriminate|].
    apply (IH iv1 s1 s iv); [|exact H].
    exact (findPath_turn_holding _ _ _ _ _ Hok Ht).
Qed.

Lemma startFocal_holding s :
  allNodes_table s = [] →
  get0 (get_first_safe_interval rt start_location) ≤ 0 →
  holding_ok
    (allNodes_table
       (startFocal holding_time (get_first_safe_interval rt start_location)
          s)).
Proof.
  intros Hn Hlo. unfold startFocal. simpl. rewrite Hn. simpl.
  split.
  - intros i n H. destruct i; [|destruct i; discriminate].
    injection H as <-. split.
    + intros Hl. simpl in *. destruct rt_split as (Hfirst & _).
      destruct (Hfirst Hl) as [Hhi Hs]. split; [lia|exact Hs].
    + unfold holds_ok, getFVal. simpl. lia.
  - intros i n H Hg. destruct i; [|destruct i; discriminate].
    injection H as <-. discriminate.
Qed.

End ModeAHolding.

Section HoldingTime.

Variable getNeighbors : Z → list Z.
Variable start_location goal_location : Z.
Variable my_heuristic : Z → Z.
Variable new_ReservationTable : ConstraintTable → Z → ReservationTable.
Variable focal_top : list SIPPNode → list nat → option nat.
Variable PathEntry_default : Z.

Local Abbreviation findPath :=
  (findPath getNeighbors start_location goal_location my_heuristic
     new_ReservationTable focal_top PathEntry_default).
Local Abbreviation findPath_turns :=
  (findPath_turns getNeighbors goal_location my_heuristic focal_top
     PathEntry_default).
Local Abbreviation startFocal := (startFocal start_location my_heuristic).

(** C10: findPath on a reservation table that splits the safe intervals of
    the goal cell at the holding time, as the table that it builds for its
    goal does (the class is in the absent ReservationTable.h).  A path that
    is not empty arrives at [getHoldingTime(goal_location, length_min)] or
    later: a virtual goal node is rebuilt from its parent, which may have
    been overwritten in place since it passed the goal test, but only by a
    node of its key, in an interval that begins at the holding time or
    later.  The h of the start node is at least the holding time, and in
    every state that the loop reaches the f of every stored node is. *)
Theorem findPath_arrives_at_holding_time_or_later fuel ct this p s' :
  let rt := new_ReservationTable ct goal_location in
  let holding_time := getHoldingTime ct goal_location (length_min ct) in
  let iv0 := get_first_safe_interval rt start_location in
  goal_intervals_split rt start_location goal_location holding_time →
  idle this →
  findPath fuel ct this = Ok (p, s') → p ≠ [] →
  holding_time ≤ cost p ∧
  ∀ n s iv,
    findPath_turns n ct rt holding_time iv0
      (startFocal holding_time iv0
         (set_num_generated 0 (set_num_expanded 0 this))) = Ok (s, iv) →
    ∀ i node, allNodes_table s !! i = Some node →
      holding_time ≤ getFVal node ∧
      (parent node = None → holding_time ≤ h_val node).
Proof.
  intros rt holding_time iv0 Hsplit (_ & _ & Hnodes) H Hp.
  unfold findPath in H. fold rt holding_time iv0 in H.
  destruct (0 <? get0 iv0) eqn:E0; [injection H as <- _; congruence|].
  apply rbind_Ok in H as ([p1 s1] & Hloop & H). simpl in H.
  injection H as -> _.
  assert (Hstart : holding_ok goal_location holding_time
            (allNodes_table
               (startFocal holding_time iv0
                  (set_num_generated 0 (set_num_expanded 0 this))))).
  { apply (startFocal_holding start_location goal_location my_heuristic rt
             holding_time Hsplit); [exact Hnodes|]. fold iv0. lia. }
  split.
  - destruct (findPath_loop_holding getNeighbors start_location goal_location
                my_heuristic focal_top PathEntry_default rt holding_time
                Hsplit ct fuel _ _ _ _ Hstart Hloop) as [->|Hc];
      [congruence|exact Hc].
  - intros n s iv Hturns i node Hi.
    pose proof (findPath_turns_holding getNeighbors start_location
                  goal_location my_heuristic focal_top PathEntry_default rt
                  holding_time Hsplit ct n _ _ _ _ Hstart Hturns) as [Hn _].
    exact (proj2 (Hn i node Hi)).
Qed.

End HoldingTime.

(** The tables of the examples: an interval that [find_safe_interval]
    finds begins at the time it was asked for, inside a safe interval of the
    cell. *)
Lemma containing_Some (sit : list Interval) (iv0 : Interval) (t : Z)
    (iv : Interval) :
  Example.containing sit iv0 t = (true, iv) →
  ∃ i, In i sit ∧ get0 i ≤ t < get1 i ∧ iv = (t, get1 i, get2 i).
Proof.
  induction sit as [|i sit IH]; simpl; [discriminate|].
  destruct ((get0 i <=? t) && (t <? get1 i)) eqn:E.
  - intros H. injection H as <-. exists i.
    apply andb_true_iff in E as [E1 E2]. split; [auto|]. split; [lia|auto].
  - intros H. destruct (IH H) as (i' & Hin & Hi'). exists i'. auto.
Qed.

Lemma table_goal_intervals_split (sit : Z → list Interval)
    (ct : ConstraintTable) (start goal holding_time : Z) :
  start ≠ goal →
  (∀ i, In i (sit goal) → get0 i < get1 i ∧ split_at holding_time i) →
  goal_intervals_split (Example.table sit ct goal) start goal holding_time.
Proof.
  intros Hne Hsit. split; [congruence|]. split.
  - intros from lower upper iv Hin.
    change (In iv (Example.overlapping (sit goal) lower upper)) in Hin.
    apply filter_In in Hin as [Hin Hb].
    apply andb_true_iff in Hb as [Hl _]. apply Z.ltb_lt in Hl.
    destruct (Hsit iv Hin) as [Hlt Hs]. split; [lia|exact Hs].
  - intros iv0 t iv H.
    change (Example.containing (sit goal) iv0 t = (true, iv)) in H.
    apply containing_Some in H as (i & Hin & Ht & ->).
    destruct (Hsit i Hin) as [Hlt Hs]. unfold split_at, get0, get1 in *.
    simpl. split; [lia|]. destruct Hs; [left|right]; lia.
Qed.

Lemma split_sit_split :
  goal_intervals_split (Example.table Cases.split_sit Example.late_ct 1)
    0 1 3.
Proof.
  apply table_goal_intervals_split; [discriminate|].
  intros i [<-|[<-|[<-|[]]]]; unfold split_at; vm_compute;
    (split; [reflexivity|]); first [left; discriminate|right; discriminate].
Qed.

(** C10 on the row with a parked agent, the goal intervals split at the
    holding time 3: findPath waits on cell 2 and arrives at timestep 3. *)
Lemma findPath_arrives_at_holding_time_or_later_witness :
  goal_intervals_split (Example.table Cases.split_sit Example.late_ct 1)
    0 1 3 ∧
  idle Example.idle_planner ∧
  (∃ s', Example.rowA_findPath Cases.split_sit 50 Example.late_ct
           Example.idle_planner = Ok ([0; 2; 2; 1], s')) ∧
  3 ≤ cost [0; 2; 2; 1].
Proof.
  assert (Hrun : ∃ s', Example.rowA_findPath Cases.split_sit 50
                         Example.late_ct Example.idle_planner =
                       Ok ([0; 2; 2; 1], s'))
    by (eexists; vm_compute; reflexivity).
  split; [exact split_sit_split|]. split; [exact idle_planner_idle|].
  split; [exact Hrun|]. destruct Hrun as [s' Hrun].
  exact (proj1 (findPath_arrives_at_holding_time_or_later
                  Example.row_neighbors 0 1 Example.row_heuristic
                  (Example.table Cases.split_sit) Example.focal_first (-1)
                  50 Example.late_ct Example.idle_planner [0; 2; 2; 1] s'
                  split_sit_split idle_planner_idle Hrun
                  ltac:(discriminate))).
Defined.

(** ** The bookkeeping of mode B *)

Section ModeBStore.

Variable getNeighbors : Z → list Z.
Variable start_location goal_location : Z.
Variable my_heuristic : Z → Z.
Variable new_ReservationTable : ConstraintTable → Z → ReservationTable.
Variable HLNode Paths : Type.
Variable insert2CT : ConstraintTable → HLNode → Z → ConstraintTable.
Variable insert2CAT : ConstraintTable → Z → Paths → ConstraintTable.
Variable focal_top open_top : list SIPPNode → list nat → option nat.
Variable PathEntry_default : Z.

Local Abbreviation child := (child goal_location my_heuristic).
Local Abbreviation generateChild := (generateChild goal_location my_heuristic).
Local Abbreviation moveIntervals := (moveIntervals goal_location my_heuristic).
Local Abbreviation moveChildren := (moveChildren goal_location my_heuristic).
Local Abbreviation waitChild := (waitChild goal_location my_heuristic).
Local Abbreviation updateFocalList := (updateFocalList open_top).
Local Abbreviation popOpenFocal := (popOpenFocal focal_top).
Local Abbreviation findSuboptimalPath_turn :=
  (findSuboptimalPath_turn getNeighbors goal_location my_heuristic focal_top
     open_top PathEntry_default).
Local Abbreviation findSuboptimalPath_loop :=
  (findSuboptimalPath_loop getNeighbors goal_location my_heuristic focal_top
     open_top PathEntry_default).
Local Abbreviation findSuboptimalPath_turns :=
  (findSuboptimalPath_turns getNeighbors goal_location my_heuristic focal_top
     open_top PathEntry_default).
Local Abbreviation startOpen := (startOpen start_location my_heuristic).
Local Abbreviation findPath :=
  (findPath getNeighbors start_location goal_location my_heuristic
     new_ReservationTable focal_top PathEntry_default).
Local Abbreviation findSuboptimalPath :=
  (findSuboptimalPath getNeighbors start_location goal_location my_heuristic
     new_ReservationTable HLNode Paths insert2CT insert2CAT focal_top
     open_top PathEntry_default).

Lemma pushNode_state i s s' :
  pushNode i s = Ok s' →
  ∃ node, allNodes_table s !! i = Some node ∧
    allNodes_table s' = <[i := set_in_openlist true node]> (allNodes_table s) ∧
    open_list s' = heap_push i (open_list s) ∧
    (∃ pushed, focal_list s' = focal_list s ++ pushed) ∧
    w s' = w s ∧ min_f_val s' = min_f_val s ∧
    num_generated s' = num_generated s + 1 ∧
    num_expanded s' = num_expanded s.
Proof.
  unfold pushNode. intros H.
  destruct (allNodes_table s !! i) as [node|]; [|discriminate].
  exists node. split; [reflexivity|].
  destruct (in_focal_bound (w s) (getFVal node) (min_f_val s));
    injection H as <-; simpl.
  - repeat (split; [reflexivity|]). split; [eexists|]; auto.
  - repeat (split; [reflexivity|]).
    split; [exists []; symmetry; apply app_nil_r|auto].
Qed.

(** What generateChild leaves of the members it does not search with, and
    the four ways in which it returns. *)
Lemma generateChild_cases iv curr nl rt s s' :
  generateChild iv curr nl rt s = Ok s' →
  w s' = w s ∧ min_f_val s' = min_f_val s ∧
  num_expanded s' = num_expanded s ∧
  (∃ pushed, focal_list s' = focal_list s ++ pushed) ∧
  ∃ c, allNodes_table s !! curr = Some c ∧
    let next := child iv curr c nl in
    (allNodes_table s' = allNodes_table s ∧ open_list s' = open_list s ∧
     num_generated s' = num_generated s) ∨
    (find_node next (allNodes_table s) = None ∧
     allNodes_table s' = allNodes_table s ++ [set_in_openlist true next] ∧
     open_list s' = heap_push (length (allNodes_table s)) (open_list s) ∧
     num_generated s' = num_generated s + 1) ∨
    (∃ e ex, find_node next (allNodes_table s) = Some (e, ex) ∧
       dominates next ex = true ∧ in_openlist ex = false ∧
       allNodes_table s' =
         <[e := set_in_openlist true (copy ex next)]> (allNodes_table s) ∧
       open_list s' = heap_push e (open_list s) ∧
       num_generated s' = num_generated s + 1) ∨
    (∃ e ex, find_node next (allNodes_table s) = Some (e, ex) ∧
       dominates next ex = true ∧ in_openlist ex = true ∧
       allNodes_table s' = <[e := copy ex next]> (allNodes_table s) ∧
       open_list s' = open_list s ∧ num_generated s' = num_generated s).
Proof.
  unfold generateChild. intros H.
  destruct (allNodes_table s !! curr) as [c|] eqn:Ec; [|discriminate].
  destruct (length_max (constraint_table rt) <? _).
  { injection H as <-. repeat (split; [reflexivity|]).
    split; [exists []; symmetry; apply app_nil_r|].
    exists c. split; [reflexivity|]. left. auto. }
  destruct (find_node (child iv curr c nl) (allNodes_table s))
    as [[e ex]|] eqn:Ef.
  - destruct (dominates (child iv curr c nl) ex) eqn:Ed.
    + destruct (in_openlist ex) eqn:Eo; simpl in H.
      * set (b1 := in_focal_bound (w s) _ (min_f_val s)) in H.
        set (b2 := in_focal_bound (w s) (getFVal ex) (min_f_val s)) in H.
        set (b3 := _ <? getFVal ex) in H.
        assert (Hs' : w s' = w s ∧ min_f_val s' = min_f_val s ∧
                  num_expanded s' = num_expanded s ∧
                  (∃ pushed, focal_list s' = focal_list s ++ pushed) ∧
                  allNodes_table s' =
                    <[e := copy ex (child iv curr c nl)]> (allNodes_table s) ∧
                  open_list s' = open_list s ∧
                  num_generated s' = num_generated s).
        { destruct b1, b2, b3; simpl in H; injection H as <-; simpl;
            repeat (split; [reflexivity|]);
            (split; [|auto]);
            first [exists []; symmetry; apply app_nil_r
                  |eexists; reflexivity]. }
        destruct Hs' as (Hw & Hm & He & Hf & Hn & Ho & Hg).
        repeat (split; [assumption|]). exists c. split; [reflexivity|].
        right. right. right. exists e, ex. repeat split; assumption.
      * apply pushNode_state in H
          as (node & Hnode & Hn & Ho & Hf & Hw & Hm & Hg & He).
        simpl in *. pose proof (find_node_key _ _ _ _ Ef) as [Hex _].
        rewrite list_lookup_insert_eq in Hnode
          by (eapply lookup_lt_Some; eauto).
        injection Hnode as <-. rewrite list_insert_insert_eq in Hn.
        repeat (split; [assumption|]). exists c. split; [reflexivity|].
        right. right. left. exists e, ex. repeat split; assumption.
    + injection H as <-. repeat (split; [reflexivity|]).
      split; [exists []; symmetry; apply app_nil_r|].
      exists c. split; [reflexivity|]. left. auto.
  - apply pushNode_state in H
      as (node & Hnode & Hn & Ho & Hf & Hw & Hm & Hg & He).
    simpl in *.
    rewrite lookup_app_r in Hnode by lia.
    rewrite Nat.sub_diag in Hnode. injection Hnode as <-.
    rewrite insert_app_r_alt in Hn by lia.
    rewrite Nat.sub_diag in Hn. simpl in Hn.
    repeat (split; [assumption|]). exists c. split; [reflexivity|].
    right. left. repeat split; assumption.
Qed.

Lemma child_g_val iv curr c nl :
  g_val (child iv curr c nl) = timestep (child iv curr c nl).
Proof.
  unfold child.
  destruct ((nl =? goal_location) && (location c =? goal_location));
    reflexivity.
Qed.

Lemma g_is_timestep_insert (nodes : list SIPPNode) e new :
  (∀ i n, nodes !! i = Some n → g_val n = timestep n) →
  g_val new = timestep new →
  ∀ i n, <[e := new]> nodes !! i = Some n → g_val n = timestep n.
Proof.
  intros Hall Hnew i n Hi.
  apply list_lookup_insert_Some in Hi as [(_ & <- & _)|[_ Hi]]; eauto.
Qed.

Lemma generateChild_store_ok iv curr nl rt s s' :
  modeB_store_ok s → generateChild iv curr nl rt s = Ok s' →
  modeB_store_ok s'.
Proof.
  intros (Hu & Ho & Hg & Hc) H.
  apply generateChild_cases in H as (_ & _ & _ & _ & c & Hcurr & H).
  cbv zeta in H. unfold modeB_store_ok.
  destruct H as [(-> & -> & ->)|[(Hf & -> & -> & ->)|
                   [(e & ex & Hf & Hd & Hcl & -> & -> & ->)|
                    (e & ex & Hf & Hd & Hop & -> & -> & ->)]]].
  - auto.
  - split; [|split; [|split]].
    + apply keys_unique_app; [exact Hu|].
      intros j n Hj. exact (find_node_None _ _ Hf j n Hj).
    + apply heap_is_open_app; [exact Ho|reflexivity].
    + intros i n Hi. apply lookup_app_Some in Hi as [Hi|[_ Hi]]; [eauto|].
      destruct (i - length (allNodes_table s))%nat as [|x];
        [|destruct x; discriminate].
      injection Hi as <-. simpl. apply child_g_val.
    + rewrite length_app. simpl. lia.
  - apply find_node_key in Hf as [He Hk]. split; [|split; [|split]].
    + eapply keys_unique_insert; [exact Hu|exact He|symmetry; exact Hk].
    + eapply heap_is_open_reopen; [exact Ho|exact He|exact Hcl|reflexivity].
    + apply g_is_timestep_insert; [exact Hg|]. simpl. apply child_g_val.
    + rewrite length_insert. lia.
  - apply find_node_key in Hf as [He Hk]. split; [|split; [|split]].
    + eapply keys_unique_insert; [exact Hu|exact He|symmetry; exact Hk].
    + eapply heap_is_open_insert; [exact Ho|exact He|reflexivity].
    + apply g_is_timestep_insert; [exact Hg|]. simpl. apply child_g_val.
    + rewrite length_insert. lia.
Qed.

(** What updateFocalList does. *)
Lemma updateFocalList_state s s' :
  updateFocalList s = Ok s' →
  allNodes_table s' = allNodes_table s ∧ open_list s' = open_list s ∧
  w s' = w s ∧ num_expanded s' = num_expanded s ∧
  num_generated s' = num_generated s ∧
  (∃ hd open_head,
     open_top (allNodes_table s) (open_list s) = Some hd ∧
     allNodes_table s !! hd = Some open_head ∧
     min_f_val s' = Z.max (min_f_val s) (getFVal open_head)) ∧
  ∃ added, focal_list s' = focal_list s ++ added ∧
    ∀ i, In i added →
      In i (open_list s) ∧
      ∃ n, allNodes_table s !! i = Some n ∧
        in_focal_bound (w s) (getFVal n) (min_f_val s) = false ∧
        in_focal_bound (w s) (getFVal n) (min_f_val s') = true.
Proof.
  unfold updateFocalList. intros H.
  destruct (open_top (allNodes_table s) (open_list s)) as [hd|];
    [|discriminate].
  destruct (allNodes_table s !! hd) as [open_head|] eqn:Eh; [|discriminate].
  destruct (min_f_val s <? getFVal open_head) eqn:Em; injection H as <-;
    simpl; repeat (split; [reflexivity|]).
  - apply Z.ltb_lt in Em. split.
    + exists hd, open_head. repeat split; auto. lia.
    + eexists. split; [reflexivity|]. intros i Hi.
      apply filter_In in Hi as [Hi Hq]. split; [exact Hi|].
      destruct (allNodes_table s !! i) as [n|]; [|discriminate].
      exists n. split; [reflexivity|].
      apply andb_true_iff in Hq as [Hq1 Hq2].
      apply negb_true_iff in Hq1. auto.
  - apply Z.ltb_ge in Em. split.
    + exists hd, open_head. repeat split; auto. lia.
    + exists []. split; [symmetry; apply app_nil_r|]. intros i [].
Qed.

Lemma updateFocalList_store_ok s s' :
  modeB_store_ok s → updateFocalList s = Ok s' → modeB_store_ok s'.
Proof.
  intros Hok H.
  apply updateFocalList_state in H as (Hn & Ho & _ & _ & Hg & _).
  unfold modeB_store_ok. rewrite Hn, Ho, Hg. exact Hok.
Qed.

Lemma popOpenFocal_state s curr c s1 :
  popOpenFocal s = Ok (curr, c, s1) →
  ∃ c0, allNodes_table s !! curr = Some c0 ∧ c = set_in_openlist false c0 ∧
    focal_top (allNodes_table s) (focal_list s) = Some curr ∧
    In curr (focal_list s) ∧ In curr (open_list s) ∧
    s1 = set_allNodes_table (<[curr := c]> (allNodes_table s))
           (set_num_expanded (num_expanded s + 1)
              (set_open_list (heap_erase curr (open_list s))
                 (set_focal_list (heap_erase curr (focal_list s)) s))).
Proof.
  unfold popOpenFocal. intros H.
  destruct (focal_top (allNodes_table s) (focal_list s)) as [i|];
    [|discriminate].
  destruct (allNodes_table s !! i) as [c0|] eqn:Ec; [|discriminate].
  destruct (heap_mem i (focal_list s)) eqn:Ef; [|discriminate].
  destruct (heap_mem i (open_list s)) eqn:Eo; [|discriminate].
  injection H as <- <- <-. exists c0. split; [exact Ec|].
  split; [reflexivity|]. split; [reflexivity|].
  split; [apply heap_mem_In; exact Ef|].
  split; [apply heap_mem_In; exact Eo|reflexivity].
Qed.

Lemma popOpenFocal_store_ok s curr c s1 :
  modeB_store_ok s → popOpenFocal s = Ok (curr, c, s1) → modeB_store_ok s1.
Proof.
  intros (Hu & Ho & Hg & Hc) H.
  apply popOpenFocal_state in H as (c0 & Hc0 & -> & _ & _ & _ & ->).
  unfold modeB_store_ok. simpl. split; [|split; [|split]].
  - eapply keys_unique_insert; [exact Hu|exact Hc0|reflexivity].
  - eapply heap_is_open_pop; [exact Ho|exact Hc0|reflexivity].
  - apply g_is_timestep_insert; [exact Hg|]. simpl. eauto.
  - rewrite length_insert. exact Hc.
Qed.

(** A property of the planner that generateChild keeps is kept by the
    expansion of a node; one that updateFocalList and popping a node keep
    as well is kept by the loop of findSuboptimalPath. *)
Section Kept.

Variable P : SIPP → Prop.
Variable rt : ReservationTable.
Hypothesis P_child : ∀ iv curr nl s s',
  P s → generateChild iv curr nl rt s = Ok s' → P s'.

Lemma moveIntervals_keeps curr nl :
  ∀ ivs s s', P s → moveIntervals rt curr nl ivs s = Ok s' → P s'.
Proof.
  induction ivs as [|iv ivs IH]; intros s s' HP H; simpl in H.
  - injection H as <-. exact HP.
  - apply rbind_Ok in H as (s1 & H1 & H).
    exact (IH s1 s' (P_child _ _ _ _ _ HP H1) H).
Qed.

Lemma moveChildren_keeps curr :
  ∀ nbrs s s', P s → moveChildren rt curr nbrs s = Ok s' → P s'.
Proof.
  induction nbrs as [|nl nbrs IH]; intros s s' HP H; simpl in H.
  - injection H as <-. exact HP.
  - destruct (allNodes_table s !! curr) as [c|]; [|discriminate].
    apply rbind_Ok in H as (s1 & H1 & H).
    exact (IH s1 s' (moveIntervals_keeps _ _ _ _ _ HP H1) H).
Qed.

Lemma waitChild_keeps curr iv s s' iv' :
  P s → waitChild rt curr iv s = Ok (s', iv') → P s'.
Proof.
  intros HP H. unfold waitChild in H.
  destruct (allNodes_table s !! curr) as [c|]; [|discriminate].
  destruct (find_safe_interval rt iv (location c) (get1 (interval c)))
    as [found iv1].
  destruct found.
  - apply rbind_Ok in H as (s1 & H1 & H). injection H as <- <-.
    exact (P_child _ _ _ _ _ HP H1).
  - injection H as <- <-. exact HP.
Qed.

Hypothesis P_update : ∀ s s', P s → updateFocalList s = Ok s' → P s'.
Hypothesis P_pop : ∀ s curr c s1,
  P s → popOpenFocal s = Ok (curr, c, s1) → P s1.

Lemma findSuboptimalPath_turn_keeps holding_time path iv s t :
  P s → findSuboptimalPath_turn rt holding_time path iv s = Ok t →
  match t with Break _ s' => P s' | Continue s' _ => P s' end.
Proof.
  intros HP H. unfold findSuboptimalPath_turn in H.
  apply rbind_Ok in H as (s0 & Hupd & H).
  apply rbind_Ok in H as ([[curr c] s1] & Hpop & H).
  pose proof (P_pop _ _ _ _ (P_update _ _ HP Hupd) Hpop) as HP1.
  destruct ((location c =? goal_location) && negb (wait_at_goal c) &&
            (holding_time <=? timestep c)).
  - apply rbind_Ok in H as (p & _ & H). injection H as <-. exact HP1.
  - apply rbind_Ok in H as (s2 & H2 & H).
    apply rbind_Ok in H as ([s3 iv3] & H3 & H). injection H as <-.
    simpl. eapply waitChild_keeps; [|exact H3].
    eapply moveChildren_keeps; eauto.
Qed.

Lemma findSuboptimalPath_turns_keeps holding_time :
  ∀ n iv0 s0 s iv,
    P s0 → findSuboptimalPath_turns n rt holding_time iv0 s0 = Ok (s, iv) →
    P s.
Proof.
  induction n as [|n IH]; intros iv0 s0 s iv HP H; simpl in H.
  - injection H as <- <-. exact HP.
  - apply rbind_Ok in H as (t & Ht & H).
    destruct t as [|s1 iv1]; [discriminate|].
    apply (IH iv1 s1 s iv); [|exact H].
    exact (findSuboptimalPath_turn_keeps _ _ _ _ _ HP Ht).
Qed.

Lemma findSuboptimalPath_loop_keeps holding_time path :
  ∀ fuel iv s p s',
    P s → findSuboptimalPath_loop fuel rt holding_time path iv s = Ok (p, s') →
    P s'.
Proof.
  induction fuel as [|fuel IH]; intros iv s p s' HP H; simpl in H.
  - destruct (open_list s); [|discriminate]. injection H as <- <-. exact HP.
  - destruct (open_list s); [injection H as <- <-; exact HP|].
    apply rbind_Ok in H as (t & Ht & H).
    pose proof (findSuboptimalPath_turn_keeps _ _ _ _ _ HP Ht) as HP1.
    destruct t as [p1 s1|s1 iv1].
    + injection H as <- <-. exact HP1.
    + exact (IH iv1 s1 p s' HP1 H).
Qed.

End Kept.

Lemma startOpen_store_ok holding_time lowerbound iv s :
  idle s →
  modeB_store_ok
    (startOpen holding_time lowerbound iv
       (set_num_generated 0 (set_num_expanded 0 s))).
Proof.
  intros (Ho & _ & Hn). unfold modeB_store_ok, startOpen.
  simpl. rewrite Ho, Hn. simpl. split; [|split; [split|split]].
  - intros i j ni nj Hi Hj _.
    destruct i as [|i]; [|destruct i; discriminate].
    destruct j as [|j]; [reflexivity|destruct j; discriminate].
  - apply NoDup_singleton.
  - intros i. simpl. split.
    + intros [<-|[]]. eexists. split; reflexivity.
    + intros (n & Hi & _). destruct i as [|i]; [auto|destruct i; discriminate].
  - intros i n Hi. destruct i as [|i]; [|destruct i; discriminate].
    injection Hi as <-. reflexivity.
  - lia.
Qed.

(** X7: The bookkeeping of mode B: in every state that the loop of
    findSuboptimalPath reaches from an idle planner, no two stored nodes have
    the same key, OPEN holds no node twice and holds exactly the stored nodes
    whose [in_openlist] flag is set, the cost [g_val] of every stored node
    is its timestep, and [num_generated] is at least the number of stored
    nodes. *)
Theorem findSuboptimalPath_bookkeeping rt holding_time lowerbound n iv0 this
    s iv :
  idle this →
  findSuboptimalPath_turns n rt holding_time iv0
    (startOpen holding_time lowerbound iv0
       (set_num_generated 0 (set_num_expanded 0 this))) = Ok (s, iv) →
  modeB_store_ok s.
Proof.
  intros Hidle H.
  eapply (findSuboptimalPath_turns_keeps modeB_store_ok); [| | | |exact H].
  - intros. eapply generateChild_store_ok; eauto.
  - intros. eapply updateFocalList_store_ok; eauto.
  - intros. eapply popOpenFocal_store_ok; eauto.
  - apply startOpen_store_ok. exact Hidle.
Qed.

(** X8: updateFocalList is idempotent: a second call right after a call that
    returned changes nothing. *)
Theorem updateFocalList_idempotent s s' :
  updateFocalList s = Ok s' → updateFocalList s' = Ok s'.
Proof.
  intros H. pose proof H as H0.
  unfold updateFocalList in H |- *.
  destruct (open_top (allNodes_table s) (open_list s)) as [hd|] eqn:Et;
    [|discriminate].
  destruct (allNodes_table s !! hd) as [open_head|] eqn:Eh; [|discriminate].
  destruct (min_f_val s <? getFVal open_head) eqn:Em; injection H as <-.
  - simpl. rewrite Et, Eh, Z.ltb_irrefl. reflexivity.
  - rewrite Et, Eh, Em. reflexivity.
Qed.

Lemma generateChild_only_improves iv curr nl rt s s' :
  generateChild iv curr nl rt s = Ok s' →
  only_improves (allNodes_table s) (allNodes_table s') ∧
  (∃ pushed, open_list s' = open_list s ++ pushed) ∧
  (∃ pushed, focal_list s' = focal_list s ++ pushed) ∧
  w s' = w s ∧ min_f_val s' = min_f_val s ∧
  num_expanded s' = num_expanded s.
Proof.
  intros H. apply generateChild_cases in H
    as (Hw & Hm & He & Hfocal & c & Hcurr & H).
  cbv zeta in H.
  assert (Hsame : ∃ pushed : list nat, open_list s = open_list s ++ pushed)
    by (exists []; symmetry; apply app_nil_r).
  destruct H as [(Hn & Ho & _)|[(Hf & Hn & Ho & _)|
                   [(e & ex & Hf & Hd & Hcl & Hn & Ho & _)|
                    (e & ex & Hf & Hd & Hop & Hn & Ho & _)]]];
    rewrite Hn, Ho.
  - split; [apply only_improves_refl|]. auto.
  - split; [apply only_improves_app|]. split; [eexists; reflexivity|auto].
  - apply find_node_key in Hf as [Hex Hk].
    split; [|split; [eexists; reflexivity|auto]].
    eapply only_improves_insert; [exact Hex|].
    eapply dominates_improved; [exact Hd|exact Hk| | | |]; auto.
  - apply find_node_key in Hf as [Hex Hk]. split; [|auto].
    eapply only_improves_insert; [exact Hex|].
    eapply dominates_improved; [exact Hd|exact Hk| | | |]; auto.
Qed.

(** X9: The expansion of a node in mode B (lines 187-201), in any state:
    every node stored before is stored afterwards under the same key, an
    open node stays open, a label is left as it was or replaced by a strictly
    better one; OPEN and FOCAL are only pushed to; w, [min_f_val] and the
    number of expanded nodes are as before. *)
Theorem generateChild_expansion_only_improves rt curr nbrs iv s s1 s' iv' :
  moveChildren rt curr nbrs s = Ok s1 →
  waitChild rt curr iv s1 = Ok (s', iv') →
  only_improves (allNodes_table s) (allNodes_table s') ∧
  (∃ pushed, open_list s' = open_list s ++ pushed) ∧
  (∃ pushed, focal_list s' = focal_list s ++ pushed) ∧
  w s' = w s ∧ min_f_val s' = min_f_val s ∧
  num_expanded s' = num_expanded s.
Proof.
  intros H1 H2.
  set (P := fun x : SIPP =>
         only_improves (allNodes_table s) (allNodes_table x) ∧
         (∃ pushed, open_list x = open_list s ++ pushed) ∧
         (∃ pushed, focal_list x = focal_list s ++ pushed) ∧
         w x = w s ∧ min_f_val x = min_f_val s ∧
         num_expanded x = num_expanded s).
  assert (P_child : ∀ iv curr nl rt x x',
            P x → generateChild iv curr nl rt x = Ok x' → P x').
  { intros iv1 curr1 nl rt1 x x' (I1 & (o1 & O1) & (f1 & F1) & W1 & M1 & E1)
      Hx.
    apply generateChild_only_improves in Hx
      as (I2 & (o2 & O2) & (f2 & F2) & W2 & M2 & E2).
    split; [eapply only_improves_trans; eauto|].
    split; [exists (o1 ++ o2); rewrite O2, O1; symmetry; apply app_assoc|].
    split; [exists (f1 ++ f2); rewrite F2, F1; symmetry; apply app_assoc|].
    repeat split; congruence. }
  assert (P0 : P s).
  { split; [apply only_improves_refl|].
    split; [exists []; symmetry; apply app_nil_r|].
    split; [exists []; symmetry; apply app_nil_r|]. auto. }
  assert (P_rt : ∀ iv curr nl x x',
            P x → generateChild iv curr nl rt x = Ok x' → P x')
    by (intros iv1 curr1 nl x x'; apply P_child).
  exact (waitChild_keeps P rt P_rt _ _ _ _ _
           (moveChildren_keeps P rt P_rt _ _ _ _ P0 H1) H2).
Qed.

Lemma findSuboptimalPath_loop_bound rt holding_time path fuel iv s p s' :
  findSuboptimalPath_loop fuel rt holding_time path iv s = Ok (p, s') →
  min_f_val s ≤ min_f_val s' ∧ w s' = w s.
Proof.
  intros H.
  apply (findSuboptimalPath_loop_keeps
           (fun x => min_f_val s ≤ min_f_val x ∧ w x = w s)) in H.
  - exact H.
  - intros iv1 curr nl x x' [HM HW] Hx.
    apply generateChild_cases in Hx as (Hw & Hm & _). split; [lia|congruence].
  - intros x x' [HM HW] Hx.
    apply updateFocalList_state in Hx
      as (_ & _ & Hw & _ & _ & (hd & oh & _ & _ & Hm) & _).
    split; [lia|congruence].
  - intros x curr c x1 [HM HW] Hx.
    apply popOpenFocal_state in Hx as (c0 & _ & _ & _ & _ & _ & ->).
    simpl. auto.
  - split; [lia|reflexivity].
Qed.

(** X10: The bound that findSuboptimalPath returns with the path: 0 when the
    start cell is blocked at time 0; otherwise [min_f_val] never decreases
    during the search, so the returned value is at least the lower bound
    that was passed in, at least the holding time of the goal, and at least
    the heuristic of the start cell, whether a path was found or not. *)
Theorem findSuboptimalPath_min_f_val_lower fuel node initial_constraints
    paths agent lowerbound wf this p m s' :
  findSuboptimalPath fuel node initial_constraints paths agent lowerbound wf
    this = Ok (p, m, s') →
  let ct0 := insert2CT initial_constraints node agent in
  let holding_time := getHoldingTime ct0 goal_location (length_min ct0) in
  let rt := new_ReservationTable (insert2CAT ct0 agent paths) goal_location in
  if 0 <? get0 (get_first_safe_interval rt start_location)
  then m = 0 ∧ p = []
  else lowerbound ≤ m ∧ holding_time ≤ m ∧ my_heuristic start_location ≤ m.
Proof.
  unfold findSuboptimalPath. intros H. cbv zeta.
  destruct (0 <? get0 _); [injection H as <- <- _; auto|].
  apply rbind_Ok in H as ([p1 s1] & Hloop & H). injection H as _ <- _.
  apply findSuboptimalPath_loop_bound in Hloop as [Hm _].
  unfold startOpen, getFVal in Hm. simpl in Hm. simpl. lia.
Qed.

(** X11: Both searches give the planner back released: called on an idle
    planner (no node, both heaps empty), findPath and findSuboptimalPath
    leave an idle planner, whatever they return, so searches can follow one
    another on the same object; after findSuboptimalPath the factor w of the
    planner is the factor of the call. *)
Theorem searches_leave_planner_idle this :
  idle this →
  (∀ fuel ct p s', findPath fuel ct this = Ok (p, s') → idle s') ∧
  (∀ fuel node initial_constraints paths agent lowerbound wf p m s',
     findSuboptimalPath fuel node initial_constraints paths agent lowerbound
       wf this = Ok (p, m, s') →
     idle s' ∧ w s' = wf).
Proof.
  intros Hidle. split.
  - intros fuel ct p s' H. unfold findPath in H.
    destruct (0 <? get0 _); [injection H as _ <-; exact Hidle|].
    apply rbind_Ok in H as ([p1 s1] & _ & H). injection H as _ <-.
    repeat split.
  - intros fuel node ic paths agent lowerbound wf p m s' H.
    unfold findSuboptimalPath in H.
    destruct (0 <? get0 _); [injection H as _ _ <-; split; [exact Hidle|
                                                            reflexivity]|].
    apply rbind_Ok in H as ([p1 s1] & Hloop & H). injection H as _ _ <-.
    apply findSuboptimalPath_loop_bound in Hloop as [_ Hw].
    split; [repeat split|exact Hw].
Qed.

End ModeBStore.

(** ** pushNode and popNode *)

Lemma heap_erase_push (i : nat) (heap : list nat) :
  ¬ In i heap → heap_erase i (heap_push i heap) = heap.
Proof.
  unfold heap_push. induction heap as [|x heap IH]; intros Hi; simpl.
  - rewrite Nat.eqb_refl. reflexivity.
  - destruct (Nat.eqb i x) eqn:E.
    + apply Nat.eqb_eq in E. subst x. exfalso. apply Hi. left. reflexivity.
    + rewrite IH; [reflexivity|]. intros Hin. apply Hi. right. exact Hin.
Qed.

Lemma heap_mem_push (i : nat) (heap : list nat) :
  heap_mem i (heap_push i heap) = true.
Proof.
  unfold heap_mem, heap_push. rewrite existsb_app. simpl.
  rewrite Nat.eqb_refl. apply orb_true_iff. right. reflexivity.
Qed.

Lemma heap_mem_false (i : nat) (heap : list nat) :
  ¬ In i heap → heap_mem i heap = false.
Proof.
  intros Hi. destruct (heap_mem i heap) eqn:E; [|reflexivity].
  apply heap_mem_In in E. contradiction.
Qed.

(** X12: pushNode and popNode undo each other on a closed node that is in
    neither heap, whichever way the test of the bound goes.  pushNode
    returns and pushes the node to OPEN, and to FOCAL or not at all.  When
    FOCAL holds the node afterwards and has it on top, popNode returns it
    and leaves the planner as it was before the push, but for the two
    counters, each one higher.  When FOCAL does not hold it, FOCAL is as
    before the push and popNode does not return the node. *)
Theorem pushNode_popNode_round_trip
    (focal_top : list SIPPNode → list nat → option nat) (i : nat)
    (node : SIPPNode) (s : SIPP) :
  allNodes_table s !! i = Some node → in_openlist node = false →
  ¬ In i (open_list s) → ¬ In i (focal_list s) →
  ∃ s1, pushNode i s = Ok s1 ∧
    open_list s1 = open_list s ++ [i] ∧
    (In i (focal_list s1) →
     focal_list s1 = focal_list s ++ [i] ∧
     (focal_top (allNodes_table s1) (focal_list s1) = Some i →
      popNode focal_top s1 =
        Ok (i, node,
            set_num_expanded (num_expanded s + 1)
              (set_num_generated (num_generated s + 1) s)))) ∧
    (¬ In i (focal_list s1) →
     focal_list s1 = focal_list s ∧
     ∀ j n s2, popNode focal_top s1 = Ok (j, n, s2) → j ≠ i).
Proof.
  intros Hi Hclosed Hopen Hfocal.
  assert (Hlt : (i < length (allNodes_table s))%nat)
    by (eapply lookup_lt_Some; eauto).
  assert (Hback : set_in_openlist false (set_in_openlist true node) = node).
  { destruct node. simpl in Hclosed. subst. reflexivity. }
  unfold pushNode. rewrite Hi.
  destruct (in_focal_bound (w s) (getFVal node) (min_f_val s));
    eexists; (split; [reflexivity|]); (split; [reflexivity|]); simpl; split.
  - intros _. split; [reflexivity|]. intros Htop. unfold popNode.
    simpl. rewrite Htop. simpl.
    rewrite list_lookup_insert_eq by exact Hlt.
    rewrite !heap_mem_push. simpl.
    rewrite !heap_erase_push by assumption.
    rewrite list_insert_insert_eq, Hback, list_insert_id by exact Hi.
    destruct s. reflexivity.
  - intros Hno. exfalso. apply Hno. unfold heap_push. apply in_or_app.
    right. left. reflexivity.
  - intros Hin. contradiction.
  - intros _. split; [reflexivity|]. intros j n s2 Hpop ->.
    unfold popNode in Hpop. simpl in Hpop.
    destruct (focal_top _ (focal_list s)) as [k|]; [|discriminate].
    destruct (_ !! k); [|discriminate].
    destruct (heap_mem k (focal_list s)) eqn:Em; [|discriminate].
    simpl in Hpop.
    destruct (heap_mem k (heap_push i (open_list s))); [|discriminate].
    injection Hpop as -> _ _. apply heap_mem_In in Em. contradiction.
Qed.

(** ** Searches do not depend on earlier searches *)

Section Independent.

Variable getNeighbors : Z → list Z.
Variable start_location goal_location : Z.
Variable my_heuristic : Z → Z.
Variable new_ReservationTable : ConstraintTable → Z → ReservationTable.
Variable HLNode Paths : Type.
Variable insert2CT : ConstraintTable → HLNode → Z → ConstraintTable.
Variable insert2CAT : ConstraintTable → Z → Paths → ConstraintTable.
Variable focal_top open_top : list SIPPNode → list nat → option nat.
Variable PathEntry_default : Z.

Local Abbreviation generateChildToFocal := (generateChildToFocal goal_location).
Local Abbreviation moveIntervalsToFocal := (moveIntervalsToFocal goal_location).
Local Abbreviation moveToFocal := (moveToFocal goal_location my_heuristic).
Local Abbreviation waitToFocal := (waitToFocal goal_location).
Local Abbreviation expandToFocal :=
  (expandToFocal getNeighbors goal_location my_heuristic).
Local Abbreviation popFocal := (popFocal focal_top).
Local Abbreviation findPath_turn :=
  (findPath_turn getNeighbors goal_location my_heuristic focal_top
     PathEntry_default).
Local Abbreviation findPath_loop :=
  (findPath_loop getNeighbors goal_location my_heuristic focal_top
     PathEntry_default).
Local Abbreviation startFocal := (startFocal start_location my_heuristic).
Local Abbreviation startOpen := (startOpen start_location my_heuristic).
Local Abbreviation findPath :=
  (findPath getNeighbors start_location goal_location my_heuristic
     new_ReservationTable focal_top PathEntry_default).
Local Abbreviation findSuboptimalPath :=
  (findSuboptimalPath getNeighbors start_location goal_location my_heuristic
     new_ReservationTable HLNode Paths insert2CT insert2CAT focal_top
     open_top PathEntry_default).

Section Retuned.

Variable x : Q.
Variable m : Z.

Lemma generateChildToFocal_retune iv curr nl nh s :
  generateChildToFocal iv curr nl nh (retune x m s) =
  rmap (retune x m) (generateChildToFocal iv curr nl nh s).
Proof.
  unfold generateChildToFocal. simpl.
  destruct (allNodes_table s !! curr) as [c|]; [|reflexivity].
  destruct (find_node _ (allNodes_table s)) as [[e ex]|]; [|reflexivity].
  destruct (dominates _ ex); [|reflexivity].
  simpl. destruct (in_openlist ex); reflexivity.
Qed.

Lemma moveIntervalsToFocal_retune ct curr nl nh :
  ∀ ivs s,
    moveIntervalsToFocal ct curr nl nh ivs (retune x m s) =
    rmap (retune x m) (moveIntervalsToFocal ct curr nl nh ivs s).
Proof.
  induction ivs as [|iv ivs IH]; intros s; simpl; [reflexivity|].
  destruct (allNodes_table s !! curr) as [c|]; [|reflexivity].
  destruct (length_max ct <? _); [reflexivity|].
  rewrite generateChildToFocal_retune.
  destruct (generateChildToFocal iv curr nl nh s); simpl; auto.
Qed.

Lemma moveToFocal_retune ct rt curr :
  ∀ nbrs s,
    moveToFocal ct rt curr nbrs (retune x m s) =
    rmap (retune x m) (moveToFocal ct rt curr nbrs s).
Proof.
  induction nbrs as [|nl nbrs IH]; intros s; simpl; [reflexivity|].
  destruct (allNodes_table s !! curr) as [c|]; [|reflexivity].
  rewrite moveIntervalsToFocal_retune.
  destruct (moveIntervalsToFocal ct curr nl _ _ s); simpl; auto.
Qed.

Lemma expandToFocal_retune ct rt curr iv s :
  expandToFocal ct rt curr iv (retune x m s) =
  rmap (fun r => (retune x m (fst r), snd r)) (expandToFocal ct rt curr iv s).
Proof.
  unfold expandToFocal. simpl.
  destruct (allNodes_table s !! curr) as [c|]; [|reflexivity].
  rewrite moveToFocal_retune.
  destruct (moveToFocal ct rt curr _ s) as [s1| |]; simpl; [|reflexivity..].
  unfold waitToFocal. simpl.
  destruct (allNodes_table s1 !! curr) as [c1|]; [|reflexivity].
  destruct (find_safe_interval rt iv (location c1) (get1 (interval c1)))
    as [found iv1].
  destruct found; [|reflexivity].
  rewrite generateChildToFocal_retune.
  destruct (generateChildToFocal iv1 curr _ _ s1); reflexivity.
Qed.

Lemma generateGoalNode_retune curr c fc s :
  generateGoalNode curr c fc (retune x m s) =
  rmap (retune x m) (generateGoalNode curr c fc s).
Proof.
  unfold generateGoalNode. simpl.
  destruct (find_node _ (allNodes_table s)) as [[e ex]|]; [|reflexivity].
  destruct (dominates _ ex); [|reflexivity].
  destruct (in_openlist ex); reflexivity.
Qed.

Lemma findPath_turn_retune ct rt holding_time path iv s :
  findPath_turn ct rt holding_time path iv (retune x m s) =
  rmap (retune_turn x m) (findPath_turn ct rt holding_time path iv s).
Proof.
  unfold findPath_turn, popFocal. simpl.
  destruct (focal_top (allNodes_table s) (focal_list s)) as [curr|];
    [|reflexivity].
  destruct (allNodes_table s !! curr) as [c|]; [|reflexivity].
  destruct (heap_mem curr (focal_list s)); [|reflexivity]. simpl.
  destruct (location c <? 0); [reflexivity|].
  destruct (is_goal c).
  { lazymatch goal with |- rbind ?u _ = _ => destruct u end; reflexivity. }
  destruct ((location c =? goal_location) && negb (wait_at_goal c) &&
            (holding_time <=? timestep c)).
  - destruct (getFutureNumOfCollisions ct (location c) (timestep c) =? 0).
    + lazymatch goal with |- rbind ?u _ = _ => destruct u end; reflexivity.
    + match goal with
      | |- context [generateGoalNode _ _ _ ?st] =>
        change st with
          (retune x m
             (set_allNodes_table
                (<[curr := set_in_openlist false c]> (allNodes_table s))
                (set_num_expanded (num_expanded s + 1)
                   (set_focal_list (heap_erase curr (focal_list s)) s))))
      end.
      rewrite generateGoalNode_retune.
      destruct (generateGoalNode _ _ _ _) as [s2| |]; simpl; [|reflexivity..].
      rewrite expandToFocal_retune.
      destruct (expandToFocal ct rt curr iv s2) as [[s3 iv3]| |]; reflexivity.
  - match goal with
    | |- context [expandToFocal _ _ _ _ ?st] =>
      change st with
        (retune x m
           (set_allNodes_table
              (<[curr := set_in_openlist false c]> (allNodes_table s))
              (set_num_expanded (num_expanded s + 1)
                 (set_focal_list (heap_erase curr (focal_list s)) s))))
    end.
    rewrite expandToFocal_retune.
    destruct (expandToFocal ct rt curr iv _) as [[s3 iv3]| |]; reflexivity.
Qed.

Lemma findPath_loop_retune ct rt holding_time path :
  ∀ fuel iv s,
    findPath_loop fuel ct rt holding_time path iv (retune x m s) =
    rmap (fun r => (fst r, retune x m (snd r)))
      (findPath_loop fuel ct rt holding_time path iv s).
Proof.
  induction fuel as [|fuel IH]; intros iv s; simpl.
  - destruct (focal_list s); reflexivity.
  - destruct (focal_list s); [reflexivity|].
    rewrite findPath_turn_retune.
    destruct (findPath_turn ct rt holding_time path iv s) as [t| |];
      simpl; [|reflexivity..].
    destruct t as [p s1|s1 iv1]; simpl; [reflexivity|apply IH].
Qed.

End Retuned.

(** X13: What a search returns does not depend on what earlier searches left
    in the planner object.  On two idle planners, which may differ in w, in
    [min_f_val] and in the counters, findPath returns the same path with the
    same counts of expanded and generated nodes, and findSuboptimalPath
    returns the same path and bound with the same counts. *)
Theorem searches_ignore_planner_history this1 this2 :
  idle this1 → idle this2 →
  (∀ fuel ct p s1,
     findPath fuel ct this1 = Ok (p, s1) →
     ∃ s2, findPath fuel ct this2 = Ok (p, s2) ∧
       num_expanded s2 = num_expanded s1 ∧
       num_generated s2 = num_generated s1) ∧
  (∀ fuel node initial_constraints paths agent lowerbound wf p b s1,
     findSuboptimalPath fuel node initial_constraints paths agent lowerbound
       wf this1 = Ok (p, b, s1) →
     ∃ s2, findSuboptimalPath fuel node initial_constraints paths agent
             lowerbound wf this2 = Ok (p, b, s2) ∧
       num_expanded s2 = num_expanded s1 ∧
       num_generated s2 = num_generated s1).
Proof.
  intros (O1 & F1 & N1) (O2 & F2 & N2).
  destruct this1 as [w1 m1 e1 g1 o1 f1 n1].
  destruct this2 as [w2 m2 e2 g2 o2 f2 n2].
  simpl in O1, F1, N1, O2, F2, N2. subst o1 f1 n1 o2 f2 n2. split.
  - intros fuel ct p s1 H. unfold findPath in *.
    destruct (0 <? get0 _).
    { injection H as <- <-. eexists. split; [reflexivity|]. auto. }
    apply rbind_Ok in H as ([p1 s'] & Hloop & H). injection H as <- <-.
    assert (Hstart : ∀ holding_time iv,
              startFocal holding_time iv
                (set_num_generated 0
                   (set_num_expanded 0 (mkSIPP w2 m2 e2 g2 [] [] []))) =
              retune w2 m2
                (startFocal holding_time iv
                   (set_num_generated 0
                      (set_num_expanded 0 (mkSIPP w1 m1 e1 g1 [] [] [])))))
      by reflexivity.
    rewrite Hstart, findPath_loop_retune, Hloop. simpl.
    eexists. split; [reflexivity|]. auto.
  - intros fuel node ic paths agent lowerbound wf p b s1 H.
    unfold findSuboptimalPath in *.
    destruct (0 <? get0 _).
    { injection H as <- <- <-. eexists. split; [reflexivity|]. auto. }
    assert (Hstart : ∀ holding_time iv,
              startOpen holding_time lowerbound iv
                (set_num_generated 0
                   (set_num_expanded 0
                      (set_w wf (mkSIPP w2 m2 e2 g2 [] [] [])))) =
              startOpen holding_time lowerbound iv
                (set_num_generated 0
                   (set_num_expanded 0
                      (set_w wf (mkSIPP w1 m1 e1 g1 [] [] [])))))
      by reflexivity.
    rewrite Hstart. exists s1. split; [exact H|]. auto.
Qed.

End Independent.

(** ** SIPP::getTravelTime *)

Section TravelTimeProperties.

Variable getNeighbors : Z → list Z.
Variable compute_heuristic : Z → Z → Z.
Variable constrained : ConstraintTable → Z → Z → bool.
Variable constrained_edge : ConstraintTable → Z → Z → Z → bool.
Variable getMaxTimestep : ConstraintTable → Z.
Variable MAX_TIMESTEP : Z.
Variable open_top : list SIPPNode → list nat → option nat.

Local Abbreviation travelChild :=
  (travelChild compute_heuristic constrained constrained_edge).
Local Abbreviation travelChildren :=
  (travelChildren compute_heuristic constrained constrained_edge).
Local Abbreviation getTravelTime_turn :=
  (getTravelTime_turn getNeighbors compute_heuristic constrained
     constrained_edge open_top).
Local Abbreviation getTravelTime_loop :=
  (getTravelTime_loop getNeighbors compute_heuristic constrained
     constrained_edge open_top).
Local Abbreviation getTravelTime_turns :=
  (getTravelTime_turns getNeighbors compute_heuristic constrained
     constrained_edge open_top).
Local Abbreviation startTravel := (startTravel compute_heuristic).
Local Abbreviation getTravelTime :=
  (getTravelTime getNeighbors compute_heuristic constrained constrained_edge
     getMaxTimestep MAX_TIMESTEP open_top).
Local Abbreviation travel_node_ok := (travel_node_ok compute_heuristic).
Local Abbreviation top_is_member := (top_is_member open_top).
Local Abbreviation travels :=
  (travels getNeighbors constrained constrained_edge).

(** The three ways in which the body of the loop over the next locations
    returns: nothing changes, a node is stored and pushed, or the stored
    node of the same key gets the smaller cost. *)
Lemma travelChild_cases ct end_location upper_bound static_timestep curr nl
    s s' :
  travelChild ct end_location upper_bound static_timestep curr nl s = Ok s' →
  ∃ c, allNodes_table s !! curr = Some c ∧
    (s' = s ∨
     ∃ next_timestep,
       (static_timestep ≤ timestep c ∧ location c ≠ nl ∧
        next_timestep = timestep c + 1 - 1 ∨
        timestep c < static_timestep ∧ next_timestep = timestep c + 1) ∧
       (constrained ct nl next_timestep = false ∧
        constrained_edge ct (location c) nl next_timestep = false) ∧
       g_val c + 1 + compute_heuristic nl end_location < upper_bound ∧
       let next := new_SIPPNode nl (g_val c + 1)
                     (compute_heuristic nl end_location) None next_timestep
                     (next_timestep, next_timestep + 1, 0) 0 in
       (find_node next (allNodes_table s) = None ∧
        s' = set_allNodes_table (allNodes_table s ++ [next])
               (set_open_list
                  (heap_push (length (allNodes_table s)) (open_list s)) s)) ∨
       (∃ e ex, find_node next (allNodes_table s) = Some (e, ex) ∧
          g_val c + 1 < g_val ex ∧ In e (open_list s) ∧
          s' = set_open_list (open_list s)
                 (set_allNodes_table
                    (<[e := mkSIPPNode (location ex) (g_val c + 1) (h_val ex)
                              (parent ex) next_timestep (interval ex)
                              (num_of_conflicts ex) (in_openlist ex)
                              (wait_at_goal ex) (is_goal ex)]>
                       (allNodes_table s)) s))).
Proof.
  unfold travelChild. intros H.
  destruct (allNodes_table s !! curr) as [c|]; [|discriminate].
  exists c. split; [reflexivity|].
  remember (if static_timestep <=? timestep c
            then timestep c + 1 - 1 else timestep c + 1) as nt eqn:Ent.
  destruct ((static_timestep <=? timestep c) && (location c =? nl)) eqn:E1;
    [injection H as <-; left; reflexivity|].
  assert (Hnt : static_timestep ≤ timestep c ∧ location c ≠ nl ∧
                nt = timestep c + 1 - 1 ∨
                timestep c < static_timestep ∧ nt = timestep c + 1).
  { destruct (static_timestep <=? timestep c) eqn:Es.
    - apply Z.leb_le in Es. simpl in E1. apply Z.eqb_neq in E1. auto.
    - apply Z.leb_gt in Es. auto. }
  clear Ent E1.
  destruct (negb (constrained ct nl nt) &&
            negb (constrained_edge ct (location c) nl nt)) eqn:Econ;
    [|injection H as <-; left; reflexivity].
  apply andb_true_iff in Econ as [Ev Ee].
  apply negb_true_iff in Ev, Ee.
  destruct (upper_bound <=? _) eqn:Eu;
    [injection H as <-; left; reflexivity|].
  apply Z.leb_gt in Eu.
  destruct (find_node _ (allNodes_table s)) as [[e ex]|] eqn:Ef.
  - destruct (g_val c + 1 <? g_val ex) eqn:Eg;
      [|injection H as <-; left; reflexivity].
    destruct (heap_mem e (open_list s)) eqn:Em; [|discriminate].
    injection H as <-. right. exists nt.
    split; [exact Hnt|]. split; [auto|]. split; [lia|]. cbv zeta.
    right. exists e, ex.
    apply Z.ltb_lt in Eg. apply heap_mem_In in Em. rewrite Ef. auto.
  - injection H as <-. right. exists nt.
    split; [exact Hnt|]. split; [auto|]. split; [lia|]. cbv zeta.
    left. rewrite Ef. auto.
Qed.

Lemma travelChild_location ct end_location upper_bound static_timestep curr
    nl s s' :
  travelChild ct end_location upper_bound static_timestep curr nl s = Ok s' →
  ∀ i n, allNodes_table s !! i = Some n →
    ∃ n', allNodes_table s' !! i = Some n' ∧ location n' = location n.
Proof.
  intros H i n Hi. apply travelChild_cases in H as (c & Hc & H).
  destruct H as [->|(nt & _ & _ & _ & H)]; [eauto|]. cbv zeta in H.
  destruct H as [[_ ->]|(e & ex & Hf & _ & _ & ->)]; simpl.
  - exists n. split; [|reflexivity]. apply lookup_app_l_Some. exact Hi.
  - apply find_node_key in Hf as [He _].
    destruct (decide (i = e)) as [->|Hne].
    + eexists. split.
      * apply list_lookup_insert_eq. eapply lookup_lt_Some; eauto.
      * simpl. congruence.
    + exists n. split; [|reflexivity].
      rewrite list_lookup_insert_ne by congruence. exact Hi.
Qed.

(** A property of the planner that is kept when a child of a node is
    generated for the cell of the node or for a neighbour of it, and when a
    handle is erased from OPEN, is kept by the loop of getTravelTime; the
    loop returns the length it was entered with or the cost of a stored node
    that stands on the end cell. *)
Section Kept.

Variable ct : ConstraintTable.
Variable end_location upper_bound static_timestep : Z.
Variable P : SIPP → Prop.
Hypothesis P_child : ∀ curr c nl s s',
  P s → allNodes_table s !! curr = Some c →
  nl = location c ∨ In nl (getNeighbors (location c)) →
  travelChild ct end_location upper_bound static_timestep curr nl s = Ok s' →
  P s'.
Hypothesis P_pop : ∀ s curr,
  P s → P (set_open_list (heap_erase curr (open_list s)) s).

Lemma travelChildren_keeps curr loc :
  ∀ nls s s',
    P s →
    (∃ c, allNodes_table s !! curr = Some c ∧ location c = loc) →
    (∀ nl, In nl nls → nl = loc ∨ In nl (getNeighbors loc)) →
    travelChildren ct end_location upper_bound static_timestep curr nls s =
      Ok s' →
    P s'.
Proof.
  induction nls as [|nl nls IH]; intros s s' HP (c & Hc & Hloc) Hnls H;
    simpl in H.
  - injection H as <-. exact HP.
  - apply rbind_Ok in H as (s1 & H1 & H).
    apply (IH s1 s'); [| | |exact H].
    + apply (P_child curr c nl s s1 HP Hc); [|exact H1].
      rewrite Hloc. apply Hnls. left. reflexivity.
    + destruct (travelChild_location _ _ _ _ _ _ _ _ H1 curr c Hc)
        as (c' & Hc' & Hl').
      exists c'. split; [exact Hc'|congruence].
    + intros x Hx. apply Hnls. right. exact Hx.
Qed.

Lemma getTravelTime_turn_keeps s t :
  P s →
  getTravelTime_turn ct end_location upper_bound static_timestep s = Ok t →
  match t with
  | Arrived l s' =>
    P s' ∧ ∃ curr c, allNodes_table s !! curr = Some c ∧
                     location c = end_location ∧ l = g_val c
  | Searching s' => P s'
  end.
Proof.
  intros HP H. unfold getTravelTime_turn in H.
  destruct (open_top (allNodes_table s) (open_list s)) as [curr|];
    [|discriminate].
  destruct (allNodes_table s !! curr) as [c|] eqn:Ec; [|discriminate].
  destruct (heap_mem curr (open_list s)); [|discriminate].
  destruct (location c =? end_location) eqn:El.
  - injection H as <-. apply Z.eqb_eq in El.
    split; [apply P_pop; exact HP|]. exists curr, c. auto.
  - apply rbind_Ok in H as (s2 & H2 & H). injection H as <-.
    eapply (travelChildren_keeps curr (location c)); [| | |exact H2].
    + apply P_pop. exact HP.
    + exists c. split; [exact Ec|reflexivity].
    + intros nl Hnl. apply in_app_iff in Hnl as [Hnl|[<-|[]]]; auto.
Qed.

Lemma getTravelTime_turns_keeps :
  ∀ n s0 s,
    P s0 →
    getTravelTime_turns n ct end_location upper_bound static_timestep s0 =
      Ok s →
    P s.
Proof.
  induction n as [|n IH]; intros s0 s HP H; simpl in H.
  - injection H as <-. exact HP.
  - apply rbind_Ok in H as (t & Ht & H).
    destruct t as [|s1]; [discriminate|].
    apply (IH s1 s); [|exact H].
    exact (getTravelTime_turn_keeps _ _ HP Ht).
Qed.

Lemma getTravelTime_loop_result length :
  ∀ fuel s l s',
    P s →
    getTravelTime_loop fuel ct end_location upper_bound static_timestep
      length s = Ok (l, s') →
    l = length ∨
    ∃ s0 curr c, P s0 ∧ allNodes_table s0 !! curr = Some c ∧
                 location c = end_location ∧ l = g_val c.
Proof.
  induction fuel as [|fuel IH]; intros s l s' HP H; simpl in H.
  - destruct (open_list s); [|discriminate]. injection H as <- <-. auto.
  - destruct (open_list s); [injection H as <- <-; auto|].
    apply rbind_Ok in H as (t & Ht & H).
    pose proof (getTravelTime_turn_keeps _ _ HP Ht) as HP1.
    destruct t as [l1 s1|s1].
    + injection H as <- <-. destruct HP1 as (_ & curr & c & Hc & Hl & ->).
      right. exists s, curr, c. auto.
    + exact (IH s1 l s' HP1 H).
Qed.

End Kept.

Lemma travelChild_store_ok ct start end_location upper_bound static_timestep
    curr nl s s' :
  keys_unique (allNodes_table s) ∧
  (∀ i n, allNodes_table s !! i = Some n →
     travel_node_ok start end_location upper_bound static_timestep n) →
  travelChild ct end_location upper_bound static_timestep curr nl s = Ok s' →
  keys_unique (allNodes_table s') ∧
  (∀ i n, allNodes_table s' !! i = Some n →
     travel_node_ok start end_location upper_bound static_timestep n).
Proof.
  intros [Hu Hok] H. apply travelChild_cases in H as (c & Hc & H).
  destruct H as [->|(nt & Hnt & _ & Hub & H)]; [auto|]. cbv zeta in H.
  destruct (Hok curr c Hc) as (Hh & Hiv & Hg & Ht & Hb).
  assert (Htime : nt = Z.min (g_val c + 1) (Z.max 0 static_timestep)) by lia.
  destruct H as [[Hf ->]|(e & ex & Hf & Hlt & _ & ->)]; simpl.
  - split.
    + apply keys_unique_app; [exact Hu|].
      intros j n Hj. exact (find_node_None _ _ Hf j n Hj).
    + intros i n Hi. apply lookup_app_Some in Hi as [Hi|[_ Hi]]; [eauto|].
      destruct (i - length (allNodes_table s))%nat as [|y];
        [|destruct y; discriminate].
      injection Hi as <-. unfold travel_node_ok.
      simpl. repeat (split; [first [reflexivity|exact Htime]|]).
      right. lia.
  - apply find_node_key in Hf as [He Hk].
    destruct (Hok e ex He) as (Hhx & Hivx & Hgx & Htx & Hbx).
    injection Hk as Hk1 Hk2 Hk3. simpl in Hk1, Hk2, Hk3. split.
    + eapply keys_unique_insert; [exact Hu|exact He|reflexivity].
    + intros i n Hi.
      apply list_lookup_insert_Some in Hi as [(_ & <- & _)|[_ Hi]]; [|eauto].
      unfold travel_node_ok. simpl.
      split; [exact Hhx|]. split; [exact Hk2|]. split; [exact Hgx|].
      split; [exact Htime|]. right. rewrite Hhx, Hk1. lia.
Qed.

Lemma startTravel_store_ok start end_location upper_bound static_timestep
    this :
  idle this →
  keys_unique (allNodes_table (startTravel start end_location this)) ∧
  (∀ i n, allNodes_table (startTravel start end_location this) !! i = Some n →
     travel_node_ok start end_location upper_bound static_timestep n).
Proof.
  intros (_ & _ & Hn). unfold startTravel. simpl.
  rewrite Hn. simpl. split.
  - intros i j ni nj Hi Hj _.
    destruct i as [|i]; [|destruct i; discriminate].
    destruct j as [|j]; [reflexivity|destruct j; discriminate].
  - intros i n Hi. destruct i as [|i]; [|destruct i; discriminate].
    injection Hi as <-. unfold travel_node_ok.
    simpl. repeat (split; [first [reflexivity|lia]|]). left. auto.
Qed.

(** X14: getTravelTime between a cell and itself: with a heap whose top is
    one of its handles, on an idle planner and with any fuel for one turn,
    the travel time is 0, whatever the upper bound and the constraints, and
    the planner is left as it was. *)
Theorem getTravelTime_same_cell fuel start ct upper_bound this :
  top_is_member → idle this →
  getTravelTime (S fuel) start start ct upper_bound this = Ok (0, this).
Proof.
  intros Htop (Ho & Hf & Hn).
  unfold getTravelTime, startTravel.
  cbv zeta. rewrite Ho, Hn. simpl.
  unfold getTravelTime_turn. simpl.
  lazymatch goal with
  | |- context [open_top ?nodes ?heap] =>
    destruct (Htop nodes heap) as (i & Hi & Hin); [discriminate|]
  end.
  destruct Hin as [<-|[]]. rewrite Hi. simpl. rewrite Z.eqb_refl. simpl.
  destruct this. simpl in *. subst. reflexivity.
Qed.

(** X15: What getTravelTime returns, from an idle planner: MAX_TIMESTEP, or
    0 when the two cells are the same, or a length of at least 1 that,
    with the heuristic of the end cell added, is below the upper bound. *)
Theorem getTravelTime_below_upper_bound fuel start end_location ct
    upper_bound this l s' :
  idle this →
  getTravelTime fuel start end_location ct upper_bound this = Ok (l, s') →
  l = MAX_TIMESTEP ∨ (start = end_location ∧ l = 0) ∨
  (1 ≤ l ∧ l + compute_heuristic end_location end_location < upper_bound).
Proof.
  intros Hidle H. unfold getTravelTime in H.
  cbv zeta in H. apply rbind_Ok in H as ([l1 s1] & Hloop & H).
  injection H as <- _.
  apply (getTravelTime_loop_result ct end_location upper_bound
           (getMaxTimestep ct)
           (fun x => keys_unique (allNodes_table x) ∧
              ∀ i n, allNodes_table x !! i = Some n →
                travel_node_ok start end_location upper_bound
                  (getMaxTimestep ct) n)) in Hloop.
  - destruct Hloop as [->|(s0 & curr & c & [_ Hok] & Hc & Hl & ->)]; [auto|].
    right. destruct (Hok curr c Hc) as (Hh & _ & _ & _ & [[Hg Hs]|Hb]).
    + left. split; congruence.
    + right. rewrite Hl in Hh. rewrite <- Hh. exact Hb.
  - intros curr c nl x x' HP _ _ Hx.
    exact (travelChild_store_ok _ _ _ _ _ _ _ _ _ HP Hx).
  - intros x curr HP. exact HP.
  - apply startTravel_store_ok. exact Hidle.
Qed.

(** X16: getTravelTime never returns less than the distance in the graph:
    for every function [d] on the cells that is at most 0 on the start cell
    and grows by at most 1 along an edge, the length returned from an idle
    planner is MAX_TIMESTEP or at least [d] of the end cell. *)
Theorem getTravelTime_at_least_distance (d : Z → Z) fuel start end_location
    ct upper_bound this l s' :
  d start ≤ 0 →
  (∀ u v, In v (getNeighbors u) → d v ≤ d u + 1) →
  idle this →
  getTravelTime fuel start end_location ct upper_bound this = Ok (l, s') →
  l = MAX_TIMESTEP ∨ d end_location ≤ l.
Proof.
  intros Hstart Hedge (_ & _ & Hn) H.
  unfold getTravelTime in H.
  cbv zeta in H. apply rbind_Ok in H as ([l1 s1] & Hloop & H).
  injection H as <- _.
  apply (getTravelTime_loop_result ct end_location upper_bound
           (getMaxTimestep ct)
           (fun x => ∀ i n, allNodes_table x !! i = Some n →
                       d (location n) ≤ g_val n)) in Hloop.
  - destruct Hloop as [->|(s0 & curr & c & Hok & Hc & Hl & ->)]; [auto|].
    right. rewrite <- Hl. exact (Hok curr c Hc).
  - intros curr c nl x x' HP Hc Hnl Hx.
    assert (Hd : d nl ≤ g_val c + 1).
    { pose proof (HP curr c Hc). destruct Hnl as [->|Hnl]; [lia|].
      apply Hedge in Hnl. lia. }
    apply travelChild_cases in Hx as (c' & Hc' & Hx).
    assert (c' = c) by congruence. subst c'.
    destruct Hx as [->|(nt & _ & _ & _ & Hx)]; [exact HP|]. cbv zeta in Hx.
    destruct Hx as [[_ ->]|(e & ex & Hf & _ & _ & ->)]; simpl; intros i n Hi.
    + apply lookup_app_Some in Hi as [Hi|[_ Hi]]; [eauto|].
      destruct (i - length (allNodes_table x))%nat as [|y];
        [|destruct y; discriminate].
      injection Hi as <-. exact Hd.
    + apply find_node_key in Hf as [He Hk]. injection Hk as Hk1 _ _.
      simpl in Hk1.
      apply list_lookup_insert_Some in Hi as [(_ & <- & _)|[_ Hi]]; [|eauto].
      simpl. rewrite Hk1. exact Hd.
  - intros x curr HP. exact HP.
  - unfold startTravel. simpl. rewrite Hn.
    intros i n Hi. destruct i as [|i]; [|destruct i; discriminate].
    injection Hi as <-. exact Hstart.
Qed.

(** X17: The search space of getTravelTime: in every state that its loop
    reaches from an idle planner no two stored nodes have the same key,
    and every stored node has the heuristic of its cell as h, an interval
    that starts at its timestep, and a timestep equal to its cost up to the
    static timestep of the constraint table and equal to that timestep
    beyond; it is the root or costs less than the upper bound. *)
Theorem getTravelTime_search_space n ct start end_location upper_bound
    static_timestep this s :
  idle this →
  getTravelTime_turns n ct end_location upper_bound static_timestep
    (startTravel start end_location this) = Ok s →
  keys_unique (allNodes_table s) ∧
  (∀ i node, allNodes_table s !! i = Some node →
     travel_node_ok start end_location upper_bound static_timestep node).
Proof.
  intros Hidle H.
  apply (getTravelTime_turns_keeps ct end_location upper_bound
           static_timestep
           (fun x => keys_unique (allNodes_table x) ∧
              ∀ i n, allNodes_table x !! i = Some n →
                travel_node_ok start end_location upper_bound
                  static_timestep n)) in H.
  - exact H.
  - intros curr c nl x x' HP _ _ Hx.
    exact (travelChild_store_ok _ _ _ _ _ _ _ _ _ HP Hx).
  - intros x curr HP. exact HP.
  - apply startTravel_store_ok. exact Hidle.
Qed.

(** X23: the length that getTravelTime returns is travelled.  From an idle
    planner it returns MAX_TIMESTEP or the number of steps of a walk from
    the start cell to the end cell, by waits and moves to neighbours that
    the constraint table allows at their time of arrival; so does the cost
    that replaces the cost of a stored node. *)
Theorem getTravelTime_length_is_travelled fuel start end_location ct
    upper_bound this l s' :
  idle this →
  getTravelTime fuel start end_location ct upper_bound this = Ok (l, s') →
  l = MAX_TIMESTEP ∨ travels ct (getMaxTimestep ct) start end_location l.
Proof.
  intros Hidle H. pose proof Hidle as (_ & _ & Hn).
  unfold getTravelTime in H.
  cbv zeta in H. apply rbind_Ok in H as ([l1 s1] & Hloop & H).
  injection H as <- _.
  apply (getTravelTime_loop_result ct end_location upper_bound
           (getMaxTimestep ct)
           (fun x =>
              (keys_unique (allNodes_table x) ∧
               ∀ i n, allNodes_table x !! i = Some n →
                 travel_node_ok start end_location upper_bound
                   (getMaxTimestep ct) n) ∧
              ∀ i n, allNodes_table x !! i = Some n →
                travels ct (getMaxTimestep ct) start (location n) (g_val n)))
    in Hloop.
  - destruct Hloop as [->|(s0 & curr & c & [_ Hok] & Hc & Hl & ->)]; [auto|].
    right. rewrite <- Hl. exact (Hok curr c Hc).
  - intros curr c nl x x' [HP HT] Hc Hnl Hx.
    split; [exact (travelChild_store_ok _ _ _ _ _ _ _ _ _ HP Hx)|].
    destruct (proj2 HP curr c Hc) as (_ & _ & _ & Ht & _).
    apply travelChild_cases in Hx as (c' & Hc' & Hx).
    assert (c' = c) by congruence. subst c'.
    destruct Hx as [->|(nt & Hnt & [Hv He] & _ & Hx)]; [exact HT|].
    assert (Hstep : travels ct (getMaxTimestep ct) start nl (g_val c + 1)).
    { apply (travels_step getNeighbors constrained constrained_edge ct
               (getMaxTimestep ct) start (location c) nl (g_val c)
               (HT curr c Hc) Hnl); cbv zeta; rewrite <- Ht.
      - destruct Hnt as [(Hs & Hne & _)|(Hs & _)].
        + apply andb_false_iff. right. apply Z.eqb_neq. exact Hne.
        + apply andb_false_iff. left. apply Z.leb_gt. exact Hs.
      - destruct Hnt as [(Hs & _ & ->)|(Hs & ->)].
        + apply Z.leb_le in Hs. rewrite Hs.
          replace (timestep c + 1 - 1) with (timestep c) in Hv by lia.
          exact Hv.
        + apply Z.leb_gt in Hs. rewrite Hs. exact Hv.
      - destruct Hnt as [(Hs & _ & ->)|(Hs & ->)].
        + apply Z.leb_le in Hs. rewrite Hs.
          replace (timestep c + 1 - 1) with (timestep c) in He by lia.
          exact He.
        + apply Z.leb_gt in Hs. rewrite Hs. exact He. }
    cbv zeta in Hx.
    destruct Hx as [[_ ->]|(e & ex & Hf & _ & _ & ->)]; simpl; intros i n Hi.
    + apply lookup_app_Some in Hi as [Hi|[_ Hi]]; [eauto|].
      destruct (i - length (allNodes_table x))%nat as [|y];
        [|destruct y; discriminate].
      injection Hi as <-. exact Hstep.
    + apply find_node_key in Hf as [Hex Hk]. injection Hk as Hk1 _ _.
      simpl in Hk1.
      apply list_lookup_insert_Some in Hi as [(_ & <- & _)|[_ Hi]]; [|eauto].
      simpl. rewrite Hk1. exact Hstep.
  - intros x curr HP. exact HP.
  - split; [apply startTravel_store_ok; exact Hidle|].
    unfold startTravel. simpl. rewrite Hn.
    intros i n Hi. destruct i as [|i]; [|destruct i; discriminate].
    injection Hi as <-. apply travels_start.
Qed.

End TravelTimeProperties.

(** ** SIPP::printSearchTree *)

Lemma at_timestep_app (t : nat) (tbl : list SIPPNode) (n : SIPPNode) :
  at_timestep t (tbl ++ [n]) =
  if timestep n =? Z.of_nat t then at_timestep t tbl ++ [n]
  else at_timestep t tbl.
Proof.
  unfold at_timestep. rewrite List.filter_app. simpl.
  destruct (timestep n =? Z.of_nat t); [reflexivity|apply app_nil_r].
Qed.

Lemma at_timestep_nil (t : nat) (tbl : list SIPPNode) :
  (∀ n, In n tbl → timestep n ≠ Z.of_nat t) → at_timestep t tbl = [].
Proof.
  unfold at_timestep. induction tbl as [|x tbl IH]; intros H; simpl;
    [reflexivity|].
  destruct (timestep x =? Z.of_nat t) eqn:E.
  - apply Z.eqb_eq in E. exfalso. apply (H x); [left; reflexivity|exact E].
  - apply IH. intros n Hn. apply H. right. exact Hn.
Qed.

Lemma add_to_level_levels_of pre levels n levels' :
  levels_of pre levels → add_to_level levels n = Ok levels' →
  levels_of (pre ++ [n]) levels'.
Proof.
  intros (Hin & Hlev & Hlast) H. unfold add_to_level in H.
  destruct (timestep n <? 0) eqn:Et; [discriminate|]. apply Z.ltb_ge in Et.
  set (t := Z.to_nat (timestep n)) in *.
  set (grown := if (length levels <=? t)%nat
                then take (S t) levels ++ replicate (S t - length levels) []
                else levels) in *.
  assert (Hlen : length grown = Nat.max (length levels) (S t)).
  { unfold grown. destruct (length levels <=? t)%nat eqn:E.
    - apply Nat.leb_le in E.
      rewrite length_app, length_take, length_replicate. lia.
    - apply Nat.leb_gt in E. lia. }
  assert (Hgrown : ∀ k, (k < length grown)%nat →
                     grown !! k = Some (at_timestep k pre)).
  { intros k Hk. unfold grown in *.
    destruct (length levels <=? t)%nat eqn:E; [|apply Hlev; exact Hk].
    apply Nat.leb_le in E. rewrite take_ge in Hk |- * by lia.
    rewrite length_app, length_replicate in Hk.
    destruct (Nat.lt_ge_cases k (length levels)) as [Hlt|Hge].
    - rewrite lookup_app_l by lia. apply Hlev. exact Hlt.
    - rewrite lookup_app_r by lia. rewrite lookup_replicate_2 by lia.
      rewrite at_timestep_nil; [reflexivity|].
      intros x Hx. apply Hin in Hx. lia. }
  destruct (grown !! t) as [level|] eqn:El; [|discriminate].
  injection H as <-.
  assert (Hlevel : level = at_timestep t pre).
  { rewrite Hgrown in El by lia. congruence. }
  split; [|split].
  - rewrite length_insert, Hlen. intros x Hx.
    apply in_app_iff in Hx as [Hx|[<-|[]]]; [apply Hin in Hx; lia|lia].
  - rewrite length_insert. intros k Hk. rewrite at_timestep_app.
    destruct (timestep n =? Z.of_nat k) eqn:E.
    + apply Z.eqb_eq in E. assert (k = t) by lia. subst k.
      rewrite list_lookup_insert_eq by lia. congruence.
    + apply Z.eqb_neq in E.
      rewrite list_lookup_insert_ne by lia. apply Hgrown. exact Hk.
  - rewrite length_insert, Hlen. intros _. rewrite at_timestep_app.
    destruct (timestep n =? _) eqn:E.
    + intros Happ. apply app_eq_nil in Happ as [_ Happ]. discriminate.
    + apply Z.eqb_neq in E.
      replace (Nat.max (length levels) (S t) - 1)%nat
        with (length levels - 1)%nat by lia.
      apply Hlast. intros ->. simpl in E. lia.
Qed.

Lemma searchTree_levels_of (tbl : list SIPPNode) :
  ∀ pre levels levels',
    levels_of pre levels → searchTree_levels tbl levels = Ok levels' →
    levels_of (pre ++ tbl) levels'.
Proof.
  induction tbl as [|n tbl IH]; intros pre levels levels' Hof H; simpl in H.
  - injection H as <-. rewrite app_nil_r. exact Hof.
  - apply rbind_Ok in H as (levels1 & H1 & H).
    replace (pre ++ n :: tbl) with ((pre ++ [n]) ++ tbl)
      by (rewrite <- app_assoc; reflexivity).
    eapply IH; [|exact H]. eapply add_to_level_levels_of; eauto.
Qed.

(** X18: The levels that printSearchTree prints (lines 489-495), read from
    the table in the order of the store: when the loop returns, every stored
    node has a timestep between 0 and the number of levels, level [t] holds
    exactly the stored nodes of timestep [t], in the order of the table, and
    the last level is not empty: there is one level per timestep up to the
    greatest one. *)
Theorem searchTree_levels_by_timestep (tbl : list SIPPNode)
    (levels : list (list SIPPNode)) :
  searchTree_levels tbl [] = Ok levels →
  (∀ n, In n tbl → 0 ≤ timestep n < Z.of_nat (length levels)) ∧
  (∀ t, (t < length levels)%nat → levels !! t = Some (at_timestep t tbl)) ∧
  (levels ≠ [] → at_timestep (length levels - 1) tbl ≠ []).
Proof.
  intros H. apply (searchTree_levels_of tbl [] [] levels); [|exact H].
  split; [intros n []|]. split; [intros t Ht; simpl in Ht; lia|].
  intros Hne. congruence.
Qed.

Lemma add_to_level_returns (levels : list (list SIPPNode)) (n : SIPPNode) :
  0 ≤ timestep n → ∃ levels', add_to_level levels n = Ok levels'.
Proof.
  intros Ht. unfold add_to_level.
  destruct (timestep n <? 0) eqn:E; [lia|].
  set (t := Z.to_nat (timestep n)).
  destruct ((if (length levels <=? t)%nat
             then take (S t) levels ++ replicate (S t - length levels) []
             else levels) !! t) as [level|] eqn:El; [eauto|].
  exfalso. apply lookup_ge_None in El.
  destruct (length levels <=? t)%nat eqn:E2.
  - apply Nat.leb_le in E2.
    rewrite length_app, length_take, length_replicate in El. lia.
  - apply Nat.leb_gt in E2. lia.
Qed.

(** X19: The loop over the table in printSearchTree returns exactly when no
    stored node has a negative timestep; with one it writes out of range. *)
Theorem searchTree_levels_returns (tbl : list SIPPNode) :
  ∀ levels0,
    (∃ levels, searchTree_levels tbl levels0 = Ok levels) ↔
    (∀ n, In n tbl → 0 ≤ timestep n).
Proof.
  induction tbl as [|n tbl IH]; intros levels0; simpl.
  - split; [intros _ n []|]. intros _. eauto.
  - split.
    + intros (levels & H). apply rbind_Ok in H as (levels1 & H1 & H).
      intros x [<-|Hx].
      * unfold add_to_level in H1.
        destruct (timestep n <? 0) eqn:E; [discriminate|lia].
      * apply (proj1 (IH levels1)); [eauto|exact Hx].
    + intros Hall.
      destruct (add_to_level_returns levels0 n) as (levels1 & H1);
        [apply Hall; left; reflexivity|].
      rewrite H1. simpl. apply IH. intros x Hx. apply Hall. right. exact Hx.
Qed.

(** ** InitLNS::getSolverName *)

Section SolverNameProperties.

Import Ascii String.
Local Open Scope string_scope.

Lemma string_append_assoc (a b c : string) : (a ++ b) ++ c = a ++ (b ++ c).
Proof. induction a as [|x a IH]; simpl; [reflexivity|]. rewrite IH. reflexivity. Qed.

Lemma string_length_append (a b : string) :
  String.length (a ++ b) = (String.length a + String.length b)%nat.
Proof. induction a as [|x a IH]; simpl; [reflexivity|]. rewrite IH. reflexivity. Qed.

Lemma string_append_inj_l (s : string) :
  ∀ r r', r ++ s = r' ++ s → r = r'.
Proof.
  induction r as [|x r IH]; intros [|y r'] H; simpl in H.
  - reflexivity.
  - apply (f_equal String.length) in H. simpl in H.
    rewrite string_length_append in H. lia.
  - apply (f_equal String.length) in H. simpl in H.
    rewrite string_length_append in H. lia.
  - injection H as -> H. f_equal. apply IH. exact H.
Qed.

Lemma string_split_at_first (c : ascii) :
  ∀ a a' x x',
    occurs c a = false → occurs c a' = false →
    a ++ String c x = a' ++ String c x' → a = a' ∧ x = x'.
Proof.
  induction a as [|y a IH]; intros [|y' a'] x x' Ha Ha' H; simpl in *.
  - injection H as ->. auto.
  - injection H as -> _. rewrite Ascii.eqb_refl in Ha'. discriminate.
  - injection H as -> _. rewrite Ascii.eqb_refl in Ha. discriminate.
  - injection H as -> H. apply orb_false_iff in Ha as [_ Ha].
    apply orb_false_iff in Ha' as [_ Ha'].
    destruct (IH a' x x' Ha Ha' H) as [-> ->]. auto.
Qed.

(** X20: The name that InitLNS::getSolverName builds starts with "InitLNS("
    and ends with ")"; the two algorithm names can be read back from it
    when the name of the initial algorithm holds no ";": two solvers with
    the same solver name then have the same two names.  Without that
    condition they need not. *)
Theorem getSolverName_reads_back :
  (∀ init1 replan1 init2 replan2,
     occurs ";" init1 = false → occurs ";" init2 = false →
     getSolverName init1 replan1 = getSolverName init2 replan2 →
     init1 = init2 ∧ replan1 = replan2) ∧
  (∀ init replan,
     getSolverName init replan =
       "InitLNS(" ++ init ++ ";" ++ replan ++ ")" ∧
     String.length (getSolverName init replan) =
       (String.length init + String.length replan + 10)%nat) ∧
  getSolverName "a;b" "c" = getSolverName "a" "b;c".
Proof.
  assert (Hflat : ∀ init replan,
            getSolverName init replan =
            "InitLNS(" ++ init ++ ";" ++ replan ++ ")").
  { intros init replan. unfold getSolverName.
    rewrite !string_append_assoc. reflexivity. }
  split; [|split; [|reflexivity]].
  - intros init1 replan1 init2 replan2 H1 H2 H.
    rewrite !Hflat in H. simpl in H. injection H as H.
    apply (string_split_at_first ";" _ _ _ _ H1 H2) in H as [-> H].
    split; [reflexivity|]. apply (string_append_inj_l ")"). exact H.
  - intros init replan. split; [apply Hflat|].
    rewrite Hflat, !string_length_append. simpl. lia.
Qed.

Lemma getSolverName_reads_back_witness :
  occurs ";" "PP" = false ∧
  getSolverName "PP" "GCBS" = "InitLNS(PP;GCBS)" ∧
  (getSolverName "PP" "GCBS" = getSolverName "PP" "GCBS" →
   "PP" = "PP" ∧ "GCBS" = "GCBS").
Proof.
  split; [reflexivity|]. split; [reflexivity|].
  exact (proj1 getSolverName_reads_back "PP" "GCBS" "PP" "GCBS" eq_refl
           eq_refl).
Defined.

End SolverNameProperties.

(** ** The search tree of mode B *)

Section ModeBTree.

Variable getNeighbors : Z → list Z.
Variable start_location goal_location : Z.
Variable my_heuristic : Z → Z.
Variable new_ReservationTable : ConstraintTable → Z → ReservationTable.
Variable HLNode Paths : Type.
Variable insert2CT : ConstraintTable → HLNode → Z → ConstraintTable.
Variable insert2CAT : ConstraintTable → Z → Paths → ConstraintTable.
Variable focal_top open_top : list SIPPNode → list nat → option nat.
Variable PathEntry_default : Z.

Local Abbreviation step_ok := (step_ok getNeighbors).
Local Abbreviation node_ok := (node_ok getNeighbors start_location goal_location).
Local Abbreviation tree_ok := (tree_ok getNeighbors start_location goal_location).
Local Abbreviation child := (child goal_location my_heuristic).
Local Abbreviation generateChild := (generateChild goal_location my_heuristic).
Local Abbreviation moveIntervals := (moveIntervals goal_location my_heuristic).
Local Abbreviation moveChildren := (moveChildren goal_location my_heuristic).
Local Abbreviation waitChild := (waitChild goal_location my_heuristic).
Local Abbreviation updateFocalList := (updateFocalList open_top).
Local Abbreviation popOpenFocal := (popOpenFocal focal_top).
Local Abbreviation updatePath := (updatePath PathEntry_default).
Local Abbreviation findSuboptimalPath_turn :=
  (findSuboptimalPath_turn getNeighbors goal_location my_heuristic focal_top
     open_top PathEntry_default).
Local Abbreviation findSuboptimalPath_loop :=
  (findSuboptimalPath_loop getNeighbors goal_location my_heuristic focal_top
     open_top PathEntry_default).
Local Abbreviation startOpen := (startOpen start_location my_heuristic).
Local Abbreviation findSuboptimalPath :=
  (findSuboptimalPath getNeighbors start_location goal_location my_heuristic
     new_ReservationTable HLNode Paths insert2CT insert2CAT focal_top
     open_top PathEntry_default).
Local Abbreviation treeB := (treeB getNeighbors start_location goal_location).

Lemma child_shape iv curr c nl :
  location (child iv curr c nl) = nl ∧
  timestep (child iv curr c nl) = Z.max (timestep c + 1) (get0 iv) ∧
  parent (child iv curr c nl) = Some curr ∧
  is_goal (child iv curr c nl) = false.
Proof.
  unfold child.
  destruct ((nl =? goal_location) && (location c =? goal_location));
    simpl; auto.
Qed.

Lemma treeB_insert nodes e old new :
  treeB nodes → nodes !! e = Some old → key new = key old →
  timestep new ≤ timestep old → node_ok nodes new →
  treeB (<[e := new]> nodes) ∧ stable nodes (<[e := new]> nodes).
Proof.
  intros [Htree Hng] He Hk Ht Hn. injection Hk as Hl _ Hg.
  split; [split|].
  - eapply tree_ok_insert; eauto.
  - intros i n Hi.
    apply list_lookup_insert_Some in Hi as [(_ & <- & _)|[_ Hi]]; [|eauto].
    rewrite Hg. eauto.
  - eapply stable_insert; eauto.
Qed.

(** generateChild keeps the search tree. *)
Lemma generateChild_tree iv curr nl rt s s' loc :
  treeB (allNodes_table s) → at_curr (allNodes_table s) curr loc →
  step_ok loc nl → generateChild iv curr nl rt s = Ok s' →
  treeB (allNodes_table s') ∧
  stable (allNodes_table s) (allNodes_table s').
Proof.
  intros HB (c0 & Hc0 & Hloc & Hg0) Hstep H.
  pose proof HB as [Htree Hng].
  apply generateChild_cases in H as (_ & _ & _ & _ & c & Hc & H).
  assert (c0 = c) by congruence. subst c0. cbv zeta in H.
  destruct (child_shape iv curr c nl) as (Fl & Ft & Fp & Fg).
  assert (Hnext : node_ok (allNodes_table s) (child iv curr c nl)).
  { destruct (Htree curr c Hc) as [Htc _].
    unfold node_ok. rewrite Fp, Fg, Ft, Fl. split; [lia|].
    exists c. rewrite Hloc. repeat split; auto. lia. }
  destruct H as [(-> & _)|[(Hf & -> & _)|
                   [(e & ex & Hf & Hd & _ & -> & _)|
                    (e & ex & Hf & Hd & _ & -> & _)]]].
  - split; [exact HB|apply stable_refl].
  - split; [split|apply stable_app].
    + apply tree_ok_app; [exact Htree|].
      eapply node_ok_flags; [| | | |exact Hnext]; reflexivity.
    + intros i n Hi. apply lookup_app_Some in Hi as [Hi|[_ Hi]]; [eauto|].
      destruct (i - length (allNodes_table s))%nat as [|y];
        [|destruct y; discriminate].
      injection Hi as <-. exact Fg.
  - apply find_node_key in Hf as [He Hk]. apply dominates_true in Hd.
    eapply treeB_insert; [exact HB|exact He|symmetry; exact Hk|simpl; lia|].
    eapply node_ok_flags; [| | | |exact Hnext]; reflexivity.
  - apply find_node_key in Hf as [He Hk]. apply dominates_true in Hd.
    eapply treeB_insert; [exact HB|exact He|symmetry; exact Hk|simpl; lia|].
    eapply node_ok_flags; [| | | |exact Hnext]; reflexivity.
Qed.

Lemma moveIntervals_tree rt curr nl loc :
  step_ok loc nl →
  ∀ ivs s s',
    treeB (allNodes_table s) → at_curr (allNodes_table s) curr loc →
    moveIntervals rt curr nl ivs s = Ok s' →
    treeB (allNodes_table s') ∧
    stable (allNodes_table s) (allNodes_table s').
Proof.
  intros Hstep. induction ivs as [|iv ivs IH]; intros s s' HB Hat H;
    simpl in H.
  - injection H as <-. split; [exact HB|apply stable_refl].
  - apply rbind_Ok in H as (s1 & H1 & H).
    destruct (generateChild_tree _ _ _ _ _ _ _ HB Hat Hstep H1) as [HB1 S1].
    destruct (IH s1 s' HB1 (at_curr_stable _ _ _ _ S1 Hat) H) as [HB2 S2].
    split; [exact HB2|eapply stable_trans; eauto].
Qed.

Lemma moveChildren_tree rt curr loc :
  ∀ nbrs s s',
    (∀ nl, In nl nbrs → step_ok loc nl) →
    treeB (allNodes_table s) → at_curr (allNodes_table s) curr loc →
    moveChildren rt curr nbrs s = Ok s' →
    treeB (allNodes_table s') ∧
    stable (allNodes_table s) (allNodes_table s').
Proof.
  induction nbrs as [|nl nbrs IH]; intros s s' Hn HB Hat H; simpl in H.
  - injection H as <-. split; [exact HB|apply stable_refl].
  - destruct (allNodes_table s !! curr) as [c|]; [|discriminate].
    apply rbind_Ok in H as (s1 & H1 & H).
    destruct (moveIntervals_tree rt curr nl loc (Hn nl (or_introl eq_refl))
                _ _ _ HB Hat H1) as [HB1 S1].
    destruct (IH s1 s' (fun x Hx => Hn x (or_intror Hx)) HB1
                (at_curr_stable _ _ _ _ S1 Hat) H) as [HB2 S2].
    split; [exact HB2|eapply stable_trans; eauto].
Qed.

Lemma waitChild_tree rt curr loc iv s s' iv' :
  treeB (allNodes_table s) → at_curr (allNodes_table s) curr loc →
  waitChild rt curr iv s = Ok (s', iv') →
  treeB (allNodes_table s').
Proof.
  intros HB Hat H. pose proof Hat as (c0 & Hc0 & Hl0 & _).
  unfold waitChild in H.
  destruct (allNodes_table s !! curr) as [c|]; [|discriminate].
  injection Hc0 as ->.
  destruct (find_safe_interval rt iv (location c0) (get1 (interval c0)))
    as [found iv1].
  destruct found.
  - apply rbind_Ok in H as (s1 & H1 & H). injection H as <- <-.
    rewrite Hl0 in H1.
    exact (proj1 (generateChild_tree _ _ _ _ _ _ loc HB Hat
                    (or_introl eq_refl) H1)).
  - injection H as <- <-. exact HB.
Qed.

(** A turn of the loop of findSuboptimalPath keeps the search tree; when
    it leaves the loop, the path is that of a stored node on the goal whose
    timestep is the holding time at least. *)
Lemma findSuboptimalPath_turn_tree rt holding_time iv s t :
  treeB (allNodes_table s) →
  findSuboptimalPath_turn rt holding_time [] iv s = Ok t →
  match t with
  | Break p s1 =>
    ∃ term tn, tree_ok (allNodes_table s1) ∧
      allNodes_table s1 !! term = Some tn ∧ is_goal tn = false ∧
      location tn = goal_location ∧ holding_time ≤ timestep tn ∧
      updatePath (allNodes_table s1) (Some term) [] = Ok p
  | Continue s' _ => treeB (allNodes_table s')
  end.
Proof.
  intros HB H. unfold findSuboptimalPath_turn in H.
  apply rbind_Ok in H as (s0 & Hupd & H).
  apply rbind_Ok in H as ([[curr c] s1] & Hpop & H).
  apply updateFocalList_state in Hupd as (Hn0 & _).
  apply popOpenFocal_state in Hpop as (c0 & Hc0 & -> & _ & _ & _ & ->).
  rewrite Hn0 in Hc0.
  destruct (treeB_insert (allNodes_table s) curr c0 (set_in_openlist false c0)
              HB Hc0 eq_refl ltac:(simpl; lia)) as [HB1 _].
  { eapply node_ok_flags; [| | | |exact (proj1 HB curr c0 Hc0)];
      reflexivity. }
  assert (Hcurr : <[curr := set_in_openlist false c0]> (allNodes_table s)
                    !! curr = Some (set_in_openlist false c0)).
  { apply list_lookup_insert_eq. eapply lookup_lt_Some; eauto. }
  assert (Hng : is_goal c0 = false) by exact (proj2 HB curr c0 Hc0).
  simpl in H.
  destruct ((location c0 =? goal_location) && negb (wait_at_goal c0) &&
            (holding_time <=? timestep c0)) eqn:Egoal.
  - apply rbind_Ok in H as (p & Hp & H). injection H as <-.
    apply andb_true_iff in Egoal as [Egoal Eh].
    apply andb_true_iff in Egoal as [El _].
    apply Z.eqb_eq in El. apply Z.leb_le in Eh.
    exists curr, (set_in_openlist false c0). simpl in Hp |- *.
    rewrite Hn0 in Hp |- *.
    split; [exact (proj1 HB1)|]. repeat split; auto.
  - apply rbind_Ok in H as (s2 & H2 & H).
    apply rbind_Ok in H as ([s3 iv3] & H3 & H). injection H as <-.
    simpl in H2. rewrite Hn0 in H2.
    assert (Hat : at_curr (<[curr := set_in_openlist false c0]>
                             (allNodes_table s)) curr (location c0)).
    { exists (set_in_openlist false c0). auto. }
    match type of H2 with
    | moveChildren _ _ _ ?st = _ =>
      destruct (moveChildren_tree rt curr (location c0)
                  (getNeighbors (location c0)) st s2
                  (fun nl Hnl => or_intror Hnl) HB1 Hat H2) as [HB2 S2]
    end.
    simpl. eapply waitChild_tree; [exact HB2| |exact H3].
    exact (at_curr_stable _ _ _ _ S2 Hat).
Qed.

Lemma findSuboptimalPath_loop_tree rt holding_time :
  ∀ fuel iv s p s',
    treeB (allNodes_table s) →
    findSuboptimalPath_loop fuel rt holding_time [] iv s = Ok (p, s') →
    p = [] ∨
    ∃ nodes term tn, tree_ok nodes ∧ nodes !! term = Some tn ∧
      is_goal tn = false ∧ location tn = goal_location ∧
      holding_time ≤ timestep tn ∧ updatePath nodes (Some term) [] = Ok p.
Proof.
  induction fuel as [|fuel IH]; intros iv s p s' HB H; simpl in H.
  - destruct (open_list s); [|discriminate]. injection H as <- _. auto.
  - destruct (open_list s); [injection H as <- _; auto|].
    apply rbind_Ok in H as (t & Ht & H).
    pose proof (findSuboptimalPath_turn_tree _ _ _ _ _ HB Ht) as K.
    destruct t as [p1 s1|s1 iv1].
    + injection H as <- <-. destruct K as (term & tn & K). right. eauto.
    + exact (IH iv1 s1 p s' K H).
Qed.

(** X21: the path of mode B.  A non-empty path that findSuboptimalPath
    returns from an idle planner starts on the start cell, ends on the goal
    cell, goes from each entry to the next by a wait or along an edge of
    the graph, and its cost, the number of its steps, is the holding time
    of the goal at least. *)
Theorem findSuboptimalPath_path_is_valid fuel node initial_constraints paths
    agent lowerbound wf this p m s' :
  idle this →
  findSuboptimalPath fuel node initial_constraints paths agent lowerbound wf
    this = Ok (p, m, s') →
  p ≠ [] →
  let ct0 := insert2CT initial_constraints node agent in
  getHoldingTime ct0 goal_location (length_min ct0) ≤ cost p ∧
  p !! 0%nat = Some start_location ∧
  p !! (length p - 1)%nat = Some goal_location ∧
  ∀ (k : nat) a b, p !! k = Some a → p !! S k = Some b → step_ok a b.
Proof.
  intros (_ & _ & Hn) H Hp. unfold findSuboptimalPath in H. cbv zeta.
  destruct (0 <? get0 _); [injection H as <- _ _; congruence|].
  apply rbind_Ok in H as ([p1 s1] & Hloop & H). injection H as <- _ _.
  apply findSuboptimalPath_loop_tree in Hloop.
  - destruct Hloop as [->|(nodes & term & tn & Htree & Htn & Hg & Hl & Hh &
                           Hupd)]; [congruence|].
    destruct (updatePath_tree getNeighbors start_location goal_location
                PathEntry_default nodes term tn p1 Htree Htn Hg Hupd)
      as (Hlen & H0 & Hlast & _ & Hadj).
    unfold cost. rewrite Hl in Hlast. repeat split; auto. lia.
  - unfold startOpen. simpl. rewrite Hn. simpl. split.
    + intros i n Hi. destruct i as [|i]; [|destruct i; discriminate].
      injection Hi as <-. split; simpl; [lia|auto].
    + intros i n Hi. destruct i as [|i]; [|destruct i; discriminate].
      injection Hi as <-. reflexivity.
Qed.

End ModeBTree.

(** ** Mode B under a consistent heuristic *)

Section ModeBConsistent.

Variable getNeighbors : Z → list Z.
Variable start_location goal_location : Z.
Variable my_heuristic : Z → Z.
Variable focal_top open_top : list SIPPNode → list nat → option nat.
Variable PathEntry_default : Z.
Variable rt : ReservationTable.
Variable f0 : Z.
Hypothesis consistent :
  ∀ u v, In v (getNeighbors u) → my_heuristic u ≤ my_heuristic v + 1.

Local Abbreviation step_ok := (step_ok getNeighbors).
Local Abbreviation child := (child goal_location my_heuristic).
Local Abbreviation generateChild := (generateChild goal_location my_heuristic).
Local Abbreviation moveIntervals := (moveIntervals goal_location my_heuristic).
Local Abbreviation moveChildren := (moveChildren goal_location my_heuristic).
Local Abbreviation waitChild := (waitChild goal_location my_heuristic).
Local Abbreviation findSuboptimalPath_turn :=
  (findSuboptimalPath_turn getNeighbors goal_location my_heuristic focal_top
     open_top PathEntry_default).
Local Abbreviation findSuboptimalPath_turns :=
  (findSuboptimalPath_turns getNeighbors goal_location my_heuristic focal_top
     open_top PathEntry_default).
Local Abbreviation pathmax_ok := (pathmax_ok my_heuristic f0).
Local Abbreviation pathmax_store := (pathmax_store my_heuristic f0).

Lemma child_pathmax iv curr c nl :
  pathmax_ok c → step_ok (location c) nl →
  ∀ b, pathmax_ok (set_in_openlist b (child iv curr c nl)) ∧
       location (child iv curr c nl) = nl ∧
       timestep (child iv curr c nl) = Z.max (timestep c + 1) (get0 iv).
Proof.
  intros (Hg & Hc & Hf) Hstep b.
  assert (Hh : my_heuristic (location c) ≤ my_heuristic nl + 1).
  { destruct Hstep as [->|Hin]; [lia|apply consistent; exact Hin]. }
  unfold child.
  destruct ((nl =? goal_location) && (location c =? goal_location));
    unfold pathmax_ok, getFVal in *; simpl;
    repeat split; lia.
Qed.

Lemma pathmax_store_insert nodes e new :
  pathmax_store nodes → pathmax_ok new → pathmax_store (<[e := new]> nodes).
Proof.
  intros Hn Hnew i n Hi.
  apply list_lookup_insert_Some in Hi as [(_ & <- & _)|[_ Hi]]; eauto.
Qed.

Lemma pathmax_store_app nodes n :
  pathmax_store nodes → pathmax_ok n → pathmax_store (nodes ++ [n]).
Proof.
  intros Hn Hnew i x Hi.
  apply lookup_app_Some in Hi as [Hi|[_ Hi]]; [eauto|].
  destruct (i - length nodes)%nat as [|k]; [|destruct k; discriminate].
  injection Hi as <-. exact Hnew.
Qed.

Lemma generateChild_pathmax iv curr nl s s' loc :
  pathmax_store (allNodes_table s) → at_curr (allNodes_table s) curr loc →
  step_ok loc nl → generateChild iv curr nl rt s = Ok s' →
  pathmax_store (allNodes_table s') ∧
  stable (allNodes_table s) (allNodes_table s').
Proof.
  intros Hn (c0 & Hc0 & Hloc & Hg0) Hstep H.
  apply generateChild_cases in H as (_ & _ & _ & _ & c & Hc & H).
  assert (c0 = c) by congruence. subst c0. cbv zeta in H.
  rewrite <- Hloc in Hstep.
  pose proof (child_pathmax iv curr c nl (Hn curr c Hc) Hstep) as Hchild.
  destruct H as [(-> & _)|[(Hf & -> & _)|
                   [(e & ex & Hf & Hd & _ & -> & _)|
                    (e & ex & Hf & Hd & _ & -> & _)]]].
  - split; [exact Hn|apply stable_refl].
  - split; [|apply stable_app].
    apply pathmax_store_app; [exact Hn|]. exact (proj1 (Hchild true)).
  - apply find_node_key in Hf as [He Hk]. injection Hk as Hk1 _ Hk3.
    apply dominates_true in Hd. split.
    + apply pathmax_store_insert; [exact Hn|].
      exact (proj1 (Hchild true)).
    + eapply stable_insert; [exact He| | |]; simpl; try congruence; lia.
  - apply find_node_key in Hf as [He Hk]. injection Hk as Hk1 _ Hk3.
    apply dominates_true in Hd. split.
    + apply pathmax_store_insert; [exact Hn|].
      exact (proj1 (Hchild (in_openlist ex))).
    + eapply stable_insert; [exact He| | |]; simpl; try congruence; lia.
Qed.

Lemma moveIntervals_pathmax curr nl loc :
  step_ok loc nl →
  ∀ ivs s s',
    pathmax_store (allNodes_table s) → at_curr (allNodes_table s) curr loc →
    moveIntervals rt curr nl ivs s = Ok s' →
    pathmax_store (allNodes_table s') ∧
    stable (allNodes_table s) (allNodes_table s').
Proof.
  intros Hstep. induction ivs as [|iv ivs IH]; intros s s' Hn Hat H;
    simpl in H.
  - injection H as <-. split; [exact Hn|apply stable_refl].
  - apply rbind_Ok in H as (s1 & H1 & H).
    destruct (generateChild_pathmax _ _ _ _ _ _ Hn Hat Hstep H1) as [Hn1 S1].
    destruct (IH s1 s' Hn1 (at_curr_stable _ _ _ _ S1 Hat) H) as [Hn2 S2].
    split; [exact Hn2|eapply stable_trans; eauto].
Qed.

Lemma moveChildren_pathmax curr loc :
  ∀ nbrs s s',
    (∀ nl, In nl nbrs → step_ok loc nl) →
    pathmax_store (allNodes_table s) → at_curr (allNodes_table s) curr loc →
    moveChildren rt curr nbrs s = Ok s' →
    pathmax_store (allNodes_table s') ∧
    stable (allNodes_table s) (allNodes_table s').
Proof.
  induction nbrs as [|nl nbrs IH]; intros s s' Hnb Hn Hat H; simpl in H.
  - injection H as <-. split; [exact Hn|apply stable_refl].
  - destruct (allNodes_table s !! curr) as [c|]; [|discriminate].
    apply rbind_Ok in H as (s1 & H1 & H).
    destruct (moveIntervals_pathmax curr nl loc (Hnb nl (or_introl eq_refl))
                _ _ _ Hn Hat H1) as [Hn1 S1].
    destruct (IH s1 s' (fun x Hx => Hnb x (or_intror Hx)) Hn1
                (at_curr_stable _ _ _ _ S1 Hat) H) as [Hn2 S2].
    split; [exact Hn2|eapply stable_trans; eauto].
Qed.

Lemma waitChild_pathmax curr loc iv s s' iv' :
  pathmax_store (allNodes_table s) → at_curr (allNodes_table s) curr loc →
  waitChild rt curr iv s = Ok (s', iv') →
  pathmax_store (allNodes_table s') ∧
  stable (allNodes_table s) (allNodes_table s').
Proof.
  intros Hn Hat H. pose proof Hat as (c0 & Hc0 & Hl0 & _).
  unfold waitChild in H.
  destruct (allNodes_table s !! curr) as [c|]; [|discriminate].
  injection Hc0 as ->.
  destruct (find_safe_interval rt iv (location c0) (get1 (interval c0)))
    as [found iv1].
  destruct found.
  - apply rbind_Ok in H as (s1 & H1 & H). injection H as <- <-.
    rewrite Hl0 in H1.
    exact (generateChild_pathmax _ _ _ _ _ loc Hn Hat (or_introl eq_refl) H1).
  - injection H as <- <-. split; [exact Hn|apply stable_refl].
Qed.

(** A turn that goes on keeps the invariant, the cell of every stored node,
    and lowers timesteps only. *)
Lemma findSuboptimalPath_turn_pathmax holding_time iv s s' iv' :
  pathmax_store (allNodes_table s) →
  findSuboptimalPath_turn rt holding_time [] iv s = Ok (Continue s' iv') →
  pathmax_store (allNodes_table s') ∧
  stable (allNodes_table s) (allNodes_table s').
Proof.
  intros Hn H. unfold findSuboptimalPath_turn in H.
  apply rbind_Ok in H as (s0 & Hupd & H).
  apply rbind_Ok in H as ([[curr c] s1] & Hpop & H).
  apply updateFocalList_state in Hupd as (Hn0 & _).
  apply popOpenFocal_state in Hpop as (c0 & Hc0 & -> & _ & _ & _ & ->).
  rewrite Hn0 in Hc0. simpl in H.
  destruct ((location c0 =? goal_location) && negb (wait_at_goal c0) &&
            (holding_time <=? timestep c0)).
  { apply rbind_Ok in H as (p & _ & H). discriminate. }
  apply rbind_Ok in H as (s2 & H2 & H).
  apply rbind_Ok in H as ([s3 iv3] & H3 & H). injection H as <- <-.
  simpl in H2. rewrite Hn0 in H2.
  destruct (Hn curr c0 Hc0) as (Hg0 & Hgt & Hf).
  assert (Hn1 : pathmax_store
                  (<[curr := set_in_openlist false c0]> (allNodes_table s))).
  { apply pathmax_store_insert; [exact Hn|]. repeat split; assumption. }
  assert (S1 : stable (allNodes_table s)
                 (<[curr := set_in_openlist false c0]> (allNodes_table s))).
  { eapply stable_insert; [exact Hc0| | |]; simpl; auto; lia. }
  assert (Hat : at_curr (<[curr := set_in_openlist false c0]>
                           (allNodes_table s)) curr (location c0)).
  { exists (set_in_openlist false c0).
    rewrite list_lookup_insert_eq by (eapply lookup_lt_Some; eauto). auto. }
  match type of H2 with
  | moveChildren _ _ _ ?st = _ =>
    destruct (moveChildren_pathmax curr (location c0)
                (getNeighbors (location c0)) st s2
                (fun nl Hnl => or_intror Hnl) Hn1 Hat H2) as [Hn2 S2]
  end.
  destruct (waitChild_pathmax curr (location c0) iv s2 s3 iv3 Hn2
              (at_curr_stable _ _ _ _ S2 Hat) H3) as [Hn3 S3].
  simpl. split; [exact Hn3|].
  eapply stable_trans; [exact S1|]. eapply stable_trans; eauto.
Qed.

Lemma findSuboptimalPath_turns_pathmax holding_time :
  ∀ n iv0 s0 s iv,
    pathmax_store (allNodes_table s0) →
    findSuboptimalPath_turns n rt holding_time iv0 s0 = Ok (s, iv) →
    pathmax_store (allNodes_table s).
Proof.
  induction n as [|n IH]; intros iv0 s0 s iv Hn H; simpl in H.
  - injection H as <- _. exact Hn.
  - apply rbind_Ok in H as (t & Ht & H).
    destruct t as [|s1 iv1]; [discriminate|].
    apply (IH iv1 s1 s iv); [|exact H].
    exact (proj1 (findSuboptimalPath_turn_pathmax _ _ _ _ _ Hn Ht)).
Qed.

End ModeBConsistent.

Section Consistent.

Variable getNeighbors : Z → list Z.
Variable start_location goal_location : Z.
Variable my_heuristic : Z → Z.
Variable focal_top open_top : list SIPPNode → list nat → option nat.
Variable PathEntry_default : Z.

Local Abbreviation findSuboptimalPath_turn :=
  (findSuboptimalPath_turn getNeighbors goal_location my_heuristic focal_top
     open_top PathEntry_default).
Local Abbreviation findSuboptimalPath_turns :=
  (findSuboptimalPath_turns getNeighbors goal_location my_heuristic focal_top
     open_top PathEntry_default).
Local Abbreviation startOpen := (startOpen start_location my_heuristic).

(** X25: mode B under a consistent heuristic (one that drops by at most 1
    along an edge).  In every state that the loop of findSuboptimalPath
    reaches from an idle planner, the f of a stored node is the larger of
    its timestep with the heuristic of its cell and the f of the start
    node; a turn of the loop that goes on leaves every stored node with the
    f it had or a smaller one.  So generateChild, which tells OPEN of an f
    that falls and not of one that rises (lines 301-307), leaves OPEN
    untold of no change. *)
Theorem generateChild_never_raises_f rt holding_time lowerbound n iv0 this
    s iv :
  (∀ u v, In v (getNeighbors u) → my_heuristic u ≤ my_heuristic v + 1) →
  idle this →
  findSuboptimalPath_turns n rt holding_time iv0
    (startOpen holding_time lowerbound iv0
       (set_num_generated 0 (set_num_expanded 0 this))) = Ok (s, iv) →
  (∀ i node, allNodes_table s !! i = Some node →
     getFVal node =
       Z.max (timestep node + my_heuristic (location node))
         (Z.max (my_heuristic start_location) holding_time)) ∧
  ∀ s' iv',
    findSuboptimalPath_turn rt holding_time [] iv s = Ok (Continue s' iv') →
    ∀ i node, allNodes_table s !! i = Some node →
      ∃ node', allNodes_table s' !! i = Some node' ∧
        getFVal node' ≤ getFVal node.
Proof.
  intros Hcons (_ & _ & Hn) H.
  set (f0 := Z.max (my_heuristic start_location) holding_time).
  assert (Hs : pathmax_store my_heuristic f0 (allNodes_table s)).
  { eapply findSuboptimalPath_turns_pathmax; [exact Hcons| |exact H].
    unfold startOpen. simpl. rewrite Hn. simpl.
    intros i x Hi. destruct i as [|i]; [|destruct i; discriminate].
    injection Hi as <-. unfold pathmax_ok, getFVal. simpl.
    repeat split. unfold f0. lia. }
  split.
  - intros i node Hi. exact (proj2 (proj2 (Hs i node Hi))).
  - intros s' iv' Hturn i node Hi.
    destruct (findSuboptimalPath_turn_pathmax getNeighbors goal_location
                my_heuristic focal_top open_top PathEntry_default rt f0
                Hcons holding_time iv s s' iv' Hs Hturn) as [Hs' Hst].
    destruct (Hst i node Hi) as (node' & Hi' & Hl & _ & Ht).
    exists node'. split; [exact Hi'|].
    destruct (Hs i node Hi) as (_ & _ & Hf).
    destruct (Hs' i node' Hi') as (_ & _ & Hf').
    rewrite Hf, Hf', Hl. lia.
Qed.

End Consistent.

(** ** Mode B and the greatest length *)

Section ModeBLength.

Variable getNeighbors : Z → list Z.
Variable start_location goal_location : Z.
Variable my_heuristic : Z → Z.
Variable new_ReservationTable : ConstraintTable → Z → ReservationTable.
Variable HLNode Paths : Type.
Variable insert2CT : ConstraintTable → HLNode → Z → ConstraintTable.
Variable insert2CAT : ConstraintTable → Z → Paths → ConstraintTable.
Variable focal_top open_top : list SIPPNode → list nat → option nat.
Variable PathEntry_default : Z.

Local Abbreviation child := (child goal_location my_heuristic).
Local Abbreviation generateChild := (generateChild goal_location my_heuristic).
Local Abbreviation updateFocalList := (updateFocalList open_top).
Local Abbreviation popOpenFocal := (popOpenFocal focal_top).
Local Abbreviation updatePath := (updatePath PathEntry_default).
Local Abbreviation findSuboptimalPath_turn :=
  (findSuboptimalPath_turn getNeighbors goal_location my_heuristic focal_top
     open_top PathEntry_default).
Local Abbreviation findSuboptimalPath_loop :=
  (findSuboptimalPath_loop getNeighbors goal_location my_heuristic focal_top
     open_top PathEntry_default).
Local Abbreviation startOpen := (startOpen start_location my_heuristic).
Local Abbreviation findSuboptimalPath :=
  (findSuboptimalPath getNeighbors start_location goal_location my_heuristic
     new_ReservationTable HLNode Paths insert2CT insert2CAT focal_top
     open_top PathEntry_default).

Hypothesis h_nonneg : ∀ u, 0 ≤ my_heuristic u.

(** A turn that leaves the loop returns the path of the node it popped. *)
Lemma findSuboptimalPath_turn_break rt holding_time path iv s p s1 :
  findSuboptimalPath_turn rt holding_time path iv s = Ok (Break p s1) →
  ∃ curr c, allNodes_table s1 !! curr = Some c ∧
            updatePath (allNodes_table s1) (Some curr) path = Ok p.
Proof.
  intros H. unfold findSuboptimalPath_turn in H.
  apply rbind_Ok in H as (s0 & Hupd & H).
  apply rbind_Ok in H as ([[curr c] s2] & Hpop & H).
  apply popOpenFocal_state in Hpop as (c0 & Hc0 & -> & _ & _ & _ & ->).
  destruct ((location (set_in_openlist false c0) =? goal_location) && _ && _).
  - apply rbind_Ok in H as (p1 & Hp & H). injection H as <- <-.
    exists curr, (set_in_openlist false c0). split; [|exact Hp].
    simpl. apply list_lookup_insert_eq. eapply lookup_lt_Some; eauto.
  - apply rbind_Ok in H as (s3 & _ & H).
    apply rbind_Ok in H as (r & _ & H). discriminate.
Qed.

Lemma findSuboptimalPath_loop_break rt holding_time path :
  ∀ fuel iv s p s',
    findSuboptimalPath_loop fuel rt holding_time path iv s = Ok (p, s') →
    p = path ∨
    ∃ curr c, allNodes_table s' !! curr = Some c ∧
              updatePath (allNodes_table s') (Some curr) path = Ok p.
Proof.
  induction fuel as [|fuel IH]; intros iv s p s' H; simpl in H.
  - destruct (open_list s); [|discriminate]. injection H as <- _. auto.
  - destruct (open_list s); [injection H as <- _; auto|].
    apply rbind_Ok in H as (t & Ht & H). destruct t as [p1 s1|s1 iv1].
    + injection H as <- <-. right.
      exact (findSuboptimalPath_turn_break _ _ _ _ _ _ _ Ht).
    + exact (IH iv1 s1 p s' H).
Qed.

(** generateChild keeps the bound on the greatest length. *)
Lemma generateChild_within iv curr nl rt s s' (bound : Z) :
  length_max (constraint_table rt) ≤ bound →
  (∀ i n, allNodes_table s !! i = Some n → within_length bound n) →
  generateChild iv curr nl rt s = Ok s' →
  ∀ i n, allNodes_table s' !! i = Some n → within_length bound n.
Proof.
  intros Hb HP H.
  assert (Hchild : allNodes_table s' = allNodes_table s ∨
            ∃ c, allNodes_table s !! curr = Some c ∧
                 getFVal (child iv curr c nl) ≤ bound).
  { unfold generateChild in H.
    destruct (allNodes_table s !! curr) as [c|]; [|discriminate].
    destruct (length_max (constraint_table rt) <? _) eqn:E.
    - injection H as <-. left. reflexivity.
    - apply Z.ltb_ge in E. right. exists c. split; [reflexivity|].
      unfold child, getFVal in *.
      destruct ((nl =? goal_location) && (location c =? goal_location));
        simpl; lia. }
  destruct Hchild as [->|(c & Hc & Hf)]; [exact HP|].
  assert (Hnext : ∀ n,
            g_val n = g_val (child iv curr c nl) →
            h_val n = h_val (child iv curr c nl) →
            timestep n = timestep (child iv curr c nl) →
            within_length bound n).
  { intros n Eg Eh Et. unfold within_length, getFVal in *.
    rewrite Eg, Eh, Et. clear Eg Eh Et.
    pose proof (h_nonneg nl). unfold child in *.
    destruct ((nl =? goal_location) && (location c =? goal_location));
      simpl in *; (split; [reflexivity|]); (split; [lia|]); right; lia. }
  apply generateChild_cases in H as (_ & _ & _ & _ & c' & Hc' & H).
  assert (c' = c) by congruence. subst c'. cbv zeta in H.
  destruct H as [(-> & _)|[(_ & -> & _)|
                   [(e & ex & _ & _ & _ & -> & _)|
                    (e & ex & _ & _ & _ & -> & _)]]]; intros i n Hi.
  - eauto.
  - apply lookup_app_Some in Hi as [Hi|[_ Hi]]; [eauto|].
    destruct (i - length (allNodes_table s))%nat as [|y];
      [|destruct y; discriminate].
    injection Hi as <-. apply Hnext; reflexivity.
  - apply list_lookup_insert_Some in Hi as [(_ & <- & _)|[_ Hi]]; [|eauto].
    apply Hnext; reflexivity.
  - apply list_lookup_insert_Some in Hi as [(_ & <- & _)|[_ Hi]]; [|eauto].
    apply Hnext; reflexivity.
Qed.

(** X22: mode B respects the greatest length.  With a heuristic that is
    never negative, the cost of the path that findSuboptimalPath returns
    from an idle planner is at most the [length_max] of the constraint table
    of its reservation table (or 0, for an agent that starts on its goal):
    generateChild prunes wait and move children alike. *)
Theorem findSuboptimalPath_within_length_max fuel node initial_constraints
    paths agent lowerbound wf this p m s' :
  idle this →
  findSuboptimalPath fuel node initial_constraints paths agent lowerbound wf
    this = Ok (p, m, s') →
  let ct := insert2CAT (insert2CT initial_constraints node agent) agent
              paths in
  cost p ≤
  Z.max 0 (length_max
             (constraint_table (new_ReservationTable ct goal_location))).
Proof.
  intros (_ & _ & Hn) H. unfold findSuboptimalPath in H. cbv zeta.
  destruct (0 <? get0 _); [injection H as <- _ _; unfold cost; simpl; lia|].
  apply rbind_Ok in H as ([p1 s1] & Hloop & H). injection H as <- _ _.
  set (rt := new_ReservationTable _ goal_location) in *.
  set (P := fun x : SIPP =>
         ∀ i n, allNodes_table x !! i = Some n →
           within_length (length_max (constraint_table rt)) n).
  assert (P_child : ∀ iv curr nl x x',
            P x → generateChild iv curr nl rt x = Ok x' → P x').
  { intros iv curr nl x x' HP Hx.
    exact (generateChild_within _ _ _ _ _ _ _ (Z.le_refl _) HP Hx). }
  assert (P_update : ∀ x x', P x → updateFocalList x = Ok x' → P x').
  { intros x x' HP Hx. apply updateFocalList_state in Hx as (Hn0 & _).
    unfold P. rewrite Hn0. exact HP. }
  assert (P_pop : ∀ x curr c x1,
            P x → popOpenFocal x = Ok (curr, c, x1) → P x1).
  { intros x curr c x1 HP Hx.
    apply popOpenFocal_state in Hx as (c0 & Hc0 & -> & _ & _ & _ & ->).
    intros i n Hi. simpl in Hi.
    apply list_lookup_insert_Some in Hi as [(_ & <- & _)|[_ Hi]];
      [|exact (HP i n Hi)].
    exact (HP curr c0 Hc0). }
  assert (P0 : P (startOpen
                    (getHoldingTime (insert2CT initial_constraints node agent)
                       goal_location
                       (length_min (insert2CT initial_constraints node agent)))
                    lowerbound (get_first_safe_interval rt start_location)
                    (set_num_generated 0
                       (set_num_expanded 0 (set_w wf this))))).
  { unfold P, startOpen. simpl. rewrite Hn. simpl.
    intros i n Hi. destruct i as [|i]; [|destruct i; discriminate].
    injection Hi as <-. unfold within_length. simpl.
    pose proof (h_nonneg start_location). split; [reflexivity|].
    split; [lia|left; reflexivity]. }
  pose proof (findSuboptimalPath_loop_keeps getNeighbors goal_location
                my_heuristic focal_top open_top PathEntry_default P rt
                P_child P_update P_pop _ _ _ _ _ _ _ P0 Hloop) as Hkeep.
  apply findSuboptimalPath_loop_break in Hloop
    as [->|(curr & c & Hc & Hupd)]; [unfold cost; simpl; lia|].
  destruct (updatePath_length _ _ _ _ _ Hupd) as (g & Hg & Ht & Hlen).
  assert (g = c) by congruence. subst g.
  destruct (Hkeep curr c Hc) as (Eg & Eh & Ef).
  unfold cost, getFVal in *. lia.
Qed.

End ModeBLength.

(** ** FOCAL holds every node of OPEN within the bound *)

Lemma In_heap_erase_other (i j : nat) (heap : list nat) :
  In i heap → i ≠ j → In i (heap_erase j heap).
Proof.
  induction heap as [|x heap IH]; simpl; [tauto|].
  intros [->|Hi] Hne.
  - destruct (Nat.eqb j i) eqn:E; [apply Nat.eqb_eq in E; congruence|].
    left. reflexivity.
  - destruct (Nat.eqb j x); [exact Hi|]. right. apply IH; assumption.
Qed.

Lemma within_in_focal_bound wf f m :
  within wf f m → in_focal_bound wf f m = true.
Proof. unfold within, in_focal_bound. apply Qle_bool_iff. Qed.

Section ModeBFocal.

Variable getNeighbors : Z → list Z.
Variable start_location goal_location : Z.
Variable my_heuristic : Z → Z.
Variable focal_top open_top : list SIPPNode → list nat → option nat.
Variable PathEntry_default : Z.

Local Abbreviation child := (child goal_location my_heuristic).
Local Abbreviation generateChild := (generateChild goal_location my_heuristic).
Local Abbreviation updateFocalList := (updateFocalList open_top).
Local Abbreviation popOpenFocal := (popOpenFocal focal_top).
Local Abbreviation findSuboptimalPath_turns :=
  (findSuboptimalPath_turns getNeighbors goal_location my_heuristic focal_top
     open_top PathEntry_default).
Local Abbreviation startOpen := (startOpen start_location my_heuristic).

Lemma pushNode_focal_complete i s s' :
  (∀ j n, j ≠ i → In j (open_list s) → allNodes_table s !! j = Some n →
     in_focal_bound (w s) (getFVal n) (min_f_val s) = true →
     In j (focal_list s)) →
  pushNode i s = Ok s' → focal_complete s'.
Proof.
  intros HF H. unfold pushNode in H.
  destruct (allNodes_table s !! i) as [node|] eqn:Ei; [|discriminate].
  assert (Hlt : (i < length (allNodes_table s))%nat)
    by (eapply lookup_lt_Some; eauto).
  assert (Hold : ∀ j n, j ≠ i →
            In j (heap_push i (open_list s)) →
            <[i := set_in_openlist true node]> (allNodes_table s) !! j =
              Some n →
            in_focal_bound (w s) (getFVal n) (min_f_val s) = true →
            In j (focal_list s)).
  { intros j n Hne Hin Hj Hb. unfold heap_push in Hin.
    apply in_app_iff in Hin as [Hin|[->|[]]]; [|congruence].
    rewrite list_lookup_insert_ne in Hj by congruence. eauto. }
  destruct (in_focal_bound (w s) (getFVal node) (min_f_val s)) eqn:Eb;
    injection H as <-; intros j n Hin Hj Hb; simpl in *.
  - unfold heap_push. apply in_app_iff.
    destruct (decide (j = i)) as [->|Hne]; [right; left; reflexivity|].
    left. eauto.
  - destruct (decide (j = i)) as [->|Hne]; [|eauto].
    rewrite list_lookup_insert_eq in Hj by exact Hlt. injection Hj as <-.
    unfold getFVal in *. simpl in Hb. congruence.
Qed.

Lemma generateChild_focal_complete iv curr nl rt s s' :
  focal_complete s → generateChild iv curr nl rt s = Ok s' →
  focal_complete s'.
Proof.
  intros HF H. unfold generateChild in H.
  destruct (allNodes_table s !! curr) as [c|]; [|discriminate].
  destruct (length_max (constraint_table rt) <? _);
    [injection H as <-; exact HF|].
  set (next := child iv curr c nl) in *.
  assert (Hf : Z.max (timestep c + 1) (get0 iv) +
               Z.max (my_heuristic nl)
                 (getFVal c - Z.max (timestep c + 1) (get0 iv)) =
               getFVal next).
  { unfold next, child, getFVal.
    destruct ((nl =? goal_location) && (location c =? goal_location));
      reflexivity. }
  destruct (find_node next (allNodes_table s)) as [[e ex]|] eqn:Ef.
  - apply find_node_key in Ef as [He _].
    assert (Hlt : (e < length (allNodes_table s))%nat)
      by (eapply lookup_lt_Some; eauto).
    destruct (dominates next ex); [|injection H as <-; exact HF].
    destruct (negb (in_openlist ex)).
    + eapply pushNode_focal_complete; [|exact H].
      intros j n Hne Hin Hj Hb. simpl in *.
      rewrite list_lookup_insert_ne in Hj by congruence. eauto.
    + rewrite Hf in H.
      assert (Hfocal : ∃ focal',
                (∀ j, In j (focal_list s) → In j focal') ∧
                (in_focal_bound (w s) (getFVal next) (min_f_val s) = true →
                 in_focal_bound (w s) (getFVal ex) (min_f_val s) = false →
                 In e focal') ∧
                allNodes_table s' = <[e := copy ex next]> (allNodes_table s) ∧
                open_list s' = open_list s ∧ focal_list s' = focal' ∧
                w s' = w s ∧ min_f_val s' = min_f_val s).
      { destruct (in_focal_bound (w s) (getFVal next) (min_f_val s));
          destruct (in_focal_bound (w s) (getFVal ex) (min_f_val s));
          destruct (getFVal next <? getFVal ex);
          simpl in H; injection H as <-; simpl; eexists;
          (split; [|split; [|repeat split]]);
          try (intros j Hj; first [exact Hj|unfold heap_push; apply in_app_iff;
                                   left; exact Hj]);
          try discriminate;
          intros _ _; unfold heap_push; apply in_app_iff; right; left;
          reflexivity. }
      destruct Hfocal as (focal' & Hsub & Hadd & Hn & Ho & Hfo & Hw & Hm).
      intros j n Hin Hj Hb. rewrite Hn in Hj. rewrite Ho in Hin.
      rewrite Hw, Hm in Hb. rewrite Hfo.
      destruct (decide (j = e)) as [->|Hne].
      * rewrite list_lookup_insert_eq in Hj by exact Hlt.
        injection Hj as <-.
        assert (Hb' : in_focal_bound (w s) (getFVal next) (min_f_val s) = true)
          by exact Hb.
        destruct (in_focal_bound (w s) (getFVal ex) (min_f_val s)) eqn:Eq.
        -- apply Hsub. exact (HF e ex Hin He Eq).
        -- exact (Hadd Hb' eq_refl).
      * rewrite list_lookup_insert_ne in Hj by congruence.
        apply Hsub. eauto.
  - eapply pushNode_focal_complete; [|exact H].
    intros j n Hne Hin Hj Hb. simpl in *.
    apply lookup_app_Some in Hj as [Hj|[Hge Hj]]; [eauto|].
    destruct (j - length (allNodes_table s))%nat as [|y] eqn:E;
      [lia|destruct y; discriminate].
Qed.

Lemma updateFocalList_focal_complete s s' :
  focal_complete s → updateFocalList s = Ok s' → focal_complete s'.
Proof.
  intros HF H. unfold updateFocalList in H.
  destruct (open_top (allNodes_table s) (open_list s)) as [hd|];
    [|discriminate].
  destruct (allNodes_table s !! hd) as [open_head|]; [|discriminate].
  destruct (min_f_val s <? getFVal open_head); injection H as <-;
    [|exact HF].
  intros j n Hin Hj Hb. simpl in *. apply in_app_iff.
  destruct (in_focal_bound (w s) (getFVal n) (min_f_val s)) eqn:Eold.
  - left. eauto.
  - right. apply filter_In. split; [exact Hin|]. rewrite Hj, Eold, Hb.
    reflexivity.
Qed.

Lemma popOpenFocal_focal_complete s curr c s1 :
  NoDup (open_list s) → focal_complete s →
  popOpenFocal s = Ok (curr, c, s1) → focal_complete s1.
Proof.
  intros Hnd HF H.
  apply popOpenFocal_state in H as (c0 & Hc0 & -> & _ & _ & _ & ->).
  intros j n Hin Hj Hb. simpl in *.
  apply (heap_erase_NoDup curr (open_list s) Hnd) in Hin as [Hne Hin].
  rewrite list_lookup_insert_ne in Hj by congruence.
  apply In_heap_erase_other; [|exact Hne]. eauto.
Qed.

Lemma within_self wf m : (1 <= wf)%Q → 0 ≤ m → within wf m m.
Proof.
  intros Hw Hm. unfold within.
  rewrite <- (Qmult_1_l (inject_Z m)) at 1.
  apply Qmult_le_compat_r; [exact Hw|].
  change 0%Q with (inject_Z 0). rewrite <- Zle_Qle. exact Hm.
Qed.

(** X24: FOCAL is not empty when it is popped.  With w at least 1, a
    heuristic that is never negative and a heap whose top is one of its
    handles, in every state that the loop of findSuboptimalPath reaches from
    an idle planner with OPEN not empty, updateFocalList returns and leaves
    the top of OPEN in FOCAL: FOCAL holds every node of OPEN whose f is
    within [w * min_f_val]. *)
Theorem updateFocalList_keeps_open_head_in_focal rt holding_time lowerbound
    wf n iv0 this s iv :
  (1 <= wf)%Q → (∀ u, 0 ≤ my_heuristic u) → top_is_member open_top →
  idle this →
  findSuboptimalPath_turns n rt holding_time iv0
    (startOpen holding_time lowerbound iv0
       (set_num_generated 0 (set_num_expanded 0 (set_w wf this)))) =
    Ok (s, iv) →
  open_list s ≠ [] →
  focal_complete s ∧
  ∃ s0 hd, updateFocalList s = Ok s0 ∧
    open_top (allNodes_table s) (open_list s) = Some hd ∧
    In hd (focal_list s0).
Proof.
  intros Hw Hh Htop Hidle Hturns Hopen.
  set (P := fun x : SIPP =>
         modeB_store_ok x ∧ focal_complete x ∧ 0 ≤ min_f_val x ∧ w x = wf).
  assert (P_child : ∀ iv curr nl x x',
            P x → generateChild iv curr nl rt x = Ok x' → P x').
  { intros iv1 curr nl x x' (Hs & Hf & Hm & Hwx) Hx.
    pose proof (generateChild_cases _ _ _ _ _ _ _ _ Hx) as (Ew & Em & _).
    split; [exact (generateChild_store_ok _ _ _ _ _ _ _ _ Hs Hx)|].
    split; [exact (generateChild_focal_complete _ _ _ _ _ _ Hf Hx)|].
    split; [lia|congruence]. }
  assert (P_update : ∀ x x', P x → updateFocalList x = Ok x' → P x').
  { intros x x' (Hs & Hf & Hm & Hwx) Hx.
    pose proof (updateFocalList_state _ _ _ Hx)
      as (_ & _ & Ew & _ & _ & (hd & oh & _ & _ & Em) & _).
    split; [exact (updateFocalList_store_ok _ _ _ Hs Hx)|].
    split; [exact (updateFocalList_focal_complete _ _ Hf Hx)|].
    split; [lia|congruence]. }
  assert (P_pop : ∀ x curr c x1,
            P x → popOpenFocal x = Ok (curr, c, x1) → P x1).
  { intros x curr c x1 (Hs & Hf & Hm & Hwx) Hx.
    split; [exact (popOpenFocal_store_ok _ _ _ _ _ Hs Hx)|].
    split; [exact (popOpenFocal_focal_complete _ _ _ _
                     (proj1 (proj1 (proj2 Hs))) Hf Hx)|].
    apply popOpenFocal_state in Hx as (c0 & _ & _ & _ & _ & _ & ->).
    simpl. auto. }
  assert (P0 : P (startOpen holding_time lowerbound iv0
                    (set_num_generated 0
                       (set_num_expanded 0 (set_w wf this))))).
  { split; [apply (startOpen_store_ok start_location my_heuristic
                     holding_time lowerbound iv0 (set_w wf this));
            exact Hidle|].
    destruct Hidle as (Ho & Hf & Hn). unfold startOpen.
    split; [|split; [|reflexivity]].
    - intros j x Hin _ _. simpl in *. rewrite Ho in Hin. rewrite Hf.
      exact Hin.
    - simpl. unfold getFVal. simpl. pose proof (Hh start_location). lia. }
  pose proof (findSuboptimalPath_turns_keeps getNeighbors goal_location
                my_heuristic focal_top open_top PathEntry_default P rt
                P_child P_update P_pop _ _ _ _ _ _ P0 Hturns)
    as (Hs & Hf & Hm & Hwx).
  split; [exact Hf|].
  destruct (Htop (allNodes_table s) (open_list s) Hopen) as (hd & Hhd & Hin).
  destruct (proj1 (proj2 (proj1 (proj2 Hs)) hd) Hin) as (oh & Hoh & _).
  assert (Hrun : ∃ s0, updateFocalList s = Ok s0).
  { unfold updateFocalList. rewrite Hhd, Hoh.
    destruct (min_f_val s <? getFVal oh); eauto. }
  destruct Hrun as (s0 & Hrun). exists s0, hd.
  split; [exact Hrun|]. split; [exact Hhd|].
  destruct (P_update s s0 (conj Hs (conj Hf (conj Hm Hwx))) Hrun)
    as (_ & Hf0 & Hm0 & Hw0).
  pose proof (updateFocalList_state _ _ _ Hrun)
    as (En & Eo & _ & _ & _ & (hd' & oh' & Hhd' & Hoh' & Em) & _).
  assert (hd' = hd) by congruence. subst hd'.
  assert (oh' = oh) by congruence. subst oh'.
  apply (Hf0 hd oh); [rewrite Eo; exact Hin|rewrite En; exact Hoh|].
  apply within_in_focal_bound. rewrite Hw0.
  apply within_le with (min_f_val s0); [lia|].
  apply within_self; [exact Hw|exact Hm0].
Qed.

End ModeBFocal.

(** ** The further properties on the examples *)

Lemma used_planner_idle : idle Cases.used_planner.
Proof. repeat split. Qed.

(** The table of mode A stays a set on the row with a parked agent, where
    the fourth turn overwrites a stored node in place. *)
Lemma findPath_table_keys_unique_witness :
  idle Example.idle_planner ∧
  ∃ s iv,
    Cases.rowA_after Example.late_sit Example.late_ct 4 = Ok (s, iv) ∧
    keys_unique (allNodes_table s).
Proof.
  assert (Hrun : ∃ s iv, Cases.rowA_after Example.late_sit Example.late_ct 4 =
                         Ok (s, iv))
    by (do 2 eexists; vm_compute; reflexivity).
  split; [exact idle_planner_idle|].
  destruct Hrun as (s & iv & Hrun). exists s, iv. split; [exact Hrun|].
  eapply findPath_table_keys_unique; [exact idle_planner_idle|exact Hrun].
Defined.

Lemma findPath_focal_is_open_set_witness :
  idle Example.idle_planner ∧
  ∃ s iv,
    Cases.rowA_after Example.late_sit Example.late_ct 4 = Ok (s, iv) ∧
    heap_is_open (allNodes_table s) (focal_list s).
Proof.
  assert (Hrun : ∃ s iv, Cases.rowA_after Example.late_sit Example.late_ct 4 =
                         Ok (s, iv))
    by (do 2 eexists; vm_compute; reflexivity).
  split; [exact idle_planner_idle|].
  destruct Hrun as (s & iv & Hrun). exists s, iv. split; [exact Hrun|].
  eapply findPath_focal_is_open_set; [exact idle_planner_idle|exact Hrun].
Defined.

Lemma findPath_counters_witness :
  idle Example.idle_planner ∧
  ∃ s iv,
    Cases.rowA_after Example.late_sit Example.late_ct 4 = Ok (s, iv) ∧
    num_generated s = Z.of_nat (length (allNodes_table s)) ∧
    num_expanded s = Z.of_nat 4.
Proof.
  assert (Hrun : ∃ s iv, Cases.rowA_after Example.late_sit Example.late_ct 4 =
                         Ok (s, iv))
    by (do 2 eexists; vm_compute; reflexivity).
  split; [exact idle_planner_idle|].
  destruct Hrun as (s & iv & Hrun). exists s, iv. split; [exact Hrun|].
  eapply findPath_counters; [exact idle_planner_idle|exact Hrun].
Defined.

(** The expansion of the start node on the free row. *)
Lemma expandToFocal_only_improves_witness :
  ∃ s' iv',
    expandToFocal Example.row_neighbors 1 Example.row_heuristic
      Example.free_ct (Example.table Example.free_sit Example.free_ct 1)
      0%nat (0, Example.MAX_TIMESTEP, 0)
      (Example.rowA_start Example.free_sit Example.free_ct) = Ok (s', iv') ∧
    only_improves
      (allNodes_table (Example.rowA_start Example.free_sit Example.free_ct))
      (allNodes_table s') ∧
    (∃ pushed,
       focal_list s' =
       focal_list (Example.rowA_start Example.free_sit Example.free_ct) ++
       pushed) ∧
    num_expanded s' =
    num_expanded (Example.rowA_start Example.free_sit Example.free_ct).
Proof.
  assert (Hrun : ∃ s' iv',
            expandToFocal Example.row_neighbors 1 Example.row_heuristic
              Example.free_ct
              (Example.table Example.free_sit Example.free_ct 1)
              0%nat (0, Example.MAX_TIMESTEP, 0)
              (Example.rowA_start Example.free_sit Example.free_ct) =
            Ok (s', iv'))
    by (do 2 eexists; vm_compute; reflexivity).
  destruct Hrun as (s' & iv' & Hrun). exists s', iv'. split; [exact Hrun|].
  exact (expandToFocal_only_improves _ _ _ _ _ _ _ _ _ _ Hrun).
Defined.

Lemma findSuboptimalPath_bookkeeping_witness :
  idle Example.idle_planner ∧
  ∃ s iv,
    Cases.rowB_after Example.late_sit Example.late_ct 3 = Ok (s, iv) ∧
    modeB_store_ok s.
Proof.
  assert (Hrun : ∃ s iv, Cases.rowB_after Example.late_sit Example.late_ct 3 =
                         Ok (s, iv))
    by (do 2 eexists; vm_compute; reflexivity).
  split; [exact idle_planner_idle|].
  destruct Hrun as (s & iv & Hrun). exists s, iv. split; [exact Hrun|].
  eapply findSuboptimalPath_bookkeeping; [exact idle_planner_idle|exact Hrun].
Defined.

(** updateFocalList at the start of a search with the lower bound 0. *)
Lemma updateFocalList_idempotent_witness :
  ∃ s',
    updateFocalList Example.open_first
      (Example.rowB_start Example.free_sit Example.free_ct 0 0 1%Q) = Ok s' ∧
    updateFocalList Example.open_first s' = Ok s'.
Proof.
  assert (Hrun : ∃ s',
            updateFocalList Example.open_first
              (Example.rowB_start Example.free_sit Example.free_ct 0 0 1%Q) =
            Ok s')
    by (eexists; vm_compute; reflexivity).
  destruct Hrun as (s' & Hrun). exists s'. split; [exact Hrun|].
  exact (updateFocalList_idempotent _ _ _ Hrun).
Defined.

(** The expansion of the start node on the free row in mode B. *)
Lemma generateChild_expansion_only_improves_witness :
  ∃ s1 s' iv',
    moveChildren 1 Example.row_heuristic
      (Example.table Example.free_sit Example.free_ct 1) 0%nat
      (Example.row_neighbors 0)
      (Example.rowB_start Example.free_sit Example.free_ct 0 0 1%Q) = Ok s1 ∧
    waitChild 1 Example.row_heuristic
      (Example.table Example.free_sit Example.free_ct 1) 0%nat
      (0, Example.MAX_TIMESTEP, 0) s1 = Ok (s', iv') ∧
    only_improves
      (allNodes_table
         (Example.rowB_start Example.free_sit Example.free_ct 0 0 1%Q))
      (allNodes_table s') ∧
    min_f_val s' =
    min_f_val (Example.rowB_start Example.free_sit Example.free_ct 0 0 1%Q).
Proof.
  let r := eval vm_compute in
      (moveChildren 1 Example.row_heuristic
         (Example.table Example.free_sit Example.free_ct 1) 0%nat
         (Example.row_neighbors 0)
         (Example.rowB_start Example.free_sit Example.free_ct 0 0 1%Q)) in
  lazymatch r with
  | Ok ?s1 =>
    assert (Hrun : moveChildren 1 Example.row_heuristic
                     (Example.table Example.free_sit Example.free_ct 1) 0%nat
                     (Example.row_neighbors 0)
                     (Example.rowB_start Example.free_sit Example.free_ct 0 0
                        1%Q) = Ok s1)
      by (vm_compute; reflexivity);
    let r2 := eval vm_compute in
        (waitChild 1 Example.row_heuristic
           (Example.table Example.free_sit Example.free_ct 1) 0%nat
           (0, Example.MAX_TIMESTEP, 0) s1) in
    lazymatch r2 with
    | Ok (?s', ?iv') =>
      assert (Hwait : waitChild 1 Example.row_heuristic
                        (Example.table Example.free_sit Example.free_ct 1)
                        0%nat (0, Example.MAX_TIMESTEP, 0) s1 = Ok (s', iv'))
        by (vm_compute; reflexivity);
      exists s1, s', iv'
    end
  end.
  split; [exact Hrun|]. split; [exact Hwait|].
  destruct (generateChild_expansion_only_improves _ _ _ _ _ _ _ _ _ _ Hrun
              Hwait) as (Himp & _ & _ & _ & Hm & _).
  split; [exact Himp|exact Hm].
Defined.

(** The bound 2 that comes with the path 0, 2, 1 on the free row. *)
Lemma findSuboptimalPath_min_f_val_lower_witness :
  ∃ s',
    Example.rowB_findSuboptimalPath Example.free_sit 0 50 tt Example.free_ct
      tt 7 0 (3 # 2) Example.idle_planner = Ok ([0; 2; 1], 2, s') ∧
    0 ≤ 2 ∧ Example.rowA_holding Example.free_ct ≤ 2 ∧
    Example.row_heuristic 0 ≤ 2.
Proof.
  assert (Hrun : ∃ s', Example.rowB_findSuboptimalPath Example.free_sit 0 50
                         tt Example.free_ct tt 7 0 (3 # 2)
                         Example.idle_planner = Ok ([0; 2; 1], 2, s'))
    by (eexists; vm_compute; reflexivity).
  destruct Hrun as (s' & Hrun). exists s'. split; [exact Hrun|].
  exact (findSuboptimalPath_min_f_val_lower Example.row_neighbors 0 1
           Example.row_heuristic (Example.table Example.free_sit) unit unit
           (fun ct _ _ => ct) (fun ct _ _ => ct) Example.focal_first
           Example.open_first (-1) 50 tt Example.free_ct tt 7 0 (3 # 2)
           Example.idle_planner [0; 2; 1] 2 s' Hrun).
Defined.

Lemma searches_leave_planner_idle_witness :
  idle Cases.used_planner ∧
  (∃ s', Example.rowA_findPath Example.free_sit 50 Example.free_ct
           Cases.used_planner = Ok ([0; 2; 1], s') ∧ idle s') ∧
  (∃ s', Example.rowB_findSuboptimalPath Example.free_sit 0 50 tt
           Example.free_ct tt 7 0 1%Q Cases.used_planner =
         Ok ([0; 2; 1], 2, s') ∧ idle s' ∧ w s' = 1%Q).
Proof.
  assert (HA : ∃ s', Example.rowA_findPath Example.free_sit 50
                       Example.free_ct Cases.used_planner =
                     Ok ([0; 2; 1], s'))
    by (eexists; vm_compute; reflexivity).
  assert (HB : ∃ s', Example.rowB_findSuboptimalPath Example.free_sit 0 50
                       tt Example.free_ct tt 7 0 1%Q Cases.used_planner =
                     Ok ([0; 2; 1], 2, s'))
    by (eexists; vm_compute; reflexivity).
  destruct HA as (sA & HA). destruct HB as (sB & HB).
  destruct (searches_leave_planner_idle Example.row_neighbors 0 1
              Example.row_heuristic (Example.table Example.free_sit) unit
              unit (fun ct _ _ => ct) (fun ct _ _ => ct) Example.focal_first
              Example.open_first (-1) Cases.used_planner used_planner_idle)
    as [KA KB].
  split; [exact used_planner_idle|]. split.
  - exists sA. split; [exact HA|]. exact (KA _ _ _ _ HA).
  - exists sB. split; [exact HB|]. exact (KB _ _ _ _ _ _ _ _ _ _ HB).
Defined.

(** On the planner with one closed node, whose f = 2 is within the bound
    1 * 3: FOCAL receives the node, has it on top, and popNode returns it. *)
Lemma pushNode_popNode_round_trip_witness :
  ∃ s1,
    pushNode 0%nat Cases.one_closed = Ok s1 ∧
    open_list s1 = [0%nat] ∧ In 0%nat (focal_list s1) ∧
    Example.focal_first (allNodes_table s1) (focal_list s1) = Some 0%nat ∧
    popNode Example.focal_first s1 =
      Ok (0%nat, mkSIPPNode 2 1 1 None 1 (0, 1000, 0) 0 false false false,
          set_num_expanded (num_expanded Cases.one_closed + 1)
            (set_num_generated (num_generated Cases.one_closed + 1)
               Cases.one_closed)).
Proof.
  destruct (pushNode_popNode_round_trip Example.focal_first 0%nat
              (mkSIPPNode 2 1 1 None 1 (0, 1000, 0) 0 false false false)
              Cases.one_closed eq_refl eq_refl (fun H : False => H)
              (fun H : False => H)) as (s1 & Hpush & Hopen & Hin & _).
  assert (Es : s1 = mkSIPP 1 3 0 1 [0%nat] [0%nat]
                 [mkSIPPNode 2 1 1 None 1 (0, 1000, 0) 0 true false false]).
  { vm_compute in Hpush. injection Hpush as <-. reflexivity. }
  exists s1. split; [exact Hpush|]. split; [exact Hopen|].
  assert (Hmem : In 0%nat (focal_list s1))
    by (rewrite Es; left; reflexivity).
  split; [exact Hmem|].
  assert (Htop : Example.focal_first (allNodes_table s1) (focal_list s1) =
                 Some 0%nat) by (rewrite Es; reflexivity).
  split; [exact Htop|]. exact (proj2 (Hin Hmem) Htop).
Defined.

(** The same searches on an idle planner and on a planner that an earlier
    search has used. *)
Lemma searches_ignore_planner_history_witness :
  idle Example.idle_planner ∧ idle Cases.used_planner ∧
  (∃ s1 s2,
     Example.rowA_findPath Example.free_sit 50 Example.free_ct
       Example.idle_planner = Ok ([0; 2; 1], s1) ∧
     Example.rowA_findPath Example.free_sit 50 Example.free_ct
       Cases.used_planner = Ok ([0; 2; 1], s2) ∧
     num_expanded s2 = num_expanded s1 ∧
     num_generated s2 = num_generated s1).
Proof.
  assert (HA : ∃ s1, Example.rowA_findPath Example.free_sit 50
                       Example.free_ct Example.idle_planner =
                     Ok ([0; 2; 1], s1))
    by (eexists; vm_compute; reflexivity).
  destruct HA as (s1 & HA).
  destruct (searches_ignore_planner_history Example.row_neighbors 0 1
              Example.row_heuristic (Example.table Example.free_sit) unit
              unit (fun ct _ _ => ct) (fun ct _ _ => ct) Example.focal_first
              Example.open_first (-1) Example.idle_planner
              Cases.used_planner idle_planner_idle used_planner_idle)
    as [KA _].
  destruct (KA _ _ _ _ HA) as (s2 & H2 & He & Hg).
  split; [exact idle_planner_idle|]. split; [exact used_planner_idle|].
  exists s1, s2. auto.
Defined.

Lemma getTravelTime_same_cell_witness :
  top_is_member Example.open_first ∧ idle Cases.used_planner ∧
  Cases.row_getTravelTime Cases.cell2_at_1 3 1%nat 0 0 Example.free_ct 0
    Cases.used_planner = Ok (0, Cases.used_planner).
Proof.
  split; [exact open_first_member|]. split; [exact used_planner_idle|].
  exact (getTravelTime_same_cell Example.row_neighbors Cases.row_distance
           Cases.cell2_at_1 Cases.no_edge (Cases.static_from 3)
           Example.MAX_TIMESTEP Example.open_first 0%nat 0 Example.free_ct 0
           Cases.used_planner open_first_member used_planner_idle).
Defined.

(** From cell 0 to cell 1 of the row when cell 2 is taken at time 1: the
    agent waits once, and the travel time is 3. *)
Lemma getTravelTime_below_upper_bound_witness :
  idle Example.idle_planner ∧
  (∃ s', Cases.row_getTravelTime Cases.cell2_at_1 3 50%nat 0 1
           Example.free_ct 10 Example.idle_planner = Ok (3, s')) ∧
  (3 = Example.MAX_TIMESTEP ∨ (0 = 1 ∧ 3 = 0) ∨
   (1 ≤ 3 ∧ 3 + Cases.row_distance 1 1 < 10)).
Proof.
  assert (Hrun : ∃ s', Cases.row_getTravelTime Cases.cell2_at_1 3 50%nat 0 1
                         Example.free_ct 10 Example.idle_planner =
                       Ok (3, s'))
    by (eexists; vm_compute; reflexivity).
  split; [exact idle_planner_idle|]. split; [exact Hrun|].
  destruct Hrun as (s' & Hrun).
  exact (getTravelTime_below_upper_bound Example.row_neighbors
           Cases.row_distance Cases.cell2_at_1 Cases.no_edge
           (Cases.static_from 3) Example.MAX_TIMESTEP Example.open_first
           50%nat 0 1 Example.free_ct 10 Example.idle_planner 3 s'
           idle_planner_idle Hrun).
Defined.

Lemma row_distance_edge :
  ∀ u v, In v (Example.row_neighbors u) →
    Cases.row_distance 0 v ≤ Cases.row_distance 0 u + 1.
Proof.
  intros u v. unfold Example.row_neighbors, Cases.row_distance,
    Example.row_heuristic.
  destruct (u =? 0) eqn:E0; [intros [<-|[]]; simpl; lia|].
  destruct (u =? 2) eqn:E2; [intros [<-|[<-|[]]]; simpl; lia|].
  destruct (u =? 1) eqn:E1; [intros [<-|[]]; simpl; lia|].
  intros [].
Qed.

Lemma getTravelTime_at_least_distance_witness :
  Cases.row_distance 0 0 ≤ 0 ∧ idle Example.idle_planner ∧
  (∃ s', Cases.row_getTravelTime Cases.cell2_at_1 3 50%nat 0 1
           Example.free_ct 10 Example.idle_planner = Ok (3, s')) ∧
  (3 = Example.MAX_TIMESTEP ∨ Cases.row_distance 0 1 ≤ 3).
Proof.
  assert (Hrun : ∃ s', Cases.row_getTravelTime Cases.cell2_at_1 3 50%nat 0 1
                         Example.free_ct 10 Example.idle_planner =
                       Ok (3, s'))
    by (eexists; vm_compute; reflexivity).
  assert (H0 : Cases.row_distance 0 0 ≤ 0) by (vm_compute; discriminate).
  split; [exact H0|]. split; [exact idle_planner_idle|].
  split; [exact Hrun|]. destruct Hrun as (s' & Hrun).
  exact (getTravelTime_at_least_distance Example.row_neighbors
           Cases.row_distance Cases.cell2_at_1 Cases.no_edge
           (Cases.static_from 3) Example.MAX_TIMESTEP Example.open_first
           (Cases.row_distance 0) 50%nat 0 1 Example.free_ct 10
           Example.idle_planner 3 s' H0 row_distance_edge idle_planner_idle
           Hrun).
Defined.

Lemma getTravelTime_search_space_witness :
  idle Example.idle_planner ∧
  ∃ s,
    Cases.row_travel_after Cases.cell2_at_1 3 1 10 3 = Ok s ∧
    keys_unique (allNodes_table s) ∧
    (∀ i node, allNodes_table s !! i = Some node →
       travel_node_ok Cases.row_distance 0 1 10 3 node).
Proof.
  assert (Hrun : ∃ s, Cases.row_travel_after Cases.cell2_at_1 3 1 10 3 = Ok s)
    by (eexists; vm_compute; reflexivity).
  split; [exact idle_planner_idle|].
  destruct Hrun as (s & Hrun). exists s. split; [exact Hrun|].
  exact (getTravelTime_search_space Example.row_neighbors Cases.row_distance
           Cases.cell2_at_1 Cases.no_edge Example.open_first 3
           Example.free_ct 0 1 10 3 Example.idle_planner s idle_planner_idle
           Hrun).
Defined.

(** The levels of the store of three nodes: timestep 2 has no node. *)
Lemma searchTree_levels_by_timestep_witness :
  ∃ levels,
    searchTree_levels Cases.chain [] = Ok levels ∧ length levels = 4%nat ∧
    (∀ n, In n Cases.chain → 0 ≤ timestep n < Z.of_nat (length levels)) ∧
    (∀ t, (t < length levels)%nat →
       levels !! t = Some (at_timestep t Cases.chain)) ∧
    (levels ≠ [] → at_timestep (length levels - 1) Cases.chain ≠ []).
Proof.
  assert (Hrun : ∃ levels, searchTree_levels Cases.chain [] = Ok levels ∧
                           length levels = 4%nat)
    by (eexists; split; vm_compute; reflexivity).
  destruct Hrun as (levels & Hrun & Hlen). exists levels.
  split; [exact Hrun|]. split; [exact Hlen|].
  exact (searchTree_levels_by_timestep Cases.chain levels Hrun).
Defined.

(** The path of mode B on the row with a parked agent and a least length
    of 3: the agent waits for cell 2 to be free and arrives at time 10. *)
Lemma findSuboptimalPath_path_is_valid_witness :
  idle Example.idle_planner ∧
  (∃ s', Example.rowB_findSuboptimalPath Example.late_sit 0 50 tt
           Example.late_ct tt 7 0 1%Q Example.idle_planner =
         Ok ([0; 0; 0; 0; 2; 2; 2; 2; 2; 2; 1], 10, s')) ∧
  Example.rowA_holding Example.late_ct ≤
    cost [0; 0; 0; 0; 2; 2; 2; 2; 2; 2; 1] ∧
  [0; 0; 0; 0; 2; 2; 2; 2; 2; 2; 1] !! 0%nat = Some 0 ∧
  [0; 0; 0; 0; 2; 2; 2; 2; 2; 2; 1] !!
    (length [0; 0; 0; 0; 2; 2; 2; 2; 2; 2; 1] - 1)%nat = Some 1 ∧
  ∀ (k : nat) a b,
    [0; 0; 0; 0; 2; 2; 2; 2; 2; 2; 1] !! k = Some a →
    [0; 0; 0; 0; 2; 2; 2; 2; 2; 2; 1] !! S k = Some b →
    step_ok Example.row_neighbors a b.
Proof.
  assert (Hrun : ∃ s', Example.rowB_findSuboptimalPath Example.late_sit 0 50
                         tt Example.late_ct tt 7 0 1%Q Example.idle_planner =
                       Ok ([0; 0; 0; 0; 2; 2; 2; 2; 2; 2; 1], 10, s'))
    by (eexists; vm_compute; reflexivity).
  split; [exact idle_planner_idle|]. split; [exact Hrun|].
  destruct Hrun as (s' & Hrun).
  exact (findSuboptimalPath_path_is_valid Example.row_neighbors 0 1
           Example.row_heuristic (Example.table Example.late_sit) unit unit
           (fun ct _ _ => ct) (fun ct _ _ => ct) Example.focal_first
           Example.open_first (-1) 50 tt Example.late_ct tt 7 0 1%Q
           Example.idle_planner [0; 0; 0; 0; 2; 2; 2; 2; 2; 2; 1] 10 s'
           idle_planner_idle Hrun ltac:(discriminate)).
Defined.

Lemma row_heuristic_nonneg : ∀ u, 0 ≤ Example.row_heuristic u.
Proof.
  intros u. unfold Example.row_heuristic.
  destruct (u =? 0); [lia|]. destruct (u =? 2); lia.
Qed.

(** Mode B on the row where a path may have length 4 at most. *)
Lemma findSuboptimalPath_within_length_max_witness :
  idle Example.idle_planner ∧
  (∃ s', Example.rowB_findSuboptimalPath Example.short_sit 0 50 tt
           Example.short_ct tt 7 0 1%Q Example.idle_planner =
         Ok ([0; 2; 1], 2, s')) ∧
  cost [0; 2; 1] ≤
  Z.max 0 (length_max
             (constraint_table
                (Example.table Example.short_sit Example.short_ct 1))).
Proof.
  assert (Hrun : ∃ s', Example.rowB_findSuboptimalPath Example.short_sit 0 50
                         tt Example.short_ct tt 7 0 1%Q
                         Example.idle_planner = Ok ([0; 2; 1], 2, s'))
    by (eexists; vm_compute; reflexivity).
  split; [exact idle_planner_idle|]. split; [exact Hrun|].
  destruct Hrun as (s' & Hrun).
  exact (findSuboptimalPath_within_length_max Example.row_neighbors 0 1
           Example.row_heuristic (Example.table Example.short_sit) unit unit
           (fun ct _ _ => ct) (fun ct _ _ => ct) Example.focal_first
           Example.open_first (-1) row_heuristic_nonneg 50 tt
           Example.short_ct tt 7 0 1%Q Example.idle_planner [0; 2; 1] 2 s'
           idle_planner_idle Hrun).
Defined.

(** The travel time 3 from cell 0 to cell 1 when cell 2 is taken at time 1
    is that of a walk that the constraints allow. *)
Lemma getTravelTime_length_is_travelled_witness :
  idle Example.idle_planner ∧
  (∃ s', Cases.row_getTravelTime Cases.cell2_at_1 3 50%nat 0 1
           Example.free_ct 10 Example.idle_planner = Ok (3, s')) ∧
  (3 = Example.MAX_TIMESTEP ∨
   travels Example.row_neighbors Cases.cell2_at_1 Cases.no_edge
     Example.free_ct (Cases.static_from 3 Example.free_ct) 0 1 3).
Proof.
  assert (Hrun : ∃ s', Cases.row_getTravelTime Cases.cell2_at_1 3 50%nat 0 1
                         Example.free_ct 10 Example.idle_planner =
                       Ok (3, s'))
    by (eexists; vm_compute; reflexivity).
  split; [exact idle_planner_idle|]. split; [exact Hrun|].
  destruct Hrun as (s' & Hrun).
  exact (getTravelTime_length_is_travelled Example.row_neighbors
           Cases.row_distance Cases.cell2_at_1 Cases.no_edge
           (Cases.static_from 3) Example.MAX_TIMESTEP Example.open_first
           50%nat 0 1 Example.free_ct 10 Example.idle_planner 3 s'
           idle_planner_idle Hrun).
Defined.

(** FOCAL after two turns of mode B on the row with a parked agent, with
    w = 3/2. *)
Lemma updateFocalList_keeps_open_head_in_focal_witness :
  (1 <= 3 # 2)%Q ∧ top_is_member Example.open_first ∧
  idle Example.idle_planner ∧
  ∃ s iv,
    Example.rowB_turns Example.late_sit Example.late_ct 0 (3 # 2) 2 =
      Ok (s, iv) ∧
    open_list s ≠ [] ∧ focal_complete s ∧
    ∃ s0 hd,
      updateFocalList Example.open_first s = Ok s0 ∧
      Example.open_first (allNodes_table s) (open_list s) = Some hd ∧
      In hd (focal_list s0).
Proof.
  assert (Hw : (1 <= 3 # 2)%Q) by discriminate.
  split; [exact Hw|]. split; [exact open_first_member|].
  split; [exact idle_planner_idle|].
  let r := eval vm_compute in
      (Example.rowB_turns Example.late_sit Example.late_ct 0 (3 # 2) 2) in
  lazymatch r with
  | Ok (?s, ?iv) =>
    assert (Hrun : Example.rowB_turns Example.late_sit Example.late_ct 0
                     (3 # 2) 2 = Ok (s, iv))
      by (vm_compute; reflexivity);
    assert (Hopen : open_list s ≠ []) by discriminate;
    exists s, iv
  end.
  split; [exact Hrun|]. split; [exact Hopen|].
  exact (updateFocalList_keeps_open_head_in_focal Example.row_neighbors 0 1
           Example.row_heuristic Example.focal_first Example.open_first (-1)
           _ _ 0 (3 # 2) 2%nat _ Example.idle_planner _ _ Hw
           row_heuristic_nonneg open_first_member idle_planner_idle Hrun
           Hopen).
Defined.

Lemma row_consistent :
  ∀ u v, In v (Example.row_neighbors u) →
    Example.row_heuristic u ≤ Example.row_heuristic v + 1.
Proof.
  intros u v. unfold Example.row_neighbors, Example.row_heuristic.
  destruct (u =? 0) eqn:E0; [intros [<-|[]]; simpl; lia|].
  destruct (u =? 2) eqn:E2; [intros [<-|[<-|[]]]; simpl; lia|].
  destruct (u =? 1) eqn:E1; [intros [<-|[]]; simpl; lia|].
  intros [].
Qed.

(** Mode B on the row with a parked agent, after two turns. *)
Lemma generateChild_never_raises_f_witness :
  (∀ u v, In v (Example.row_neighbors u) →
     Example.row_heuristic u ≤ Example.row_heuristic v + 1) ∧
  idle Example.idle_planner ∧
  ∃ s iv,
    Cases.rowB_after Example.late_sit Example.late_ct 2 = Ok (s, iv) ∧
    (∀ i node, allNodes_table s !! i = Some node →
       getFVal node =
         Z.max (timestep node + Example.row_heuristic (location node))
           (Z.max (Example.row_heuristic 0) 3)) ∧
    ∀ s' iv',
      Example.rowB_turn Example.late_sit Example.late_ct iv s =
        Ok (Continue s' iv') →
      ∀ i node, allNodes_table s !! i = Some node →
        ∃ node', allNodes_table s' !! i = Some node' ∧
          getFVal node' ≤ getFVal node.
Proof.
  split; [exact row_consistent|]. split; [exact idle_planner_idle|].
  assert (Hrun : ∃ s iv, Cases.rowB_after Example.late_sit Example.late_ct 2 =
                         Ok (s, iv)) by (eexists; eexists; vm_compute;
                                         reflexivity).
  destruct Hrun as (s & iv & Hrun). exists s, iv. split; [exact Hrun|].
  exact (generateChild_never_raises_f Example.row_neighbors 0 1
           Example.row_heuristic Example.focal_first Example.open_first
           (-1) (Example.table Example.late_sit Example.late_ct 1) 3 0
           2%nat
           (get_first_safe_interval
              (Example.table Example.late_sit Example.late_ct 1) 0)
           Example.idle_planner s iv row_consistent idle_planner_idle Hrun).
Defined.
